(** * Minimum spanning trees over MPI: a shallow embedding of [mst-solution.c]

    The C program computes a minimum spanning tree with four algorithms
    (sequential and parallel Kruskal, sequential and parallel Prim).  The
    first half of this file translates the C functions one by one; the second
    half states and proves properties of them.

    Conventions.
    - A C [int] is a [Z]; where the program computes on data values
      (the subtractions of [cmp_edges]) the 32-bit wrap-around is written
      out with [wrap].  Loop counters and array indices are plain [Z]: they
      stay inside the [int] range as soon as [N * N] does, which the
      indexing [adj[i*N+j]] of the program needs anyway.
    - A C array is a [list]; reading or writing outside of it is undefined
      behaviour in C and is [None] here ([rd], [wr]).
    - A function that may read or write out of range returns an [option].
    - A loop [for (k = 0; k < n; ++k)] is a recursion on [seq]/[iota]; a
      [while] loop whose exit depends on data takes fuel, and the fuel given
      by its caller is proved sufficient where a claim needs a result. *)

From Stdlib Require Export String Ascii DecimalString.
From Stdlib Require Export ZArith List Lia Bool Permutation Sorted FinFun.
Export ListNotations.
Open Scope Z_scope.

(** ** Machine integers *)

Definition INT_MAX : Z := 2147483647.
Definition INT_MIN : Z := -2147483648.

(** Reduction of a mathematical integer to the 32-bit two's complement
    range, the result of signed arithmetic on the machines the program
    targets. *)
Definition wrap (z : Z) : Z := (z + 2147483648) mod 4294967296 - 2147483648.

Definition int_sub (a b : Z) : Z := wrap (a - b).

Definition in_int (z : Z) : Prop := INT_MIN <= z <= INT_MAX.

(** ** Arrays *)

Definition rd {A} (l : list A) (k : Z) : option A :=
  if k <? 0 then None else nth_error l (Z.to_nat k).

Fixpoint upd {A} (l : list A) (n : nat) (x : A) : list A :=
  match l, n with
  | [], _ => []
  | _ :: t, O => x :: t
  | h :: t, S n' => h :: upd t n' x
  end.

Definition wr {A} (l : list A) (k : Z) (x : A) : option (list A) :=
  if (0 <=? k) && (k <? Z.of_nat (length l)) then Some (upd l (Z.to_nat k) x)
  else None.

(** [iota n] is the list of the values of a counter [k] in
    [for (k = 0; k < n; ++k)]. *)
Definition iota (n : Z) : list Z := map Z.of_nat (seq 0 (Z.to_nat n)).

(** [range a b] is [a, a+1, ..., b-1]. *)
Definition range (a b : Z) : list Z := map (fun k => a + k) (iota (b - a)).

Notation "'do' x <- c ; k" := (match c with Some x => k | None => None end)
  (at level 10, x pattern, c at level 100, k at level 200).

(** ** Edges (lines 9-42) *)

Record Edge : Type := mkEdge { edge_i : Z; edge_j : Z; edge_w : Z }.

(** [calloc] fills a buffer of edges with this value. *)
Definition zero_edge : Edge := mkEdge 0 0 0.

(** [init_edge]: the smaller endpoint first. *)
Definition init_edge (i j w : Z) : Edge :=
  mkEdge (if i <? j then i else j) (if j >? i then j else i) w.

(** The adjacency matrix is a flat row-major array of [int]. *)
Definition Adj := list Z.

(** [create_edges] (lines 21-32): the inner loop over [j], the outer loop
    over [i]; the state is the buffer and [numEdge]. *)
Fixpoint create_edges_row (N : Z) (adj : Adj) (i : Z) (js : list Z)
  (st : list Edge * Z) : option (list Edge * Z) :=
  match js with
  | [] => Some st
  | j :: js' =>
      do a <- rd adj (i * N + j);
      if negb (a =? 0) then
        do edges' <- wr (fst st) (snd st) (init_edge i j a);
        create_edges_row N adj i js' (edges', snd st + 1)
      else create_edges_row N adj i js' st
  end.

Fixpoint create_edges_rows (N : Z) (adj : Adj) (rows : list Z)
  (st : list Edge * Z) : option (list Edge * Z) :=
  match rows with
  | [] => Some st
  | i :: rows' =>
      do st' <- create_edges_row N adj i (range i N) st;
      create_edges_rows N adj rows' st'
  end.

Definition create_edges (N : Z) (adj : Adj) (edges : list Edge)
  : option (list Edge * Z) :=
  create_edges_rows N adj (iota N) (edges, 0).

(** [cmp_edges] (lines 34-42).  The three subtractions are 32-bit. *)
Definition cmp_edges (a b : Edge) : Z :=
  if negb (edge_w a =? edge_w b) then int_sub (edge_w a) (edge_w b)
  else if negb (edge_i a =? edge_i b) then int_sub (edge_i a) (edge_i b)
  else int_sub (edge_j a) (edge_j b).

(** The order the specification describes: weight, then [i], then [j]. *)
Definition edge_lt (a b : Edge) : Prop :=
  edge_w a < edge_w b
  \/ (edge_w a = edge_w b /\ edge_i a < edge_i b)
  \/ (edge_w a = edge_w b /\ edge_i a = edge_i b /\ edge_j a < edge_j b).

(** An edge of the data model: a weight that is a non-negative [int] and
    two vertex ids below [N]. *)
Definition valid_edge (N : Z) (e : Edge) : Prop :=
  0 <= edge_w e <= INT_MAX /\ 0 <= edge_i e < N /\ 0 <= edge_j e < N.

Definition strict_total_order_on {A} (P : A -> Prop) (R : A -> A -> Prop) : Prop :=
  (forall a, P a -> ~ R a a)
  /\ (forall a b c, P a -> P b -> P c -> R a b -> R b c -> R a c)
  /\ (forall a b, P a -> P b -> R a b \/ a = b \/ R b a).

(** ** Message passing

    The processes of [MPI_COMM_WORLD] exchange messages point to point.  The
    network is the list of the messages that were sent and not yet received,
    in sending order.  [MPI_Recv] from a given source and tag takes the
    oldest matching message (MPI's non-overtaking rule); it blocks when there
    is none, which is [None] here.  A message longer than the receive count
    is an MPI error, [None] as well. *)

Record Message : Type :=
  mkMsg { msg_src : Z; msg_dst : Z; msg_tag : Z; msg_data : list Z }.

Definition Net := list Message.

Definition MPI_Send (self : Z) (data : list Z) (dest tag : Z) (net : Net) : Net :=
  net ++ [mkMsg self dest tag data].

Definition msg_matches (self source tag : Z) (m : Message) : bool :=
  (msg_src m =? source) && (msg_dst m =? self) && (msg_tag m =? tag).

Fixpoint MPI_Recv (self count source tag : Z) (net : Net) : option (list Z * Net) :=
  match net with
  | [] => None
  | m :: net' =>
      if msg_matches self source tag m then
        if Z.of_nat (length (msg_data m)) <=? count then Some (msg_data m, net')
        else None
      else
        do r <- MPI_Recv self count source tag net';
        Some (fst r, m :: snd r)
  end.

(** [calloc(n, sizeof(int))] *)
Definition calloc_int (n : Z) : list Z := repeat 0 (Z.to_nat n).

(** [calloc(n, sizeof(Edge))] *)
Definition calloc_edges (n : Z) : list Edge := repeat zero_edge (Z.to_nat n).

(** The received ints overwrite the start of the receive buffer. *)
Definition overlay {A} (data buf : list A) : list A :=
  data ++ skipn (length data) buf.

(** ** The edge wire codec (lines 207-219 and 284-295) *)

(** The loop of [send_edges_to], over the values [ks] of [i]. *)
Fixpoint send_edges_fill (edges : list Edge) (ks : list Z) (buf : list Z)
  : option (list Z) :=
  match ks with
  | [] => Some buf
  | i :: ks' =>
      do e <- rd edges i;
      do b1 <- wr buf (i * 3 + 0) (edge_i e);
      do b2 <- wr b1 (i * 3 + 1) (edge_j e);
      do b3 <- wr b2 (i * 3 + 2) (edge_w e);
      send_edges_fill edges ks' b3
  end.

Definition send_edges_to (self target : Z) (edges : list Edge) (nbEdges : Z)
  (net : Net) : option Net :=
  do buf <- send_edges_fill edges (iota nbEdges) (calloc_int (nbEdges * 3));
  let net1 := MPI_Send self [nbEdges] target 0 net in
  Some (MPI_Send self buf target 0 net1).

(** The loop of [receive_edges_from]. *)
Fixpoint receive_edges_fill (buffer : list Z) (ks : list Z) (edges : list Edge)
  : option (list Edge) :=
  match ks with
  | [] => Some edges
  | i :: ks' =>
      do x0 <- rd buffer (i * 3 + 0);
      do x1 <- rd buffer (i * 3 + 1);
      do x2 <- rd buffer (i * 3 + 2);
      do edges' <- wr edges i (mkEdge x0 x1 x2);
      receive_edges_fill buffer ks' edges'
  end.

(** Returns the buffer [edges] as written, [nbEdges], and the network. *)
Definition receive_edges_from (self stepSize targetRank : Z) (edges : list Edge)
  (net : Net) : option (list Edge * Z * Net) :=
  do r1 <- MPI_Recv self 1 targetRank 0 net;
  match fst r1 with
  | [nbEdges] =>
      do r2 <- MPI_Recv self (nbEdges * 3) targetRank 0 (snd r1);
      let buffer := overlay (fst r2) (calloc_int (nbEdges * 3)) in
      do edges' <- receive_edges_fill buffer (iota nbEdges) edges;
      Some (edges', nbEdges, snd r2)
  | _ => None
  end.

(** ** The dispatcher [computeMST] (lines 70-112)

    What one process does is a list of events.  [MPI_Abort] ends the
    process (and the group): nothing follows it. *)

Inductive Algo : Type := Prim_seq | Kruskal_seq | Prim_par | Kruskal_par.

Inductive Event : Type :=
| Printf (line : string)
| Abort
| Call (a : Algo)
| Print_tree.

Fixpoint until_abort (evs : list Event) : list Event :=
  match evs with
  | [] => []
  | Abort :: _ => [Abort]
  | e :: evs' => e :: until_abort evs'
  end.

Definition newline : string := String (ascii_of_nat 10) EmptyString.

(** [printf("%d", n)] *)
Definition print_int (n : Z) : string := NilZero.string_of_int (Z.to_int n).

Definition seq_error (numProcs : Z) : string :=
  ("ERROR: Sequential algorithm is ran with " ++ print_int numProcs
   ++ " MPI processes." ++ newline)%string.

Definition name_error (algoName : string) : string :=
  ("ERROR: Invalid algorithm name: " ++ algoName ++ "." ++ newline)%string.

Definition computeMST (procRank numProcs : Z) (algoName : string) : list Event :=
  until_abort (
    (if String.eqb algoName "prim-seq" then
       (if procRank =? 0 then
          if negb (numProcs =? 1) then [Printf (seq_error numProcs); Abort] else []
        else [])
       ++ [Call Prim_seq]
     else if String.eqb algoName "kruskal-seq" then
       (if procRank =? 0 then
          if negb (numProcs =? 1) then [Printf (seq_error numProcs); Abort] else []
        else [])
       ++ [Call Kruskal_seq]
     else if String.eqb algoName "prim-par" then [Call Prim_par]
     else if String.eqb algoName "kruskal-par" then [Call Kruskal_par]
     else
       (if procRank =? 0 then [Printf (name_error algoName); Abort] else []))
    ++ (if procRank =? 0 then [Print_tree] else [])).

Definition is_diagnostic (e : Event) : Prop :=
  match e with Printf _ => True | _ => False end.

Definition selected (algoName : string) : option Algo :=
  if String.eqb algoName "prim-seq" then Some Prim_seq
  else if String.eqb algoName "kruskal-seq" then Some Kruskal_seq
  else if String.eqb algoName "prim-par" then Some Prim_par
  else if String.eqb algoName "kruskal-par" then Some Kruskal_par
  else None.

Definition sequential_name (algoName : string) : Prop :=
  algoName = "prim-seq"%string \/ algoName = "kruskal-seq"%string.

Definition known_name (algoName : string) : Prop :=
  algoName = "prim-seq"%string \/ algoName = "kruskal-seq"%string
  \/ algoName = "prim-par"%string \/ algoName = "kruskal-par"%string.

(** A string that is one line: a newline at the end and nowhere else. *)
Definition single_line (s : string) : Prop :=
  exists body, s = (body ++ newline)%string
    /\ forall c, In c (list_ascii_of_string body) -> c <> ascii_of_nat 10.

(** The wire image of an edge list: [[i, j, w, i, j, w, ...]]. *)
Definition wire_of_edges (es : list Edge) : list Z :=
  flat_map (fun e => [edge_i e; edge_j e; edge_w e]) es.

Definition no_pending (source dest : Z) (net : Net) : Prop :=
  forall m, In m net -> msg_src m = source -> msg_dst m = dest -> False.

(** ** Disjoint sets (lines 120-166) *)

Record Node : Type := mkNode { node_father : Z; node_rank : Z }.

(** [create_nodes]: every vertex is its own father, with rank 1. *)
Definition create_nodes (N : Z) : list Node :=
  map (fun node => mkNode node 1) (iota N).

(** [find] (lines 134-139) is recursive along the chain of fathers; [fuel]
    bounds the depth.  It returns the array with the path compressed and
    the root. *)
Fixpoint find (fuel : nat) (nodes : list Node) (node : Z) : option (list Node * Z) :=
  match fuel with
  | O => None
  | S fuel' =>
      do nd <- rd nodes node;
      if negb (node_father nd =? node) then
        do r <- find fuel' nodes (node_father nd);
        do nd1 <- rd (fst r) node;
        do nodes2 <- wr (fst r) node (mkNode (snd r) (node_rank nd1));
        do nd2 <- rd nodes2 node;
        Some (nodes2, node_father nd2)
      else Some (nodes, node_father nd)
  end.

(** [fusion] (lines 141-150) calls itself with the arguments exchanged when
    the first root has the larger rank. *)
Fixpoint fusion (fuel : nat) (nodes : list Node) (root1 root2 : Z)
  : option (list Node) :=
  match fuel with
  | O => None
  | S fuel' =>
      do n1 <- rd nodes root1;
      do n2 <- rd nodes root2;
      if node_rank n1 >? node_rank n2 then fusion fuel' nodes root2 root1
      else
        do nodes1 <- wr nodes root1 (mkNode root2 (node_rank n1));
        do m1 <- rd nodes1 root1;
        do m2 <- rd nodes1 root2;
        if node_rank m1 =? node_rank m2 then
          wr nodes1 root2 (mkNode (node_father m2) (node_rank m2 + 1))
        else Some nodes1
  end.

(** The state of the loop of [union_find]. *)
Record UF : Type := mkUF { uf_nodes : list Node; uf_tree : list Edge; uf_num : Z }.

(** One iteration of the loop of [union_find] (lines 156-162), on the edge
    of index [edge].  A chain of fathers without a cycle has at most
    [length nodes] elements, so this fuel lets [find] reach any root; one
    exchange of arguments is all [fusion] can do. *)
Definition union_find_body (edges : list Edge) (edge : Z) (s : UF) : option UF :=
  do e <- rd edges edge;
  do f1 <- find (S (length (uf_nodes s))) (uf_nodes s) (edge_i e);
  do f2 <- find (S (length (fst f1))) (fst f1) (edge_j e);
  let root1 := snd f1 in
  let root2 := snd f2 in
  if negb (root1 =? root2) then
    do nodes' <- fusion 2 (fst f2) root1 root2;
    do tree' <- wr (uf_tree s) (uf_num s) e;
    Some (mkUF nodes' tree' (uf_num s + 1))
  else Some (mkUF (fst f2) (uf_tree s) (uf_num s)).

(** The loop [for (edge = 0; edge < M && numEdge < N-1; ++edge)], over the
    values [ks] that [edge] still has to take. *)
Fixpoint union_find_loop (N : Z) (edges : list Edge) (ks : list Z) (s : UF)
  : option UF :=
  match ks with
  | [] => Some s
  | edge :: ks' =>
      if uf_num s <? N - 1 then
        do s' <- union_find_body edges edge s;
        union_find_loop N edges ks' s'
      else Some s
  end.

(** [union_find] returns the tree buffer as written and [numEdge]. *)
Definition union_find (edges : list Edge) (N M : Z) (tree : list Edge)
  : option (list Edge * Z) :=
  do s <- union_find_loop N edges (iota M) (mkUF (create_nodes N) tree 0);
  Some (uf_tree s, uf_num s).

(** *** What the disjoint-set array represents *)

(** [Root nodes v r]: the chain of fathers that starts at [v] ends at the
    root [r]. *)
Inductive Root (nodes : list Node) : Z -> Z -> Prop :=
| Root_self v nd :
    rd nodes v = Some nd -> node_father nd = v -> Root nodes v v
| Root_step v nd r :
    rd nodes v = Some nd -> node_father nd <> v ->
    Root nodes (node_father nd) r -> Root nodes v r.

(** The same sets, maybe with shorter paths. *)
Definition same_roots (nodes nodes' : list Node) : Prop :=
  forall v r, Root nodes v r <-> Root nodes' v r.

(** The sets of the roots [r1] and [r2] were united, under one of the two as
    the new root; the other sets are as before. *)
Definition united (nodes : list Node) (r1 r2 : Z) (nodes' : list Node) : Prop :=
  exists winner, (winner = r1 \/ winner = r2) /\
    forall v r, Root nodes v r ->
      Root nodes' v (if (r =? r1) || (r =? r2) then winner else r).

(** A run of [union_find] described on the roots: from the array [nodes]
    with [num] edges emitted so far, the edges [es] are read in order and
    [out] are the edges emitted.  An edge is emitted exactly when its
    endpoints have distinct roots when it is read, and a union follows;
    nothing is read once [N - 1] edges were emitted. *)
Inductive uf_run (N : Z) : list Node -> Z -> list Edge -> list Edge -> Prop :=
| uf_run_end nodes num : uf_run N nodes num [] []
| uf_run_stop nodes num es : N - 1 <= num -> uf_run N nodes num es []
| uf_run_skip nodes num e es out r nodes' :
    num < N - 1 ->
    Root nodes (edge_i e) r -> Root nodes (edge_j e) r ->
    same_roots nodes nodes' ->
    uf_run N nodes' num es out ->
    uf_run N nodes num (e :: es) out
| uf_run_emit nodes num e es out r1 r2 nodes' :
    num < N - 1 ->
    Root nodes (edge_i e) r1 -> Root nodes (edge_j e) r2 -> r1 <> r2 ->
    united nodes r1 r2 nodes' ->
    uf_run N nodes' (num + 1) es out ->
    uf_run N nodes num (e :: es) (e :: out).

(** The endpoints of an edge are vertices. *)
Definition endpoints_in (N : Z) (e : Edge) : Prop :=
  0 <= edge_i e < N /\ 0 <= edge_j e < N.

(** ** Sorting ([qsort] of the C library, with [cmp_edges])

    [qsort] is modelled by insertion sort.  On edges of the data model
    [cmp_edges] is a total order in which only equal edges compare equal, so
    every sorting algorithm returns the same array. *)

Fixpoint insert_edge (e : Edge) (l : list Edge) : list Edge :=
  match l with
  | [] => [e]
  | x :: l' => if cmp_edges e x <=? 0 then e :: l else x :: insert_edge e l'
  end.

Definition sort_edges (l : list Edge) : list Edge := fold_right insert_edge [] l.

(** [qsort(edges, n, sizeof(Edge), cmp_edges)] sorts the first [n] entries
    in place. *)
Definition qsort (edges : list Edge) (n : Z) : option (list Edge) :=
  if (0 <=? n) && (n <=? Z.of_nat (length edges)) then
    Some (sort_edges (firstn (Z.to_nat n) edges) ++ skipn (Z.to_nat n) edges)
  else None.

(** ** Sequential Kruskal (lines 168-175) *)

Definition sequential_kruskal (N M : Z) (adj : Adj) (tree : list Edge)
  : option (list Edge * Z) :=
  let edges := calloc_edges M in
  do ce <- create_edges N adj edges;
  do sorted <- qsort (fst ce) M;
  union_find sorted N M tree.

(** *** Invariants of the disjoint-set array *)

(** Every father is a vertex, ranks lie in [[1, B]], and the rank grows
    strictly from a vertex to its father. *)
Definition wf_nodes (N B : Z) (nodes : list Node) : Prop :=
  Z.of_nat (length nodes) = N
  /\ forall v nd, rd nodes v = Some nd ->
       1 <= node_rank nd <= B
       /\ exists nf, rd nodes (node_father nd) = Some nf
            /\ (node_father nd <> v -> node_rank nd < node_rank nf).

(** [nodes'] is [nodes] where some vertices now point at their root. *)
Definition compressed (nodes nodes' : list Node) : Prop :=
  length nodes' = length nodes
  /\ forall u nu, rd nodes u = Some nu ->
       exists nu', rd nodes' u = Some nu'
         /\ node_rank nu' = node_rank nu
         /\ (node_father nu' = node_father nu
             \/ (node_father nu <> u /\ Root nodes u (node_father nu'))).

(** [nodes'] is [nodes] after the root [a] was hung under the root [b]. *)
Definition linked (nodes : list Node) (a b : Z) (nodes' : list Node) : Prop :=
  length nodes' = length nodes
  /\ exists na nb,
       rd nodes a = Some na /\ rd nodes b = Some nb
       /\ node_father na = a /\ node_father nb = b /\ a <> b
       /\ node_rank na <= node_rank nb
       /\ rd nodes' a = Some (mkNode b (node_rank na))
       /\ rd nodes' b =
            Some (mkNode b (node_rank nb
                            + if node_rank na =? node_rank nb then 1 else 0))
       /\ forall u, u <> a -> u <> b -> rd nodes' u = rd nodes u.

Definition is_root (nodes : list Node) (v : Z) : bool :=
  match rd nodes v with
  | Some nd => node_father nd =? v
  | None => false
  end.

(** The number of sets. *)
Definition count_roots (nodes : list Node) : Z :=
  Z.of_nat (length (filter (is_root nodes) (iota (Z.of_nat (length nodes))))).

(** The buffer [tree] with [out] written from index [k] on. *)
Definition place {A} (tree : list A) (k : nat) (out : list A) : list A :=
  firstn k tree ++ out ++ skipn (k + length out) tree.

(** *** Kruskal's algorithm on connectivity *)

(** [conn es u v]: the edges [es] connect [u] and [v]. *)
Inductive conn (es : list Edge) : Z -> Z -> Prop :=
| conn_refl v : conn es v v
| conn_edge e : In e es -> conn es (edge_i e) (edge_j e)
| conn_sym u v : conn es u v -> conn es v u
| conn_trans u v w : conn es u v -> conn es v w -> conn es u w.

(** [greedy acc es out]: with the edges [acc] already taken, reading [es]
    in order and taking each edge that joins two vertices not yet connected
    gives the edges [out]. *)
Inductive greedy : list Edge -> list Edge -> list Edge -> Prop :=
| greedy_nil acc : greedy acc [] []
| greedy_skip acc e es out :
    conn acc (edge_i e) (edge_j e) -> greedy acc es out ->
    greedy acc (e :: es) out
| greedy_take acc e es out :
    ~ conn acc (edge_i e) (edge_j e) -> greedy (e :: acc) es out ->
    greedy acc (e :: es) (e :: out).

(** Two vertices are in the same set. *)
Definition uf_eq (nodes : list Node) (u v : Z) : Prop :=
  exists r, Root nodes u r /\ Root nodes v r.

(** The disjoint-set array represents the connectivity of the edges taken. *)
Definition represents (N : Z) (nodes : list Node) (acc : list Edge) : Prop :=
  (forall e, In e acc -> endpoints_in N e /\ uf_eq nodes (edge_i e) (edge_j e))
  /\ (forall u v, uf_eq nodes u v -> conn acc u v).

(** ** The edges of an adjacency matrix *)

(** The entry [adj[i*N + j]] (0 outside of the array). *)
Definition entry (N : Z) (adj : Adj) (i j : Z) : Z :=
  match rd adj (i * N + j) with Some a => a | None => 0 end.

(** The edges found in row [i] of [adj], columns [js], when that row is the
    row [real_i] of the graph. *)
Definition row_edges (N : Z) (adj : Adj) (i real_i : Z) (js : list Z) : list Edge :=
  flat_map (fun j => if entry N adj i j =? 0 then []
                     else [init_edge real_i j (entry N adj i j)]) js.

(** The edges of the upper triangle, row by row: what [create_edges]
    enumerates. *)
Definition upper_edges (N : Z) (adj : Adj) : list Edge :=
  flat_map (fun i => row_edges N adj i i (range i N)) (iota N).

(** The adjacency matrix of a graph of the data model: [N * N] entries that
    are non-negative [int]s. *)
Definition adjacency (N : Z) (adj : Adj) : Prop :=
  0 <= N /\ Z.of_nat (length adj) = N * N
  /\ forall a, In a adj -> 0 <= a <= INT_MAX.

Definition symmetric (N : Z) (adj : Adj) : Prop :=
  forall i j, 0 <= i < N -> 0 <= j < N -> entry N adj i j = entry N adj j i.

(** ** Parallel Kruskal (lines 182-358) *)

(** [nbRows = ceil((float)N / (float)numProcs)].  The conversions to [float]
    and the quotient are exact enough for the result to be the integer
    ceiling as long as [N < 2^24], which holds as soon as the matrix of
    [N * N] entries can be indexed by an [int]. *)
Definition ceil_div (N numProcs : Z) : Z := (N + numProcs - 1) / numProcs.

(** The inner loops of [add_local_edges] and [add_edges_from_submatrix]: the
    columns [js] of the row [i] of the array [adj] of the process, which
    stands for the row [real_i] of the graph. *)
Fixpoint add_edges_row (N : Z) (adj : Adj) (i real_i : Z) (js : list Z)
  (st : list Edge * Z) : option (list Edge * Z) :=
  match js with
  | [] => Some st
  | j :: js' =>
      do a <- rd adj (i * N + j);
      if a =? 0 then add_edges_row N adj i real_i js' st
      else
        do edges' <- wr (fst st) (snd st) (init_edge real_i j a);
        add_edges_row N adj i real_i js' (edges', snd st + 1)
  end.

(** [add_local_edges] (lines 182-196): the rows [i] of the block, with
    [break] at the first row past the matrix. *)
Fixpoint add_local_edges_rows (procRank : Z) (adj : Adj) (nbRows N : Z)
  (rows : list Z) (st : list Edge * Z) : option (list Edge * Z) :=
  match rows with
  | [] => Some st
  | i :: rows' =>
      let real_i := procRank * nbRows + i in
      if real_i >=? N then Some st
      else
        do st' <- add_edges_row N adj i real_i
                    (range (procRank * nbRows) (real_i + 1)) st;
        add_local_edges_rows procRank adj nbRows N rows' st'
  end.

Definition add_local_edges (procRank : Z) (adj : Adj) (nbRows N : Z)
  (edges : list Edge) : option (list Edge * Z) :=
  add_local_edges_rows procRank adj nbRows N (iota nbRows) (edges, 0).

(** [create_forest] (lines 198-205) returns the buffer [forest] as written
    and [forestSize]. *)
Definition create_forest (procRank : Z) (adj : Adj) (nbRows N : Z)
  (forest : list Edge) : option (list Edge * Z) :=
  let edges := calloc_edges (nbRows * nbRows) in
  do le <- add_local_edges procRank adj nbRows N edges;
  do sorted <- qsort (fst le) (snd le);
  union_find sorted N (snd le) forest.

(** [merge_sorted_lists] (lines 221-233): the loop runs once per element,
    so [ni + nj] is the fuel it needs. *)
Fixpoint merge_loop (fuel : nat) (li : list Edge) (ni : Z) (lj : list Edge) (nj : Z)
  (i j : Z) (output : list Edge) : option (list Edge) :=
  if (i <? ni) || (j <? nj) then
    match fuel with
    | O => None
    | S fuel' =>
        do take_left <-
          (if j >=? nj then Some true
           else if i <? ni then
             do a <- rd li i;
             do b <- rd lj j;
             Some (cmp_edges a b <? 0)
           else Some false);
        if take_left : bool then
          do a <- rd li i;
          do output' <- wr output (i + j) a;
          merge_loop fuel' li ni lj nj (i + 1) j output'
        else
          do b <- rd lj j;
          do output' <- wr output (i + j) b;
          merge_loop fuel' li ni lj nj i (j + 1) output'
    end
  else Some output.

Definition merge_sorted_lists (li : list Edge) (ni : Z) (lj : list Edge) (nj : Z)
  (output : list Edge) : option (list Edge) :=
  merge_loop (Z.to_nat ni + Z.to_nat nj) li ni lj nj 0 0 output.

(** [memcpy(dst, src, n * sizeof(Edge))] *)
Definition memcpy_edges (dst src : list Edge) (n : Z) : option (list Edge) :=
  if (0 <=? n) && (n <=? Z.of_nat (length src)) && (n <=? Z.of_nat (length dst))
  then Some (firstn (Z.to_nat n) src ++ skipn (Z.to_nat n) dst)
  else None.

(** [merge_into] (lines 235-240) returns [newBuf]. *)
Definition merge_into (oldBuf : list Edge) (n1 : Z) (newBuf : list Edge) (n2 : Z)
  : option (list Edge) :=
  let output := calloc_edges (n1 + n2) in
  do output' <- merge_sorted_lists oldBuf n1 newBuf n2 output;
  memcpy_edges newBuf output' (n1 + n2).

(** The state of the loop of [receive_edges]: the arrays behind the
    pointers [buf1], [buf2] and [newEdges], [nbEdges], [parity], and the
    network. *)
Record RecvSt : Type := mkRecvSt {
  rs_buf1 : list Edge; rs_buf2 : list Edge; rs_newEdges : list Edge;
  rs_nbEdges : Z; rs_parity : Z; rs_net : Net }.

Fixpoint receive_edges_loop (procRank numProcs stepSize : Z) (ks : list Z)
  (st : RecvSt) : option RecvSt :=
  match ks with
  | [] => Some st
  | i :: ks' =>
      if procRank + stepSize + i >=? numProcs then Some st
      else
        do r <- receive_edges_from procRank stepSize (procRank + stepSize + i)
                  (rs_newEdges st) (rs_net st);
        let newEdges := fst (fst r) in
        let nbNewEdges := snd (fst r) in
        do merged <- merge_sorted_lists (rs_buf1 st) (rs_nbEdges st)
                       newEdges nbNewEdges (rs_buf2 st);
        receive_edges_loop procRank numProcs stepSize ks'
          (mkRecvSt merged (rs_buf1 st) newEdges
             (rs_nbEdges st + nbNewEdges) (1 - rs_parity st) (snd r))
  end.

(** [receive_edges] (lines 242-265).  [buf1] starts as [edges] and [buf2] as
    [tmpBuf]; after an odd number of exchanges [buf1] is [tmpBuf] and is
    copied back.  Returns [edges], [nbEdges] and the network. *)
Definition receive_edges (procRank numProcs stepSize squareSize : Z)
  (edges : list Edge) (nbEdges nbEdgesMax : Z) (net : Net)
  : option (list Edge * Z * Net) :=
  let tmpBuf := calloc_edges nbEdgesMax in
  let newEdges := calloc_edges (stepSize * squareSize) in
  do st <- receive_edges_loop procRank numProcs stepSize (iota stepSize)
             (mkRecvSt edges tmpBuf newEdges nbEdges 0 net);
  if negb (rs_parity st =? 0) then
    do edges' <- memcpy_edges (rs_buf2 st) (rs_buf1 st) (rs_nbEdges st);
    Some (edges', rs_nbEdges st, rs_net st)
  else Some (rs_buf1 st, rs_nbEdges st, rs_net st).

(** [receive_forest] (lines 267-272) *)
Definition receive_forest (procRank numProcs stepSize : Z) (edges : list Edge)
  (net : Net) : option (list Edge * Z * Net) :=
  let target := procRank + stepSize in
  if target >=? numProcs then Some (edges, 0, net)
  else receive_edges_from procRank stepSize target edges net.

(** [receive_new_edges] (lines 274-282) returns [edges], the number of
    edges in it, and the network. *)
Definition receive_new_edges (procRank numProcs stepSize squareSize nbRows : Z)
  (edges : list Edge) (nbMaxEdges : Z) (forest : list Edge) (forestSize : Z)
  (net : Net) : option (list Edge * Z * Net) :=
  do rf <- receive_forest procRank numProcs stepSize edges net;
  let newForestSize := snd (fst rf) in
  do re <- receive_edges procRank numProcs stepSize squareSize (fst (fst rf))
             newForestSize nbMaxEdges (snd rf);
  let nbNewEdges := snd (fst re) in
  do edges' <- merge_into forest forestSize (fst (fst re)) nbNewEdges;
  Some (edges', nbNewEdges + forestSize, snd re).

(** [add_edges_from_submatrix] (lines 297-312) *)
Fixpoint add_edges_from_submatrix_rows (procRank stepSize : Z) (adj : Adj)
  (nbRows N start : Z) (rows : list Z) (st : list Edge * Z)
  : option (list Edge * Z) :=
  match rows with
  | [] => Some st
  | i :: rows' =>
      let real_i := procRank * nbRows + i in
      if real_i >=? N then Some st
      else
        do st' <- add_edges_row N adj i real_i
                    (range start (start + nbRows * stepSize)) st;
        add_edges_from_submatrix_rows procRank stepSize adj nbRows N start rows' st'
  end.

Definition add_edges_from_submatrix (procRank stepSize : Z) (adj : Adj)
  (nbRows N : Z) (edges : list Edge) : option (list Edge * Z) :=
  let start := ((procRank - Z.rem procRank stepSize) - stepSize) * nbRows in
  add_edges_from_submatrix_rows procRank stepSize adj nbRows N start
    (iota nbRows) (edges, 0).

(** [send_bipartite_forest] (lines 314-324) *)
Definition send_bipartite_forest (procRank stepSize squareSize nbRows : Z)
  (adj : Adj) (N : Z) (net : Net) : option Net :=
  let target := (procRank - Z.rem procRank stepSize) - stepSize in
  let edges := calloc_edges (squareSize * stepSize * stepSize) in
  do ae <- add_edges_from_submatrix procRank stepSize adj nbRows N edges;
  let nbEdges := snd ae in
  do sorted <- qsort (fst ae) nbEdges;
  let forest := calloc_edges ((stepSize + 1) * nbRows - 1) in
  do uf <- union_find sorted N nbEdges forest;
  send_edges_to procRank target (fst uf) (snd uf) net.

(** [send_forest] (lines 326-329) *)
Definition send_forest (procRank stepSize : Z) (forest : list Edge)
  (forestSize : Z) (net : Net) : option Net :=
  let target := procRank - stepSize in
  send_edges_to procRank target forest forestSize net.

(** [realloc(forest, n * sizeof(Edge))]: the old contents up to [n]; what
    lies behind them is indeterminate in C and is never read before it is
    written, zero here. *)
Definition realloc_edges (forest : list Edge) (n : Z) : list Edge :=
  firstn (Z.to_nat n) forest ++ repeat zero_edge (Z.to_nat n - length forest).

(** The variables of one process in [parallel_kruskal]. *)
Record Proc : Type := mkProc {
  p_forest : list Edge; p_forestSize : Z; p_receiver : Z;
  p_stepSize : Z; p_rank : Z }.

(** Lines 332-336: up to the loop. *)
Definition parallel_kruskal_init (procRank numProcs : Z) (adj : Adj) (N : Z)
  : option Proc :=
  let nbRows := ceil_div N numProcs in
  let forest := calloc_edges (nbRows - 1) in
  do cf <- create_forest procRank adj nbRows N forest;
  Some (mkProc (fst cf) (snd cf) 1 1 procRank).

(** The test of the loop at line 337. *)
Definition parallel_kruskal_running (numProcs N : Z) (p : Proc) : bool :=
  p_stepSize p * ceil_div N numProcs <? N.

(** One iteration of the loop (lines 338-352) and its increment. *)
Definition parallel_kruskal_iter (procRank numProcs : Z) (adj : Adj) (N M : Z)
  (p : Proc) (net : Net) : option (Proc * Net) :=
  let nbRows := ceil_div N numProcs in
  let squareSize := nbRows * nbRows in
  let stepSize := p_stepSize p in
  let next forest forestSize receiver :=
    mkProc forest forestSize receiver (Z.shiftl stepSize 1) (Z.shiftr (p_rank p) 1) in
  if negb (Z.land (p_rank p) 1 =? 0) then
    do net1 <- (if Z.rem procRank stepSize =? 0
                then send_forest procRank stepSize (p_forest p) (p_forestSize p) net
                else Some net);
    do net2 <- send_bipartite_forest procRank stepSize squareSize nbRows adj N net1;
    Some (next (p_forest p) (p_forestSize p) 0, net2)
  else if negb (p_receiver p =? 0) then
    let subNbEdges :=
      stepSize * (nbRows * (stepSize + 1) - 1) + 2 * (stepSize * nbRows - 1) in
    let nbMaxEdges := if M <? subNbEdges then M else subNbEdges in
    let edges := calloc_edges nbMaxEdges in
    do rn <- receive_new_edges procRank numProcs stepSize squareSize nbRows
               edges nbMaxEdges (p_forest p) (p_forestSize p) net;
    let nbNewEdges := snd (fst rn) in
    let forest := realloc_edges (p_forest p) (stepSize * nbRows * 2 - 1) in
    do uf <- union_find (fst (fst rn)) N nbNewEdges forest;
    Some (next (fst uf) (snd uf) (p_receiver p), snd rn)
  else Some (next (p_forest p) (p_forestSize p) (p_receiver p), net).

(** Lines 354-356: rank 0 copies its forest to [tree]. *)
Definition parallel_kruskal_finish (procRank : Z) (p : Proc) (tree : list Edge)
  : option (list Edge) :=
  if procRank =? 0 then memcpy_edges tree (p_forest p) (p_forestSize p)
  else Some tree.

(** *** The processes together

    Every process runs the same function on its own rank and its own array
    [adj].  A process only waits in [MPI_Recv], for a message of a given
    source; which message it gets does not depend on the interleaving, so
    one schedule stands for all.  In the schedule below the processes run
    one iteration of their loop each, from the highest rank to the lowest:
    a process sends to lower ranks only, so that every message is there
    when its receiver asks for it. *)

Record World : Type := mkWorld { w_procs : list Proc; w_net : Net }.

Fixpoint init_procs (numProcs : Z) (adjs : Z -> Adj) (N : Z) (ranks : list Z)
  : option (list Proc) :=
  match ranks with
  | [] => Some []
  | r :: ranks' =>
      do p <- parallel_kruskal_init r numProcs (adjs r) N;
      do ps <- init_procs numProcs adjs N ranks';
      Some (p :: ps)
  end.

Fixpoint run_round (numProcs : Z) (adjs : Z -> Adj) (N M : Z) (ranks : list Z)
  (w : World) : option World :=
  match ranks with
  | [] => Some w
  | r :: ranks' =>
      do p <- rd (w_procs w) r;
      do res <- parallel_kruskal_iter r numProcs (adjs r) N M p (w_net w);
      do procs' <- wr (w_procs w) r (fst res);
      run_round numProcs adjs N M ranks' (mkWorld procs' (snd res))
  end.

Fixpoint run_rounds (fuel : nat) (numProcs : Z) (adjs : Z -> Adj) (N M : Z)
  (w : World) : option World :=
  if forallb (fun p => negb (parallel_kruskal_running numProcs N p)) (w_procs w)
  then Some w
  else
    match fuel with
    | O => None
    | S fuel' =>
        do w' <- run_round numProcs adjs N M (rev (iota numProcs)) w;
        run_rounds fuel' numProcs adjs N M w'
    end.

(** [parallel_kruskal] on all the ranks; the result is the array [tree] of
    rank 0.  The step size doubles at every round and stays below [N], so
    that [N] rounds are more than the loop can make. *)
Definition parallel_kruskal (numProcs : Z) (adjs : Z -> Adj) (N M : Z)
  (tree : list Edge) : option (list Edge) :=
  do procs <- init_procs numProcs adjs N (iota numProcs);
  do w <- run_rounds (Z.to_nat N) numProcs adjs N M (mkWorld procs []);
  do p0 <- rd (w_procs w) 0;
  parallel_kruskal_finish 0 p0 tree.

(** Modelled from the spec: how the caller of [computeMST] (which is not in
    the source file) hands the matrix to the processes.  The specification
    says that the full matrix is broadcast: every rank holds all of it. *)
Definition replicated (A : Adj) : Z -> Adj := fun _ => A.

(** The other convention: every rank holds the rows of the matrix from the
    first row of its own block on, so that row [i] of its array is the row
    [procRank * nbRows + i] of the graph. *)
Definition row_blocks (N numProcs : Z) (A : Adj) : Z -> Adj :=
  fun procRank => skipn (Z.to_nat (procRank * ceil_div N numProcs * N)) A.

(** *** What the two enumerations of parallel Kruskal compute *)

(** The common shape of the row loops of [add_local_edges] and
    [add_edges_from_submatrix]; [cols real_i] are the columns scanned in the
    row [real_i]. *)
Fixpoint scan_rows (N : Z) (adj : Adj) (procRank nbRows : Z) (cols : Z -> list Z)
  (rows : list Z) (st : list Edge * Z) : option (list Edge * Z) :=
  match rows with
  | [] => Some st
  | i :: rows' =>
      let real_i := procRank * nbRows + i in
      if real_i >=? N then Some st
      else
        do st' <- add_edges_row N adj i real_i (cols real_i) st;
        scan_rows N adj procRank nbRows cols rows' st'
  end.

(** The edges found by such a loop over the rows [0 .. nbRows-1] of the
    array of a process: the rows that exist in the graph. *)
Definition scanned_edges (N : Z) (adj : Adj) (procRank nbRows : Z)
  (cols : Z -> list Z) : list Edge :=
  flat_map (fun i => row_edges N adj i (procRank * nbRows + i)
                       (cols (procRank * nbRows + i)))
    (iota (Z.min nbRows (N - procRank * nbRows))).

(** The columns of [add_local_edges]: from the start of the block to the
    diagonal. *)
Definition local_cols (procRank nbRows : Z) : Z -> list Z :=
  fun real_i => range (procRank * nbRows) (real_i + 1).

(** The columns of [add_edges_from_submatrix]: the [stepSize] blocks of the
    receiving group. *)
Definition submatrix_start (procRank stepSize nbRows : Z) : Z :=
  ((procRank - Z.rem procRank stepSize) - stepSize) * nbRows.

Definition submatrix_cols (procRank stepSize nbRows : Z) : Z -> list Z :=
  fun _ => range (submatrix_start procRank stepSize nbRows)
             (submatrix_start procRank stepSize nbRows + nbRows * stepSize).

(** The edges of the graph [A] inside the diagonal block of rank
    [procRank]: rows [u] of the block, columns [v] from the start of the
    block to [u]. *)
Definition block_edges (N : Z) (A : Adj) (procRank nbRows : Z) : list Edge :=
  flat_map (fun u => row_edges N A u u (range (procRank * nbRows) (u + 1)))
    (range (procRank * nbRows) (Z.min ((procRank + 1) * nbRows) N)).

(** ** The binary heap of sequential Prim (lines 366-424) *)

Record Heap : Type := mkHeap { sizeMax : Z; curEnd : Z; data : list Edge }.

Definition create_heap (nbMaxEdges : Z) : Heap :=
  mkHeap (nbMaxEdges + 1) 1 (calloc_edges (nbMaxEdges + 1)).

Definition father (i : Z) : Z := Z.quot i 2.
Definition left (i : Z) : Z := 2 * i.
Definition right (i : Z) : Z := 2 * i + 1.

(** [swap_edges(data + a, data + b)] *)
Definition swap_edges (d : list Edge) (a b : Z) : option (list Edge) :=
  do x <- rd d a;
  do y <- rd d b;
  do d1 <- wr d a y;
  wr d1 b x.

(** The loop of [add_edge] (lines 400-406).  [node] is at least halved by
    every exchange. *)
Fixpoint sift_up (fuel : nat) (d : list Edge) (node : Z) : option (list Edge) :=
  if negb (father node =? 0) then
    do f <- rd d (father node);
    do n <- rd d node;
    if cmp_edges f n >? 0 then
      match fuel with
      | O => None
      | S fuel' =>
          do d' <- swap_edges d (father node) node;
          sift_up fuel' d' (father node)
      end
    else Some d
  else Some d.

Definition add_edge (heap : Heap) (edge : Edge) : option Heap :=
  do d <- wr (data heap) (curEnd heap) edge;
  let node := curEnd heap in
  do d' <- sift_up (Z.to_nat node) d node;
  Some (mkHeap (sizeMax heap) (curEnd heap + 1) d').

(** The loop of [extract_min] (lines 414-422).  [node] is at least doubled
    by every exchange and stays below [curEnd]. *)
Fixpoint sift_down (fuel : nat) (d : list Edge) (cur_end node : Z)
  : option (list Edge) :=
  if left node <? cur_end then
    do l <- rd d (left node);
    do next <-
      (if right node <? cur_end then
         do r <- rd d (right node);
         Some (if cmp_edges l r >? 0 then right node else left node)
       else Some (left node));
    do n <- rd d node;
    do x <- rd d next;
    if cmp_edges n x <? 0 then Some d
    else
      match fuel with
      | O => None
      | S fuel' =>
          do d' <- swap_edges d node next;
          sift_down fuel' d' cur_end next
      end
  else Some d.

(** [extract_min] returns the edge and the heap. *)
Definition extract_min (heap : Heap) : option (Edge * Heap) :=
  do top <- rd (data heap) 1;
  let cur_end := curEnd heap - 1 in
  do d <- swap_edges (data heap) 1 cur_end;
  do d' <- sift_down (Z.to_nat cur_end) d cur_end 1;
  Some (top, mkHeap (sizeMax heap) cur_end d').

(** *** Heap properties *)

(** Edges whose comparison by [cmp_edges] cannot overflow: the edges of the
    data model, whatever the number of vertices. *)
Definition model_edge (e : Edge) : Prop := valid_edge (INT_MAX + 1) e.

(** [a] is not after [b]. *)
Definition edge_le (a b : Edge) : Prop := cmp_edges a b <= 0.

(** The occupied slots are [1 .. curEnd - 1]. *)
Definition slot (h : Heap) (k : Z) (e : Edge) : Prop :=
  1 <= k < curEnd h /\ rd (data h) k = Some e.

(** The min-heap property: the edge of slot [k / 2] is not after the edge
    of slot [k], for every occupied slot [k >= 2]. *)
Definition heap_ordered (h : Heap) : Prop :=
  forall k, 2 <= k < curEnd h ->
    exists p x, rd (data h) (father k) = Some p /\ rd (data h) k = Some x
                /\ edge_le p x.

(** The edges stored in the heap, slot by slot. *)
Definition heap_elems (h : Heap) : list Edge :=
  firstn (Z.to_nat (curEnd h - 1)) (skipn 1 (data h)).

(** The heaps that [create_heap], [add_edge] (within the capacity, of an
    edge of the data model) and [extract_min] (of a heap that is not empty)
    can produce. *)
Inductive reachable : Heap -> Prop :=
| reachable_create nbMaxEdges :
    0 <= nbMaxEdges -> reachable (create_heap nbMaxEdges)
| reachable_add h e h' :
    reachable h -> curEnd h < sizeMax h -> model_edge e ->
    add_edge h e = Some h' -> reachable h'
| reachable_extract h e h' :
    reachable h -> 1 < curEnd h ->
    extract_min h = Some (e, h') -> reachable h'.

(** The edge in slot [k] of the array [d]. *)
Definition at_slot (d : list Edge) (k : Z) : Edge :=
  match rd d k with Some e => e | None => zero_edge end.

(** The slots [1 .. cur_end - 1] lie in the array and hold edges of the
    data model. *)
Definition slots_ok (d : list Edge) (cur_end : Z) : Prop :=
  1 <= cur_end <= Z.of_nat (length d)
  /\ forall k, 1 <= k < cur_end -> model_edge (at_slot d k).

(** The heap order between the slots [father k] and [k]. *)
Definition ordered_at (d : list Edge) (k : Z) : Prop :=
  edge_le (at_slot d (father k)) (at_slot d k).

(** The invariant of the heap: the array has [sizeMax] slots, the occupied
    ones hold edges of the data model and are in heap order. *)
Definition heap_inv (h : Heap) : Prop :=
  sizeMax h = Z.of_nat (length (data h))
  /\ slots_ok (data h) (curEnd h)
  /\ forall k, 2 <= k < curEnd h -> ordered_at (data h) k.

(** ** Sequential Prim (lines 426-454) *)

(** The loop of [add_neighbors], over the values [nbs] of [neighbor]. *)
Fixpoint add_neighbors_loop (node N : Z) (adj : Adj) (isVisited : list Z)
  (nbs : list Z) (heap : Heap) : option Heap :=
  match nbs with
  | [] => Some heap
  | neighbor :: nbs' =>
      do a <- rd adj (node * N + neighbor);
      do push <- (if negb (a =? 0) then
                    do v <- rd isVisited neighbor; Some (v =? 0)
                  else Some false);
      do heap' <- (if push : bool then add_edge heap (init_edge node neighbor a)
                   else Some heap);
      add_neighbors_loop node N adj isVisited nbs' heap'
  end.

Definition add_neighbors (node N : Z) (adj : Adj) (isVisited : list Z)
  (heap : Heap) : option Heap :=
  add_neighbors_loop node N adj isVisited (iota N) heap.

(** The variables of [sequential_prim]. *)
Record Prim : Type := mkPrim {
  pr_curEdge : Z; pr_isVisited : list Z; pr_heap : Heap; pr_edges : list Edge }.

(** The loop of [sequential_prim] (lines 442-451). *)
Fixpoint prim_loop (fuel : nat) (N : Z) (adj : Adj) (s : Prim) : option Prim :=
  if negb (curEnd (pr_heap s) =? 1) && (pr_curEdge s <? N) then
    match fuel with
    | O => None
    | S fuel' =>
        do r <- extract_min (pr_heap s);
        let edge := fst r in
        do vi <- rd (pr_isVisited s) (edge_i edge);
        let node := if vi =? 0 then edge_i edge else edge_j edge in
        do vn <- rd (pr_isVisited s) node;
        if negb (vn =? 0) then
          prim_loop fuel' N adj
            (mkPrim (pr_curEdge s) (pr_isVisited s) (snd r) (pr_edges s))
        else
          do edges' <- wr (pr_edges s) (pr_curEdge s) edge;
          do isVisited' <- wr (pr_isVisited s) node 1;
          do heap' <- add_neighbors node N adj isVisited' (snd r);
          prim_loop fuel' N adj
            (mkPrim (pr_curEdge s + 1) isVisited' heap' edges')
    end
  else Some s.

(** [sequential_prim] returns the buffer [edges] as written and the final
    value of [curEdge], the number of edges emitted.  Every iteration
    extracts one edge, and a vertex is visited once and pushes less than
    [N] edges: [N * N] iterations are more than the loop can make. *)
Definition sequential_prim (N M : Z) (adj : Adj) (edges : list Edge)
  : option (list Edge * Z) :=
  let isVisited := calloc_int N in
  let heap := create_heap M in
  do isVisited1 <- wr isVisited 0 1;
  do heap1 <- add_neighbors 0 N adj isVisited1 heap;
  do s <- prim_loop (Z.to_nat (N * N)) N adj (mkPrim 0 isVisited1 heap1 edges);
  Some (pr_edges s, pr_curEdge s).

(** *** Graphs *)

(** [reach N adj u v]: a path of edges of the matrix leads from [u] to [v]. *)
Inductive reach (N : Z) (adj : Adj) (u : Z) : Z -> Prop :=
| reach_refl : reach N adj u u
| reach_step v w :
    reach N adj u v -> 0 <= w < N -> entry N adj v w <> 0 -> reach N adj u w.

(** A connected graph on the vertices [0 .. N-1]. *)
Definition connected (N : Z) (adj : Adj) : Prop :=
  1 <= N /\ forall v, 0 <= v < N -> reach N adj 0 v.

(** The vertex [v] is marked in [isVisited]. *)
Definition visited (isVisited : list Z) (v : Z) : Prop :=
  exists x, rd isVisited v = Some x /\ x <> 0.

Definition count_visited (isVisited : list Z) : Z :=
  Z.of_nat (length (filter (fun x => negb (x =? 0)) isVisited)).

(** The edges that [add_neighbors] pushes for the vertex [node]. *)
Definition pushed_edges (node N : Z) (adj : Adj) (isVisited : list Z)
  (nbs : list Z) : list Edge :=
  flat_map (fun nb =>
    if negb (entry N adj node nb =? 0)
       && (match rd isVisited nb with Some v => v =? 0 | None => false end)
    then [init_edge node nb (entry N adj node nb)] else []) nbs.

(** The invariant that links the heap of sequential Prim to the visited
    vertices: every edge in the heap is an edge [u - v] of the graph pushed
    from a visited vertex [u]; no edge is in it twice; and every edge from a
    visited vertex to a vertex that is not visited, other than the vertices
    [except], is in the heap. *)
Definition frontier_heap (N M : Z) (adj : Adj) (isVisited : list Z) (heap : Heap)
  (except : Z -> Prop) : Prop :=
  Z.of_nat (length isVisited) = N
  /\ heap_inv heap /\ sizeMax heap = M + 1
  /\ (forall e, In e (heap_elems heap) ->
        exists u v, 0 <= u < N /\ 0 <= v < N /\ visited isVisited u /\ u <> v
                    /\ entry N adj u v <> 0 /\ e = init_edge u v (entry N adj u v))
  /\ NoDup (heap_elems heap)
  /\ (forall u v, 0 <= u < N -> 0 <= v < N -> visited isVisited u ->
        ~ visited isVisited v -> ~ except v -> entry N adj u v <> 0 ->
        In (init_edge u v (entry N adj u v)) (heap_elems heap)).

(** The invariant of the loop of [sequential_prim]; [edges0] is the output
    buffer before the loop. *)
Definition prim_inv (N M : Z) (adj : Adj) (edges0 : list Edge) (s : Prim) : Prop :=
  frontier_heap N M adj (pr_isVisited s) (pr_heap s) (fun _ => False)
  /\ visited (pr_isVisited s) 0
  /\ pr_curEdge s = count_visited (pr_isVisited s) - 1
  /\ length (pr_edges s) = length edges0
  /\ skipn (Z.to_nat (pr_curEdge s)) (pr_edges s)
     = skipn (Z.to_nat (pr_curEdge s)) edges0
  /\ Forall (fun e => In e (upper_edges N adj))
       (firstn (Z.to_nat (pr_curEdge s)) (pr_edges s)).

(** The measure that decreases at every iteration of the loop. *)
Definition prim_measure (N : Z) (s : Prim) : Z :=
  (curEnd (pr_heap s) - 1) + N * (N - count_visited (pr_isVisited s)).

(** ** Parallel Prim (lines 461-573) *)

Record BorderNode : Type := mkBorder { border_w : Z; border_z : Z }.

(** The result of code that contains an [assert]. *)
Inductive outcome (A : Type) : Type :=
| Done (a : A)
| Assertion_failed
| Undefined_behaviour.
Arguments Done {A} a.
Arguments Assertion_failed {A}.
Arguments Undefined_behaviour {A}.

Definition of_option {A} (o : option A) : outcome A :=
  match o with Some a => Done a | None => Undefined_behaviour end.

(** The loop of [create_border] (lines 470-475). *)
Fixpoint create_border_loop (procRank nbRows N : Z) (adj : Adj) (firstNode : Z)
  (ys : list Z) (border : list BorderNode) : option (list BorderNode) :=
  match ys with
  | [] => Some border
  | y :: ys' =>
      if procRank * nbRows + y >=? N then Some border
      else
        do a <- rd adj (y * N + firstNode);
        do b <- rd border y;
        do border1 <- wr border y (mkBorder a (border_z b));
        do b1 <- rd border1 y;
        do border2 <- wr border1 y (mkBorder (border_w b1) firstNode);
        create_border_loop procRank nbRows N adj firstNode ys' border2
  end.

(** [create_border] returns [border] and [isVisited]. *)
Definition create_border (procRank nbRows : Z) (isVisited : list Z) (N : Z)
  (adj : Adj) : option (list BorderNode * list Z) :=
  let border := repeat (mkBorder 0 0) (Z.to_nat nbRows) in
  let firstNode := 0 in
  do isVisited' <- wr isVisited firstNode 1;
  do border' <- create_border_loop procRank nbRows N adj firstNode (iota nbRows) border;
  Some (border', isVisited').

(** The loop of [find_closest_border] (lines 482-495); the state is [yOpt]
    and [smallest]. *)
Fixpoint find_closest_border_loop (procRank N nbRows : Z)
  (border : list BorderNode) (isVisited : list Z) (ys : list Z)
  (yOpt : Z) (smallest : Edge) : option Z :=
  match ys with
  | [] => Some yOpt
  | y :: ys' =>
      if procRank * nbRows + y >=? N then Some yOpt
      else
        do v <- rd isVisited (y + procRank * nbRows);
        if negb (v =? 0) then
          find_closest_border_loop procRank N nbRows border isVisited ys' yOpt smallest
        else
          do b <- rd border y;
          let curEdge := init_edge (procRank * nbRows + y) (border_z b) (border_w b) in
          if negb (border_w b =? 0)
             && ((yOpt =? -1) || (cmp_edges smallest curEdge >? 0))
          then find_closest_border_loop procRank N nbRows border isVisited ys' y curEdge
          else find_closest_border_loop procRank N nbRows border isVisited ys' yOpt smallest
  end.

(** [smallest] is not initialised; it is read only after it was written. *)
Definition find_closest_border (procRank : Z) (border : list BorderNode)
  (isVisited : list Z) (N nbRows : Z) : option Z :=
  find_closest_border_loop procRank N nbRows border isVisited (iota nbRows) (-1) zero_edge.

(** What a process contributes to the [MPI_Gather] of [send_edge]: the three
    ints of [edge].  With [y = -1] the last two are not initialised. *)
Definition send_edge_contribution (procRank : Z) (border : list BorderNode)
  (nbRows y : Z) : option (list Z) :=
  if negb (y =? -1) then
    do b <- rd border y;
    Some [y + procRank * nbRows; border_z b; border_w b]
  else Some [y; 0; 0].

(** The loop of [select_new_vertex] (lines 520-531); the state is
    [idSmallestVertex] and [*smallest]. *)
Fixpoint select_new_vertex_loop (minEdges : list Z) (ids : list Z)
  (idSmallestVertex : Z) (smallest : Edge) : option (Z * Edge) :=
  match ids with
  | [] => Some (idSmallestVertex, smallest)
  | idProc :: ids' =>
      do e0 <- rd minEdges (idProc * 3 + 0);
      if e0 =? -1 then
        select_new_vertex_loop minEdges ids' idSmallestVertex smallest
      else
        do e1 <- rd minEdges (idProc * 3 + 1);
        do e2 <- rd minEdges (idProc * 3 + 2);
        let curEdge := init_edge e0 e1 e2 in
        if (idSmallestVertex =? -1) || (cmp_edges smallest curEdge >? 0)
        then select_new_vertex_loop minEdges ids' e0 curEdge
        else select_new_vertex_loop minEdges ids' idSmallestVertex smallest
  end.

(** [select_new_vertex] on rank 0 (the other ranks return -1 at once):
    returns [idSmallestVertex] and [*smallest]. *)
Definition select_new_vertex (numProcs : Z) (minEdges : list Z) (smallest : Edge)
  : outcome (Z * Edge) :=
  match select_new_vertex_loop minEdges (iota numProcs) (-1) smallest with
  | None => Undefined_behaviour
  | Some r => if fst r =? -1 then Assertion_failed else Done r
  end.

(** The loop of [add_vertex_to_border] (lines 538-552). *)
Fixpoint add_vertex_to_border_loop (procRank N nbRows newVertex : Z) (adj : Adj)
  (isVisited : list Z) (ys : list Z) (border : list BorderNode)
  : option (list BorderNode) :=
  match ys with
  | [] => Some border
  | y :: ys' =>
      if procRank * nbRows + y >=? N then Some border
      else
        do v <- rd isVisited (procRank * nbRows + y);
        if negb (v =? 0) then
          add_vertex_to_border_loop procRank N nbRows newVertex adj isVisited ys' border
        else
          do w <- rd adj (y * N + newVertex);
          if w =? 0 then
            add_vertex_to_border_loop procRank N nbRows newVertex adj isVisited ys' border
          else
            do b <- rd border y;
            let curEdge := init_edge (border_z b) y (border_w b) in
            let candidate := init_edge newVertex y w in
            if (border_w b =? 0) || (cmp_edges curEdge candidate >? 0) then
              do border' <- wr border y (mkBorder w newVertex);
              add_vertex_to_border_loop procRank N nbRows newVertex adj isVisited ys' border'
            else
              add_vertex_to_border_loop procRank N nbRows newVertex adj isVisited ys' border
  end.

(** [add_vertex_to_border] returns [border] and [isVisited]. *)
Definition add_vertex_to_border (procRank : Z) (adj : Adj) (N newVertex : Z)
  (border : list BorderNode) (isVisited : list Z) (nbRows : Z)
  : option (list BorderNode * list Z) :=
  do isVisited' <- wr isVisited newVertex 1;
  do border' <- add_vertex_to_border_loop procRank N nbRows newVertex adj isVisited'
                  (iota nbRows) border;
  Some (border', isVisited').

(** The variables of one process in [parallel_prim]. *)
Record PrimProc : Type := mkPrimProc { pp_border : list BorderNode; pp_isVisited : list Z }.

(** All the processes, and the array [tree] of rank 0. *)
Record PrimWorld : Type := mkPrimWorld { pw_procs : list PrimProc; pw_tree : list Edge }.

(** Lines 565-567 on every rank. *)
Fixpoint prim_init_procs (numProcs N : Z) (adjs : Z -> Adj) (ranks : list Z)
  : option (list PrimProc) :=
  match ranks with
  | [] => Some []
  | r :: ranks' =>
      do cb <- create_border r (ceil_div N numProcs) (calloc_int N) N (adjs r);
      do ps <- prim_init_procs numProcs N adjs ranks';
      Some (mkPrimProc (fst cb) (snd cb) :: ps)
  end.

(** [find_closest_border] and [send_edge] on every rank: the array
    [minEdges] that [MPI_Gather] builds on rank 0. *)
Fixpoint gather_min_edges (numProcs N : Z) (ranks : list Z) (procs : list PrimProc)
  : option (list Z) :=
  match ranks with
  | [] => Some []
  | r :: ranks' =>
      do p <- rd procs r;
      do y <- find_closest_border r (pp_border p) (pp_isVisited p) N (ceil_div N numProcs);
      do c <- send_edge_contribution r (pp_border p) (ceil_div N numProcs) y;
      do rest <- gather_min_edges numProcs N ranks' procs;
      Some (c ++ rest)
  end.

(** [add_vertex_to_border] on every rank, with the vertex that [MPI_Bcast]
    brought from rank 0. *)
Fixpoint update_borders (numProcs N newVertex : Z) (adjs : Z -> Adj)
  (ranks : list Z) (procs : list PrimProc) : option (list PrimProc) :=
  match ranks with
  | [] => Some procs
  | r :: ranks' =>
      do p <- rd procs r;
      do ab <- add_vertex_to_border r (adjs r) N newVertex (pp_border p)
                 (pp_isVisited p) (ceil_div N numProcs);
      do procs' <- wr procs r (mkPrimProc (fst ab) (snd ab));
      update_borders numProcs N newVertex adjs ranks' procs'
  end.

(** [parallel_prim_iteration] (lines 555-562) on all the ranks, for the
    iteration [edge] of the loop of [parallel_prim].  The two collectives
    synchronise the processes. *)
Definition parallel_prim_iteration (numProcs N : Z) (adjs : Z -> Adj) (edge : Z)
  (w : PrimWorld) : outcome PrimWorld :=
  match gather_min_edges numProcs N (iota numProcs) (pw_procs w) with
  | None => Undefined_behaviour
  | Some minEdges =>
      match rd (pw_tree w) edge with
      | None => Undefined_behaviour
      | Some newEdge =>
          match select_new_vertex numProcs minEdges newEdge with
          | Done (newVertex, smallest) =>
              of_option (
                do tree' <- wr (pw_tree w) edge smallest;
                do procs' <- update_borders numProcs N newVertex adjs
                               (iota numProcs) (pw_procs w);
                Some (mkPrimWorld procs' tree'))
          | Assertion_failed => Assertion_failed
          | Undefined_behaviour => Undefined_behaviour
          end
      end
  end.

(** The loop [for (edge = 0; edge < N-1; ++edge)] of [parallel_prim]. *)
Fixpoint parallel_prim_loop (numProcs N : Z) (adjs : Z -> Adj) (edges : list Z)
  (w : PrimWorld) : outcome PrimWorld :=
  match edges with
  | [] => Done w
  | edge :: edges' =>
      match parallel_prim_iteration numProcs N adjs edge w with
      | Done w' => parallel_prim_loop numProcs N adjs edges' w'
      | Assertion_failed => Assertion_failed
      | Undefined_behaviour => Undefined_behaviour
      end
  end.

(** [parallel_prim] on all the ranks; the result is the array [tree] of
    rank 0. *)
Definition parallel_prim (numProcs : Z) (adjs : Z -> Adj) (N : Z) (tree : list Edge)
  : outcome (list Edge) :=
  match prim_init_procs numProcs N adjs (iota numProcs) with
  | None => Undefined_behaviour
  | Some procs =>
      match parallel_prim_loop numProcs N adjs (iota (N - 1)) (mkPrimWorld procs tree) with
      | Done w => Done (pw_tree w)
      | Assertion_failed => Assertion_failed
      | Undefined_behaviour => Undefined_behaviour
      end
  end.

(** The array [adj] of the process [procRank] holds its own rows of the
    graph [A]: row [y] of [adj] is row [procRank * nbRows + y] of [A]. *)
Definition own_rows (N nbRows : Z) (A adj : Adj) (procRank : Z) : Prop :=
  forall y c, 0 <= y -> procRank * nbRows + y < N -> 0 <= c < N ->
    0 <= y * N + c < Z.of_nat (length adj)
    /\ entry N adj y c = entry N A (procRank * nbRows + y) c.

(** The invariant of parallel Prim before the iteration [k]: all the
    processes hold the same [isVisited], in which [k + 1] vertices are
    marked; and the border entry of every vertex that is not visited and has
    a visited neighbour has a non-zero weight. *)
Definition prim_world_inv (N numProcs : Z) (A : Adj) (k : Z) (w : PrimWorld) : Prop :=
  exists iv,
    Z.of_nat (length iv) = N /\ visited iv 0 /\ count_visited iv = k + 1
    /\ Z.of_nat (length (pw_procs w)) = numProcs
    /\ N - 1 <= Z.of_nat (length (pw_tree w))
    /\ forall r p, rd (pw_procs w) r = Some p ->
         pp_isVisited p = iv
         /\ Z.of_nat (length (pp_border p)) = ceil_div N numProcs
         /\ forall y b, 0 <= y < ceil_div N numProcs ->
              r * ceil_div N numProcs + y < N ->
              rd (pp_border p) y = Some b ->
              ~ visited iv (r * ceil_div N numProcs + y) ->
              (exists u, 0 <= u < N /\ visited iv u
                         /\ entry N A (r * ceil_div N numProcs + y) u <> 0) ->
              border_w b <> 0.

(** The row [y] of the block of the process [procRank] is a candidate of
    [find_closest_border]: its vertex is not visited and its border weight
    is not zero. *)
Definition candidate_row (N nbRows procRank : Z) (border : list BorderNode)
  (iv : list Z) (y : Z) : Prop :=
  0 <= y < nbRows /\ procRank * nbRows + y < N
  /\ rd iv (y + procRank * nbRows) = Some 0
  /\ exists b, rd border y = Some b /\ border_w b <> 0.

(** What rank 0 learns from the triple [e0, e1, e2] that the rank [r]
    contributes to [minEdges]: [e0] is -1 or a vertex that is not visited,
    and it is not -1 when the rank has a candidate row. *)
Definition triple_ok (N numProcs : Z) (procs : list PrimProc) (iv : list Z)
  (r e0 : Z) : Prop :=
  (e0 <> -1 -> 0 <= e0 < N /\ rd iv e0 = Some 0)
  /\ ((exists p y, rd procs r = Some p
         /\ candidate_row N (ceil_div N numProcs) r (pp_border p) iv y) -> e0 <> -1).

(** The effect of [add_vertex_to_border] on the process [r], from [p] to
    [p']: non-zero border weights stay non-zero, and the rows that are not
    visited and are adjacent to [newVertex] get a non-zero weight. *)
Definition border_step (N numProcs : Z) (A : Adj) (iv' : list Z)
  (newVertex r : Z) (p p' : PrimProc) : Prop :=
  pp_isVisited p' = iv'
  /\ length (pp_border p') = length (pp_border p)
  /\ forall y b, 0 <= y < ceil_div N numProcs -> r * ceil_div N numProcs + y < N ->
       rd (pp_border p) y = Some b ->
       exists b', rd (pp_border p') y = Some b'
         /\ (border_w b <> 0 -> border_w b' <> 0)
         /\ (~ visited iv' (r * ceil_div N numProcs + y) ->
             entry N A (r * ceil_div N numProcs + y) newVertex <> 0 ->
             border_w b' <> 0).

(** ** Minimum spanning forests

    The order of the specification as a test. *)
Definition edge_ltb (a b : Edge) : bool :=
  (edge_w a <? edge_w b)
  || ((edge_w a =? edge_w b)
      && ((edge_i a <? edge_i b)
          || ((edge_i a =? edge_i b) && (edge_j a <? edge_j b)))).

(** The edges of [es] that come before [e]. *)
Definition below (e : Edge) (es : list Edge) : list Edge :=
  filter (fun x => edge_ltb x e) es.

(** The edge [e] is not the heaviest edge of a cycle of [es]: the edges of
    [es] before [e] do not connect its endpoints. *)
Definition light (es : list Edge) (e : Edge) : Prop :=
  ~ conn (below e es) (edge_i e) (edge_j e).

(** [out] is the minimum spanning forest of the edges [es], in the order of
    the edges: it is made of light edges, and the endpoints of every other
    edge of [es] are connected by edges of [out] that come before it. *)
Definition msf (es out : list Edge) : Prop :=
  StronglySorted edge_lt out
  /\ incl out es
  /\ (forall e, In e out -> light es e)
  /\ (forall e, In e es -> In e out \/ conn (below e out) (edge_i e) (edge_j e)).

(** The forest that [union_find] finds in the edges [es], sorted. *)
Definition kruskal_forest (N : Z) (es : list Edge) : list Edge :=
  match union_find (sort_edges es) N (Z.of_nat (length es)) (calloc_edges (N - 1)) with
  | Some (tree, n) => firstn (Z.to_nat n) tree
  | None => []
  end.

(** *** The regions of the matrix that parallel Kruskal scans *)

(** The edges of the graph [A] in the rows [rows], columns [cols u] of the
    row [u]. *)
Definition region_edges (N : Z) (A : Adj) (rows : list Z) (cols : Z -> list Z)
  : list Edge :=
  flat_map (fun u => row_edges N A u u (cols u)) rows.

(** The rows of the graph that the process [procRank] owns. *)
Definition block_rows (N nbRows procRank : Z) : list Z :=
  range (procRank * nbRows) (Z.min ((procRank + 1) * nbRows) N).

(** The edges inside the blocks of the ranks [t .. t+s-1]: rows [u] of these
    blocks, columns from the start of the group to [u]. *)
Definition group_edges (N : Z) (A : Adj) (nbRows t s : Z) : list Edge :=
  region_edges N A (range (t * nbRows) (Z.min ((t + s) * nbRows) N))
    (fun u => range (t * nbRows) (u + 1)).

(** The edges that the process [q] finds at step [s] in its rows and the
    columns of the receiving group. *)
Definition bip_edges (N : Z) (A : Adj) (nbRows q s : Z) : list Edge :=
  region_edges N A (block_rows N nbRows q) (submatrix_cols q s nbRows).

(** The two messages of [send_edges_to]: the count, then the edges. *)
Definition edge_msgs (src dst : Z) (es : list Edge) : Net :=
  [mkMsg src dst 0 [Z.of_nat (length es)]; mkMsg src dst 0 (wire_of_edges es)].

(** The invariant of the loop of [receive_edges] on the rank [g] at step
    [s], before the exchange [i] of [k]: [buf1] starts with the sorted list
    of the edges of the forest of the sending group and of the forests
    received so far, the three buffers keep their sizes, and the messages of
    the other senders are still on the network. *)
Definition recv_inv (N nb g s k cap : Z) (A : Adj) (i : Z) (st : RecvSt) : Prop :=
  exists m t1,
    rs_buf1 st = m ++ t1
    /\ rs_nbEdges st = Z.of_nat (length m)
    /\ StronglySorted edge_lt m
    /\ (forall e, In e m <->
          In e (kruskal_forest N (group_edges N A nb (g + s) s))
          \/ exists q, g + s <= q < g + s + i
                       /\ In e (kruskal_forest N (bip_edges N A nb q s)))
    /\ Z.of_nat (length (rs_buf1 st)) = cap
    /\ Z.of_nat (length (rs_buf2 st)) = cap
    /\ Z.of_nat (length (rs_newEdges st)) = s * (nb * nb)
    /\ rs_net st
       = flat_map (fun q => edge_msgs q g (kruskal_forest N (bip_edges N A nb q s)))
           (rev (range (g + s + i) (g + s + k)))
    /\ Z.of_nat (length m) <= (s * nb - 1) + i * ((s + 1) * nb - 1).

(** What the rank [q] of a sending group puts on the network at step [s]:
    its forest when it is the first rank of its group, and the forest of its
    rows and the columns of the receiving group. *)
Definition sender_msgs (N nb s : Z) (A : Adj) (q : Z) : Net :=
  (if q mod s =? 0
   then edge_msgs q (q - s) (kruskal_forest N (group_edges N A nb q s))
   else [])
  ++ edge_msgs q (q - q mod (2 * s)) (kruskal_forest N (bip_edges N A nb q s)).

(** The variables of the process [r] when the step size is [s]: the first
    rank of a group of [s] ranks holds the forest of the blocks of its
    group, and only such a rank is still a receiver. *)
Definition pk_inv (N nb : Z) (A : Adj) (s r : Z) (p : Proc) : Prop :=
  p_stepSize p = s /\ p_rank p = r / s
  /\ p_receiver p = (if r mod s =? 0 then 1 else 0)
  /\ (r mod s = 0 ->
      exists rest,
        p_forest p = kruskal_forest N (group_edges N A nb r s) ++ rest
        /\ p_forestSize p
           = Z.of_nat (length (kruskal_forest N (group_edges N A nb r s)))).

(** The messages on the network at step [s] when the ranks from [r] on have
    run: those of the senders of the group of rank [r - 1] that its
    receiver has not taken yet. *)
Definition pending_net (N nb numProcs s : Z) (A : Adj) (r : Z) : Net :=
  let g := (r - 1) - (r - 1) mod (2 * s) in
  flat_map (sender_msgs N nb s A)
    (rev (range (Z.max r (g + s)) (Z.min (g + 2 * s) numProcs))).

(** The state of all the processes at step [s] when the ranks from [r] on
    have run their iteration. *)
Definition round_inv (N nb numProcs s : Z) (A : Adj) (r : Z) (w : World) : Prop :=
  Z.of_nat (length (w_procs w)) = numProcs
  /\ w_net w = pending_net N nb numProcs s A r
  /\ forall q p, rd (w_procs w) q = Some p ->
       if q <? r then pk_inv N nb A s q p else pk_inv N nb A (2 * s) q p.

(** ** Prim's rule

    [prim_run N adj vis out vis']: from the visited vertices [vis], the
    edges [out] were added one at a time, each one an edge of the graph from
    a visited vertex [u] to a vertex [v] that is not visited, as light as
    any such edge; [v] is visited from then on, and [vis'] are the visited
    vertices in the end. *)
Inductive prim_run (N : Z) (adj : Adj) (vis : list Z) : list Edge -> list Z -> Prop :=
| prim_run_nil : prim_run N adj vis [] vis
| prim_run_snoc out vis' u v :
    prim_run N adj vis out vis' ->
    In u vis' -> ~ In v vis' -> 0 <= v < N -> entry N adj u v <> 0 ->
    (forall u' v', In u' vis' -> ~ In v' vis' -> 0 <= v' < N ->
       entry N adj u' v' <> 0 -> entry N adj u v <= entry N adj u' v') ->
    prim_run N adj vis (out ++ [init_edge u v (entry N adj u v)]) (v :: vis').

(** The border entry [b] of a vertex [v] that is not visited records a
    lightest edge from [v] to the visited vertices: the weight 0 when no
    visited vertex is adjacent to [v], and otherwise the weight of such an
    edge and its visited end. *)
Definition nearest_visited (N : Z) (A : Adj) (iv : list Z) (v : Z) (b : BorderNode)
  : Prop :=
  (border_w b = 0 -> forall u, 0 <= u < N -> visited iv u -> entry N A v u = 0)
  /\ (border_w b <> 0 ->
      0 <= border_z b < N /\ visited iv (border_z b)
      /\ border_w b = entry N A v (border_z b)
      /\ forall u, 0 <= u < N -> visited iv u -> entry N A v u <> 0 ->
           border_w b <= entry N A v u).

(** The border of the process [r] is up to date for the visited vertices
    [iv]. *)
Definition border_near (N numProcs : Z) (A : Adj) (iv : list Z) (r : Z)
  (border : list BorderNode) : Prop :=
  forall y b, 0 <= y < ceil_div N numProcs -> r * ceil_div N numProcs + y < N ->
    rd border y = Some b -> ~ visited iv (r * ceil_div N numProcs + y) ->
    nearest_visited N A iv (r * ceil_div N numProcs + y) b.

(** The triple [e0, e1, e2] that the rank [r] contributes to [minEdges]:
    the sentinel when the rank has no candidate row, and otherwise the
    vertex, the other end and the weight of a candidate row of least
    weight. *)
Definition triple_min (N numProcs : Z) (border : list BorderNode) (iv : list Z)
  (r e0 e1 e2 : Z) : Prop :=
  (e0 = -1 /\ forall y, ~ candidate_row N (ceil_div N numProcs) r border iv y)
  \/ (exists y b,
        candidate_row N (ceil_div N numProcs) r border iv y
        /\ rd border y = Some b
        /\ e0 = y + r * ceil_div N numProcs /\ e1 = border_z b /\ e2 = border_w b
        /\ forall y' b', candidate_row N (ceil_div N numProcs) r border iv y' ->
             rd border y' = Some b' -> border_w b <= border_w b').

(** The invariant of parallel Prim for Prim's rule, before the iteration
    [k]: the borders are up to date, the first [k] entries of [tree] are a
    run of Prim's rule that visited the vertices marked in [isVisited], and
    the other entries of [tree] are those of the array [tree0] that
    [parallel_prim] was given. *)
Definition prim_rule_inv (N numProcs : Z) (A : Adj) (tree0 : list Edge) (k : Z)
  (w : PrimWorld) (vis : list Z) : Prop :=
  exists iv,
    (forall r p, rd (pw_procs w) r = Some p ->
       pp_isVisited p = iv /\ border_near N numProcs A iv r (pp_border p))
    /\ (forall v, visited iv v <-> In v vis)
    /\ prim_run N A [0] (firstn (Z.to_nat k) (pw_tree w)) vis
    /\ skipn (Z.to_nat k) (pw_tree w) = skipn (Z.to_nat k) tree0
    /\ length (pw_tree w) = length tree0.

(** ** The output (lines 44-54, 109-111) *)

(** [printf("%d %d\n", tree[edge].i, tree[edge].j)] *)
Definition print_edge (e : Edge) : string :=
  (print_int (edge_i e) ++ " " ++ print_int (edge_j e) ++ newline)%string.

(** The loop of [print_tree]: the text it prints and the value of [sum]. *)
Fixpoint print_tree_loop (tree : list Edge) (edges : list Z) (sum : Z)
  : option (string * Z) :=
  match edges with
  | [] => Some (EmptyString, sum)
  | edge :: edges' =>
      do e <- rd tree edge;
      do r <- print_tree_loop tree edges' (wrap (sum + edge_w e));
      Some ((print_edge e ++ fst r)%string, snd r)
  end.

(** [print_tree] returns the text it prints.  [sum] is printed only when
    [DEBUG] is defined, and the program does not define it. *)
Definition print_tree (tree : list Edge) (nbEdges : Z) : option string :=
  do r <- print_tree_loop tree (iota nbEdges) 0;
  Some (fst r).

(** What [computeMST] prints on a single process (rank 0) that runs
    sequential Prim: lines 80, 88 and 109-111. *)
Definition computeMST_prim_seq (N M : Z) (adj : Adj) : option string :=
  let tree := calloc_edges (N - 1) in
  do r <- sequential_prim N M adj tree;
  print_tree (fst r) (N - 1).

(** The same for sequential Kruskal: lines 80, 97 and 109-111.  The number
    of edges that [sequential_kruskal] returns is not used. *)
Definition computeMST_kruskal_seq (N M : Z) (adj : Adj) : option string :=
  let tree := calloc_edges (N - 1) in
  do r <- sequential_kruskal N M adj tree;
  print_tree (fst r) (N - 1).

(** The lines of a list of edges, one after the other. *)
Definition print_edges (es : list Edge) : string :=
  fold_right (fun e s => (print_edge e ++ s)%string) EmptyString es.



(** * Properties *)

(** ** Arrays and counters *)

Lemma rd_Some {A} (l : list A) k x :
  rd l k = Some x <-> 0 <= k /\ nth_error l (Z.to_nat k) = Some x.
Proof.
  unfold rd. destruct (Z.ltb_spec k 0); split; intros H0.
  - discriminate.
  - lia.
  - split; [lia | exact H0].
  - tauto.
Qed.

Lemma rd_in_range {A} (l : list A) k :
  0 <= k < Z.of_nat (length l) -> exists x, rd l k = Some x.
Proof.
  intros H. unfold rd. destruct (Z.ltb_spec k 0); [lia|].
  destruct (nth_error l (Z.to_nat k)) eqn:E; [eauto|].
  apply nth_error_None in E. lia.
Qed.

Lemma rd_range {A} (l : list A) k x :
  rd l k = Some x -> 0 <= k < Z.of_nat (length l).
Proof.
  intros H. apply rd_Some in H. destruct H as [H0 H].
  assert (nth_error l (Z.to_nat k) <> None) by congruence.
  apply nth_error_Some in H1. lia.
Qed.

Lemma rd_In {A} (l : list A) k x : rd l k = Some x -> In x l.
Proof. intros H. apply rd_Some in H. eapply nth_error_In, H. Qed.

Lemma length_upd {A} (l : list A) n x : length (upd l n x) = length l.
Proof. revert n; induction l; intros [|n]; simpl; auto. Qed.

Lemma nth_error_upd_same {A} (l : list A) n x :
  (n < length l)%nat -> nth_error (upd l n x) n = Some x.
Proof.
  revert n; induction l; intros [|n]; simpl; intros; try lia; auto.
  apply IHl. lia.
Qed.

Lemma nth_error_upd_other {A} (l : list A) n m x :
  n <> m -> nth_error (upd l n x) m = nth_error l m.
Proof.
  revert n m; induction l; intros [|n] [|m]; simpl; intros; try congruence; auto.
Qed.

Lemma wr_Some {A} (l : list A) k x l' :
  wr l k x = Some l' <->
  0 <= k < Z.of_nat (length l) /\ l' = upd l (Z.to_nat k) x.
Proof.
  unfold wr.
  destruct (Z.leb_spec 0 k); destruct (Z.ltb_spec k (Z.of_nat (length l))); simpl;
    split; intros H1; try easy; try lia.
  - inversion H1; subst. split; [lia | reflexivity].
  - destruct H1 as [_ ->]. reflexivity.
Qed.

Lemma wr_in_range {A} (l : list A) k x :
  0 <= k < Z.of_nat (length l) -> wr l k x = Some (upd l (Z.to_nat k) x).
Proof. intros H. apply wr_Some. auto. Qed.

Lemma wr_length {A} (l : list A) k x l' :
  wr l k x = Some l' -> length l' = length l.
Proof. intros H. apply wr_Some in H. destruct H as [_ ->]. apply length_upd. Qed.

Lemma rd_wr_same {A} (l : list A) k x l' :
  wr l k x = Some l' -> rd l' k = Some x.
Proof.
  intros H. apply wr_Some in H. destruct H as [Hk ->].
  apply rd_Some. split; [lia|]. apply nth_error_upd_same. lia.
Qed.

Lemma rd_wr_other {A} (l : list A) k x l' m :
  wr l k x = Some l' -> m <> k -> rd l' m = rd l m.
Proof.
  intros H Hm. apply wr_Some in H. destruct H as [Hk ->].
  unfold rd. destruct (Z.ltb_spec m 0); [reflexivity|].
  apply nth_error_upd_other. lia.
Qed.

Lemma length_iota n : length (iota n) = Z.to_nat n.
Proof. unfold iota. now rewrite length_map, length_seq. Qed.

Lemma In_iota n k : In k (iota n) <-> 0 <= k < n.
Proof.
  unfold iota. rewrite in_map_iff. split.
  - intros (x & <- & Hx). apply in_seq in Hx. lia.
  - intros H. exists (Z.to_nat k). split; [lia|]. apply in_seq. lia.
Qed.

Lemma iota_nonpos n : n <= 0 -> iota n = [].
Proof. intros H. unfold iota. replace (Z.to_nat n) with O by lia. reflexivity. Qed.

Lemma iota_succ n : 0 <= n -> iota (n + 1) = iota n ++ [n].
Proof.
  intros H. unfold iota. replace (Z.to_nat (n + 1)) with (S (Z.to_nat n)) by lia.
  rewrite seq_S, map_app. simpl. f_equal. f_equal. lia.
Qed.

Lemma length_range a b : length (range a b) = Z.to_nat (b - a).
Proof. unfold range. now rewrite length_map, length_iota. Qed.

Lemma In_range a b k : In k (range a b) <-> a <= k < b.
Proof.
  unfold range. rewrite in_map_iff. split.
  - intros (x & <- & Hx). apply In_iota in Hx. lia.
  - intros H. exists (k - a). split; [lia|]. apply In_iota. lia.
Qed.

Lemma range_empty a b : b <= a -> range a b = [].
Proof. intros H. unfold range. rewrite iota_nonpos by lia. reflexivity. Qed.

Lemma range_cons a b : a < b -> range a b = a :: range (a + 1) b.
Proof.
  intros H. unfold range, iota.
  replace (Z.to_nat (b - a)) with (S (Z.to_nat (b - (a + 1)))) by lia.
  simpl. f_equal; [lia|].
  rewrite <- seq_shift, !map_map. apply map_ext. intros x. lia.
Qed.

Lemma range_snoc a b : a <= b -> range a (b + 1) = range a b ++ [b].
Proof.
  intros H. unfold range. replace (b + 1 - a) with ((b - a) + 1) by lia.
  rewrite iota_succ by lia. rewrite map_app. simpl. f_equal. f_equal. lia.
Qed.

Lemma range_0 n : range 0 n = iota n.
Proof.
  unfold range. rewrite Z.sub_0_r. rewrite (map_ext _ (fun k => k)) by (intros; lia).
  apply map_id.
Qed.

Lemma NoDup_iota n : NoDup (iota n).
Proof.
  unfold iota. apply Finite.Injective_map_NoDup; [|apply seq_NoDup].
  intros x y. lia.
Qed.

Lemma NoDup_range a b : NoDup (range a b).
Proof.
  unfold range. apply Finite.Injective_map_NoDup; [|apply NoDup_iota].
  intros x y. lia.
Qed.

(** ** Machine integers *)

Lemma wrap_small z : in_int z -> wrap z = z.
Proof.
  unfold in_int, INT_MIN, INT_MAX, wrap. intros H.
  rewrite Z.mod_small; lia.
Qed.

(** ** The edge order *)

Lemma Edge_eq (a b : Edge) :
  edge_i a = edge_i b -> edge_j a = edge_j b -> edge_w a = edge_w b -> a = b.
Proof. destruct a, b; simpl; congruence. Qed.

Lemma cmp_edges_valid N a b :
  N <= INT_MAX + 1 -> valid_edge N a -> valid_edge N b ->
  cmp_edges a b =
    if negb (edge_w a =? edge_w b) then edge_w a - edge_w b
    else if negb (edge_i a =? edge_i b) then edge_i a - edge_i b
    else edge_j a - edge_j b.
Proof.
  unfold valid_edge, cmp_edges, int_sub. intros HN Ha Hb.
  rewrite !wrap_small; [reflexivity| |  |]; unfold in_int, INT_MIN, INT_MAX in *; lia.
Qed.

Lemma cmp_edges_neg N a b :
  N <= INT_MAX + 1 -> valid_edge N a -> valid_edge N b ->
  (cmp_edges a b < 0 <-> edge_lt a b).
Proof.
  intros HN Ha Hb. rewrite (cmp_edges_valid N) by assumption. unfold edge_lt.
  destruct (Z.eqb_spec (edge_w a) (edge_w b)); simpl; [|lia].
  destruct (Z.eqb_spec (edge_i a) (edge_i b)); simpl; lia.
Qed.

Lemma cmp_edges_pos N a b :
  N <= INT_MAX + 1 -> valid_edge N a -> valid_edge N b ->
  (cmp_edges a b > 0 <-> edge_lt b a).
Proof.
  intros HN Ha Hb. rewrite (cmp_edges_valid N) by assumption. unfold edge_lt.
  destruct (Z.eqb_spec (edge_w a) (edge_w b)); simpl; [|lia].
  destruct (Z.eqb_spec (edge_i a) (edge_i b)); simpl; lia.
Qed.

Lemma cmp_edges_zero N a b :
  N <= INT_MAX + 1 -> valid_edge N a -> valid_edge N b ->
  (cmp_edges a b = 0 <-> a = b).
Proof.
  intros HN Ha Hb. rewrite (cmp_edges_valid N) by assumption. split.
  - destruct (Z.eqb_spec (edge_w a) (edge_w b)); simpl; [|lia].
    destruct (Z.eqb_spec (edge_i a) (edge_i b)); simpl; [|lia].
    intros H. apply Edge_eq; lia.
  - intros ->. rewrite !Z.eqb_refl. simpl. lia.
Qed.

Lemma edge_lt_irrefl a : ~ edge_lt a a.
Proof. unfold edge_lt. lia. Qed.

Lemma edge_lt_trans a b c : edge_lt a b -> edge_lt b c -> edge_lt a c.
Proof. unfold edge_lt. lia. Qed.

Lemma edge_lt_total a b : edge_lt a b \/ a = b \/ edge_lt b a.
Proof.
  destruct (Z.lt_total (edge_w a) (edge_w b)) as [H|[H|H]];
  destruct (Z.lt_total (edge_i a) (edge_i b)) as [H1|[H1|H1]];
  destruct (Z.lt_total (edge_j a) (edge_j b)) as [H2|[H2|H2]];
  unfold edge_lt; try (left; lia); try (right; right; lia).
  right; left. now apply Edge_eq.
Qed.

Lemma edge_lt_asym a b : edge_lt a b -> ~ edge_lt b a.
Proof. unfold edge_lt. lia. Qed.

(** C6.  On edges of the data model (a weight that is a non-negative [int],
    endpoints in [[0, N)]), [cmp_edges a b] is negative exactly when [a]
    precedes [b] in the order (weight, i, j), positive exactly when [b]
    precedes [a], zero exactly when the three fields agree; so the relation
    [cmp_edges a b < 0] is a strict total order on these edges. *)
Theorem cmp_edges_lexicographic (N : Z) (a b : Edge) :
  N <= INT_MAX + 1 -> valid_edge N a -> valid_edge N b ->
  (cmp_edges a b < 0 <-> edge_lt a b)
  /\ (cmp_edges a b > 0 <-> edge_lt b a)
  /\ (cmp_edges a b = 0 <->
        edge_w a = edge_w b /\ edge_i a = edge_i b /\ edge_j a = edge_j b)
  /\ strict_total_order_on (valid_edge N) (fun x y => cmp_edges x y < 0).
Proof.
  intros HN Ha Hb. repeat split.
  - now apply (cmp_edges_neg N).
  - now apply (cmp_edges_neg N).
  - now apply (cmp_edges_pos N).
  - now apply (cmp_edges_pos N).
  - apply (cmp_edges_zero N) in H; auto. now subst.
  - apply (cmp_edges_zero N) in H; auto. now subst.
  - apply (cmp_edges_zero N) in H; auto. now subst.
  - intros (H1 & H2 & H3). apply (cmp_edges_zero N); auto. now apply Edge_eq.
  - intros x Hx H. apply (cmp_edges_neg N) in H; auto. now apply edge_lt_irrefl in H.
  - intros x y z Hx Hy Hz H1 H2.
    apply (cmp_edges_neg N) in H1, H2; auto. apply (cmp_edges_neg N); auto.
    eapply edge_lt_trans; eauto.
  - intros x y Hx Hy. rewrite !(cmp_edges_neg N) by auto. apply edge_lt_total.
Qed.

Lemma cmp_edges_lexicographic_witness :
  (cmp_edges (mkEdge 0 1 1) (mkEdge 0 2 1) < 0 <-> edge_lt (mkEdge 0 1 1) (mkEdge 0 2 1))
  /\ cmp_edges (mkEdge 0 1 1) (mkEdge 0 2 1) = -1.
Proof.
  split; [|reflexivity].
  apply (cmp_edges_lexicographic 4 (mkEdge 0 1 1) (mkEdge 0 2 1));
    unfold valid_edge, INT_MAX; simpl; lia.
Defined.


(** ** The dispatcher *)

Lemma list_ascii_app (s t : string) :
  list_ascii_of_string (s ++ t) = list_ascii_of_string s ++ list_ascii_of_string t.
Proof. induction s; simpl; [reflexivity | now rewrite IHs]. Qed.

Lemma string_app_assoc (s t u : string) : ((s ++ t) ++ u = s ++ (t ++ u))%string.
Proof. induction s; simpl; [reflexivity | now rewrite IHs]. Qed.

Lemma string_of_uint_no_newline d c :
  In c (list_ascii_of_string (NilEmpty.string_of_uint d)) -> c <> ascii_of_nat 10.
Proof.
  induction d; simpl; intros H; try contradiction;
    (destruct H as [<- | H]; [discriminate | now apply IHd]).
Qed.

Lemma print_int_no_newline n c :
  In c (list_ascii_of_string (print_int n)) -> c <> ascii_of_nat 10.
Proof.
  unfold print_int, NilZero.string_of_int, NilZero.string_of_uint.
  destruct (Z.to_int n) as [d|d].
  - destruct d; try apply string_of_uint_no_newline.
    simpl. intros [<-|[]]. discriminate.
  - destruct d; simpl; intros [<-|H]; try discriminate;
      try (revert H; apply (string_of_uint_no_newline (_ d)); fail).
    + destruct H as [<-|[]]. discriminate.
    + revert H. apply (string_of_uint_no_newline (Decimal.D0 d)).
    + revert H. apply (string_of_uint_no_newline (Decimal.D1 d)).
    + revert H. apply (string_of_uint_no_newline (Decimal.D2 d)).
    + revert H. apply (string_of_uint_no_newline (Decimal.D3 d)).
    + revert H. apply (string_of_uint_no_newline (Decimal.D4 d)).
    + revert H. apply (string_of_uint_no_newline (Decimal.D5 d)).
    + revert H. apply (string_of_uint_no_newline (Decimal.D6 d)).
    + revert H. apply (string_of_uint_no_newline (Decimal.D7 d)).
    + revert H. apply (string_of_uint_no_newline (Decimal.D8 d)).
    + revert H. apply (string_of_uint_no_newline (Decimal.D9 d)).
Qed.

Lemma seq_error_single_line numProcs : single_line (seq_error numProcs).
Proof.
  exists ("ERROR: Sequential algorithm is ran with " ++ print_int numProcs
          ++ " MPI processes.")%string.
  split.
  - unfold seq_error. now rewrite !string_app_assoc.
  - intros c. rewrite !list_ascii_app, !in_app_iff.
    intros [H|[H|H]].
    + simpl in H. repeat (destruct H as [<-|H]; [discriminate|]). contradiction.
    + now apply print_int_no_newline in H.
    + simpl in H. repeat (destruct H as [<-|H]; [discriminate|]). contradiction.
Qed.

(** C9.  [computeMST] aborts exactly on misconfiguration.  With a sequential
    algorithm name and a process count other than 1, rank 0 prints one line
    that starts with [ERROR:] and aborts; with a name that is none of the
    four, rank 0 prints a diagnostic that starts with [ERROR:] and aborts; in
    every other case the process prints no diagnostic, does not abort, and
    calls the selected algorithm (rank 0 then prints the tree).  The other
    ranks never print a diagnostic and never abort. *)
Theorem computeMST_aborts_exactly_on_misconfiguration
  (numProcs : Z) (algoName : string) :
  (sequential_name algoName -> numProcs <> 1 ->
     computeMST 0 numProcs algoName = [Printf (seq_error numProcs); Abort]
     /\ prefix "ERROR:" (seq_error numProcs) = true
     /\ single_line (seq_error numProcs))
  /\ (~ known_name algoName ->
     computeMST 0 numProcs algoName = [Printf (name_error algoName); Abort]
     /\ prefix "ERROR:" (name_error algoName) = true)
  /\ (known_name algoName -> (sequential_name algoName -> numProcs = 1) ->
     forall procRank, exists a,
       selected algoName = Some a
       /\ computeMST procRank numProcs algoName =
            Call a :: (if procRank =? 0 then [Print_tree] else []))
  /\ (forall procRank e, procRank <> 0 ->
        In e (computeMST procRank numProcs algoName) ->
        ~ is_diagnostic e /\ e <> Abort).
Proof.
  repeat apply conj.
  - intros Hs Hn. apply Z.eqb_neq in Hn.
    split; [|split; [reflexivity | apply seq_error_single_line]].
    unfold computeMST. destruct Hs as [ -> | -> ]; simpl; rewrite Hn; reflexivity.
  - intros Hk. split; [|reflexivity].
    unfold computeMST, known_name in *.
    destruct (String.eqb_spec algoName "prim-seq"); [tauto|].
    destruct (String.eqb_spec algoName "kruskal-seq"); [tauto|].
    destruct (String.eqb_spec algoName "prim-par"); [tauto|].
    destruct (String.eqb_spec algoName "kruskal-par"); [tauto|].
    reflexivity.
  - intros Hk Hs procRank. unfold sequential_name in Hs.
    destruct Hk as [ -> | [ -> | [ -> | -> ] ] ]; eexists; (split; [reflexivity|]);
      unfold computeMST; simpl; try rewrite Hs by auto; simpl;
      destruct (procRank =? 0); reflexivity.
  - intros procRank e Hr. apply Z.eqb_neq in Hr. unfold computeMST. rewrite Hr.
    destruct (String.eqb algoName "prim-seq");
      [simpl; intros [<-|[]]; split; [tauto | discriminate] |].
    destruct (String.eqb algoName "kruskal-seq");
      [simpl; intros [<-|[]]; split; [tauto | discriminate] |].
    destruct (String.eqb algoName "prim-par");
      [simpl; intros [<-|[]]; split; [tauto | discriminate] |].
    destruct (String.eqb algoName "kruskal-par");
      [simpl; intros [<-|[]]; split; [tauto | discriminate] |].
    simpl. contradiction.
Qed.

Lemma computeMST_aborts_exactly_on_misconfiguration_witness :
  computeMST 0 4 "kruskal-seq" = [Printf (seq_error 4); Abort]
  /\ prefix "ERROR:" (seq_error 4) = true
  /\ single_line (seq_error 4).
Proof.
  apply (computeMST_aborts_exactly_on_misconfiguration 4 "kruskal-seq").
  - right. reflexivity.
  - lia.
Defined.


(** ** The wire codec *)

Lemma rd_app_mid {A} (l1 l2 : list A) x :
  rd (l1 ++ x :: l2) (Z.of_nat (length l1)) = Some x.
Proof.
  apply rd_Some. split; [lia|]. rewrite Nat2Z.id.
  rewrite nth_error_app2 by lia. now rewrite Nat.sub_diag.
Qed.

Lemma upd_app_mid {A} (l1 l2 : list A) x y :
  upd (l1 ++ x :: l2) (length l1) y = l1 ++ y :: l2.
Proof. induction l1; simpl; [reflexivity | now rewrite IHl1]. Qed.

Lemma wr_app_mid {A} (l1 l2 : list A) x y :
  wr (l1 ++ x :: l2) (Z.of_nat (length l1)) y = Some (l1 ++ y :: l2).
Proof.
  rewrite wr_in_range.
  - now rewrite Nat2Z.id, upd_app_mid.
  - rewrite length_app. simpl. lia.
Qed.

Lemma rd_at {A} (l1 l2 : list A) x k :
  k = Z.of_nat (length l1) -> rd (l1 ++ x :: l2) k = Some x.
Proof. intros ->. apply rd_app_mid. Qed.

Lemma wr_at {A} (l1 l2 : list A) x y k :
  k = Z.of_nat (length l1) -> wr (l1 ++ x :: l2) k y = Some (l1 ++ y :: l2).
Proof. intros ->. apply wr_app_mid. Qed.

Lemma length_wire es : length (wire_of_edges es) = (3 * length es)%nat.
Proof. induction es; simpl; lia. Qed.

Lemma wire_app es1 es2 : wire_of_edges (es1 ++ es2) = wire_of_edges es1 ++ wire_of_edges es2.
Proof. unfold wire_of_edges. apply flat_map_app. Qed.

Lemma send_edges_fill_spec (es2 es1 rest : list Edge) (tail : list Z) :
  send_edges_fill (es1 ++ es2 ++ rest)
    (range (Z.of_nat (length es1)) (Z.of_nat (length es1) + Z.of_nat (length es2)))
    (wire_of_edges es1 ++ repeat 0 (3 * length es2) ++ tail)
  = Some (wire_of_edges es1 ++ wire_of_edges es2 ++ tail).
Proof.
  revert es1. induction es2 as [|e es2 IH]; intros es1.
  - simpl. rewrite range_empty by lia. reflexivity.
  - rewrite range_cons by (simpl length; lia).
    cbn [send_edges_fill]. simpl app at 1.
    rewrite rd_app_mid.
    replace (3 * length (e :: es2))%nat with (S (S (S (3 * length es2)))) by (simpl; lia).
    cbn [repeat app].
    rewrite (wr_at (wire_of_edges es1)) by (rewrite length_wire; lia).
    change (wire_of_edges es1 ++ edge_i e :: 0 :: ?t)
      with (wire_of_edges es1 ++ [edge_i e] ++ 0 :: t).
    rewrite app_assoc.
    rewrite (wr_at (wire_of_edges es1 ++ [edge_i e]))
      by (rewrite length_app, length_wire; simpl length; lia).
    change ((wire_of_edges es1 ++ [edge_i e]) ++ edge_j e :: 0 :: ?t)
      with ((wire_of_edges es1 ++ [edge_i e]) ++ [edge_j e] ++ 0 :: t).
    rewrite app_assoc.
    rewrite (wr_at ((wire_of_edges es1 ++ [edge_i e]) ++ [edge_j e]))
      by (rewrite !length_app, length_wire; simpl length; lia).
    specialize (IH (es1 ++ [e])).
    rewrite <- !app_assoc in IH. simpl app in IH.
    rewrite length_app in IH. simpl length in IH.
    rewrite wire_app in IH. simpl in IH. rewrite <- !app_assoc in IH. simpl in IH.
    replace (Z.of_nat (length es1) + 1) with (Z.of_nat (length es1 + 1)) by lia.
    replace (Z.of_nat (length es1) + Z.of_nat (length (e :: es2)))
      with (Z.of_nat (length es1 + 1) + Z.of_nat (length es2)) by (simpl length; lia).
    rewrite <- !app_assoc. simpl. exact IH.
Qed.

Lemma receive_edges_fill_spec (es2 es1 : list Edge) (old rest : list Edge) (tail : list Z) :
  length old = length es2 ->
  receive_edges_fill (wire_of_edges es1 ++ wire_of_edges es2 ++ tail)
    (range (Z.of_nat (length es1)) (Z.of_nat (length es1) + Z.of_nat (length es2)))
    (es1 ++ old ++ rest)
  = Some (es1 ++ es2 ++ rest).
Proof.
  revert es1 old. induction es2 as [|e es2 IH]; intros es1 old Hlen.
  - destruct old; [|discriminate]. simpl. rewrite range_empty by lia. reflexivity.
  - destruct old as [|o old]; [discriminate|].
    rewrite range_cons by (simpl length; lia).
    cbn [receive_edges_fill]. simpl wire_of_edges. simpl app.
    rewrite (rd_at (wire_of_edges es1)) by (rewrite length_wire; lia).
    change (wire_of_edges es1 ++ edge_i e :: edge_j e :: ?t)
      with (wire_of_edges es1 ++ [edge_i e] ++ edge_j e :: t).
    rewrite app_assoc.
    rewrite (rd_at (wire_of_edges es1 ++ [edge_i e]))
      by (rewrite length_app, length_wire; simpl length; lia).
    change ((wire_of_edges es1 ++ [edge_i e]) ++ edge_j e :: edge_w e :: ?t)
      with ((wire_of_edges es1 ++ [edge_i e]) ++ [edge_j e] ++ edge_w e :: t).
    rewrite app_assoc.
    rewrite (rd_at ((wire_of_edges es1 ++ [edge_i e]) ++ [edge_j e]))
      by (rewrite !length_app, length_wire; simpl length; lia).
    rewrite wr_app_mid.
    replace (mkEdge (edge_i e) (edge_j e) (edge_w e)) with e by (now destruct e).
    specialize (IH (es1 ++ [e]) old).
    rewrite <- !app_assoc in IH. simpl app in IH.
    rewrite length_app in IH. simpl length in IH.
    rewrite wire_app in IH. simpl in IH. rewrite <- !app_assoc in IH. simpl in IH.
    replace (Z.of_nat (length es1) + 1) with (Z.of_nat (length es1 + 1)) by lia.
    replace (Z.of_nat (length es1) + Z.of_nat (length (e :: es2)))
      with (Z.of_nat (length es1 + 1) + Z.of_nat (length es2)) by (simpl length; lia).
    rewrite <- !app_assoc. simpl. apply IH. simpl in Hlen. lia.
Qed.

Lemma MPI_Recv_first self count source tag (net rest : Net) data :
  no_pending source self net ->
  Z.of_nat (length data) <= count ->
  MPI_Recv self count source tag (net ++ mkMsg source self tag data :: rest)
  = Some (data, net ++ rest).
Proof.
  intros Hnp Hc. induction net as [|m net IH]; simpl.
  - unfold msg_matches. simpl. rewrite !Z.eqb_refl. simpl.
    destruct (Z.leb_spec (Z.of_nat (length data)) count); [reflexivity | lia].
  - assert (Hm : msg_matches self source tag m = false).
    { unfold msg_matches.
      destruct (Z.eqb_spec (msg_src m) source); [|reflexivity].
      destruct (Z.eqb_spec (msg_dst m) self); [|reflexivity].
      exfalso. apply (Hnp m); simpl; auto. }
    rewrite Hm. rewrite IH; [reflexivity|].
    intros m' Hin. apply Hnp. now right.
Qed.

Lemma firstn_skipn_split {A} (n : nat) (l : list A) :
  (n <= length l)%nat ->
  exists l1 l2, l = l1 ++ l2 /\ length l1 = n /\ l1 = firstn n l /\ l2 = skipn n l.
Proof.
  intros H. exists (firstn n l), (skipn n l). repeat split.
  - symmetry. apply firstn_skipn.
  - apply firstn_length_le. exact H.
Qed.

(** C8.  The wire codec round-trips.  Sending the first [nbEdges] edges of a
    buffer puts two messages with tag 0 on the network, the count [nbEdges]
    and then the [3 * nbEdges] ints [[i, j, w, i, j, w, ...]]; a receive by
    the target from the sender returns the count [nbEdges] and writes the
    same edges, in the sender's order, at the start of the receive buffer,
    and takes both messages off the network. *)
Theorem edge_codec_round_trip
  (self target stepSize nbEdges : Z) (edges buf : list Edge) (net : Net) :
  0 <= nbEdges <= Z.of_nat (length edges) ->
  nbEdges <= Z.of_nat (length buf) ->
  no_pending self target net ->
  let sent := firstn (Z.to_nat nbEdges) edges in
  send_edges_to self target edges nbEdges net =
    Some (net ++ [mkMsg self target 0 [nbEdges];
                  mkMsg self target 0 (wire_of_edges sent)])
  /\ receive_edges_from target stepSize self buf
       (net ++ [mkMsg self target 0 [nbEdges];
                mkMsg self target 0 (wire_of_edges sent)])
     = Some (sent ++ skipn (Z.to_nat nbEdges) buf, nbEdges, net).
Proof.
  intros Hn Hb Hnp sent.
  destruct (firstn_skipn_split (Z.to_nat nbEdges) edges) as (es & rest & He & Hl & Hes & _);
    [lia|].
  destruct (firstn_skipn_split (Z.to_nat nbEdges) buf) as (old & brest & Hbuf & Hlo & _ & Hbr);
    [lia|].
  assert (Hsent : sent = es) by (now subst sent). rewrite Hsent. clear Hsent sent.
  assert (HnZ : nbEdges = Z.of_nat (length es)) by lia.
  split.
  - unfold send_edges_to.
    pose proof (send_edges_fill_spec es [] rest []) as Hs.
    simpl in Hs. rewrite app_nil_r in Hs.
    rewrite <- HnZ in Hs. rewrite <- He in Hs. rewrite range_0 in Hs.
    unfold calloc_int.
    replace (Z.to_nat (nbEdges * 3)) with (length es + (length es + (length es + 0)))%nat by lia.
    rewrite app_nil_r in Hs. rewrite Hs.
    unfold MPI_Send. rewrite <- app_assoc. reflexivity.
  - unfold receive_edges_from.
    rewrite (MPI_Recv_first target 1 self 0 net _ [nbEdges]); [|assumption|simpl; lia].
    cbn [fst snd].
    rewrite (MPI_Recv_first target (nbEdges * 3) self 0 net [] (wire_of_edges es));
      [|assumption|rewrite length_wire; lia].
    cbn [fst snd]. rewrite app_nil_r.
    unfold overlay, calloc_int.
    rewrite skipn_all2
      by (rewrite repeat_length; pose proof (length_wire es); lia).
    pose proof (receive_edges_fill_spec es [] old brest [] (eq_trans Hlo (eq_sym Hl))) as Hr.
    simpl in Hr. rewrite !app_nil_r in *.
    rewrite <- HnZ in Hr. rewrite range_0 in Hr.
    rewrite <- Hbr. rewrite Hbuf, Hr. reflexivity.
Qed.

Lemma edge_codec_round_trip_witness :
  receive_edges_from 0 1 1 (calloc_edges 4)
    ([] ++ [mkMsg 1 0 0 [2]; mkMsg 1 0 0 [0; 1; 5; 1; 2; 7]])
  = Some ([mkEdge 0 1 5; mkEdge 1 2 7; zero_edge; zero_edge], 2, []).
Proof.
  apply (edge_codec_round_trip 1 0 1 2 [mkEdge 0 1 5; mkEdge 1 2 7; mkEdge 2 3 9]
           (calloc_edges 4) []).
  - simpl. lia.
  - simpl. lia.
  - intros m [].
Defined.


(** ** Disjoint sets *)

Lemma nth_error_iota n k :
  (k < Z.to_nat n)%nat -> nth_error (iota n) k = Some (Z.of_nat k).
Proof.
  intros H. unfold iota. rewrite nth_error_map, nth_error_seq.
  destruct (Nat.ltb_spec k (Z.to_nat n)); [reflexivity | lia].
Qed.

Lemma rd_iota n k : 0 <= k < n -> rd (iota n) k = Some k.
Proof.
  intros H. apply rd_Some. split; [lia|]. rewrite nth_error_iota by lia.
  f_equal. lia.
Qed.

Lemma rd_map {A B} (f : A -> B) l k : rd (map f l) k = option_map f (rd l k).
Proof. unfold rd. destruct (k <? 0); [reflexivity|]. apply nth_error_map. Qed.

Lemma rd_create_nodes N v :
  0 <= v < N -> rd (create_nodes N) v = Some (mkNode v 1).
Proof. intros H. unfold create_nodes. now rewrite rd_map, rd_iota. Qed.

Lemma length_create_nodes N : 0 <= N -> Z.of_nat (length (create_nodes N)) = N.
Proof. intros H. unfold create_nodes. rewrite length_map, length_iota. lia. Qed.

Lemma create_nodes_wf N : 0 <= N -> wf_nodes N 1 (create_nodes N).
Proof.
  intros HN. split; [now apply length_create_nodes|].
  intros v nd Hv. pose proof (rd_range _ _ _ Hv) as Hr.
  rewrite length_create_nodes in Hr by assumption.
  rewrite rd_create_nodes in Hv by assumption. inversion Hv; subst; simpl.
  split; [lia|]. exists (mkNode v 1). split; [now apply rd_create_nodes | congruence].
Qed.

Lemma Root_functional nodes v r r' : Root nodes v r -> Root nodes v r' -> r = r'.
Proof.
  intros H. revert r'. induction H; intros r' H'; inversion H'; subst; try congruence.
  apply IHRoot. congruence.
Qed.

Lemma Root_is_root nodes v r :
  Root nodes v r -> exists nr, rd nodes r = Some nr /\ node_father nr = r.
Proof. induction 1; eauto. Qed.

Lemma Root_root nodes v r : Root nodes v r -> Root nodes r r.
Proof. intros H. apply Root_is_root in H. destruct H as (nr & H1 & H2). econstructor; eauto. Qed.

Lemma Root_in_range nodes v r :
  Root nodes v r -> 0 <= v < Z.of_nat (length nodes) /\ 0 <= r < Z.of_nat (length nodes).
Proof.
  intros H. split.
  - inversion H; subst; eapply rd_range; eauto.
  - apply Root_is_root in H. destruct H as (nr & H1 & _). eapply rd_range; eauto.
Qed.

Lemma Root_rank_le N B nodes v r nd nr :
  wf_nodes N B nodes -> Root nodes v r ->
  rd nodes v = Some nd -> rd nodes r = Some nr -> node_rank nd <= node_rank nr.
Proof.
  intros [_ Hwf] H. revert nd nr. induction H; intros nd0 nr Hv Hr.
  - assert (nd0 = nr) by congruence. subst. lia.
  - assert (nd0 = nd) by congruence. subst nd0.
    destruct (Hwf v nd H) as [_ (nf & Hf & Hlt)].
    specialize (IHRoot nf nr Hf Hr). specialize (Hlt H0). lia.
Qed.

Lemma Root_rank_lt N B nodes v r nd nr :
  wf_nodes N B nodes -> Root nodes v r -> v <> r ->
  rd nodes v = Some nd -> rd nodes r = Some nr -> node_rank nd < node_rank nr.
Proof.
  intros Hwf H Hne Hv Hr. inversion H; subst; [congruence|].
  assert (nd0 = nd) by congruence. subst nd0.
  destruct Hwf as [Hl Hwf'].
  destruct (Hwf' v nd Hv) as [_ (nf & Hf & Hlt)].
  pose proof (Root_rank_le N B nodes _ _ nf nr (conj Hl Hwf') H2 Hf Hr).
  specialize (Hlt H1). lia.
Qed.

Lemma Root_exists N B nodes v :
  wf_nodes N B nodes -> 0 <= v < N -> exists r, Root nodes v r.
Proof.
  intros Hwf Hv.
  destruct (rd_in_range nodes v) as [nd Hnd]; [destruct Hwf; lia|].
  remember (Z.to_nat (B - node_rank nd)) as m eqn:Hm.
  revert v nd Hv Hnd Hm. induction m as [m IH] using lt_wf_ind.
  intros v nd Hv Hnd Hm.
  destruct (Z.eq_dec (node_father nd) v) as [He|Hne].
  - exists v. econstructor; eauto.
  - destruct Hwf as [Hl Hwf'].
    destruct (Hwf' v nd Hnd) as [Hr (nf & Hf & Hlt)]. specialize (Hlt Hne).
    destruct (Hwf' _ nf Hf) as [Hrf _].
    pose proof (rd_range _ _ _ Hf) as Hfr.
    destruct (IH (Z.to_nat (B - node_rank nf))) with (v := node_father nd) (nd := nf)
      as [r Hroot]; try assumption; try lia.
    exists r. eapply Root_step; eauto.
Qed.

Lemma compressed_refl nodes : compressed nodes nodes.
Proof. split; [reflexivity|]. intros u nu H. exists nu. auto. Qed.

Lemma compressed_wf N B nodes nodes' :
  wf_nodes N B nodes -> compressed nodes nodes' -> wf_nodes N B nodes'.
Proof.
  intros Hwf [Hlen Hc]. pose proof Hwf as [Hl Hwf'].
  split; [lia|]. intros v nd' Hv'.
  pose proof (rd_range _ _ _ Hv') as Hvr.
  destruct (rd_in_range nodes v) as [nd Hnd]; [lia|].
  destruct (Hc v nd Hnd) as (nu' & Hnu' & Hrk & Hfa).
  assert (nu' = nd') by congruence. subst nu'.
  destruct (Hwf' v nd Hnd) as [Hr (nf & Hf & Hlt)].
  split; [lia|].
  destruct Hfa as [Hfa | [Hnr Hroot]].
  - destruct (Hc _ nf Hf) as (nf' & Hnf' & Hrkf & _).
    exists nf'. rewrite Hfa. split; [assumption|]. intros Hne. specialize (Hlt Hne). lia.
  - destruct (Root_is_root _ _ _ Hroot) as (nr & Hnr0 & _).
    destruct (Hc _ nr Hnr0) as (nr' & Hnr' & Hrkr & _).
    exists nr'. split; [assumption|]. intros Hne.
    pose proof (Root_rank_lt N B nodes v _ nd nr Hwf Hroot (not_eq_sym Hne) Hnd Hnr0). lia.
Qed.

Lemma compressed_Root N B nodes nodes' v r :
  wf_nodes N B nodes -> compressed nodes nodes' ->
  Root nodes v r -> Root nodes' v r.
Proof.
  intros Hwf [Hlen Hc] H.
  assert (Hrr : forall r0 v0, Root nodes v0 r0 -> Root nodes' r0 r0).
  { intros r0 v0 H0. destruct (Root_is_root _ _ _ H0) as (nr & Hnr & Hfr).
    destruct (Hc r0 nr Hnr) as (nr' & Hnr' & _ & [Hfa|[Hfa _]]); [|congruence].
    econstructor; eauto. congruence. }
  induction H.
  - destruct (Hc v nd H) as (nd' & Hnd' & _ & [Hfa|[Hfa _]]); [|congruence].
    econstructor; eauto. congruence.
  - destruct (Hc v nd H) as (nd' & Hnd' & _ & [Hfa|[Hfa Hroot]]).
    + eapply Root_step; eauto; rewrite Hfa; auto.
    + assert (Hvr : Root nodes v r) by (eapply Root_step; eauto).
      assert (node_father nd' = r) by (eapply Root_functional; eauto).
      destruct (Z.eq_dec r v) as [->|Hne].
      * exfalso. destruct (Root_is_root _ _ _ Hvr) as (nr & Hnr & Hfr). congruence.
      * eapply Root_step; eauto; [congruence|]. rewrite H2. eapply Hrr; eauto.
Qed.

Lemma compressed_same_roots N B nodes nodes' :
  wf_nodes N B nodes -> compressed nodes nodes' -> same_roots nodes nodes'.
Proof.
  intros Hwf Hc v r. split; [now apply (compressed_Root N B)|].
  intros H'. pose proof (Root_in_range _ _ _ H') as [Hv _].
  destruct Hc as [Hlen Hc'].
  destruct (Root_exists N B nodes v Hwf) as [r0 H0]; [destruct Hwf; lia|].
  pose proof (compressed_Root N B nodes nodes' v r0 Hwf (conj Hlen Hc') H0) as H0'.
  now rewrite (Root_functional _ _ _ _ H' H0').
Qed.

Lemma find_spec N B fuel nodes v nd :
  wf_nodes N B nodes -> rd nodes v = Some nd ->
  B - node_rank nd < Z.of_nat fuel ->
  exists nodes' r, find fuel nodes v = Some (nodes', r)
    /\ Root nodes v r /\ compressed nodes nodes'.
Proof.
  intros Hwf. revert v nd. induction fuel as [|fuel IH]; intros v nd Hnd Hfuel.
  - destruct Hwf as [_ Hwf']. destruct (Hwf' v nd Hnd) as [Hr _]. lia.
  - cbn [find]. rewrite Hnd.
    destruct (Z.eqb_spec (node_father nd) v) as [He|Hne]; cbn [negb].
    + exists nodes, (node_father nd). split; [reflexivity|]. split.
      * rewrite He. econstructor; eauto.
      * apply compressed_refl.
    + pose proof Hwf as [Hl Hwf'].
      destruct (Hwf' v nd Hnd) as [Hr (nf & Hf & Hlt)]. specialize (Hlt Hne).
      destruct (IH _ nf Hf) as (nodes1 & r & Hfind & Hroot & Hlen1 & Hc1); [lia|].
      rewrite Hfind. cbn [fst snd].
      destruct (Hc1 v nd Hnd) as (nd1 & Hnd1 & Hrk1 & _).
      rewrite Hnd1.
      pose proof (rd_range _ _ _ Hnd1) as Hvr.
      rewrite (wr_in_range nodes1 v) by assumption.
      set (nodes2 := upd nodes1 (Z.to_nat v) (mkNode r (node_rank nd1))).
      assert (Hw : wr nodes1 v (mkNode r (node_rank nd1)) = Some nodes2)
        by (now apply wr_in_range).
      rewrite (rd_wr_same _ _ _ _ Hw). cbn [node_father].
      exists nodes2, r. split; [reflexivity|]. split.
      * eapply Root_step; eauto.
      * split; [unfold nodes2; rewrite length_upd; assumption|].
        intros u nu Hu. destruct (Z.eq_dec u v) as [->|Huv].
        -- exists (mkNode r (node_rank nd1)). rewrite (rd_wr_same _ _ _ _ Hw).
           assert (nu = nd) by congruence. subst nu.
           split; [reflexivity|]. split; [assumption|]. right. split; [assumption|].
           cbn [node_father]. eapply Root_step; eauto.
        -- rewrite (rd_wr_other _ _ _ _ _ Hw Huv). apply Hc1. assumption.
Qed.

Lemma link_spec nodes a b na nb :
  rd nodes a = Some na -> rd nodes b = Some nb ->
  node_father na = a -> node_father nb = b -> a <> b ->
  node_rank na <= node_rank nb ->
  exists nodes',
    (do nodes1 <- wr nodes a (mkNode b (node_rank na));
     do m1 <- rd nodes1 a;
     do m2 <- rd nodes1 b;
     if node_rank m1 =? node_rank m2 then
       wr nodes1 b (mkNode (node_father m2) (node_rank m2 + 1))
     else Some nodes1) = Some nodes'
    /\ linked nodes a b nodes'.
Proof.
  intros Ha Hb Hfa Hfb Hab Hrk.
  pose proof (rd_range _ _ _ Ha) as Har. pose proof (rd_range _ _ _ Hb) as Hbr.
  destruct (wr nodes a (mkNode b (node_rank na))) as [nodes1|] eqn:Hw1;
    [|rewrite wr_in_range in Hw1 by assumption; discriminate].
  rewrite (rd_wr_same _ _ _ _ Hw1).
  rewrite (rd_wr_other _ _ _ _ b Hw1) by congruence. rewrite Hb. cbn [node_rank].
  pose proof (wr_length _ _ _ _ Hw1) as Hl1.
  destruct (Z.eqb_spec (node_rank na) (node_rank nb)) as [He|Hne].
  - destruct (wr nodes1 b (mkNode (node_father nb) (node_rank nb + 1))) as [nodes2|] eqn:Hw2;
      [|rewrite wr_in_range in Hw2 by lia; discriminate].
    exists nodes2. split; [reflexivity|].
    split; [rewrite (wr_length _ _ _ _ Hw2); assumption|].
    exists na, nb. repeat (split; [assumption|]). split; [|split].
    + rewrite (rd_wr_other _ _ _ _ a Hw2) by assumption. apply (rd_wr_same _ _ _ _ Hw1).
    + rewrite (rd_wr_same _ _ _ _ Hw2). rewrite Hfb, He, Z.eqb_refl. reflexivity.
    + intros u Hua Hub. rewrite (rd_wr_other _ _ _ _ u Hw2) by assumption.
      apply (rd_wr_other _ _ _ _ u Hw1). assumption.
  - exists nodes1. split; [reflexivity|]. split; [assumption|].
    exists na, nb. repeat (split; [assumption|]). split; [|split].
    + apply (rd_wr_same _ _ _ _ Hw1).
    + rewrite (rd_wr_other _ _ _ _ b Hw1) by congruence. rewrite Hb.
      destruct (Z.eqb_spec (node_rank na) (node_rank nb)); [contradiction|].
      destruct nb; cbn in *. rewrite Z.add_0_r. congruence.
    + intros u Hua Hub. apply (rd_wr_other _ _ _ _ u Hw1). assumption.
Qed.

Lemma fusion_spec nodes r1 r2 n1 n2 :
  rd nodes r1 = Some n1 -> rd nodes r2 = Some n2 ->
  node_father n1 = r1 -> node_father n2 = r2 -> r1 <> r2 ->
  exists nodes', fusion 2 nodes r1 r2 = Some nodes'
    /\ (linked nodes r1 r2 nodes' \/ linked nodes r2 r1 nodes').
Proof.
  intros H1 H2 Hf1 Hf2 Hne. cbn [fusion]. rewrite H1, H2.
  destruct (Z.gtb_spec (node_rank n1) (node_rank n2)) as [Hgt|Hle].
  - destruct (Z.gtb_spec (node_rank n2) (node_rank n1)) as [Hgt'|_]; [lia|].
    destruct (link_spec nodes r2 r1 n2 n1) as (nodes' & Heq & Hl); auto; [lia|].
    exists nodes'. split; [exact Heq | now right].
  - destruct (link_spec nodes r1 r2 n1 n2) as (nodes' & Heq & Hl); auto.
    exists nodes'. split; [exact Heq | now left].
Qed.

Lemma linked_wf N B nodes a b nodes' :
  wf_nodes N B nodes -> linked nodes a b nodes' -> wf_nodes N (B + 1) nodes'.
Proof.
  intros [Hl Hwf] [Hlen (na & nb & Ha & Hb & Hfa & Hfb & Hab & Hrk & Ha' & Hb' & Hother)].
  split; [lia|]. intros v nd' Hv'.
  destruct (Hwf a na Ha) as [Hra _]. destruct (Hwf b nb Hb) as [Hrb _].
  assert (Hrb' : forall v0, v0 <> b ->
     forall n0 n0', rd nodes v0 = Some n0 -> rd nodes' v0 = Some n0' ->
       node_rank n0' = node_rank n0).
  { intros v0 Hv0 n0 n0' Hn0 Hn0'. destruct (Z.eq_dec v0 a) as [->|Hv0a].
    - rewrite Ha' in Hn0'. inversion Hn0'; subst. cbn. congruence.
    - rewrite Hother in Hn0' by assumption. congruence. }
  destruct (Z.eq_dec v a) as [->|Hva]; [|destruct (Z.eq_dec v b) as [->|Hvb]].
  - rewrite Ha' in Hv'. inversion Hv'; subst; cbn.
    split; [lia|]. eexists. split; [exact Hb'|]. intros _. cbn.
    destruct (Z.eqb_spec (node_rank na) (node_rank nb)); lia.
  - rewrite Hb' in Hv'. inversion Hv'; subst; cbn.
    split; [destruct (node_rank na =? node_rank nb); lia|].
    eexists. split; [exact Hb'|]. congruence.
  - rewrite Hother in Hv' by assumption.
    destruct (Hwf v nd' Hv') as [Hr (nf & Hf & Hlt)]. split; [lia|].
    destruct (Z.eq_dec (node_father nd') b) as [Hfb'|Hfnb].
    + eexists. split; [rewrite Hfb'; exact Hb'|]. intros Hne. specialize (Hlt Hne).
      cbn. rewrite Hfb' in Hf. assert (nf = nb) by congruence. subst nf.
      destruct (node_rank na =? node_rank nb); lia.
    + destruct (rd_in_range nodes' (node_father nd')) as [nf' Hnf'];
        [rewrite Hlen; eapply rd_range; eauto|].
      exists nf'. split; [assumption|]. intros Hne. specialize (Hlt Hne).
      rewrite (Hrb' _ Hfnb nf nf' Hf Hnf'). assumption.
Qed.

Lemma linked_Root nodes a b nodes' v r :
  linked nodes a b nodes' -> Root nodes v r ->
  Root nodes' v (if r =? a then b else r).
Proof.
  intros [Hlen (na & nb & Ha & Hb & Hfa & Hfb & Hab & Hrk & Ha' & Hb' & Hother)].
  assert (Hbb : Root nodes' b b) by (econstructor; [exact Hb' | reflexivity]).
  induction 1 as [v nd Hv Hf | v nd r Hv Hf Hroot IH].
  - destruct (Z.eqb_spec v a) as [->|Hva].
    + eapply Root_step; [exact Ha' | cbn; congruence | exact Hbb].
    + destruct (Z.eq_dec v b) as [->|Hvb]; [exact Hbb|].
      econstructor; [rewrite Hother by assumption; exact Hv | exact Hf].
  - assert (Hva : v <> a) by congruence. assert (Hvb : v <> b) by congruence.
    eapply Root_step; [rewrite Hother by assumption; exact Hv | exact Hf | exact IH].
Qed.

Lemma linked_united nodes r1 r2 nodes' :
  linked nodes r1 r2 nodes' \/ linked nodes r2 r1 nodes' ->
  united nodes r1 r2 nodes'.
Proof.
  intros [H|H].
  - exists r2. split; [now right|]. intros v r Hr.
    pose proof (linked_Root _ _ _ _ _ _ H Hr) as H'.
    destruct (Z.eqb_spec r r1); cbn [orb]; [exact H'|].
    destruct (Z.eqb_spec r r2); subst; exact H'.
  - exists r1. split; [now left|]. intros v r Hr.
    pose proof (linked_Root _ _ _ _ _ _ H Hr) as H'.
    destruct (Z.eqb_spec r r2); [now rewrite orb_true_r|].
    rewrite orb_false_r. destruct (Z.eqb_spec r r1); subst; exact H'.
Qed.

Lemma same_roots_trans n1 n2 n3 :
  same_roots n1 n2 -> same_roots n2 n3 -> same_roots n1 n3.
Proof. intros H1 H2 v r. rewrite (H1 v r). apply H2. Qed.

Lemma compressed_is_root nodes nodes' v :
  compressed nodes nodes' -> is_root nodes' v = is_root nodes v.
Proof.
  intros [Hlen Hc]. unfold is_root.
  destruct (rd nodes v) as [nd|] eqn:Hv.
  - destruct (Hc v nd Hv) as (nd' & Hv' & _ & Hfa). rewrite Hv'.
    destruct Hfa as [->|[Hne Hroot]]; [reflexivity|].
    destruct (Z.eqb_spec (node_father nd) v); [contradiction|].
    destruct (Z.eqb_spec (node_father nd') v) as [He|]; [|reflexivity].
    rewrite He in Hroot. destruct (Root_is_root _ _ _ Hroot) as (nr & Hnr & Hfr). congruence.
  - destruct (rd nodes' v) as [nd'|] eqn:Hv'; [|reflexivity].
    apply rd_range in Hv'. rewrite Hlen in Hv'.
    destruct (rd_in_range nodes v Hv'). congruence.
Qed.

Lemma compressed_count nodes nodes' :
  compressed nodes nodes' -> count_roots nodes' = count_roots nodes.
Proof.
  intros H. unfold count_roots. destruct H as [Hlen Hc]. rewrite Hlen.
  do 2 f_equal. apply filter_ext. intros v. apply compressed_is_root. now split.
Qed.

Lemma filter_remove_one (f g : Z -> bool) (l : list Z) a :
  NoDup l -> In a l -> f a = true -> g a = false ->
  (forall x, x <> a -> g x = f x) ->
  S (length (filter g l)) = length (filter f l).
Proof.
  intros Hnd Hin Hfa Hga Hx. induction l as [|x l IH]; [contradiction|].
  inversion Hnd as [|? ? Hnx Hnd']; subst. cbn [filter].
  destruct (Z.eq_dec x a) as [->|Hxa].
  - rewrite Hfa, Hga. cbn [length]. f_equal. f_equal.
    apply filter_ext_in. intros y Hy. apply Hx. intros ->. contradiction.
  - destruct Hin as [Hin|Hin]; [contradiction|].
    rewrite (Hx x Hxa). destruct (f x); cbn [length]; rewrite <- IH; auto.
Qed.

Lemma linked_count nodes a b nodes' :
  linked nodes a b nodes' -> count_roots nodes' = count_roots nodes - 1.
Proof.
  intros [Hlen (na & nb & Ha & Hb & Hfa & Hfb & Hab & Hrk & Ha' & Hb' & Hother)].
  unfold count_roots. rewrite Hlen.
  rewrite <- (filter_remove_one (is_root nodes) (is_root nodes') _ a).
  - lia.
  - apply NoDup_iota.
  - apply In_iota. eapply rd_range; eauto.
  - unfold is_root. rewrite Ha. now apply Z.eqb_eq.
  - unfold is_root. rewrite Ha'. cbn. apply Z.eqb_neq. congruence.
  - intros x Hxa. unfold is_root. destruct (Z.eq_dec x b) as [->|Hxb].
    + rewrite Hb', Hb. cbn. rewrite Hfb. reflexivity.
    + now rewrite Hother.
Qed.

Lemma union_find_body_spec N B nodes tree num edges edge e :
  wf_nodes N B nodes -> B <= N ->
  rd edges edge = Some e -> endpoints_in N e ->
  0 <= num ->
  exists r1 r2 nodes2,
    Root nodes (edge_i e) r1 /\ Root nodes (edge_j e) r2
    /\ wf_nodes N B nodes2 /\ same_roots nodes nodes2
    /\ count_roots nodes2 = count_roots nodes
    /\ if r1 =? r2 then
         union_find_body edges edge (mkUF nodes tree num) = Some (mkUF nodes2 tree num)
       else
         num < Z.of_nat (length tree) ->
         exists nodes',
           union_find_body edges edge (mkUF nodes tree num)
             = Some (mkUF nodes' (upd tree (Z.to_nat num) e) (num + 1))
           /\ (linked nodes2 r1 r2 nodes' \/ linked nodes2 r2 r1 nodes').
Proof.
  intros Hwf HB He [Hi Hj] Hnum. unfold union_find_body. cbn [uf_nodes uf_tree uf_num].
  rewrite He. pose proof Hwf as [Hl Hwf'].
  destruct (rd_in_range nodes (edge_i e)) as [ni Hni]; [lia|].
  destruct (Hwf' _ _ Hni) as [Hri _].
  destruct (find_spec N B (S (length nodes)) nodes (edge_i e) ni Hwf Hni)
    as (nodes1 & r1 & Hf1 & Hroot1 & Hc1); [lia|].
  rewrite Hf1. cbn [fst snd].
  pose proof (compressed_wf N B _ _ Hwf Hc1) as Hwf1.
  pose proof (compressed_same_roots N B _ _ Hwf Hc1) as Hsr1.
  pose proof Hwf1 as [Hl1 Hwf1'].
  destruct (rd_in_range nodes1 (edge_j e)) as [nj Hnj]; [lia|].
  destruct (Hwf1' _ _ Hnj) as [Hrj _].
  destruct (find_spec N B (S (length nodes1)) nodes1 (edge_j e) nj Hwf1 Hnj)
    as (nodes2 & r2 & Hf2 & Hroot2 & Hc2); [lia|].
  rewrite Hf2. cbn [fst snd].
  pose proof (compressed_wf N B _ _ Hwf1 Hc2) as Hwf2.
  pose proof (compressed_same_roots N B _ _ Hwf1 Hc2) as Hsr2.
  exists r1, r2, nodes2. split; [assumption|]. split; [now apply Hsr1|].
  split; [assumption|]. split; [eapply same_roots_trans; eauto|].
  split; [rewrite (compressed_count _ _ Hc2); now apply compressed_count|].
  destruct (Z.eqb_spec r1 r2) as [Heq|Hne]; cbn [negb]; [reflexivity|].
  assert (Hr1 : Root nodes2 r1 r1).
  { apply Hsr2, Hsr1. eapply Root_root; eauto. }
  assert (Hr2 : Root nodes2 r2 r2).
  { apply Hsr2. eapply Root_root; eauto. }
  destruct (Root_is_root _ _ _ Hr1) as (n1 & Hn1 & Hfn1).
  destruct (Root_is_root _ _ _ Hr2) as (n2 & Hn2 & Hfn2).
  destruct (fusion_spec nodes2 r1 r2 n1 n2 Hn1 Hn2 Hfn1 Hfn2 Hne) as (nodes' & Hfu & Hlk).
  intros Hcap. rewrite Hfu. rewrite wr_in_range by lia.
  exists nodes'. split; [reflexivity | assumption].
Qed.

Lemma firstn_upd_ge {A} (l : list A) n k x :
  (n <= k)%nat -> firstn n (upd l k x) = firstn n l.
Proof.
  revert n k; induction l; intros [|n] [|k] H; simpl; try reflexivity; try lia.
  f_equal. apply IHl. lia.
Qed.

Lemma skipn_upd_lt {A} (l : list A) n k x :
  (k < n)%nat -> skipn n (upd l k x) = skipn n l.
Proof.
  revert n k; induction l; intros [|n] [|k] H; simpl; try reflexivity; try lia.
  apply IHl. lia.
Qed.

Lemma firstn_S_upd {A} (l : list A) k x :
  (k < length l)%nat -> firstn (S k) (upd l k x) = firstn k l ++ [x].
Proof.
  revert k; induction l; intros [|k] H; simpl in *; try lia; try reflexivity.
  f_equal. apply IHl. lia.
Qed.

Lemma place_nil {A} (tree : list A) k : place tree k [] = tree.
Proof. unfold place. simpl. rewrite Nat.add_0_r. apply firstn_skipn. Qed.

Lemma place_upd {A} (tree : list A) k e out :
  (k < length tree)%nat ->
  place (upd tree k e) (S k) out = place tree k (e :: out).
Proof.
  intros H. unfold place. rewrite firstn_S_upd by assumption.
  rewrite skipn_upd_lt by lia. rewrite <- app_assoc. cbn [app length].
  replace (S k + length out)%nat with (k + S (length out))%nat by lia.
  reflexivity.
Qed.

Lemma place_0 {A} (tree out : list A) :
  place tree 0 out = out ++ skipn (length out) tree.
Proof. reflexivity. Qed.

Lemma united_of_same_roots nodes nodes2 r1 r2 nodes' :
  same_roots nodes nodes2 -> united nodes2 r1 r2 nodes' -> united nodes r1 r2 nodes'.
Proof.
  intros Hs (w & Hw & H). exists w. split; [assumption|].
  intros v r Hr. apply H. now apply Hs.
Qed.

Lemma rd_app_at {A} (l1 l2 : list A) x k :
  k = Z.of_nat (length l1) -> rd (l1 ++ x :: l2) k = Some x.
Proof.
  intros ->. apply rd_Some. split; [lia|]. rewrite Nat2Z.id.
  rewrite nth_error_app2 by lia. now rewrite Nat.sub_diag.
Qed.

Section UnionFindLoop.

Variable N : Z.

(** The loop of [union_find] follows [uf_run]. *)
Lemma union_find_loop_run (es pre rest : list Edge) (s : UF) :
  wf_nodes N (1 + uf_num s) (uf_nodes s) ->
  0 <= uf_num s ->
  Forall (endpoints_in N) es ->
  N - 1 <= Z.of_nat (length (uf_tree s)) ->
  exists out nodes',
    union_find_loop N (pre ++ es ++ rest)
      (range (Z.of_nat (length pre)) (Z.of_nat (length pre) + Z.of_nat (length es))) s
    = Some (mkUF nodes' (place (uf_tree s) (Z.to_nat (uf_num s)) out)
                 (uf_num s + Z.of_nat (length out)))
    /\ uf_run N (uf_nodes s) (uf_num s) es out
    /\ uf_num s + Z.of_nat (length out) <= Z.max (uf_num s) (N - 1).
Proof.
  revert pre s. induction es as [|e es IH]; intros pre [nodes tree num];
    cbn [uf_nodes uf_tree uf_num]; intros Hwf Hnum Hval Hcap.
  - exists [], nodes. rewrite range_empty by (simpl; lia). simpl.
    rewrite place_nil, Z.add_0_r. split; [reflexivity|]. split; [constructor | lia].
  - rewrite range_cons by (simpl length; lia). cbn [union_find_loop uf_num].
    destruct (Z.ltb_spec num (N - 1)) as [Hlt|Hge].
    + inversion Hval as [|? ? He Hval']; subst.
      change ((e :: es) ++ rest) with (e :: es ++ rest).
      destruct (union_find_body_spec N (1 + num) nodes tree num
                  (pre ++ e :: es ++ rest) (Z.of_nat (length pre)) e)
        as (r1 & r2 & nodes2 & HR1 & HR2 & Hwf2 & Hsr & _ & Hbody);
        try assumption; try lia.
      { now apply rd_app_at. }
      specialize (IH (pre ++ [e])).
      rewrite <- !app_assoc in IH. simpl app in IH.
      rewrite length_app in IH. simpl length in IH.
      replace (Z.of_nat (length pre) + 1) with (Z.of_nat (length pre + 1)) by lia.
      replace (Z.of_nat (length pre) + Z.of_nat (length (e :: es)))
        with (Z.of_nat (length pre + 1) + Z.of_nat (length es)) by (simpl length; lia).
      destruct (Z.eqb_spec r1 r2) as [Heq|Hne].
      * rewrite Hbody.
        destruct (IH (mkUF nodes2 tree num)) as (out & nodes' & Hloop & Hrun & Hle);
          try assumption.
        exists out, nodes'. split; [exact Hloop|]. split; [|exact Hle].
        subst r2. eapply uf_run_skip; eauto.
      * destruct (Hbody ltac:(lia)) as (nodes3 & Hbody' & Hlk). rewrite Hbody'.
        destruct (IH (mkUF nodes3 (upd tree (Z.to_nat num) e) (num + 1)))
          as (out & nodes' & Hloop & Hrun & Hle); cbn [uf_nodes uf_tree uf_num];
          try assumption; try lia.
        { replace (1 + (num + 1)) with ((1 + num) + 1) by lia.
          destruct Hlk as [Hlk|Hlk]; eapply linked_wf; eauto. }
        { rewrite length_upd. assumption. }
        cbn [uf_nodes uf_tree uf_num] in Hloop, Hrun, Hle.
        exists (e :: out), nodes'. split; [|split].
        -- rewrite Hloop. f_equal. f_equal.
           ++ replace (Z.to_nat (num + 1)) with (S (Z.to_nat num)) by lia.
              apply place_upd. lia.
           ++ simpl length. lia.
        -- eapply uf_run_emit; eauto.
           eapply united_of_same_roots; eauto. now apply linked_united.
        -- simpl length. lia.
    + exists [], nodes. rewrite place_nil, Z.add_0_r.
      split; [reflexivity|]. split; [now apply uf_run_stop | lia].
Qed.

End UnionFindLoop.

Lemma iota_as_range n : iota n = range (Z.of_nat 0) (Z.of_nat 0 + n).
Proof. simpl. now rewrite range_0. Qed.

(** C3 (amended).  [union_find] reads the first [M] edges in input order.
    It emits into the tree buffer exactly the edges whose endpoints have
    distinct roots when they are read, unites the two sets after each, and
    reads nothing more once [N - 1] edges were emitted ([uf_run]).  It
    returns the number of edges emitted, which is at most [N - 1] when
    [1 <= N] and is 0 when [N <= 0]. *)
Theorem union_find_emits_edges_joining_distinct_roots
  (edges : list Edge) (N M : Z) (tree : list Edge) :
  0 <= M <= Z.of_nat (length edges) ->
  Forall (endpoints_in N) (firstn (Z.to_nat M) edges) ->
  N - 1 <= Z.of_nat (length tree) ->
  exists out,
    union_find edges N M tree
      = Some (out ++ skipn (length out) tree, Z.of_nat (length out))
    /\ uf_run N (create_nodes N) 0 (firstn (Z.to_nat M) edges) out
    /\ Z.of_nat (length out) <= Z.max 0 (N - 1).
Proof.
  intros HM Hval Hcap. unfold union_find.
  assert (Hsplit : edges = [] ++ firstn (Z.to_nat M) edges ++ skipn (Z.to_nat M) edges)
    by (simpl; symmetry; apply firstn_skipn).
  assert (Hlen : Z.of_nat (length (firstn (Z.to_nat M) edges)) = M)
    by (rewrite firstn_length_le; lia).
  destruct (Z.le_gt_cases N 0) as [HN|HN].
  - (* no vertex: the loop stops at once *)
    exists []. replace (union_find_loop N edges (iota M) (mkUF (create_nodes N) tree 0))
      with (Some (mkUF (create_nodes N) tree 0)).
    + simpl. split; [reflexivity|]. split; [apply uf_run_stop; lia | lia].
    + destruct (iota M); simpl; [reflexivity|].
      destruct (Z.ltb_spec 0 (N - 1)); [lia | reflexivity].
  - destruct (union_find_loop_run N (firstn (Z.to_nat M) edges) []
                (skipn (Z.to_nat M) edges) (mkUF (create_nodes N) tree 0))
      as (out & nodes' & Hloop & Hrun & Hle); cbn [uf_nodes uf_tree uf_num];
      try assumption; try lia.
    { apply create_nodes_wf. lia. }
    rewrite <- Hsplit in Hloop. rewrite Hlen in Hloop.
    cbn [length] in Hloop. rewrite <- iota_as_range in Hloop.
    rewrite Hloop. cbn [uf_tree uf_num].
    exists out. split; [|split; assumption].
    now rewrite place_0.
Qed.

Lemma union_find_emits_edges_joining_distinct_roots_witness :
  exists out,
    union_find [mkEdge 0 1 1; mkEdge 1 2 2; mkEdge 0 2 4] 3 3 (calloc_edges 2)
      = Some (out ++ skipn (length out) (calloc_edges 2), Z.of_nat (length out))
    /\ uf_run 3 (create_nodes 3) 0
         (firstn (Z.to_nat 3) [mkEdge 0 1 1; mkEdge 1 2 2; mkEdge 0 2 4]) out
    /\ Z.of_nat (length out) <= Z.max 0 (3 - 1).
Proof.
  apply (union_find_emits_edges_joining_distinct_roots
           [mkEdge 0 1 1; mkEdge 1 2 2; mkEdge 0 2 4] 3 3 (calloc_edges 2)).
  - simpl. lia.
  - simpl. repeat constructor; simpl; lia.
  - simpl. lia.
Defined.

(** C3 as stated fails when there is no vertex: with [N = 0] and no edge,
    [union_find] returns 0, which is not at most [N - 1 = -1]. *)
Lemma union_find_count_above_N_minus_1 :
  union_find [] 0 0 [] = Some ([], 0) /\ ~ (0 <= 0 - 1).
Proof. split; [reflexivity | lia]. Qed.


(** ** [union_find] is Kruskal's greedy choice *)

Lemma conn_mono es es' u v : incl es es' -> conn es u v -> conn es' u v.
Proof.
  intros Hi H. induction H.
  - apply conn_refl.
  - apply conn_edge. now apply Hi.
  - now apply conn_sym.
  - eapply conn_trans; eauto.
Qed.

Lemma conn_in_range N es u v :
  (forall e, In e es -> endpoints_in N e) ->
  conn es u v -> (0 <= u < N <-> 0 <= v < N).
Proof.
  intros Hval H. induction H; try tauto.
  destruct (Hval e H). tauto.
Qed.

Lemma uf_eq_sym nodes u v : uf_eq nodes u v -> uf_eq nodes v u.
Proof. intros (r & H1 & H2). exists r. tauto. Qed.

Lemma uf_eq_trans nodes u v w : uf_eq nodes u v -> uf_eq nodes v w -> uf_eq nodes u w.
Proof.
  intros (r & H1 & H2) (r' & H3 & H4).
  rewrite <- (Root_functional _ _ _ _ H2 H3) in H4. exists r. tauto.
Qed.

Lemma conn_uf_eq N B nodes acc u v :
  wf_nodes N B nodes -> represents N nodes acc ->
  conn acc u v -> 0 <= u < N -> uf_eq nodes u v.
Proof.
  intros Hwf [H1 _] H. induction H; intros Hu.
  - destruct (Root_exists N B nodes v Hwf Hu) as [r Hr]. exists r. tauto.
  - now apply H1.
  - apply uf_eq_sym. apply IHconn.
    apply (conn_in_range N acc u v); [intros e He; now apply H1 | assumption | assumption].
  - eapply uf_eq_trans; [now apply IHconn1|]. apply IHconn2.
    apply (conn_in_range N acc u v); [intros e He; now apply H1 | assumption | assumption].
Qed.

Lemma represents_same_roots N nodes nodes' acc :
  same_roots nodes nodes' -> represents N nodes acc -> represents N nodes' acc.
Proof.
  intros Hs [H1 H2]. split.
  - intros e He. destruct (H1 e He) as [Hv (r & Ha & Hb)]. split; [assumption|].
    exists r. split; now apply Hs.
  - intros u v (r & Ha & Hb). apply H2. exists r. split; now apply Hs.
Qed.

Lemma represents_united N B nodes nodes' acc e r1 r2 :
  wf_nodes N B nodes -> Z.of_nat (length nodes') = N ->
  represents N nodes acc -> endpoints_in N e ->
  Root nodes (edge_i e) r1 -> Root nodes (edge_j e) r2 ->
  united nodes r1 r2 nodes' ->
  represents N nodes' (e :: acc).
Proof.
  intros Hwf Hlen [H1 H2] Hval HR1 HR2 (w & Hw & Hu).
  assert (Hkeep : forall u v, uf_eq nodes u v -> uf_eq nodes' u v).
  { intros u v (r & Ha & Hb). eexists. split; apply Hu; eassumption. }
  split.
  - intros e' [<-|He'].
    + split; [assumption|]. exists w. split.
      * pose proof (Hu _ _ HR1) as H. now rewrite Z.eqb_refl in H.
      * pose proof (Hu _ _ HR2) as H. now rewrite Z.eqb_refl, orb_true_r in H.
    + destruct (H1 e' He') as [Hv He]. split; [assumption | now apply Hkeep].
  - intros u v (r & Ha & Hb).
    pose proof (Root_in_range _ _ _ Ha) as [Hur _].
    pose proof (Root_in_range _ _ _ Hb) as [Hvr _].
    destruct (Root_exists N B nodes u Hwf) as [ru Hru]; [lia|].
    destruct (Root_exists N B nodes v Hwf) as [rv Hrv]; [lia|].
    pose proof (Root_functional _ _ _ _ Ha (Hu _ _ Hru)) as Eu.
    pose proof (Root_functional _ _ _ _ Hb (Hu _ _ Hrv)) as Ev.
    assert (Hacc : forall a b, uf_eq nodes a b -> conn (e :: acc) a b).
    { intros a b Hab. apply (conn_mono acc); [apply incl_tl, incl_refl | now apply H2]. }
    assert (He : conn (e :: acc) (edge_i e) (edge_j e)) by (apply conn_edge; now left).
    destruct (Z.eq_dec ru rv) as [->|Hne].
    { apply Hacc. exists rv. tauto. }
    assert (Hcase : (ru = r1 /\ rv = r2) \/ (ru = r2 /\ rv = r1)).
    { rewrite Eu in Ev.
      destruct (Z.eqb_spec ru r1), (Z.eqb_spec ru r2), (Z.eqb_spec rv r1), (Z.eqb_spec rv r2);
        cbn [orb] in Ev; subst; try tauto; try congruence; destruct Hw; congruence. }
    destruct Hcase as [[-> ->]|[-> ->]].
    + apply (conn_trans _ u (edge_i e)); [apply Hacc; exists r1; tauto|].
      apply (conn_trans _ _ (edge_j e)); [exact He|]. apply Hacc. exists r2. tauto.
    + apply (conn_trans _ u (edge_j e)); [apply Hacc; exists r2; tauto|].
      apply (conn_trans _ _ (edge_i e)); [apply conn_sym; exact He|].
      apply Hacc. exists r1. tauto.
Qed.

Lemma single_root nodes r1 r2 :
  count_roots nodes <= 1 -> is_root nodes r1 = true -> is_root nodes r2 = true ->
  r1 = r2.
Proof.
  unfold count_roots. intros Hc H1 H2.
  destruct (Z.eq_dec r1 r2) as [|Hne]; [assumption|exfalso].
  assert (Hin : forall r, is_root nodes r = true ->
            In r (filter (is_root nodes) (iota (Z.of_nat (length nodes))))).
  { intros r Hr. apply filter_In. split; [|assumption]. apply In_iota.
    unfold is_root in Hr. destruct (rd nodes r) eqn:E; [|discriminate].
    eapply rd_range; eauto. }
  assert (Hle : (length [r1; r2] <= length (filter (is_root nodes) (iota (Z.of_nat (length nodes)))))%nat).
  { apply NoDup_incl_length.
    - constructor; [simpl; intuition congruence|]. constructor; [simpl; tauto | constructor].
    - intros x [<-|[<-|[]]]; now apply Hin. }
  simpl in Hle. lia.
Qed.

Lemma Root_is_root_true nodes v r : Root nodes v r -> is_root nodes r = true.
Proof.
  intros H. destruct (Root_is_root _ _ _ H) as (nr & Hnr & Hf).
  unfold is_root. rewrite Hnr. now apply Z.eqb_eq.
Qed.

Lemma greedy_all_connected acc es :
  (forall e, In e es -> conn acc (edge_i e) (edge_j e)) -> greedy acc es [].
Proof.
  induction es as [|e es IH]; intros H; [constructor|].
  apply greedy_skip; [apply H; now left|]. apply IH. intros e' He'. apply H. now right.
Qed.

Lemma count_roots_create N : 0 <= N -> count_roots (create_nodes N) = N.
Proof.
  intros HN. unfold count_roots. rewrite length_create_nodes by assumption.
  rewrite (filter_ext_in _ (fun _ => true)).
  - rewrite forallb_filter_id; [rewrite length_iota; lia|].
    apply forallb_forall. reflexivity.
  - intros v Hv. apply In_iota in Hv. unfold is_root.
    rewrite rd_create_nodes by assumption. apply Z.eqb_refl.
Qed.

(** The edges [acc] connect vertices of [vs] only. *)
Lemma conn_in_vs (vs : list Z) acc u v :
  (forall e, In e acc -> In (edge_i e) vs /\ In (edge_j e) vs) ->
  conn acc u v -> u = v \/ (In u vs /\ In v vs).
Proof.
  intros Hvs H. induction H.
  - now left.
  - right. now apply Hvs.
  - destruct IHconn as [->|[? ?]]; auto.
  - destruct IHconn1 as [->|[? ?]]; [assumption|].
    destruct IHconn2 as [<-|[? ?]]; auto.
Qed.

(** When an edge between two sets is found, the vertices that are not
    roots, and the two roots, are vertices of [vs]: the edges emitted so far
    leave room for one more in a buffer of [length vs - 1] entries. *)
Lemma room_for_edge N B nodes acc (vs : list Z) num e r1 r2 :
  wf_nodes N B nodes -> represents N nodes acc ->
  count_roots nodes = N - num ->
  (forall x, In x acc -> In (edge_i x) vs /\ In (edge_j x) vs) ->
  In (edge_i e) vs -> In (edge_j e) vs ->
  Root nodes (edge_i e) r1 -> Root nodes (edge_j e) r2 -> r1 <> r2 ->
  num + 2 <= Z.of_nat (length vs).
Proof.
  intros Hwf [_ Hrep] Hcount Hvs Hi Hj HR1 HR2 Hne.
  pose proof Hwf as [Hlen _].
  set (nonroots := filter (fun v => negb (is_root nodes v)) (iota N)).
  assert (Hnr : Z.of_nat (length nonroots) = num).
  { unfold count_roots in Hcount. rewrite Hlen in Hcount.
    pose proof (filter_length (is_root nodes) (iota N)) as H.
    fold nonroots in H. rewrite length_iota in H.
    pose proof (Root_in_range _ _ _ HR1). lia. }
  assert (Hroot : forall v r, In v vs -> Root nodes v r -> In r vs).
  { intros v r Hv Hr.
    destruct (conn_in_vs vs acc v r Hvs) as [<-|[_ ?]]; [|assumption|assumption].
    apply Hrep. exists r. split; [assumption|]. eapply Root_root; eauto. }
  assert (Hincl : incl (r1 :: r2 :: nonroots) vs).
  { intros x [<-|[<-|Hx]]; [exact (Hroot _ _ Hi HR1) | exact (Hroot _ _ Hj HR2) |].
    apply filter_In in Hx. destruct Hx as [Hx Hnot]. apply In_iota in Hx.
    destruct (Root_exists N B nodes x Hwf Hx) as [r Hr].
    destruct (conn_in_vs vs acc x r Hvs) as [<-|[? _]]; [| |assumption].
    - apply Hrep. exists r. split; [assumption|]. eapply Root_root; eauto.
    - rewrite (Root_is_root_true _ _ _ Hr) in Hnot. discriminate. }
  assert (Hnd : NoDup (r1 :: r2 :: nonroots)).
  { assert (Hout : forall v r, Root nodes v r -> ~ In r nonroots).
    { intros v r Hr Hin. apply filter_In in Hin. destruct Hin as [_ Hnot].
      rewrite (Root_is_root_true _ _ _ Hr) in Hnot. discriminate. }
    constructor.
    - intros [Heq|Hin]; [congruence | exact (Hout _ _ HR1 Hin)].
    - constructor; [exact (Hout _ _ HR2)|]. apply NoDup_filter, NoDup_iota. }
  pose proof (NoDup_incl_length Hnd Hincl) as Hle. cbn [length] in Hle. lia.
Qed.

Section GreedyLoop.

Variable N : Z.

(** The loop of [union_find] makes Kruskal's choice among the edges it
    reads.  The buffer [tree] needs one entry less than there are vertices
    [vs] in the region of the edges. *)
Lemma union_find_loop_greedy (vs : list Z) (es pre rest : list Edge) (s : UF)
  (acc : list Edge) :
  wf_nodes N (1 + uf_num s) (uf_nodes s) ->
  0 <= uf_num s ->
  count_roots (uf_nodes s) = N - uf_num s ->
  represents N (uf_nodes s) acc ->
  Forall (endpoints_in N) es ->
  (forall e, In e acc \/ In e es -> In (edge_i e) vs /\ In (edge_j e) vs) ->
  Z.of_nat (length vs) - 1 <= Z.of_nat (length (uf_tree s)) ->
  exists out nodes',
    union_find_loop N (pre ++ es ++ rest)
      (range (Z.of_nat (length pre)) (Z.of_nat (length pre) + Z.of_nat (length es))) s
    = Some (mkUF nodes' (place (uf_tree s) (Z.to_nat (uf_num s)) out)
                 (uf_num s + Z.of_nat (length out)))
    /\ greedy acc es out
    /\ (out = [] \/ uf_num s + Z.of_nat (length out) + 1 <= Z.of_nat (length vs))
    /\ wf_nodes N (1 + (uf_num s + Z.of_nat (length out))) nodes'
    /\ count_roots nodes' = N - (uf_num s + Z.of_nat (length out))
    /\ represents N nodes' (rev out ++ acc).
Proof.
  revert pre s acc. induction es as [|e es IH]; intros pre [nodes tree num] acc;
    cbn [uf_nodes uf_tree uf_num]; intros Hwf Hnum Hcount Hrep Hval Hvs Hcap.
  - exists [], nodes. rewrite range_empty by (simpl; lia). simpl.
    rewrite place_nil, Z.add_0_r. split; [reflexivity|]. split; [constructor|].
    split; [now left|]. cbn [rev app]. auto.
  - rewrite range_cons by (simpl length; lia). cbn [union_find_loop uf_num].
    destruct (Z.ltb_spec num (N - 1)) as [Hlt|Hge].
    + inversion Hval as [|? ? He Hval']; subst.
      change ((e :: es) ++ rest) with (e :: es ++ rest).
      destruct (union_find_body_spec N (1 + num) nodes tree num
                  (pre ++ e :: es ++ rest) (Z.of_nat (length pre)) e)
        as (r1 & r2 & nodes2 & HR1 & HR2 & Hwf2 & Hsr & Hcnt2 & Hbody);
        try assumption; try lia.
      { now apply rd_app_at. }
      specialize (IH (pre ++ [e])).
      rewrite <- !app_assoc in IH. simpl app in IH.
      rewrite length_app in IH. simpl length in IH.
      replace (Z.of_nat (length pre) + 1) with (Z.of_nat (length pre + 1)) by lia.
      replace (Z.of_nat (length pre) + Z.of_nat (length (e :: es)))
        with (Z.of_nat (length pre + 1) + Z.of_nat (length es)) by (simpl length; lia).
      destruct (Z.eqb_spec r1 r2) as [Heq|Hne].
      * rewrite Hbody.
        destruct (IH (mkUF nodes2 tree num) acc) as (out & nodes' & Hloop & Hg & Hb & Hfin);
          cbn [uf_nodes uf_tree uf_num]; try assumption; try lia.
        { eapply represents_same_roots; eauto. }
        { intros x [Hx|Hx]; apply Hvs; [now left | right; now right]. }
        exists out, nodes'. split; [exact Hloop|]. split; [|exact (conj Hb Hfin)].
        apply greedy_skip; [|assumption].
        destruct Hrep as [_ H2]. apply H2. exists r1. subst r2. tauto.
      * assert (Hroom : num + 2 <= Z.of_nat (length vs)).
        { apply (room_for_edge N (1 + num) nodes acc vs num e r1 r2 Hwf Hrep Hcount);
            [intros x Hx; apply Hvs; now left | apply Hvs; right; now left
            | apply Hvs; right; now left | assumption | assumption | assumption]. }
        destruct (Hbody ltac:(lia)) as (nodes3 & Hbody' & Hlk). rewrite Hbody'.
        assert (Hwf3 : wf_nodes N (1 + (num + 1)) nodes3).
        { replace (1 + (num + 1)) with ((1 + num) + 1) by lia.
          destruct Hlk as [Hlk|Hlk]; eapply linked_wf; eauto. }
        destruct (IH (mkUF nodes3 (upd tree (Z.to_nat num) e) (num + 1)) (e :: acc))
          as (out & nodes' & Hloop & Hg & Hb & Hwf' & Hcnt' & Hrep');
          cbn [uf_nodes uf_tree uf_num]; try assumption; try lia.
        { destruct Hlk as [Hlk|Hlk]; rewrite (linked_count _ _ _ _ Hlk); lia. }
        { apply (represents_united N (1 + num) nodes2 nodes3 acc e r1 r2); auto.
          - destruct Hwf3; assumption.
          - eapply represents_same_roots; eauto.
          - now apply Hsr.
          - now apply Hsr.
          - now apply linked_united. }
        { intros x [[<-|Hx]|Hx]; apply Hvs; [right; now left | now left | right; now right]. }
        { rewrite length_upd. assumption. }
        cbn [uf_nodes uf_tree uf_num] in Hloop, Hb, Hwf', Hcnt', Hrep'.
        exists (e :: out), nodes'. split; [|split; [|split; [|split; [|split]]]].
        -- rewrite Hloop. f_equal. f_equal.
           ++ replace (Z.to_nat (num + 1)) with (S (Z.to_nat num)) by lia.
              apply place_upd. lia.
           ++ simpl length. lia.
        -- apply greedy_take; [|assumption].
           intros Hc. apply Hne.
           destruct (conn_uf_eq N (1 + num) nodes acc _ _ Hwf Hrep Hc) as (r & Ha & Hb');
             [destruct He; assumption|].
           rewrite (Root_functional _ _ _ _ HR1 Ha).
           apply (Root_functional _ _ _ _ Hb' HR2).
        -- right. destruct Hb as [->|Hb]; simpl length; lia.
        -- replace (1 + (num + Z.of_nat (length (e :: out))))
             with (1 + (num + 1 + Z.of_nat (length out))) by (simpl length; lia).
           exact Hwf'.
        -- rewrite Hcnt'. simpl length. lia.
        -- cbn [rev]. now rewrite <- app_assoc.
    + exists [], nodes. rewrite place_nil, Z.add_0_r.
      split; [reflexivity|]. split; [|cbn [rev app]; auto].
      apply greedy_all_connected. intros e' He'.
      rewrite Forall_forall in Hval. destruct (Hval e' He') as [Hi Hj].
      destruct (Root_exists N _ nodes (edge_i e') Hwf Hi) as [ri Hri].
      destruct (Root_exists N _ nodes (edge_j e') Hwf Hj) as [rj Hrj].
      destruct Hrep as [_ H2]. apply H2. exists ri. split; [assumption|].
      rewrite (single_root nodes ri rj); [assumption|lia| |];
        eapply Root_is_root_true; eauto.
Qed.

End GreedyLoop.

Lemma represents_create N : represents N (create_nodes N) [].
Proof.
  split; [intros e []|].
  intros u v (r & Hu & Hv).
  assert (Hself : forall x y, Root (create_nodes N) x y -> x = y).
  { intros x y H. inversion H as [|? nd ? Hnd Hne]; subst; [reflexivity|].
    pose proof (rd_range _ _ _ Hnd) as Hr.
    destruct (Z.le_gt_cases 0 N) as [HN|HN].
    - rewrite length_create_nodes in Hr by assumption.
      rewrite rd_create_nodes in Hnd by assumption. inversion Hnd; subst. now cbn in Hne.
    - unfold create_nodes in Hr. rewrite length_map, length_iota in Hr. lia. }
  rewrite (Hself _ _ Hu), (Hself _ _ Hv). apply conn_refl.
Qed.

(** What [union_find] returns on the first [M] edges of a buffer, when the
    endpoints of these edges lie in [vs]. *)
Lemma union_find_greedy_region (vs : list Z) (edges : list Edge) (N M : Z)
  (tree : list Edge) :
  0 <= M <= Z.of_nat (length edges) ->
  Forall (endpoints_in N) (firstn (Z.to_nat M) edges) ->
  (forall e, In e (firstn (Z.to_nat M) edges) -> In (edge_i e) vs /\ In (edge_j e) vs) ->
  Z.of_nat (length vs) - 1 <= Z.of_nat (length tree) ->
  exists out,
    union_find edges N M tree
      = Some (out ++ skipn (length out) tree, Z.of_nat (length out))
    /\ greedy [] (firstn (Z.to_nat M) edges) out
    /\ (out = [] \/ Z.of_nat (length out) + 1 <= Z.of_nat (length vs)).
Proof.
  intros HM Hval Hvs Hcap. unfold union_find.
  assert (Hsplit : edges = [] ++ firstn (Z.to_nat M) edges ++ skipn (Z.to_nat M) edges)
    by (simpl; symmetry; apply firstn_skipn).
  assert (Hlen : Z.of_nat (length (firstn (Z.to_nat M) edges)) = M)
    by (rewrite firstn_length_le; lia).
  destruct (Z.le_gt_cases N 0) as [HN|HN].
  - exists []. replace (union_find_loop N edges (iota M) (mkUF (create_nodes N) tree 0))
      with (Some (mkUF (create_nodes N) tree 0)).
    + simpl. split; [reflexivity|]. split; [|now left].
      destruct (firstn (Z.to_nat M) edges) as [|e l]; [constructor|].
      inversion Hval as [|? ? [He _] _]; subst. lia.
    + destruct (iota M); simpl; [reflexivity|].
      destruct (Z.ltb_spec 0 (N - 1)); [lia | reflexivity].
  - destruct (union_find_loop_greedy N vs (firstn (Z.to_nat M) edges) []
                (skipn (Z.to_nat M) edges) (mkUF (create_nodes N) tree 0) [])
      as (out & nodes' & Hloop & Hg & Hb & _); cbn [uf_nodes uf_tree uf_num];
      try assumption; try lia.
    { apply create_nodes_wf. lia. }
    { rewrite count_roots_create; lia. }
    { apply represents_create. }
    { intros e [[]|He]. now apply Hvs. }
    rewrite <- Hsplit in Hloop. rewrite Hlen in Hloop.
    cbn [length] in Hloop. rewrite <- iota_as_range in Hloop.
    rewrite Hloop. cbn [uf_tree uf_num].
    exists out. split; [now rewrite place_0|]. split; [assumption|].
    cbn [uf_nodes uf_tree uf_num] in Hb.
    destruct Hb as [Hb|Hb]; [now left | right; lia].
Qed.

(** With a buffer of [N - 1] entries or more. *)
Lemma union_find_greedy (edges : list Edge) (N M : Z) (tree : list Edge) :
  0 <= M <= Z.of_nat (length edges) ->
  Forall (endpoints_in N) (firstn (Z.to_nat M) edges) ->
  N - 1 <= Z.of_nat (length tree) ->
  exists out,
    union_find edges N M tree
      = Some (out ++ skipn (length out) tree, Z.of_nat (length out))
    /\ greedy [] (firstn (Z.to_nat M) edges) out.
Proof.
  intros HM Hval Hcap.
  destruct (union_find_greedy_region (iota N) edges N M tree HM Hval)
    as (out & Huf & Hg & _).
  - intros e He. rewrite Forall_forall in Hval. destruct (Hval e He).
    split; now apply In_iota.
  - rewrite length_iota. lia.
  - eauto.
Qed.


(** ** Enumerating the edges of the matrix *)

Lemma skipn_repeat {A} (x : A) n k : skipn k (repeat x n) = repeat x (n - k).
Proof.
  revert k; induction n; intros [|k]; simpl; try reflexivity. apply IHn.
Qed.

Lemma place_0_calloc n (es : list Edge) :
  place (calloc_edges n) 0 es = es ++ repeat zero_edge (Z.to_nat n - length es).
Proof. rewrite place_0. unfold calloc_edges. now rewrite skipn_repeat. Qed.

Lemma length_place {A} (tree : list A) k out :
  (k + length out <= length tree)%nat -> length (place tree k out) = length tree.
Proof.
  intros H. unfold place. rewrite !length_app, length_firstn, length_skipn. lia.
Qed.

Lemma firstn_exact {A} (l1 l2 : list A) n :
  n = length l1 -> firstn n (l1 ++ l2) = l1.
Proof. intros ->. revert l2. induction l1; intros; simpl; [reflexivity | now rewrite IHl1]. Qed.

Lemma skipn_exact_plus {A} (l1 l2 : list A) n m :
  n = (length l1 + m)%nat -> skipn n (l1 ++ l2) = skipn m l2.
Proof. intros ->. induction l1; simpl; auto. Qed.

Lemma firstn_place {A} (tree : list A) k out :
  (k + length out <= length tree)%nat ->
  firstn (k + length out) (place tree k out) = firstn k tree ++ out.
Proof.
  intros H. unfold place. rewrite app_assoc. apply firstn_exact.
  rewrite length_app, length_firstn. lia.
Qed.

Lemma skipn_place {A} (tree : list A) k out m :
  (k + length out <= length tree)%nat -> (k + length out <= m)%nat ->
  skipn m (place tree k out) = skipn m tree.
Proof.
  intros H Hm. unfold place. rewrite app_assoc.
  rewrite (skipn_exact_plus (firstn k tree ++ out) _ _ (m - (k + length out)))
    by (rewrite length_app, length_firstn; lia).
  rewrite skipn_skipn. f_equal. lia.
Qed.

Lemma place_app {A} (tree : list A) k out1 out2 :
  (k + length out1 <= length tree)%nat ->
  place (place tree k out1) (k + length out1) out2 = place tree k (out1 ++ out2).
Proof.
  intros H. unfold place at 1. rewrite firstn_place by assumption.
  rewrite skipn_place by lia. unfold place.
  rewrite length_app, <- !app_assoc, Nat.add_assoc. reflexivity.
Qed.

Lemma entry_rd N adj i j :
  0 <= i * N + j < Z.of_nat (length adj) -> rd adj (i * N + j) = Some (entry N adj i j).
Proof.
  intros H. unfold entry. destruct (rd_in_range adj _ H) as [a ->]. reflexivity.
Qed.

Section Rows.

Variables (N : Z) (adj : Adj).

(** The inner loop of [create_edges]. *)
Lemma create_edges_row_spec (i : Z) (js : list Z) (buf : list Edge) (num : Z) :
  0 <= num ->
  (forall j, In j js -> 0 <= i * N + j < Z.of_nat (length adj)) ->
  num + Z.of_nat (length (row_edges N adj i i js)) <= Z.of_nat (length buf) ->
  create_edges_row N adj i js (buf, num)
  = Some (place buf (Z.to_nat num) (row_edges N adj i i js),
          num + Z.of_nat (length (row_edges N adj i i js))).
Proof.
  revert buf num. induction js as [|j js IH]; intros buf num Hnum Hin Hcap.
  - simpl. now rewrite place_nil, Z.add_0_r.
  - cbn [create_edges_row row_edges flat_map] in *.
    rewrite entry_rd by (apply Hin; now left). cbn [fst snd].
    destruct (Z.eqb_spec (entry N adj i j) 0) as [He|Hne]; cbn [negb app].
    + apply IH; auto. intros; apply Hin; now right.
    + rewrite length_app in Hcap. cbn [length] in Hcap.
      rewrite wr_in_range by lia.
      rewrite IH; try lia.
      * f_equal. f_equal.
        -- replace (Z.to_nat (num + 1)) with (S (Z.to_nat num)) by lia.
           apply place_upd. lia.
        -- cbn [length]. fold (row_edges N adj i i js). lia.
      * intros; apply Hin; now right.
      * rewrite length_upd. fold (row_edges N adj i i js) in *. lia.
Qed.

Lemma create_edges_rows_spec (rows : list Z) (buf : list Edge) (num : Z) :
  0 <= num ->
  (forall i j, In i rows -> i <= j < N -> 0 <= i * N + j < Z.of_nat (length adj)) ->
  let es := flat_map (fun i => row_edges N adj i i (range i N)) rows in
  num + Z.of_nat (length es) <= Z.of_nat (length buf) ->
  create_edges_rows N adj rows (buf, num)
  = Some (place buf (Z.to_nat num) es, num + Z.of_nat (length es)).
Proof.
  revert buf num. induction rows as [|i rows IH]; intros buf num Hnum Hin es Hcap.
  - subst es. simpl. now rewrite place_nil, Z.add_0_r.
  - subst es. cbn [create_edges_rows flat_map] in *.
    rewrite length_app in Hcap.
    rewrite create_edges_row_spec; try lia.
    + rewrite IH; try lia.
      * f_equal. f_equal.
        -- replace (Z.to_nat (num + Z.of_nat (length (row_edges N adj i i (range i N)))))
             with (Z.to_nat num + length (row_edges N adj i i (range i N)))%nat by lia.
           apply place_app. lia.
        -- rewrite length_app. lia.
      * intros; apply Hin; auto. now right.
      * rewrite length_place by lia. lia.
    + intros j Hj. apply In_range in Hj. apply Hin; auto. now left.
Qed.

End Rows.

Lemma adjacency_index N adj i j :
  adjacency N adj -> 0 <= i < N -> 0 <= j < N ->
  0 <= i * N + j < Z.of_nat (length adj).
Proof. intros (HN & Hl & _) Hi Hj. rewrite Hl. nia. Qed.

(** [create_edges] writes the edges of the upper triangle at the start of
    the buffer and returns their number. *)
Lemma create_edges_spec N adj (buf : list Edge) :
  adjacency N adj ->
  Z.of_nat (length (upper_edges N adj)) <= Z.of_nat (length buf) ->
  create_edges N adj buf
  = Some (place buf 0 (upper_edges N adj), Z.of_nat (length (upper_edges N adj))).
Proof.
  intros Hadj Hcap. unfold create_edges.
  rewrite create_edges_rows_spec; try lia.
  - reflexivity.
  - intros i j Hi Hj. apply In_iota in Hi. apply adjacency_index; auto. lia.
  - exact Hcap.
Qed.

Lemma entry_In N adj i j :
  entry N adj i j <> 0 -> In (entry N adj i j) adj.
Proof.
  unfold entry. destruct (rd adj (i * N + j)) eqn:E; [|congruence].
  intros _. eapply rd_In; eauto.
Qed.

Lemma In_row_edges N adj i real_i js e :
  In e (row_edges N adj i real_i js) <->
  exists j, In j js /\ entry N adj i j <> 0 /\ e = init_edge real_i j (entry N adj i j).
Proof.
  unfold row_edges. rewrite in_flat_map. split.
  - intros (j & Hj & He). exists j. split; [assumption|].
    destruct (Z.eqb_spec (entry N adj i j) 0); [contradiction|].
    destruct He as [<-|[]]. auto.
  - intros (j & Hj & Hne & ->). exists j. split; [assumption|].
    destruct (Z.eqb_spec (entry N adj i j) 0); [contradiction|]. now left.
Qed.

(** The edges of the upper triangle are the entries [adj[i][j] <> 0] with
    [i <= j]. *)
Lemma In_upper_edges N adj e :
  In e (upper_edges N adj) <->
  exists i j, 0 <= i <= j /\ j < N /\ entry N adj i j <> 0
              /\ e = mkEdge i j (entry N adj i j).
Proof.
  unfold upper_edges. rewrite in_flat_map. split.
  - intros (i & Hi & He). apply In_iota in Hi. apply In_row_edges in He.
    destruct He as (j & Hj & Hne & ->). apply In_range in Hj.
    exists i, j. repeat split; try lia; try assumption.
    unfold init_edge.
    destruct (Z.ltb_spec i j), (Z.gtb_spec j i); try lia; try reflexivity.
    assert (i = j) by lia. now subst.
  - intros (i & j & Hij & Hj & Hne & ->). exists i. split; [apply In_iota; lia|].
    apply In_row_edges. exists j. split; [apply In_range; lia|]. split; [assumption|].
    unfold init_edge.
    destruct (Z.ltb_spec i j), (Z.gtb_spec j i); try lia; try reflexivity.
    assert (i = j) by lia. now subst.
Qed.


(** ** Sorting *)

Lemma insert_edge_perm e l : Permutation (insert_edge e l) (e :: l).
Proof.
  induction l as [|x l IH]; simpl; [reflexivity|].
  destruct (cmp_edges e x <=? 0); [reflexivity|].
  rewrite IH. apply perm_swap.
Qed.

Lemma sort_edges_perm l : Permutation (sort_edges l) l.
Proof.
  induction l as [|x l IH]; simpl; [reflexivity|].
  rewrite insert_edge_perm. now constructor.
Qed.

Lemma sort_edges_In l e : In e (sort_edges l) <-> In e l.
Proof.
  split; apply Permutation_in; [apply sort_edges_perm | symmetry; apply sort_edges_perm].
Qed.

Lemma length_sort_edges l : length (sort_edges l) = length l.
Proof. apply Permutation_length, sort_edges_perm. Qed.

Lemma cmp_edges_zero_edge e :
  0 < edge_w e <= INT_MAX -> cmp_edges e zero_edge > 0.
Proof.
  intros H. unfold cmp_edges, zero_edge, int_sub. cbn [edge_w].
  destruct (Z.eqb_spec (edge_w e) 0); [lia|]. cbn [negb].
  rewrite wrap_small; unfold in_int, INT_MIN, INT_MAX in *; lia.
Qed.

Lemma insert_edge_after_zeros e n l :
  0 < edge_w e <= INT_MAX ->
  insert_edge e (repeat zero_edge n ++ l) = repeat zero_edge n ++ insert_edge e l.
Proof.
  intros H. induction n as [|n IH]; simpl; [reflexivity|].
  pose proof (cmp_edges_zero_edge e H).
  destruct (Z.leb_spec (cmp_edges e zero_edge) 0); [lia|]. now rewrite IH.
Qed.

Lemma sort_zeros n : sort_edges (repeat zero_edge n) = repeat zero_edge n.
Proof.
  induction n as [|n IH]; [reflexivity|].
  cbn [repeat]. unfold sort_edges in *. cbn [fold_right]. rewrite IH.
  destruct n; reflexivity.
Qed.

(** The zero entries that [calloc] left behind the edges sort to the
    front. *)
Lemma sort_edges_padding g n :
  Forall (fun e => 0 < edge_w e <= INT_MAX) g ->
  sort_edges (g ++ repeat zero_edge n) = repeat zero_edge n ++ sort_edges g.
Proof.
  intros Hg. unfold sort_edges. rewrite fold_right_app.
  fold (sort_edges (repeat zero_edge n)). rewrite sort_zeros.
  induction Hg as [|e g He Hg IH]; simpl; [now rewrite app_nil_r|].
  rewrite IH. now apply insert_edge_after_zeros.
Qed.

(** ** Greedy runs *)

Lemma greedy_incl acc es out : greedy acc es out -> incl out es.
Proof.
  induction 1; intros x Hx.
  - contradiction.
  - right. auto.
  - destruct Hx as [<-|Hx]; [now left | right; auto].
Qed.

Lemma greedy_skip_loops acc zs es out :
  Forall (fun e => edge_i e = edge_j e) zs ->
  greedy acc (zs ++ es) out <-> greedy acc es out.
Proof.
  intros Hz. induction Hz as [|z zs Hzz Hz IH]; simpl; [tauto|].
  split.
  - intros H. inversion H; subst; [now apply IH|].
    exfalso. apply H3. rewrite Hzz. apply conn_refl.
  - intros H. apply greedy_skip; [rewrite Hzz; apply conn_refl | now apply IH].
Qed.

Lemma union_find_no_vertex_pair edges N M tree :
  N <= 1 -> union_find edges N M tree = Some (tree, 0).
Proof.
  intros HN. unfold union_find. destruct (iota M); simpl; [reflexivity|].
  destruct (Z.ltb_spec 0 (N - 1)); [lia | reflexivity].
Qed.

Lemma upper_edges_weight N adj e :
  adjacency N adj -> In e (upper_edges N adj) -> 0 < edge_w e <= INT_MAX.
Proof.
  intros (_ & _ & Hw) He. apply In_upper_edges in He.
  destruct He as (i & j & _ & _ & Hne & ->). cbn [edge_w].
  specialize (Hw _ (entry_In N adj i j Hne)). lia.
Qed.

Lemma upper_edges_endpoints N adj e :
  In e (upper_edges N adj) -> endpoints_in N e.
Proof.
  intros He. apply In_upper_edges in He.
  destruct He as (i & j & Hi & Hj & _ & ->). unfold endpoints_in. cbn. lia.
Qed.

Lemma upper_edges_no_vertex N adj : N <= 0 -> upper_edges N adj = [].
Proof. intros H. unfold upper_edges. now rewrite iota_nonpos. Qed.

(** What [sequential_kruskal] does with its [M] entries: the edges of the
    upper triangle, then zero entries; sorted, the zero entries come first;
    [union_find] makes the greedy choice in that array. *)
Lemma sequential_kruskal_run (N M : Z) (adj : Adj) (tree : list Edge) :
  adjacency N adj ->
  Z.of_nat (length (upper_edges N adj)) <= M ->
  N - 1 <= Z.of_nat (length tree) ->
  let genuine := upper_edges N adj in
  let surplus := repeat zero_edge (Z.to_nat M - length genuine) in
  create_edges N adj (calloc_edges M)
    = Some (genuine ++ surplus, Z.of_nat (length genuine))
  /\ qsort (genuine ++ surplus) M = Some (surplus ++ sort_edges genuine)
  /\ exists out,
       sequential_kruskal N M adj tree
         = Some (out ++ skipn (length out) tree, Z.of_nat (length out))
       /\ greedy [] (surplus ++ sort_edges genuine) out.
Proof.
  intros Hadj HM Hcap genuine surplus.
  assert (HM' : Z.of_nat (length genuine) <= M) by exact HM.
  assert (Hce : create_edges N adj (calloc_edges M)
                = Some (genuine ++ surplus, Z.of_nat (length genuine))).
  { rewrite create_edges_spec; [|assumption|unfold calloc_edges; rewrite repeat_length; lia].
    now rewrite place_0_calloc. }
  assert (Hlen : length (genuine ++ surplus) = Z.to_nat M).
  { rewrite length_app. unfold surplus. rewrite repeat_length. lia. }
  assert (Hq : qsort (genuine ++ surplus) M = Some (surplus ++ sort_edges genuine)).
  { unfold qsort.
    destruct (Z.leb_spec 0 M); [|lia].
    destruct (Z.leb_spec M (Z.of_nat (length (genuine ++ surplus)))); [|lia].
    cbn [andb]. rewrite <- Hlen, firstn_all, skipn_all, app_nil_r.
    f_equal. apply sort_edges_padding.
    apply Forall_forall. intros e He. eapply upper_edges_weight; eauto. }
  split; [exact Hce|]. split; [exact Hq|].
  unfold sequential_kruskal. rewrite Hce. cbn [fst]. rewrite Hq.
  destruct (Z.le_gt_cases N 0) as [HN|HN].
  - exists []. rewrite union_find_no_vertex_pair by lia.
    split; [reflexivity|].
    assert (Hg0 : genuine = []) by (now apply upper_edges_no_vertex).
    rewrite Hg0. cbn [sort_edges fold_right]. rewrite app_nil_r.
    apply greedy_all_connected. intros e He. apply repeat_spec in He. subst e.
    apply conn_refl.
  - destruct (union_find_greedy (surplus ++ sort_edges genuine) N M tree)
      as (out & Huf & Hg); try assumption.
    + rewrite length_app, length_sort_edges, Nat.add_comm, <- length_app. lia.
    + rewrite firstn_all2
        by (rewrite length_app, length_sort_edges, Nat.add_comm, <- length_app; lia).
      apply Forall_app. split; apply Forall_forall; intros e He.
      * apply repeat_spec in He. subst. unfold endpoints_in. cbn. lia.
      * apply (proj1 (sort_edges_In _ _)) in He. now apply upper_edges_endpoints in He.
    + rewrite firstn_all2 in Hg
        by (rewrite length_app, length_sort_edges, Nat.add_comm, <- length_app; lia).
      exists out. split; [exact Huf | assumption].
Qed.

(** C10.  [sequential_kruskal] allocates [M] zeroed entries, and sorts and
    feeds to [union_find] all [M] of them even when [create_edges] found
    fewer edges.  When the matrix has at most [M] non-zero entries in its
    upper triangle, the surplus entries are the edge (0,0,0); they sort to
    the front and are never emitted, since their two endpoints are the same
    vertex: the result is the greedy choice on the sorted edges of the graph
    alone, and every edge of the output tree is an edge of the graph. *)
Theorem sequential_kruskal_ignores_zero_padding
  (N M : Z) (adj : Adj) (tree : list Edge) :
  adjacency N adj ->
  Z.of_nat (length (upper_edges N adj)) <= M ->
  N - 1 <= Z.of_nat (length tree) ->
  let genuine := upper_edges N adj in
  let surplus := repeat zero_edge (Z.to_nat M - length genuine) in
  create_edges N adj (calloc_edges M)
    = Some (genuine ++ surplus, Z.of_nat (length genuine))
  /\ qsort (genuine ++ surplus) M = Some (surplus ++ sort_edges genuine)
  /\ exists out,
       sequential_kruskal N M adj tree
         = Some (out ++ skipn (length out) tree, Z.of_nat (length out))
       /\ greedy [] (surplus ++ sort_edges genuine) out
       /\ greedy [] (sort_edges genuine) out
       /\ (forall e, In e out -> In e genuine)
       /\ ~ In zero_edge out.
Proof.
  intros Hadj HM Hcap genuine surplus.
  destruct (sequential_kruskal_run N M adj tree Hadj HM Hcap)
    as (Hce & Hq & out & Hseq & Hg).
  fold genuine in Hce, Hq, Hg. fold surplus in Hce, Hq, Hg.
  split; [exact Hce|]. split; [exact Hq|].
  exists out. split; [exact Hseq|]. split; [exact Hg|].
  assert (Hloops : Forall (fun e => edge_i e = edge_j e) surplus).
  { apply Forall_forall. intros e He. apply repeat_spec in He. now subst. }
  assert (Hg' : greedy [] (sort_edges genuine) out) by (now apply greedy_skip_loops in Hg).
  split; [assumption|].
  assert (Hin : forall e, In e out -> In e genuine).
  { intros e He. apply (proj1 (sort_edges_In genuine e)). eapply greedy_incl; eauto. }
  split; [exact Hin|]. intros Hz. apply Hin in Hz.
  pose proof (upper_edges_weight N adj _ Hadj Hz) as Hw. cbn in Hw. lia.
Qed.

Lemma sequential_kruskal_ignores_zero_padding_witness :
  exists out,
    sequential_kruskal 3 5 [0; 1; 4; 1; 0; 2; 4; 2; 0] (calloc_edges 2)
      = Some (out ++ skipn (length out) (calloc_edges 2), Z.of_nat (length out))
    /\ greedy [] (repeat zero_edge (Z.to_nat 5 - length (upper_edges 3 [0; 1; 4; 1; 0; 2; 4; 2; 0]))
                  ++ sort_edges (upper_edges 3 [0; 1; 4; 1; 0; 2; 4; 2; 0])) out
    /\ greedy [] (sort_edges (upper_edges 3 [0; 1; 4; 1; 0; 2; 4; 2; 0])) out
    /\ (forall e, In e out -> In e (upper_edges 3 [0; 1; 4; 1; 0; 2; 4; 2; 0]))
    /\ ~ In zero_edge out.
Proof.
  apply (sequential_kruskal_ignores_zero_padding 3 5 [0; 1; 4; 1; 0; 2; 4; 2; 0]
           (calloc_edges 2)).
  - split; [lia|]. split; [reflexivity|].
    intros a Ha. unfold INT_MAX. simpl in Ha.
    repeat (destruct Ha as [<-|Ha]; [lia|]). contradiction.
  - simpl. lia.
  - simpl. lia.
Defined.


(** ** Minimum spanning forests *)

Lemma edge_ltb_lt a b : edge_ltb a b = true <-> edge_lt a b.
Proof.
  unfold edge_ltb, edge_lt.
  rewrite !orb_true_iff, !andb_true_iff, !orb_true_iff, !andb_true_iff.
  rewrite !Z.ltb_lt, !Z.eqb_eq. tauto.
Qed.

Lemma In_below e es x : In x (below e es) <-> In x es /\ edge_lt x e.
Proof. unfold below. rewrite filter_In, edge_ltb_lt. tauto. Qed.

Lemma below_mono e es es' : incl es es' -> incl (below e es) (below e es').
Proof. intros H x Hx. apply In_below in Hx. apply In_below. split; [apply H|]; tauto. Qed.

Lemma below_trans e e' es : edge_lt e e' -> incl (below e es) (below e' es).
Proof.
  intros H x Hx. apply In_below in Hx. apply In_below.
  split; [tauto|]. eapply edge_lt_trans; [apply Hx | exact H].
Qed.

(** Edges whose endpoints are connected add nothing. *)
Lemma conn_subst es es' u v :
  (forall e, In e es -> conn es' (edge_i e) (edge_j e)) ->
  conn es u v -> conn es' u v.
Proof.
  intros Hsub H. induction H.
  - apply conn_refl.
  - now apply Hsub.
  - now apply conn_sym.
  - eapply conn_trans; eauto.
Qed.

(** *** Sorted lists *)

Lemma sorted_middle (pre : list Edge) e suf :
  StronglySorted edge_lt (pre ++ e :: suf) ->
  (forall x, In x pre -> edge_lt x e) /\ (forall y, In y suf -> edge_lt e y).
Proof.
  induction pre as [|a pre IH]; cbn [app]; intros H.
  - apply StronglySorted_inv in H. destruct H as [_ H]. rewrite Forall_forall in H.
    split; [intros x [] | exact H].
  - apply StronglySorted_inv in H. destruct H as [Hs Ha]. rewrite Forall_forall in Ha.
    destruct (IH Hs) as [H1 H2]. split; [|exact H2].
    intros x [<-|Hx]; [|now apply H1]. apply Ha. apply in_or_app. right. now left.
Qed.

Lemma sorted_NoDup (l : list Edge) : StronglySorted edge_lt l -> NoDup l.
Proof.
  induction 1 as [|a l Hs IH Ha]; constructor; [|assumption].
  intros Hin. rewrite Forall_forall in Ha. exact (edge_lt_irrefl a (Ha a Hin)).
Qed.

(** A sorted list is determined by its elements. *)
Lemma sorted_ext (l1 l2 : list Edge) :
  StronglySorted edge_lt l1 -> StronglySorted edge_lt l2 ->
  (forall e, In e l1 <-> In e l2) -> l1 = l2.
Proof.
  intros H1. revert l2. induction H1 as [|a l1 Hs1 IH Ha]; intros l2 H2 Hext.
  - destruct l2 as [|b l2]; [reflexivity|]. destruct (proj2 (Hext b) (or_introl eq_refl)).
  - destruct H2 as [|b l2 Hs2 Hb].
    { destruct (proj1 (Hext a) (or_introl eq_refl)). }
    rewrite Forall_forall in Ha, Hb.
    assert (a = b).
    { destruct (proj1 (Hext a) (or_introl eq_refl)) as [|Hin]; [congruence|].
      destruct (proj2 (Hext b) (or_introl eq_refl)) as [|Hin']; [assumption|].
      exfalso. exact (edge_lt_asym _ _ (Ha _ Hin') (Hb _ Hin)). }
    subst b. f_equal. apply IH; [assumption|].
    intros e. split; intros He.
    + destruct (proj1 (Hext e) (or_intror He)) as [<-|]; [|assumption].
      exfalso. exact (edge_lt_irrefl _ (Ha _ He)).
    + destruct (proj2 (Hext e) (or_intror He)) as [<-|]; [|assumption].
      exfalso. exact (edge_lt_irrefl _ (Hb _ He)).
Qed.

(** *** Kruskal's choice on a sorted list is the minimum spanning forest *)

Lemma greedy_msf_from (pre suf acc out : list Edge) :
  greedy acc suf out ->
  StronglySorted edge_lt (pre ++ suf) ->
  incl acc pre ->
  (forall u v, conn pre u v -> conn acc u v) ->
  StronglySorted edge_lt out
  /\ incl out suf
  /\ (forall e, In e out -> light (pre ++ suf) e)
  /\ (forall e, In e suf -> In e out \/ conn (below e (acc ++ out)) (edge_i e) (edge_j e)).
Proof.
  intros Hg. revert pre. induction Hg as [acc|acc e es out Hc Hg IH|acc e es out Hc Hg IH];
    intros pre Hs Hacc Hspan.
  - split; [constructor|]. split; [apply incl_refl|]. split; intros e [].
  - destruct (sorted_middle pre e es Hs) as [Hpre Hsuf].
    destruct (IH (pre ++ [e])) as (H1 & H2 & H3 & H4).
    + now rewrite <- app_assoc.
    + intros x Hx. apply in_or_app. left. now apply Hacc.
    + intros u v. apply conn_subst. intros x Hx. apply in_app_or in Hx.
      destruct Hx as [Hx|[<-|[]]]; [|assumption].
      apply Hspan. now apply conn_edge.
    + rewrite <- app_assoc in H3. split; [assumption|]. split; [now apply incl_tl|].
      split; [assumption|]. intros x [<-|Hx]; [|now apply H4].
      right. eapply conn_mono; [|exact Hc].
      intros y Hy. apply In_below. split; [apply in_or_app; now left|].
      apply Hpre. now apply Hacc.
  - destruct (sorted_middle pre e es Hs) as [Hpre Hsuf].
    destruct (IH (pre ++ [e])) as (H1 & H2 & H3 & H4).
    + now rewrite <- app_assoc.
    + intros x [<-|Hx]; apply in_or_app; [right; now left | left; now apply Hacc].
    + intros u v. apply conn_subst. intros x Hx. apply in_app_or in Hx.
      destruct Hx as [Hx|[<-|[]]]; [|apply conn_edge; now left].
      eapply conn_mono; [apply incl_tl, incl_refl|]. apply Hspan. now apply conn_edge.
    + rewrite <- app_assoc in H3. split; [|split; [|split]].
      * constructor; [assumption|]. apply Forall_forall. intros x Hx. apply Hsuf. now apply H2.
      * intros x [<-|Hx]; [now left | right; now apply H2].
      * intros x [<-|Hx]; [|now apply H3].
        intros Hcb. apply Hc. apply Hspan. eapply conn_mono; [|exact Hcb].
        intros y Hy. apply In_below in Hy. destruct Hy as [Hy Hlt].
        apply in_app_or in Hy. destruct Hy as [Hy|[<-|Hy]]; [assumption | |].
        -- destruct (edge_lt_irrefl _ Hlt).
        -- destruct (edge_lt_asym _ _ Hlt (Hsuf _ Hy)).
      * intros x [<-|Hx]; [left; now left|].
        destruct (H4 x Hx) as [Hin|Hcx]; [left; now right|].
        right. eapply conn_mono; [|exact Hcx].
        apply below_mono. intros y Hy. apply in_or_app.
        destruct Hy as [<-|Hy]; [right; now left|].
        apply in_app_or in Hy. destruct Hy; [now left | right; now right].
Qed.

Lemma greedy_msf (es out : list Edge) :
  StronglySorted edge_lt es -> greedy [] es out -> msf es out.
Proof.
  intros Hs Hg.
  destruct (greedy_msf_from [] es [] out Hg Hs (incl_refl _)) as (H1 & H2 & H3 & H4).
  - intros u v H. exact H.
  - repeat split; assumption.
Qed.

(** *** Properties of minimum spanning forests *)

Lemma msf_conn_below es out e u v :
  msf es out -> conn (below e es) u v -> conn (below e out) u v.
Proof.
  intros (_ & _ & _ & H4). apply conn_subst. intros x Hx. apply In_below in Hx.
  destruct Hx as [Hx Hlt]. destruct (H4 x Hx) as [Hin|Hc].
  - apply conn_edge. apply In_below. tauto.
  - eapply conn_mono; [|exact Hc]. now apply below_trans.
Qed.

Lemma msf_In es out e : msf es out -> (In e out <-> In e es /\ light es e).
Proof.
  intros (H1 & H2 & H3 & H4). split.
  - intros He. split; [now apply H2 | now apply H3].
  - intros [He Hl]. destruct (H4 e He) as [Hin|Hc]; [assumption|].
    exfalso. apply Hl. eapply conn_mono; [|exact Hc]. now apply below_mono.
Qed.

Lemma light_ext es es' e : (forall x, In x es <-> In x es') -> light es e -> light es' e.
Proof.
  intros Hext Hl Hc. apply Hl. eapply conn_mono; [|exact Hc].
  apply below_mono. intros x Hx. now apply Hext.
Qed.

Lemma msf_ext es es' out : (forall x, In x es <-> In x es') -> msf es out -> msf es' out.
Proof.
  intros Hext (H1 & H2 & H3 & H4). split; [assumption|]. split; [|split].
  - intros x Hx. apply Hext. now apply H2.
  - intros e He. eapply light_ext; eauto.
  - intros e He. apply H4. now apply Hext.
Qed.

Lemma msf_unique es out1 out2 : msf es out1 -> msf es out2 -> out1 = out2.
Proof.
  intros H1 H2. apply sorted_ext; [apply H1 | apply H2|].
  intros e. rewrite (msf_In es out1 e H1), (msf_In es out2 e H2). tauto.
Qed.

(** The minimum spanning forest of a union of sets of edges is that of the
    union of their minimum spanning forests. *)
Lemma msf_compose (parts : list (list Edge * list Edge)) (E G out : list Edge) :
  (forall p, In p parts -> msf (fst p) (snd p)) ->
  (forall e, In e E <-> exists p, In p parts /\ In e (fst p)) ->
  (forall e, In e G <-> exists p, In p parts /\ In e (snd p)) ->
  msf G out -> msf E out.
Proof.
  intros Hparts HE HG Hm. pose proof Hm as (H1 & H2 & H3 & H4).
  assert (HGE : incl G E).
  { intros e He. apply HG in He. destruct He as (p & Hp & He). apply HE.
    exists p. split; [assumption|]. destruct (Hparts p Hp) as (_ & Hi & _). now apply Hi. }
  split; [assumption|]. split; [|split].
  - intros e He. apply HGE. now apply H2.
  - intros e He Hc. apply (H3 e He). revert Hc. apply conn_subst.
    intros x Hx. apply In_below in Hx. destruct Hx as [Hx Hlt].
    apply HE in Hx. destruct Hx as (p & Hp & Hx).
    destruct (Hparts p Hp) as (_ & _ & _ & Hp4).
    destruct (Hp4 x Hx) as [Hin|Hc].
    + apply conn_edge. apply In_below. split; [|assumption]. apply HG. eauto.
    + eapply conn_mono; [|exact Hc]. intros y Hy. apply In_below in Hy.
      apply In_below. split; [apply HG; exists p; tauto|].
      eapply edge_lt_trans; [apply Hy | exact Hlt].
  - intros e He. apply HE in He. destruct He as (p & Hp & He).
    destruct (Hparts p Hp) as (_ & _ & _ & Hp4).
    destruct (Hp4 e He) as [Hin|Hc].
    + apply H4. apply HG. eauto.
    + right. apply (msf_conn_below G out e _ _ Hm).
      eapply conn_mono; [|exact Hc]. apply below_mono.
      intros y Hy. apply HG. eauto.
Qed.


(** ** Sorting and merging edges of the data model *)

Section Order.

Variable N : Z.
Hypothesis HN : N <= INT_MAX + 1.

Lemma cmp_le_lt a b :
  valid_edge N a -> valid_edge N b -> a <> b ->
  (cmp_edges a b <=? 0) = true -> edge_lt a b.
Proof.
  intros Ha Hb Hne H. apply Z.leb_le in H.
  apply (cmp_edges_neg N a b HN Ha Hb).
  destruct (Z.eq_dec (cmp_edges a b) 0) as [H0|H0]; [|lia].
  apply (cmp_edges_zero N a b HN Ha Hb) in H0. contradiction.
Qed.

Lemma cmp_gt_lt a b :
  valid_edge N a -> valid_edge N b ->
  (cmp_edges a b <=? 0) = false -> edge_lt b a.
Proof.
  intros Ha Hb H. apply Z.leb_gt in H.
  apply (cmp_edges_pos N a b HN Ha Hb). lia.
Qed.

Lemma insert_edge_sorted e l :
  valid_edge N e -> Forall (valid_edge N) l -> ~ In e l ->
  StronglySorted edge_lt l -> StronglySorted edge_lt (insert_edge e l).
Proof.
  intros He Hl Hnin Hs. induction Hs as [|x l Hs IH Hx]; cbn [insert_edge].
  - constructor; constructor.
  - inversion Hl as [|? ? Hvx Hvl]; subst.
    destruct (cmp_edges e x <=? 0) eqn:Hc.
    + assert (Hlt : edge_lt e x).
      { apply cmp_le_lt; auto. intros ->. apply Hnin. now left. }
      constructor; [now constructor|]. constructor; [assumption|].
      rewrite Forall_forall in *. intros y Hy. eapply edge_lt_trans; eauto.
    + constructor.
      * apply IH; [assumption|]. intros Hin. apply Hnin. now right.
      * apply Forall_forall. intros y Hy.
        apply (Permutation_in _ (insert_edge_perm e l)) in Hy.
        destruct Hy as [<-|Hy]; [now apply cmp_gt_lt|].
        rewrite Forall_forall in Hx. now apply Hx.
Qed.

Lemma sort_edges_sorted l :
  Forall (valid_edge N) l -> NoDup l -> StronglySorted edge_lt (sort_edges l).
Proof.
  intros Hl Hnd. induction Hnd as [|e l Hnin Hnd IH]; cbn; [constructor|].
  inversion Hl as [|? ? He Hl']; subst.
  apply insert_edge_sorted; auto.
  - apply Forall_forall. intros x Hx. apply (proj1 (sort_edges_In _ _)) in Hx.
    rewrite Forall_forall in Hl'. now apply Hl'.
  - intros Hin. apply Hnin. now apply (proj1 (sort_edges_In _ _)).
Qed.

Lemma valid_endpoints e : valid_edge N e -> endpoints_in N e.
Proof. intros (_ & Hi & Hj). split; assumption. Qed.

(** [union_find] on a sorted array of edges of a region with the vertices
    [vs]. *)
Lemma union_find_msf (vs : list Z) (edges : list Edge) (M : Z) (tree : list Edge) :
  0 <= M <= Z.of_nat (length edges) ->
  Forall (valid_edge N) (firstn (Z.to_nat M) edges) ->
  StronglySorted edge_lt (firstn (Z.to_nat M) edges) ->
  (forall e, In e (firstn (Z.to_nat M) edges) -> In (edge_i e) vs /\ In (edge_j e) vs) ->
  Z.of_nat (length vs) - 1 <= Z.of_nat (length tree) ->
  exists out,
    union_find edges N M tree
      = Some (out ++ skipn (length out) tree, Z.of_nat (length out))
    /\ msf (firstn (Z.to_nat M) edges) out
    /\ (out = [] \/ Z.of_nat (length out) + 1 <= Z.of_nat (length vs)).
Proof.
  intros HM Hval Hs Hvs Hcap.
  destruct (union_find_greedy_region vs edges N M tree HM) as (out & Huf & Hg & Hb);
    try assumption.
  - eapply Forall_impl; [|exact Hval]. intros e. apply valid_endpoints.
  - exists out. split; [assumption|]. split; [now apply greedy_msf | assumption].
Qed.

(** [kruskal_forest] is the minimum spanning forest. *)
Lemma kruskal_forest_msf (es : list Edge) :
  Forall (valid_edge N) es -> NoDup es -> msf es (kruskal_forest N es).
Proof.
  intros Hval Hnd. unfold kruskal_forest.
  assert (Hlen : Z.to_nat (Z.of_nat (length es)) = length (sort_edges es))
    by (rewrite length_sort_edges; lia).
  assert (Hval' : Forall (valid_edge N) (sort_edges es)).
  { apply Forall_forall. intros x Hx. apply (proj1 (sort_edges_In _ _)) in Hx.
    rewrite Forall_forall in Hval. now apply Hval. }
  destruct (union_find_greedy (sort_edges es) N (Z.of_nat (length es))
              (calloc_edges (N - 1))) as (out & Huf & Hg).
  - rewrite length_sort_edges. lia.
  - rewrite Hlen, firstn_all. eapply Forall_impl; [|exact Hval'].
    intros e. apply valid_endpoints.
  - unfold calloc_edges. rewrite repeat_length. lia.
  - rewrite Huf. rewrite Nat2Z.id. rewrite firstn_app, Nat.sub_diag, firstn_all.
    cbn [firstn]. rewrite app_nil_r.
    rewrite Hlen, firstn_all in Hg.
    apply (msf_ext (sort_edges es)); [apply sort_edges_In|].
    apply greedy_msf; [|assumption]. now apply sort_edges_sorted.
Qed.

(** *** [merge_sorted_lists] *)

Lemma merge_loop_spec (fuel : nat) (r1 r2 c1 c2 t1 t2 done buf : list Edge) :
  (length r1 + length r2 <= fuel)%nat ->
  (length r1 + length r2 <= length buf)%nat ->
  length done = (length c1 + length c2)%nat ->
  Forall (valid_edge N) r1 -> Forall (valid_edge N) r2 ->
  StronglySorted edge_lt r1 -> StronglySorted edge_lt r2 ->
  (forall x, In x r1 -> ~ In x r2) ->
  exists m,
    merge_loop fuel (c1 ++ r1 ++ t1) (Z.of_nat (length c1 + length r1))
      (c2 ++ r2 ++ t2) (Z.of_nat (length c2 + length r2))
      (Z.of_nat (length c1)) (Z.of_nat (length c2)) (done ++ buf)
    = Some (done ++ m ++ skipn (length m) buf)
    /\ Permutation m (r1 ++ r2)
    /\ StronglySorted edge_lt m.
Proof.
  revert r1 r2 c1 c2 done buf.
  induction fuel as [|fuel IH]; intros r1 r2 c1 c2 done buf Hfuel Hbuf Hdone Hv1 Hv2 Hs1 Hs2 Hdis.
  - destruct r1, r2; cbn [length] in Hfuel; try lia.
    exists []. cbn [merge_loop]. rewrite !Nat.add_0_r.
    rewrite !Z.ltb_irrefl. cbn [orb app skipn length]. repeat split; constructor.
  - cbn [merge_loop].
    (* taking the head of the left list *)
    assert (Hleft : forall a r1', r1 = a :: r1' ->
      (forall y, In y r2 -> edge_lt a y) ->
      exists m,
        (do output' <- wr (done ++ buf) (Z.of_nat (length c1) + Z.of_nat (length c2)) a;
         merge_loop fuel (c1 ++ r1 ++ t1) (Z.of_nat (length c1 + length r1))
           (c2 ++ r2 ++ t2) (Z.of_nat (length c2 + length r2))
           (Z.of_nat (length c1) + 1) (Z.of_nat (length c2)) output')
        = Some (done ++ m ++ skipn (length m) buf)
        /\ Permutation m (r1 ++ r2) /\ StronglySorted edge_lt m).
    { intros a r1' -> Hlt. destruct buf as [|b0 buf]; [cbn [length] in Hbuf; lia|].
      rewrite (wr_at done buf b0 a) by lia.
      inversion Hv1 as [|? ? Hva Hv1']; subst.
      apply StronglySorted_inv in Hs1. destruct Hs1 as [Hs1 Ha].
      destruct (IH r1' r2 (c1 ++ [a]) c2 (done ++ [a]) buf) as (m & Hm & Hp & Hsm);
        try assumption.
      - cbn [length] in Hfuel. lia.
      - cbn [length] in Hbuf. lia.
      - rewrite !length_app. cbn [length]. lia.
      - intros x Hx. apply Hdis. now right.
      - exists (a :: m). rewrite <- !app_assoc in Hm. cbn [app] in Hm.
        rewrite length_app in Hm. cbn [length] in Hm.
        replace (Z.of_nat (length c1 + 1)) with (Z.of_nat (length c1) + 1) in Hm by lia.
        replace (Z.of_nat (length c1 + 1 + length r1'))
          with (Z.of_nat (length c1 + S (length r1'))) in Hm by lia.
        cbn [length app skipn]. rewrite Hm. split; [reflexivity|].
        split; [now constructor|]. constructor; [assumption|].
        apply Forall_forall. intros y Hy. apply (Permutation_in _ Hp) in Hy.
        apply in_app_or in Hy. destruct Hy as [Hy|Hy]; [|now apply Hlt].
        rewrite Forall_forall in Ha. now apply Ha. }
    (* taking the head of the right list *)
    assert (Hright : forall b r2', r2 = b :: r2' ->
      (forall y, In y r1 -> edge_lt b y) ->
      exists m,
        (do output' <- wr (done ++ buf) (Z.of_nat (length c1) + Z.of_nat (length c2)) b;
         merge_loop fuel (c1 ++ r1 ++ t1) (Z.of_nat (length c1 + length r1))
           (c2 ++ r2 ++ t2) (Z.of_nat (length c2 + length r2))
           (Z.of_nat (length c1)) (Z.of_nat (length c2) + 1) output')
        = Some (done ++ m ++ skipn (length m) buf)
        /\ Permutation m (r1 ++ r2) /\ StronglySorted edge_lt m).
    { intros b r2' -> Hlt. destruct buf as [|b0 buf]; [cbn [length] in Hbuf; lia|].
      rewrite (wr_at done buf b0 b) by lia.
      inversion Hv2 as [|? ? Hvb Hv2']; subst.
      apply StronglySorted_inv in Hs2. destruct Hs2 as [Hs2 Hb].
      destruct (IH r1 r2' c1 (c2 ++ [b]) (done ++ [b]) buf) as (m & Hm & Hp & Hsm);
        try assumption.
      - cbn [length] in Hfuel. lia.
      - cbn [length] in Hbuf. lia.
      - rewrite !length_app. cbn [length]. lia.
      - intros x Hx Hin. apply (Hdis x Hx). now right.
      - exists (b :: m). rewrite <- !app_assoc in Hm. cbn [app] in Hm.
        rewrite length_app in Hm. cbn [length] in Hm.
        replace (Z.of_nat (length c2 + 1)) with (Z.of_nat (length c2) + 1) in Hm by lia.
        replace (Z.of_nat (length c2 + 1 + length r2'))
          with (Z.of_nat (length c2 + S (length r2'))) in Hm by lia.
        cbn [length app skipn]. rewrite Hm. split; [reflexivity|].
        split; [now apply Permutation_cons_app|]. constructor; [assumption|].
        apply Forall_forall. intros y Hy. apply (Permutation_in _ Hp) in Hy.
        apply in_app_or in Hy. destruct Hy as [Hy|Hy]; [now apply Hlt|].
        rewrite Forall_forall in Hb. now apply Hb. }
    destruct r1 as [|a r1'], r2 as [|b r2'].
    + exists []. rewrite !Nat.add_0_r, !Z.ltb_irrefl. cbn [orb app skipn length].
      repeat split; constructor.
    + cbn [length]. rewrite Nat.add_0_r, Z.ltb_irrefl.
      destruct (Z.ltb_spec (Z.of_nat (length c2)) (Z.of_nat (length c2 + S (length r2'))));
        [|lia].
      cbn [orb].
      destruct (Z.geb_spec (Z.of_nat (length c2)) (Z.of_nat (length c2 + S (length r2'))));
        [lia|].
      rewrite (rd_at c2 (r2' ++ t2) b) by reflexivity.
      cbn [length app] in Hright. rewrite Nat.add_0_r in Hright.
      apply (Hright b r2' eq_refl). intros y [].
    + cbn [length]. rewrite (Nat.add_0_r (length c2)), (Z.ltb_irrefl (Z.of_nat (length c2))).
      destruct (Z.ltb_spec (Z.of_nat (length c1)) (Z.of_nat (length c1 + S (length r1'))));
        [|lia].
      cbn [orb].
      destruct (Z.geb_spec (Z.of_nat (length c2)) (Z.of_nat (length c2))); [|lia].
      rewrite (rd_at c1 (r1' ++ t1) a) by reflexivity.
      cbn [length app] in Hleft. rewrite (Nat.add_0_r (length c2)) in Hleft.
      apply (Hleft a r1' eq_refl). intros y [].
    + cbn [length].
      destruct (Z.ltb_spec (Z.of_nat (length c1)) (Z.of_nat (length c1 + S (length r1'))));
        [|lia].
      cbn [orb].
      destruct (Z.geb_spec (Z.of_nat (length c2)) (Z.of_nat (length c2 + S (length r2'))));
        [lia|].
      rewrite (rd_at c1 (r1' ++ t1) a) by reflexivity.
      rewrite (rd_at c2 (r2' ++ t2) b) by reflexivity.
      inversion Hv1 as [|? ? Hva _]; subst. inversion Hv2 as [|? ? Hvb _]; subst.
      pose proof (proj2 (StronglySorted_inv Hs1)) as Ha.
      pose proof (proj2 (StronglySorted_inv Hs2)) as Hb.
      rewrite Forall_forall in Ha, Hb.
      destruct (Z.ltb_spec (cmp_edges a b) 0) as [Hc|Hc].
      * assert (Hab : edge_lt a b) by (now apply (cmp_edges_neg N a b HN Hva Hvb)).
        cbn [length] in Hleft. apply (Hleft a r1' eq_refl).
        intros y [<-|Hy]; [assumption|]. eapply edge_lt_trans; [exact Hab | now apply Hb].
      * assert (Hba : edge_lt b a).
        { destruct (edge_lt_total a b) as [Hx|[Hx|Hx]]; [| |assumption].
          - apply (cmp_edges_neg N a b HN Hva Hvb) in Hx. lia.
          - subst b. exfalso. apply (Hdis a); now left. }
        cbn [length] in Hright. apply (Hright b r2' eq_refl).
        intros y [<-|Hy]; [assumption|]. eapply edge_lt_trans; [exact Hba | now apply Ha].
Qed.

Lemma merge_sorted_lists_spec (l1 l2 t1 t2 output : list Edge) :
  (length l1 + length l2 <= length output)%nat ->
  Forall (valid_edge N) l1 -> Forall (valid_edge N) l2 ->
  StronglySorted edge_lt l1 -> StronglySorted edge_lt l2 ->
  (forall x, In x l1 -> ~ In x l2) ->
  exists m,
    merge_sorted_lists (l1 ++ t1) (Z.of_nat (length l1)) (l2 ++ t2)
      (Z.of_nat (length l2)) output
    = Some (m ++ skipn (length m) output)
    /\ Permutation m (l1 ++ l2)
    /\ StronglySorted edge_lt m.
Proof.
  intros Hout Hv1 Hv2 Hs1 Hs2 Hdis. unfold merge_sorted_lists.
  rewrite !Nat2Z.id.
  exact (merge_loop_spec (length l1 + length l2) l1 l2 [] [] t1 t2 [] output
           (Nat.le_refl _) Hout eq_refl Hv1 Hv2 Hs1 Hs2 Hdis).
Qed.

End Order.


(** ** The enumerations of parallel Kruskal *)

Section Scan.

Variables (N : Z) (adj : Adj).

Lemma add_edges_row_spec (i real_i : Z) (js : list Z) (buf : list Edge) (num : Z) :
  0 <= num ->
  (forall j, In j js -> 0 <= i * N + j < Z.of_nat (length adj)) ->
  num + Z.of_nat (length (row_edges N adj i real_i js)) <= Z.of_nat (length buf) ->
  add_edges_row N adj i real_i js (buf, num)
  = Some (place buf (Z.to_nat num) (row_edges N adj i real_i js),
          num + Z.of_nat (length (row_edges N adj i real_i js))).
Proof.
  revert buf num. induction js as [|j js IH]; intros buf num Hnum Hin Hcap.
  - simpl. now rewrite place_nil, Z.add_0_r.
  - cbn [add_edges_row row_edges flat_map] in *.
    rewrite entry_rd by (apply Hin; now left). cbn [fst snd].
    destruct (Z.eqb_spec (entry N adj i j) 0) as [He|Hne]; cbn [app].
    + apply IH; auto. intros; apply Hin; now right.
    + rewrite length_app in Hcap. cbn [length] in Hcap.
      rewrite wr_in_range by lia.
      rewrite IH; try lia.
      * f_equal. f_equal.
        -- replace (Z.to_nat (num + 1)) with (S (Z.to_nat num)) by lia.
           apply place_upd. lia.
        -- cbn [length]. fold (row_edges N adj i real_i js). lia.
      * intros; apply Hin; now right.
      * rewrite length_upd. fold (row_edges N adj i real_i js) in *. lia.
Qed.

Variables (procRank nbRows : Z) (cols : Z -> list Z).

Lemma scan_rows_break (rows : list Z) st :
  (forall i, In i rows -> N <= procRank * nbRows + i) ->
  scan_rows N adj procRank nbRows cols rows st = Some st.
Proof.
  destruct rows as [|i rows]; intros H; [reflexivity|].
  cbn [scan_rows]. specialize (H i (or_introl eq_refl)).
  destruct (Z.geb_spec (procRank * nbRows + i) N); [reflexivity | lia].
Qed.

Lemma scan_rows_spec (rows rest : list Z) (buf : list Edge) (num : Z) :
  0 <= num ->
  (forall i, In i rows -> procRank * nbRows + i < N) ->
  (forall i, In i rest -> N <= procRank * nbRows + i) ->
  (forall i j, In i rows -> In j (cols (procRank * nbRows + i)) ->
     0 <= i * N + j < Z.of_nat (length adj)) ->
  let es := flat_map (fun i => row_edges N adj i (procRank * nbRows + i)
                                 (cols (procRank * nbRows + i))) rows in
  num + Z.of_nat (length es) <= Z.of_nat (length buf) ->
  scan_rows N adj procRank nbRows cols (rows ++ rest) (buf, num)
  = Some (place buf (Z.to_nat num) es, num + Z.of_nat (length es)).
Proof.
  revert buf num. induction rows as [|i rows IH]; intros buf num Hnum Hlt Hge Hin es Hcap.
  - subst es. cbn [app flat_map length]. rewrite scan_rows_break by assumption.
    now rewrite place_nil, Z.add_0_r.
  - subst es. cbn [app scan_rows flat_map] in *.
    destruct (Z.geb_spec (procRank * nbRows + i) N) as [Hc|_];
      [specialize (Hlt i (or_introl eq_refl)); lia|].
    rewrite length_app in Hcap.
    rewrite add_edges_row_spec; try lia.
    + rewrite IH; try lia.
      * f_equal. f_equal.
        -- match goal with |- context [length (row_edges ?a ?b ?c ?d ?e)] =>
             set (re := row_edges a b c d e) in * end.
           replace (Z.to_nat (num + Z.of_nat (length re)))
             with (Z.to_nat num + length re)%nat by lia.
           apply place_app. lia.
        -- rewrite length_app. lia.
      * intros; apply Hlt; now right.
      * assumption.
      * intros; apply Hin; auto. now right.
      * rewrite length_place by lia. lia.
    + intros j Hj. apply Hin; auto. now left.
Qed.

End Scan.

Lemma iota_split n k : 0 <= k <= n -> iota n = iota k ++ range k n.
Proof.
  intros H. remember (Z.to_nat (n - k)) as d eqn:Hd.
  revert n H Hd. induction d as [|d IH]; intros n H Hd.
  - assert (n = k) by lia. subst. rewrite range_empty by lia. now rewrite app_nil_r.
  - replace n with ((n - 1) + 1) by lia.
    rewrite iota_succ by lia. rewrite range_snoc by lia.
    rewrite (IH (n - 1)) by lia. now rewrite app_assoc.
Qed.

Lemma length_row_edges N adj i real_i js :
  (length (row_edges N adj i real_i js) <= length js)%nat.
Proof.
  induction js as [|j js IH]; simpl; [lia|].
  destruct (entry N adj i j =? 0); simpl; lia.
Qed.

Lemma length_flat_map_le {A B} (f : A -> list B) (l : list A) (c : nat) :
  (forall x, In x l -> (length (f x) <= c)%nat) ->
  (length (flat_map f l) <= length l * c)%nat.
Proof.
  induction l as [|x l IH]; intros H; simpl; [lia|].
  rewrite length_app. specialize (H x (or_introl eq_refl)) as Hx.
  assert (length (flat_map f l) <= length l * c)%nat by (apply IH; intros; apply H; now right).
  lia.
Qed.

(** A loop over the rows [0 .. nbRows-1] with a [break] at the first row
    past the matrix. *)
Lemma scan_rows_iota N adj procRank nbRows cols (buf : list Edge) :
  0 <= nbRows ->
  (forall i j, 0 <= i < nbRows -> procRank * nbRows + i < N ->
     In j (cols (procRank * nbRows + i)) ->
     0 <= i * N + j < Z.of_nat (length adj)) ->
  Z.of_nat (length (scanned_edges N adj procRank nbRows cols)) <= Z.of_nat (length buf) ->
  scan_rows N adj procRank nbRows cols (iota nbRows) (buf, 0)
  = Some (place buf 0 (scanned_edges N adj procRank nbRows cols),
          Z.of_nat (length (scanned_edges N adj procRank nbRows cols))).
Proof.
  intros Hnb Hin Hcap. unfold scanned_edges in *.
  set (k := Z.max 0 (Z.min nbRows (N - procRank * nbRows))).
  assert (Hk : iota (Z.min nbRows (N - procRank * nbRows)) = iota k).
  { unfold k. destruct (Z.le_gt_cases 0 (Z.min nbRows (N - procRank * nbRows))).
    - now rewrite Z.max_r.
    - rewrite Z.max_l by lia. rewrite !iota_nonpos; [reflexivity | lia | lia]. }
  rewrite Hk in *.
  rewrite (iota_split nbRows k) by lia.
  rewrite scan_rows_spec; try lia.
  - reflexivity.
  - intros i Hi. apply In_iota in Hi. lia.
  - intros i Hi. apply In_range in Hi. lia.
  - intros i j Hi Hj. apply In_iota in Hi. apply Hin; auto; lia.
Qed.

Lemma add_local_edges_scan procRank adj nbRows N rows st :
  add_local_edges_rows procRank adj nbRows N rows st
  = scan_rows N adj procRank nbRows (local_cols procRank nbRows) rows st.
Proof.
  revert st. induction rows as [|i rows IH]; intros st; [reflexivity|].
  cbn [add_local_edges_rows scan_rows].
  destruct (procRank * nbRows + i >=? N); [reflexivity|].
  unfold local_cols at 1.
  destruct (add_edges_row N adj i (procRank * nbRows + i)
              (range (procRank * nbRows) (procRank * nbRows + i + 1)) st);
    [apply IH | reflexivity].
Qed.

Lemma add_edges_from_submatrix_scan procRank stepSize adj nbRows N rows st :
  add_edges_from_submatrix_rows procRank stepSize adj nbRows N
    (submatrix_start procRank stepSize nbRows) rows st
  = scan_rows N adj procRank nbRows (submatrix_cols procRank stepSize nbRows) rows st.
Proof.
  revert st. induction rows as [|i rows IH]; intros st; [reflexivity|].
  cbn [add_edges_from_submatrix_rows scan_rows].
  destruct (procRank * nbRows + i >=? N); [reflexivity|].
  unfold submatrix_cols at 1.
  destruct (add_edges_row N adj i (procRank * nbRows + i)
              (range (submatrix_start procRank stepSize nbRows)
                 (submatrix_start procRank stepSize nbRows + nbRows * stepSize)) st);
    [apply IH | reflexivity].
Qed.

(** ** The array of a process under the two conventions *)

Lemma rd_skipn {A} (l : list A) (k : nat) (m : Z) :
  0 <= m -> rd (skipn k l) m = rd l (Z.of_nat k + m).
Proof.
  intros Hm. unfold rd.
  destruct (Z.ltb_spec m 0); [lia|]. destruct (Z.ltb_spec (Z.of_nat k + m) 0); [lia|].
  rewrite nth_error_skipn. f_equal. lia.
Qed.

Lemma ceil_div_nonneg N numProcs : 0 <= N -> 1 <= numProcs -> 0 <= ceil_div N numProcs.
Proof. intros. unfold ceil_div. apply Z.div_pos; lia. Qed.

Lemma ceil_div_pos N numProcs : 1 <= N -> 1 <= numProcs -> 1 <= ceil_div N numProcs.
Proof.
  intros. unfold ceil_div.
  assert (numProcs * 1 <= N + numProcs - 1) by lia.
  apply Z.div_le_lower_bound; lia.
Qed.

Lemma ceil_div_covers N numProcs : 0 <= N -> 1 <= numProcs -> N <= numProcs * ceil_div N numProcs.
Proof.
  intros. unfold ceil_div.
  pose proof (Z.div_mod (N + numProcs - 1) numProcs ltac:(lia)).
  pose proof (Z.mod_pos_bound (N + numProcs - 1) numProcs ltac:(lia)). lia.
Qed.

Lemma entry_row_blocks N numProcs A procRank i j :
  0 <= N -> 1 <= numProcs -> 0 <= procRank -> 0 <= i -> 0 <= j ->
  entry N (row_blocks N numProcs A procRank) i j
  = entry N A (procRank * ceil_div N numProcs + i) j.
Proof.
  intros HN HP Hr Hi Hj. unfold entry, row_blocks.
  pose proof (ceil_div_nonneg N numProcs HN HP) as Hc.
  assert (H1 : 0 <= i * N + j) by nia.
  assert (H2 : 0 <= procRank * ceil_div N numProcs * N).
  { apply Z.mul_nonneg_nonneg; [apply Z.mul_nonneg_nonneg|]; assumption. }
  rewrite rd_skipn by assumption. rewrite Z2Nat.id by assumption.
  replace (procRank * ceil_div N numProcs * N + (i * N + j))
    with ((procRank * ceil_div N numProcs + i) * N + j) by ring.
  reflexivity.
Qed.

Lemma row_blocks_index N numProcs A procRank i j :
  adjacency N A -> 1 <= numProcs -> 0 <= procRank -> 0 <= i ->
  procRank * ceil_div N numProcs + i < N -> 0 <= j < N ->
  0 <= i * N + j < Z.of_nat (length (row_blocks N numProcs A procRank)).
Proof.
  intros (HN & Hl & _) HP Hr Hi Hlt Hj. unfold row_blocks.
  pose proof (ceil_div_nonneg N numProcs HN HP) as Hc.
  assert (H2 : 0 <= procRank * ceil_div N numProcs * N).
  { apply Z.mul_nonneg_nonneg; [apply Z.mul_nonneg_nonneg|]; assumption. }
  rewrite length_skipn.
  assert (H3 : (procRank * ceil_div N numProcs + i + 1) * N <= N * N) by nia.
  assert (H4 : i * N + j < i * N + N) by lia.
  split; [nia|].
  rewrite Nat2Z.inj_sub by nia. rewrite Z2Nat.id by assumption. rewrite Hl. nia.
Qed.

Lemma row_edges_ext N adj adj' i i' real_i js :
  (forall j, In j js -> entry N adj i j = entry N adj' i' j) ->
  row_edges N adj i real_i js = row_edges N adj' i' real_i js.
Proof.
  intros H. unfold row_edges. induction js as [|j js IH]; [reflexivity|].
  cbn [flat_map]. rewrite H by (now left). f_equal. apply IH.
  intros; apply H; now right.
Qed.

Lemma flat_map_range {B} (f : Z -> list B) a b :
  flat_map f (range a b) = flat_map (fun k => f (a + k)) (iota (b - a)).
Proof.
  unfold range. induction (iota (b - a)) as [|k l IH]; [reflexivity|].
  cbn [map flat_map]. now rewrite IH.
Qed.

Lemma flat_map_ext_in {A B} (f g : A -> list B) l :
  (forall x, In x l -> f x = g x) -> flat_map f l = flat_map g l.
Proof.
  induction l as [|x l IH]; intros H; [reflexivity|].
  cbn [flat_map]. rewrite H by (now left). f_equal. apply IH. intros; apply H; now right.
Qed.

(** Under the row-block convention the local scan finds the edges of the
    diagonal block of the graph. *)
Lemma scanned_local_row_blocks N numProcs A procRank :
  adjacency N A -> 1 <= numProcs -> 0 <= procRank ->
  scanned_edges N (row_blocks N numProcs A procRank) procRank (ceil_div N numProcs)
    (local_cols procRank (ceil_div N numProcs))
  = block_edges N A procRank (ceil_div N numProcs).
Proof.
  intros Hadj HP Hr. pose proof Hadj as (HN & _).
  pose proof (ceil_div_nonneg N numProcs HN HP) as Hnb.
  unfold scanned_edges, block_edges. rewrite flat_map_range.
  replace (Z.min ((procRank + 1) * ceil_div N numProcs) N - procRank * ceil_div N numProcs)
    with (Z.min (ceil_div N numProcs) (N - procRank * ceil_div N numProcs)) by lia.
  apply flat_map_ext_in. intros i Hi. apply In_iota in Hi. unfold local_cols.
  apply row_edges_ext. intros j Hj. apply In_range in Hj.
  apply entry_row_blocks; auto; try lia; nia.
Qed.

Lemma init_edge_ge u v w : v <= u -> init_edge u v w = mkEdge v u w.
Proof.
  intros H. unfold init_edge.
  destruct (Z.ltb_spec u v), (Z.gtb_spec v u); try lia; try reflexivity;
    f_equal; lia.
Qed.

Lemma init_edge_le u v w : u <= v -> init_edge u v w = mkEdge u v w.
Proof.
  intros H. unfold init_edge.
  destruct (Z.ltb_spec u v), (Z.gtb_spec v u); try lia; try reflexivity;
    f_equal; lia.
Qed.

Lemma In_block_edges N A procRank nbRows e :
  In e (block_edges N A procRank nbRows) <->
  exists u v, procRank * nbRows <= v <= u /\ u < (procRank + 1) * nbRows /\ u < N
              /\ entry N A u v <> 0 /\ e = mkEdge v u (entry N A u v).
Proof.
  unfold block_edges. rewrite in_flat_map. split.
  - intros (u & Hu & He). apply In_range in Hu. apply In_row_edges in He.
    destruct He as (v & Hv & Hne & ->). apply In_range in Hv.
    exists u, v. rewrite init_edge_ge by lia.
    repeat split; try lia; try assumption.
  - intros (u & v & Hv & Hu & HuN & Hne & ->). exists u. split; [apply In_range; lia|].
    apply In_row_edges. exists v. split; [apply In_range; lia|]. split; [assumption|].
    now rewrite init_edge_ge by lia.
Qed.

Lemma length_scanned_le N adj procRank nbRows cols c :
  0 <= nbRows -> 0 <= c ->
  (forall i, 0 <= i < nbRows -> Z.of_nat (length (cols (procRank * nbRows + i))) <= c) ->
  Z.of_nat (length (scanned_edges N adj procRank nbRows cols)) <= nbRows * c.
Proof.
  intros Hnb Hc Hcols. unfold scanned_edges.
  set (f := fun i => row_edges N adj i (procRank * nbRows + i) (cols (procRank * nbRows + i))).
  set (rows := iota (Z.min nbRows (N - procRank * nbRows))).
  pose proof (length_flat_map_le f rows (Z.to_nat c)) as H.
  assert (Hrows : Z.of_nat (length rows) <= nbRows).
  { unfold rows. rewrite length_iota. lia. }
  assert (Hle : (length (flat_map f rows) <= length rows * Z.to_nat c)%nat).
  { apply H. intros i Hi. apply In_iota in Hi. unfold f.
    pose proof (length_row_edges N adj i (procRank * nbRows + i) (cols (procRank * nbRows + i))).
    assert (Hci : Z.of_nat (length (cols (procRank * nbRows + i))) <= c) by (apply Hcols; lia).
    lia. }
  nia.
Qed.

(** What [add_local_edges] computes, for any array [adj] the process may
    hold: the scan of the rows of that array. *)
Lemma add_local_edges_spec procRank adj nbRows N (buf : list Edge) :
  0 <= nbRows -> 0 <= procRank ->
  (forall i j, 0 <= i < nbRows -> procRank * nbRows + i < N ->
     procRank * nbRows <= j <= procRank * nbRows + i ->
     0 <= i * N + j < Z.of_nat (length adj)) ->
  nbRows * nbRows <= Z.of_nat (length buf) ->
  let es := scanned_edges N adj procRank nbRows (local_cols procRank nbRows) in
  add_local_edges procRank adj nbRows N buf
    = Some (place buf 0 es, Z.of_nat (length es))
  /\ Z.of_nat (length es) <= nbRows * nbRows.
Proof.
  intros Hnb Hr Hin Hcap es.
  assert (Hlen : Z.of_nat (length es) <= nbRows * nbRows).
  { apply length_scanned_le; try lia. intros i Hi. unfold local_cols.
    rewrite length_range. lia. }
  split; [|exact Hlen].
  unfold add_local_edges. rewrite add_local_edges_scan.
  apply scan_rows_iota; try lia.
  - intros i j Hi Hlt Hj. unfold local_cols in Hj. apply In_range in Hj.
    apply Hin; lia.
  - fold es. lia.
Qed.

(** C4 (amended).  In phase 0 of parallel Kruskal, when the array [adj] of
    rank [r] holds the rows of the matrix from the first row of its own
    block on, the edges that [add_local_edges] enumerates for the initial
    forest of [r] are exactly the non-zero entries [A[u][v]] with [u] and
    [v] in the row block of [r] and [v <= u], in row order, each with its
    endpoints [(v, u)] and its weight [A[u][v]]. *)
Theorem add_local_edges_enumerates_own_block
  (N numProcs r : Z) (A : Adj) :
  adjacency N A -> 1 <= numProcs -> 0 <= r < numProcs ->
  let nbRows := ceil_div N numProcs in
  let es := block_edges N A r nbRows in
  add_local_edges r (row_blocks N numProcs A r) nbRows N (calloc_edges (nbRows * nbRows))
    = Some (es ++ repeat zero_edge (Z.to_nat (nbRows * nbRows) - length es),
            Z.of_nat (length es))
  /\ forall e, In e es <->
       exists u v, r * nbRows <= v <= u /\ u < (r + 1) * nbRows /\ u < N
                   /\ entry N A u v <> 0 /\ e = mkEdge v u (entry N A u v).
Proof.
  intros Hadj HP Hr nbRows es. pose proof Hadj as (HN & _).
  pose proof (ceil_div_nonneg N numProcs HN HP) as Hnb. fold nbRows in Hnb.
  split; [|intros e; apply In_block_edges].
  destruct (add_local_edges_spec r (row_blocks N numProcs A r) nbRows N
              (calloc_edges (nbRows * nbRows))) as [Hspec _]; try lia.
  - intros i j Hi Hlt Hj. assert (0 <= r * nbRows) by nia.
    apply row_blocks_index; auto; lia.
  - unfold calloc_edges. rewrite repeat_length. nia.
  - rewrite Hspec. unfold nbRows. rewrite scanned_local_row_blocks by (auto; lia).
    fold nbRows. fold es. now rewrite place_0_calloc.
Qed.

Lemma add_local_edges_enumerates_own_block_witness :
  add_local_edges 1 (row_blocks 4 2 [0;1;4;0; 1;0;2;5; 4;2;0;3; 0;5;3;0] 1) 2 4
    (calloc_edges 4)
  = Some ([mkEdge 2 3 3; zero_edge; zero_edge; zero_edge], 1).
Proof.
  apply (add_local_edges_enumerates_own_block 4 2 1 [0;1;4;0; 1;0;2;5; 4;2;0;3; 0;5;3;0]).
  - split; [lia|]. split; [reflexivity|].
    intros a Ha. unfold INT_MAX. simpl in Ha.
    repeat (destruct Ha as [<-|Ha]; [lia|]). contradiction.
  - lia.
  - lia.
Defined.

(** C4 as stated fails when every rank holds the full matrix, as the
    specification describes the input.  For the graph with the single edge
    0-1 of weight 1 and two processes, rank 1 owns the vertex 1 alone; the
    only entry of its block, [A[1][1]], is zero, and yet [add_local_edges]
    enumerates the edge (1, 1, 1): it reads row 0 of the matrix where row 1
    is meant. *)
Lemma add_local_edges_replicated_reads_other_rows :
  add_local_edges 1 (replicated [0; 1; 1; 0] 1) (ceil_div 2 2) 2
    (calloc_edges (ceil_div 2 2 * ceil_div 2 2))
  = Some ([mkEdge 1 1 1], 1)
  /\ entry 2 [0; 1; 1; 0] 1 1 = 0
  /\ block_edges 2 [0; 1; 1; 0] 1 (ceil_div 2 2) = [].
Proof. repeat split. Qed.


(** ** The regions of the matrix *)

Lemma In_region_edges N A rows cols e :
  In e (region_edges N A rows cols) <->
  exists u v, In u rows /\ In v (cols u) /\ entry N A u v <> 0
              /\ e = init_edge u v (entry N A u v).
Proof.
  unfold region_edges. rewrite in_flat_map. split.
  - intros (u & Hu & He). apply In_row_edges in He. destruct He as (v & Hv & Hne & ->).
    exists u, v. auto.
  - intros (u & v & Hu & Hv & Hne & ->). exists u. split; [assumption|].
    apply In_row_edges. exists v. auto.
Qed.

Lemma init_edge_valid N A u v :
  adjacency N A -> 0 <= u < N -> 0 <= v < N -> entry N A u v <> 0 ->
  valid_edge N (init_edge u v (entry N A u v)) /\ 0 < entry N A u v.
Proof.
  intros (_ & _ & Hw) Hu Hv Hne. specialize (Hw _ (entry_In N A u v Hne)).
  unfold valid_edge, init_edge. cbn [edge_i edge_j edge_w].
  destruct (Z.ltb_spec u v), (Z.gtb_spec v u); lia.
Qed.

Lemma region_valid N A rows cols :
  adjacency N A ->
  (forall u v, In u rows -> In v (cols u) -> 0 <= u < N /\ 0 <= v < N) ->
  Forall (valid_edge N) (region_edges N A rows cols).
Proof.
  intros Hadj Hin. apply Forall_forall. intros e He. apply In_region_edges in He.
  destruct He as (u & v & Hu & Hv & Hne & ->). destruct (Hin u v Hu Hv).
  now apply init_edge_valid.
Qed.

Lemma NoDup_flat_map {X Y} (f : X -> list Y) (l : list X) :
  NoDup l -> (forall x, In x l -> NoDup (f x)) ->
  (forall x y b, In x l -> In y l -> In b (f x) -> In b (f y) -> x = y) ->
  NoDup (flat_map f l).
Proof.
  intros Hnd. induction Hnd as [|x l Hnin Hnd IH]; intros Hf Hinj; cbn [flat_map];
    [constructor|].
  apply NoDup_app.
  - apply Hf. now left.
  - apply IH; [intros; apply Hf; now right|].
    intros a b y Ha Hb. apply Hinj; now right.
  - intros b Hb Hin. apply in_flat_map in Hin. destruct Hin as (y & Hy & Hby).
    apply Hnin. rewrite (Hinj x y b); auto; [now left | now right].
Qed.

(** Below the diagonal, an edge tells its row and its column. *)
Lemma region_NoDup N A rows cols :
  NoDup rows -> (forall u, In u rows -> NoDup (cols u)) ->
  (forall u v, In u rows -> In v (cols u) -> v <= u) ->
  NoDup (region_edges N A rows cols).
Proof.
  intros Hrows Hcols Hle. unfold region_edges. apply NoDup_flat_map; [assumption| |].
  - intros u Hu. unfold row_edges. apply NoDup_flat_map; [now apply Hcols| |].
    + intros v Hv. destruct (entry N A u v =? 0); constructor; [intros []|constructor].
    + intros v v' b Hv Hv' Hb Hb'.
      destruct (entry N A u v =? 0); [destruct Hb|]. destruct Hb as [<-|[]].
      destruct (entry N A u v' =? 0); [destruct Hb'|]. destruct Hb' as [Hb'|[]].
      rewrite !init_edge_ge in Hb' by (now apply Hle). congruence.
  - intros u u' b Hu Hu' Hb Hb'.
    apply In_row_edges in Hb, Hb'.
    destruct Hb as (v & Hv & _ & ->). destruct Hb' as (v' & Hv' & _ & Hb').
    rewrite !init_edge_ge in Hb' by (now apply Hle). congruence.
Qed.

(** The same above the diagonal. *)
Lemma upper_edges_NoDup N A : NoDup (upper_edges N A).
Proof.
  unfold upper_edges. apply NoDup_flat_map; [apply NoDup_iota| |].
  - intros u Hu. unfold row_edges. apply NoDup_flat_map; [apply NoDup_range| |].
    + intros v Hv. destruct (entry N A u v =? 0); constructor; [intros []|constructor].
    + intros v v' b Hv Hv' Hb Hb'. apply In_range in Hv, Hv'.
      destruct (entry N A u v =? 0); [destruct Hb|]. destruct Hb as [<-|[]].
      destruct (entry N A u v' =? 0); [destruct Hb'|]. destruct Hb' as [Hb'|[]].
      rewrite !init_edge_le in Hb' by lia. congruence.
  - intros u u' b Hu Hu' Hb Hb'.
    apply In_row_edges in Hb, Hb'.
    destruct Hb as (v & Hv & _ & ->). destruct Hb' as (v' & Hv' & _ & Hb').
    apply In_range in Hv, Hv'.
    rewrite !init_edge_le in Hb' by lia. congruence.
Qed.

Lemma upper_edges_valid N A : adjacency N A -> Forall (valid_edge N) (upper_edges N A).
Proof.
  intros Hadj. apply (region_valid N A (iota N) (fun i => range i N) Hadj).
  intros u v Hu Hv. apply In_iota in Hu. apply In_range in Hv. lia.
Qed.

(** What a process finds in its own array is the region of the graph. *)
Lemma scanned_region N nbRows A adj procRank cols :
  0 <= nbRows -> 0 <= procRank ->
  own_rows N nbRows A adj procRank ->
  (forall u v, In u (block_rows N nbRows procRank) -> In v (cols u) -> 0 <= v < N) ->
  scanned_edges N adj procRank nbRows cols
  = region_edges N A (block_rows N nbRows procRank) cols.
Proof.
  intros Hnb Hr Hown Hcols. unfold scanned_edges, region_edges, block_rows.
  rewrite flat_map_range.
  replace (Z.min ((procRank + 1) * nbRows) N - procRank * nbRows)
    with (Z.min nbRows (N - procRank * nbRows)) by lia.
  apply flat_map_ext_in. intros i Hi. apply In_iota in Hi.
  apply row_edges_ext. intros j Hj.
  apply (Hown i j); [lia | lia |].
  apply (Hcols (procRank * nbRows + i)); [|assumption].
  apply In_range. lia.
Qed.

Lemma scanned_index N nbRows A adj procRank cols i j :
  own_rows N nbRows A adj procRank ->
  (forall u v, In u (block_rows N nbRows procRank) -> In v (cols u) -> 0 <= v < N) ->
  0 <= i < nbRows -> procRank * nbRows + i < N ->
  In j (cols (procRank * nbRows + i)) ->
  0 <= i * N + j < Z.of_nat (length adj).
Proof.
  intros Hown Hcols Hi Hlt Hj. apply (Hown i j); [lia | lia |].
  apply (Hcols (procRank * nbRows + i)); [|assumption].
  apply In_range. lia.
Qed.

(** The row-block convention gives every rank its own rows. *)
Lemma own_rows_row_blocks N numProcs A procRank :
  adjacency N A -> 1 <= numProcs -> 0 <= procRank ->
  own_rows N (ceil_div N numProcs) A (row_blocks N numProcs A procRank) procRank.
Proof.
  intros Hadj HP Hr y c Hy Hlt Hc. pose proof Hadj as (HN & _). split.
  - apply row_blocks_index; auto.
  - apply entry_row_blocks; auto; lia.
Qed.

(** *** The regions of parallel Kruskal *)

Lemma In_group_edges N A nbRows t s e :
  In e (group_edges N A nbRows t s) <->
  exists u v, t * nbRows <= v <= u /\ u < (t + s) * nbRows /\ u < N
              /\ entry N A u v <> 0 /\ e = mkEdge v u (entry N A u v).
Proof.
  unfold group_edges. rewrite In_region_edges. split.
  - intros (u & v & Hu & Hv & Hne & ->). apply In_range in Hu, Hv.
    exists u, v. rewrite init_edge_ge by lia. repeat split; try lia; assumption.
  - intros (u & v & Hv & Hu & HuN & Hne & ->). exists u, v.
    rewrite init_edge_ge by lia. repeat split; try assumption; apply In_range; lia.
Qed.

Lemma In_bip_edges N A nbRows q s e :
  0 <= nbRows -> 0 <= q -> 1 <= s ->
  In e (bip_edges N A nbRows q s) <->
  exists u v, q * nbRows <= u < (q + 1) * nbRows /\ u < N
              /\ submatrix_start q s nbRows <= v
                 < submatrix_start q s nbRows + nbRows * s
              /\ entry N A u v <> 0 /\ e = mkEdge v u (entry N A u v).
Proof.
  intros Hnb Hq Hs. unfold bip_edges, block_rows, submatrix_cols. rewrite In_region_edges.
  assert (Hstart : submatrix_start q s nbRows + nbRows * s <= q * nbRows).
  { unfold submatrix_start. rewrite Z.rem_mod_nonneg by lia.
    pose proof (Z.mod_pos_bound q s ltac:(lia)). nia. }
  split.
  - intros (u & v & Hu & Hv & Hne & ->). apply In_range in Hu, Hv.
    exists u, v. rewrite init_edge_ge by lia. repeat split; try lia; assumption.
  - intros (u & v & Hu & HuN & Hv & Hne & ->). exists u, v.
    rewrite init_edge_ge by lia. repeat split; try assumption; apply In_range; lia.
Qed.


(** ** The steps of parallel Kruskal *)

Lemma qsort_spec (l rest : list Edge) :
  qsort (l ++ rest) (Z.of_nat (length l)) = Some (sort_edges l ++ rest).
Proof.
  unfold qsort. rewrite length_app.
  destruct (Z.leb_spec 0 (Z.of_nat (length l))); [|lia].
  destruct (Z.leb_spec (Z.of_nat (length l)) (Z.of_nat (length l + length rest))); [|lia].
  cbn [andb]. rewrite Nat2Z.id.
  rewrite firstn_exact by reflexivity.
  rewrite (skipn_exact_plus l rest _ 0) by lia. reflexivity.
Qed.

Lemma kruskal_forest_nil N : kruskal_forest N [] = [].
Proof.
  unfold kruskal_forest, union_find. cbn [sort_edges fold_right length Z.of_nat iota].
  reflexivity.
Qed.

Section Forests.

Variable N : Z.
Hypothesis HNmax : N <= INT_MAX + 1.

(** [union_find] on the sorted edges [l] of a set of edges [es] whose
    vertices are [vs]. *)
Lemma union_find_forest (vs : list Z) (l rest : list Edge) (tree es : list Edge) :
  StronglySorted edge_lt l -> (forall e, In e l <-> In e es) ->
  Forall (valid_edge N) es -> NoDup es ->
  (forall e, In e es -> In (edge_i e) vs /\ In (edge_j e) vs) ->
  Z.of_nat (length vs) - 1 <= Z.of_nat (length tree) ->
  union_find (l ++ rest) N (Z.of_nat (length l)) tree
  = Some (kruskal_forest N es ++ skipn (length (kruskal_forest N es)) tree,
          Z.of_nat (length (kruskal_forest N es)))
  /\ (kruskal_forest N es = []
      \/ Z.of_nat (length (kruskal_forest N es)) + 1 <= Z.of_nat (length vs)).
Proof.
  intros Hs Hext Hval Hnd Hvs Hcap.
  assert (Hfirst : firstn (Z.to_nat (Z.of_nat (length l))) (l ++ rest) = l)
    by (rewrite Nat2Z.id; now apply firstn_exact).
  destruct (union_find_msf N vs (l ++ rest) (Z.of_nat (length l)) tree)
    as (out & Huf & Hmsf & Hb).
  - rewrite length_app. lia.
  - rewrite Hfirst. apply Forall_forall. intros e He. apply Hext in He.
    rewrite Forall_forall in Hval. now apply Hval.
  - now rewrite Hfirst.
  - rewrite Hfirst. intros e He. apply Hvs. now apply Hext.
  - assumption.
  - rewrite Hfirst in Hmsf.
    assert (out = kruskal_forest N es).
    { apply (msf_unique es); [now apply (msf_ext l) | now apply kruskal_forest_msf]. }
    subst out. split; assumption.
Qed.

(** A forest has fewer edges than vertices. *)
Lemma kruskal_forest_bound (vs : list Z) (es : list Edge) (c : Z) :
  Forall (valid_edge N) es -> NoDup es ->
  (forall e, In e es -> In (edge_i e) vs /\ In (edge_j e) vs) ->
  Z.of_nat (length vs) <= c -> 1 <= c ->
  Z.of_nat (length (kruskal_forest N es)) <= c - 1.
Proof.
  intros Hval Hnd Hvs Hc H1.
  destruct (union_find_forest vs (sort_edges es) [] (calloc_edges (c - 1)) es)
    as [_ Hb]; try assumption.
  - now apply (sort_edges_sorted N).
  - apply sort_edges_In.
  - unfold calloc_edges. rewrite repeat_length. lia.
  - destruct Hb as [->|Hb]; cbn [length]; lia.
Qed.

Lemma kruskal_forest_incl es :
  Forall (valid_edge N) es -> NoDup es -> incl (kruskal_forest N es) es.
Proof. intros Hv Hnd. now destruct (kruskal_forest_msf N HNmax es Hv Hnd) as (_ & H & _). Qed.

Lemma kruskal_forest_sorted es :
  Forall (valid_edge N) es -> NoDup es -> StronglySorted edge_lt (kruskal_forest N es).
Proof. intros Hv Hnd. now destruct (kruskal_forest_msf N HNmax es Hv Hnd) as (H & _). Qed.

End Forests.

Section Graph.

Variables (N numProcs : Z) (A : Adj).
Hypothesis HN1 : 1 <= N.
Hypothesis HNmax : N <= INT_MAX + 1.
Hypothesis HP : 1 <= numProcs.
Hypothesis Hadj : adjacency N A.

Variable nb : Z.
Hypothesis Hnb : nb = ceil_div N numProcs.

Lemma nb_pos : 1 <= nb.
Proof. rewrite Hnb. apply ceil_div_pos; assumption. Qed.

Lemma nb_covers : N <= numProcs * nb.
Proof. rewrite Hnb. apply ceil_div_covers; lia. Qed.

(** *** The edges inside a group of blocks *)

Lemma group_valid t s : 0 <= t -> Forall (valid_edge N) (group_edges N A nb t s).
Proof.
  intros Ht. pose proof nb_pos. apply region_valid; [assumption|].
  intros u v Hu Hv. apply In_range in Hu, Hv. nia.
Qed.

Lemma group_NoDup t s : NoDup (group_edges N A nb t s).
Proof.
  apply region_NoDup; [apply NoDup_range | intros; apply NoDup_range |].
  intros u v _ Hv. apply In_range in Hv. lia.
Qed.

Lemma group_vertices t s e :
  In e (group_edges N A nb t s) ->
  In (edge_i e) (range (t * nb) (Z.min ((t + s) * nb) N))
  /\ In (edge_j e) (range (t * nb) (Z.min ((t + s) * nb) N)).
Proof.
  intros He. apply In_group_edges in He.
  destruct He as (u & v & Hv & Hu & HuN & _ & ->). cbn [edge_i edge_j].
  split; apply In_range; lia.
Qed.

Lemma group_forest_msf t s :
  0 <= t -> msf (group_edges N A nb t s) (kruskal_forest N (group_edges N A nb t s)).
Proof.
  intros Ht. apply (kruskal_forest_msf N HNmax); [now apply group_valid | apply group_NoDup].
Qed.

Lemma group_forest_bound t s :
  0 <= t -> 1 <= s ->
  Z.of_nat (length (kruskal_forest N (group_edges N A nb t s))) <= s * nb - 1.
Proof.
  intros Ht Hs. pose proof nb_pos.
  apply (kruskal_forest_bound N HNmax (range (t * nb) (Z.min ((t + s) * nb) N)));
    [now apply group_valid | apply group_NoDup | apply group_vertices | | nia].
  rewrite length_range. nia.
Qed.

Lemma group_empty t s : N <= t * nb -> group_edges N A nb t s = [].
Proof.
  intros H. unfold group_edges, region_edges. rewrite range_empty by lia. reflexivity.
Qed.

(** *** The edges between the rows of a sender and the receiving group *)

Lemma bip_start q s :
  0 <= q -> 1 <= s -> (q / s) mod 2 = 1 ->
  0 <= submatrix_start q s nb
  /\ submatrix_start q s nb + nb * s <= q * nb
  /\ submatrix_start q s nb = (q - q mod (2 * s)) * nb
  /\ s <= q mod (2 * s) < 2 * s.
Proof.
  intros Hq Hs Hodd. pose proof nb_pos. unfold submatrix_start.
  rewrite Z.rem_mod_nonneg by lia.
  assert (Hrec : q mod (2 * s) = q mod s + s).
  { rewrite (Z.mul_comm 2 s). rewrite Z.rem_mul_r by lia. rewrite Hodd. lia. }
  pose proof (Z.mod_pos_bound q s ltac:(lia)).
  pose proof (Z.mod_pos_bound q (2 * s) ltac:(lia)).
  pose proof (Z.mod_le q (2 * s) Hq ltac:(lia)).
  rewrite Hrec in *. repeat split; try lia; try nia.
Qed.

Lemma bip_valid q s :
  0 <= q -> 1 <= s -> (q / s) mod 2 = 1 ->
  Forall (valid_edge N) (bip_edges N A nb q s).
Proof.
  intros Hq Hs Hodd. destruct (bip_start q s Hq Hs Hodd) as (H0 & H1 & _).
  pose proof nb_pos. apply region_valid; [assumption|].
  intros u v Hu Hv. unfold block_rows, submatrix_cols in *. apply In_range in Hu, Hv. nia.
Qed.

Lemma bip_NoDup q s :
  0 <= q -> 1 <= s -> (q / s) mod 2 = 1 -> NoDup (bip_edges N A nb q s).
Proof.
  intros Hq Hs Hodd. destruct (bip_start q s Hq Hs Hodd) as (H0 & H1 & _).
  apply region_NoDup; [apply NoDup_range | intros; apply NoDup_range |].
  intros u v Hu Hv. unfold block_rows, submatrix_cols in *. apply In_range in Hu, Hv. lia.
Qed.

Lemma bip_vertices q s e :
  0 <= q -> 1 <= s ->
  In e (bip_edges N A nb q s) ->
  In (edge_i e) (block_rows N nb q
                 ++ range (submatrix_start q s nb) (submatrix_start q s nb + nb * s))
  /\ In (edge_j e) (block_rows N nb q
                    ++ range (submatrix_start q s nb) (submatrix_start q s nb + nb * s)).
Proof.
  intros Hq Hs He. pose proof nb_pos. apply In_bip_edges in He; try lia.
  destruct He as (u & v & Hu & HuN & Hv & _ & ->). cbn [edge_i edge_j].
  split; apply in_or_app; [right | left]; apply In_range; lia.
Qed.

Lemma bip_forest_msf q s :
  0 <= q -> 1 <= s -> (q / s) mod 2 = 1 ->
  msf (bip_edges N A nb q s) (kruskal_forest N (bip_edges N A nb q s)).
Proof.
  intros Hq Hs Hodd.
  apply (kruskal_forest_msf N HNmax); [now apply bip_valid | now apply bip_NoDup].
Qed.

Lemma bip_vertices_length q s :
  0 <= q -> 1 <= s ->
  Z.of_nat (length (block_rows N nb q
                    ++ range (submatrix_start q s nb) (submatrix_start q s nb + nb * s)))
  <= (s + 1) * nb.
Proof.
  intros Hq Hs. pose proof nb_pos. rewrite length_app. unfold block_rows.
  rewrite !length_range. nia.
Qed.

Lemma bip_forest_bound q s :
  0 <= q -> 1 <= s -> (q / s) mod 2 = 1 ->
  Z.of_nat (length (kruskal_forest N (bip_edges N A nb q s))) <= (s + 1) * nb - 1.
Proof.
  intros Hq Hs Hodd. pose proof nb_pos.
  apply (kruskal_forest_bound N HNmax
           (block_rows N nb q
            ++ range (submatrix_start q s nb) (submatrix_start q s nb + nb * s)));
    [now apply bip_valid | now apply bip_NoDup | intros e; now apply bip_vertices
    | now apply bip_vertices_length | nia].
Qed.

End Graph.

(** *** Groups of ranks *)

(** The ranks [q] of the upper half of the group of [2 * s] ranks that
    starts at [g]. *)
Lemma sender_base g s q :
  0 <= g -> 1 <= s -> g mod (2 * s) = 0 -> g + s <= q < g + 2 * s ->
  (q / s) mod 2 = 1 /\ q mod (2 * s) = q - g /\ q mod s = q - g - s.
Proof.
  intros Hg Hs Hmod Hq.
  pose proof (Z.div_mod g (2 * s) ltac:(lia)) as Hdm. rewrite Hmod in Hdm.
  set (k := g / (2 * s)) in *.
  assert (H1 : q / s = 2 * k + 1).
  { symmetry. apply (Z.div_unique q s (2 * k + 1) (q - g - s)); [lia | nia]. }
  assert (H2 : q mod (2 * s) = q - g).
  { symmetry. apply (Z.mod_unique q (2 * s) k (q - g)); [lia | nia]. }
  assert (H3 : q mod s = q - g - s).
  { symmetry. apply (Z.mod_unique q s (2 * k + 1) (q - g - s)); [lia | nia]. }
  split; [|split; assumption].
  rewrite H1. symmetry. apply (Z.mod_unique (2 * k + 1) 2 k 1); lia.
Qed.

Lemma base_mod g s : 1 <= s -> g mod (2 * s) = 0 -> g mod s = 0.
Proof.
  intros Hs Hmod.
  pose proof (Z.div_mod g (2 * s) ltac:(lia)) as Hdm. rewrite Hmod in Hdm.
  symmetry. apply (Z.mod_unique g s (2 * (g / (2 * s))) 0); [lia | nia].
Qed.

Section Partition.

Variables (N numProcs : Z) (A : Adj).
Hypothesis HN1 : 1 <= N.
Hypothesis HP : 1 <= numProcs.
Hypothesis Hsym : symmetric N A.
Variable nb : Z.
Hypothesis Hnb : nb = ceil_div N numProcs.

(** Where the edges of the three kinds of region lie. *)
Lemma group_edge_range t s e :
  In e (group_edges N A nb t s) ->
  t * nb <= edge_i e /\ edge_i e <= edge_j e /\ edge_j e < (t + s) * nb /\ edge_j e < N.
Proof.
  intros He. apply In_group_edges in He.
  destruct He as (u & v & Hv & Hu & HuN & _ & ->). cbn [edge_i edge_j]. lia.
Qed.

Lemma bip_edge_range g s q e :
  0 <= g -> 1 <= s -> g mod (2 * s) = 0 -> g + s <= q < g + 2 * s ->
  In e (bip_edges N A nb q s) ->
  g * nb <= edge_i e < (g + s) * nb
  /\ q * nb <= edge_j e < (q + 1) * nb /\ edge_j e < N.
Proof.
  intros Hg Hs Hmod Hq He.
  pose proof (nb_pos N numProcs HN1 HP nb Hnb) as Hnbp.
  destruct (sender_base g s q Hg Hs Hmod Hq) as (Hodd & Hm2 & _).
  destruct (bip_start N numProcs HN1 HP nb Hnb q s ltac:(lia) Hs Hodd) as (_ & _ & Hst & _).
  apply In_bip_edges in He; try lia.
  destruct He as (u & v & Hu & HuN & Hv & _ & ->). cbn [edge_i edge_j].
  rewrite Hst, Hm2 in Hv. replace (q - (q - g)) with g in Hv by lia. nia.
Qed.

(** The edges inside a group of [2 * s] blocks are those inside each half
    and those that the ranks of the upper half find between their rows and
    the lower half. *)
Lemma group_split g s e :
  0 <= g -> 1 <= s -> g mod (2 * s) = 0 ->
  In e (group_edges N A nb g (2 * s)) <->
  In e (group_edges N A nb g s) \/ In e (group_edges N A nb (g + s) s)
  \/ exists q, g + s <= q < Z.min (g + 2 * s) numProcs /\ In e (bip_edges N A nb q s).
Proof.
  intros Hg Hs Hmod.
  pose proof (nb_pos N numProcs HN1 HP nb Hnb) as Hnbp.
  pose proof (nb_covers N numProcs HN1 HP nb Hnb) as Hcov.
  split.
  - intros He. apply In_group_edges in He.
    destruct He as (u & v & Hv & Hu & HuN & Hne & ->).
    destruct (Z.lt_ge_cases u ((g + s) * nb)) as [Hlow|Hhigh].
    { left. apply In_group_edges. exists u, v. repeat split; try lia; assumption. }
    destruct (Z.le_gt_cases ((g + s) * nb) v) as [Hv2|Hv2].
    { right. left. apply In_group_edges. exists u, v.
      repeat split; try lia; try assumption; nia. }
    right. right. exists (u / nb).
    pose proof (Z.div_mod u nb ltac:(lia)) as Hdm.
    pose proof (Z.mod_pos_bound u nb ltac:(lia)) as Hmb.
    assert (Hq : g + s <= u / nb < g + 2 * s).
    { split; [apply Z.div_le_lower_bound; lia | apply Z.div_lt_upper_bound; lia]. }
    assert (HqP : u / nb < numProcs) by (apply Z.div_lt_upper_bound; lia).
    split; [lia|].
    destruct (sender_base g s (u / nb) Hg Hs Hmod Hq) as (Hodd & Hm2 & _).
    destruct (bip_start N numProcs HN1 HP nb Hnb (u / nb) s ltac:(lia) Hs Hodd)
      as (_ & _ & Hst & _).
    apply In_bip_edges; try lia. exists u, v.
    rewrite Hst, Hm2. replace (u / nb - (u / nb - g)) with g by lia.
    repeat split; try lia; try assumption; nia.
  - intros [He|[He|(q & Hq & He)]].
    + apply group_edge_range in He as Hr. apply In_group_edges in He.
      destruct He as (u & v & Hv & Hu & HuN & Hne & ->). apply In_group_edges.
      exists u, v. repeat split; try lia; try assumption; nia.
    + apply In_group_edges in He.
      destruct He as (u & v & Hv & Hu & HuN & Hne & ->). apply In_group_edges.
      exists u, v. repeat split; try lia; try assumption; nia.
    + pose proof (bip_edge_range g s q e Hg Hs Hmod ltac:(lia) He) as Hr.
      apply In_bip_edges in He; try lia.
      destruct He as (u & v & Hu & HuN & Hv & Hne & ->). cbn [edge_i edge_j] in Hr.
      apply In_group_edges.
      exists u, v. repeat split; try lia; try assumption; nia.
Qed.

(** The edges below the diagonal are edges of the upper triangle. *)
Lemma group_incl_upper t s : 0 <= t -> incl (group_edges N A nb t s) (upper_edges N A).
Proof.
  intros Ht e He. pose proof (nb_pos N numProcs HN1 HP nb Hnb) as Hnbp.
  apply In_group_edges in He. destruct He as (u & v & Hv & Hu & HuN & Hne & ->).
  assert (Hv0 : 0 <= v) by nia.
  apply In_upper_edges. exists v, u. rewrite (Hsym v u) by lia.
  repeat split; try lia; assumption.
Qed.

Lemma group_full s : N <= s * nb -> forall e,
  In e (group_edges N A nb 0 s) <-> In e (upper_edges N A).
Proof.
  intros Hs e. split; [apply group_incl_upper; lia|].
  intros He. apply In_upper_edges in He. destruct He as (i & j & Hij & Hj & Hne & ->).
  apply In_group_edges. exists j, i. rewrite (Hsym j i) by lia.
  repeat split; try lia; assumption.
Qed.

End Partition.

(** *** The wire codec on lists *)

Lemma send_edges_to_spec self target (es rest : list Edge) (net : Net) :
  send_edges_to self target (es ++ rest) (Z.of_nat (length es)) net
  = Some (net ++ edge_msgs self target es).
Proof.
  unfold send_edges_to, edge_msgs.
  pose proof (send_edges_fill_spec es [] rest []) as Hs.
  cbn [app length wire_of_edges flat_map Z.of_nat] in Hs. rewrite Z.add_0_l in Hs.
  rewrite range_0, !app_nil_r in Hs.
  unfold calloc_int.
  replace (Z.to_nat (Z.of_nat (length es) * 3)) with (3 * length es)%nat by lia.
  rewrite Hs. unfold MPI_Send. rewrite <- app_assoc. reflexivity.
Qed.

Lemma receive_edges_from_spec self stepSize source (es : list Edge) (buf : list Edge)
  (pre post : Net) :
  no_pending source self pre ->
  (length es <= length buf)%nat ->
  receive_edges_from self stepSize source buf (pre ++ edge_msgs source self es ++ post)
  = Some (es ++ skipn (length es) buf, Z.of_nat (length es), pre ++ post).
Proof.
  intros Hnp Hlen. unfold receive_edges_from, edge_msgs. cbn [app].
  rewrite (MPI_Recv_first self 1 source 0 pre _ [Z.of_nat (length es)]);
    [|assumption|simpl; lia].
  cbn [fst snd].
  rewrite (MPI_Recv_first self (Z.of_nat (length es) * 3) source 0 pre post
             (wire_of_edges es)); [|assumption|rewrite length_wire; lia].
  cbn [fst snd]. unfold overlay, calloc_int.
  rewrite skipn_all2 by (rewrite repeat_length; pose proof (length_wire es); lia).
  rewrite app_nil_r.
  pose proof (receive_edges_fill_spec es [] (firstn (length es) buf)
                (skipn (length es) buf) []) as Hr.
  cbn [app length wire_of_edges flat_map Z.of_nat] in Hr. rewrite Z.add_0_l in Hr.
  rewrite range_0, !app_nil_r, firstn_skipn in Hr.
  rewrite Hr; [reflexivity|]. rewrite firstn_length_le; lia.
Qed.

Section Steps.

Variables (N numProcs M : Z) (A : Adj) (adjs : Z -> Adj).
Hypothesis HN1 : 1 <= N.
Hypothesis HNmax : N <= INT_MAX + 1.
Hypothesis HP : 1 <= numProcs.
Hypothesis Hadj : adjacency N A.
Hypothesis Hsym : symmetric N A.
Variable nb : Z.
Hypothesis Hnb : nb = ceil_div N numProcs.
Hypothesis Hown : forall r, 0 <= r < numProcs -> own_rows N nb A (adjs r) r.
Hypothesis HM : Z.of_nat (length (upper_edges N A)) <= M.

(** The forest of the blocks [t .. t+s-1], and the forest that the rank [q]
    finds at step [s] between its rows and the receiving group. *)
Lemma create_forest_spec r :
  0 <= r < numProcs ->
  create_forest r (adjs r) nb N (calloc_edges (nb - 1))
  = Some (kruskal_forest N (group_edges N A nb r 1)
            ++ skipn (length (kruskal_forest N (group_edges N A nb r 1)))
                 (calloc_edges (nb - 1)),
          Z.of_nat (length (kruskal_forest N (group_edges N A nb r 1)))).
Proof.
  intros Hr. pose proof (nb_pos N numProcs HN1 HP nb Hnb) as Hnbp.
  unfold create_forest.
  destruct (add_local_edges_spec r (adjs r) nb N (calloc_edges (nb * nb))) as [Hadd Hlen];
    try lia.
  { intros i j Hi Hlt Hj. apply (Hown r Hr i j); lia. }
  { unfold calloc_edges. rewrite repeat_length. nia. }
  rewrite Hadd. cbn [fst snd]. clear Hadd.
  assert (Hreg : scanned_edges N (adjs r) r nb (local_cols r nb) = group_edges N A nb r 1).
  { rewrite (scanned_region N nb A (adjs r) r); [reflexivity | lia | lia | now apply Hown |].
    intros u v Hu Hv. unfold block_rows, local_cols in *. apply In_range in Hu, Hv. nia. }
  rewrite Hreg in *. rewrite place_0, qsort_spec.
  destruct (union_find_forest N HNmax (range (r * nb) (Z.min ((r + 1) * nb) N))
              (sort_edges (group_edges N A nb r 1))
              (skipn (length (group_edges N A nb r 1)) (calloc_edges (nb * nb)))
              (calloc_edges (nb - 1)) (group_edges N A nb r 1)) as [Huf _].
  - apply (sort_edges_sorted N HNmax).
    + apply (group_valid N numProcs A HN1 HP Hadj nb Hnb). lia.
    + apply group_NoDup.
  - apply sort_edges_In.
  - apply (group_valid N numProcs A HN1 HP Hadj nb Hnb). lia.
  - apply group_NoDup.
  - apply group_vertices.
  - rewrite length_range. unfold calloc_edges. rewrite repeat_length. nia.
  - rewrite length_sort_edges in Huf. exact Huf.
Qed.

Lemma sender_target q s :
  0 <= q -> 1 <= s -> (q / s) mod 2 = 1 ->
  q - Z.rem q s - s = q - q mod (2 * s) /\ 0 <= q - q mod (2 * s).
Proof.
  intros Hq Hs Hodd. rewrite Z.rem_mod_nonneg by lia.
  assert (Hrec : q mod (2 * s) = q mod s + s).
  { rewrite (Z.mul_comm 2 s). rewrite Z.rem_mul_r by lia. rewrite Hodd. lia. }
  pose proof (Z.mod_le q (2 * s) Hq ltac:(lia)). lia.
Qed.

Lemma add_edges_from_submatrix_spec q s (buf : list Edge) :
  0 <= q < numProcs -> 1 <= s -> (q / s) mod 2 = 1 ->
  nb * nb * s * s <= Z.of_nat (length buf) ->
  add_edges_from_submatrix q s (adjs q) nb N buf
  = Some (bip_edges N A nb q s ++ skipn (length (bip_edges N A nb q s)) buf,
          Z.of_nat (length (bip_edges N A nb q s))).
Proof.
  intros Hq Hs Hodd Hcap. pose proof (nb_pos N numProcs HN1 HP nb Hnb) as Hnbp.
  destruct (bip_start N numProcs HN1 HP nb Hnb q s ltac:(lia) Hs Hodd) as (H0 & H1 & _).
  assert (Hcols : forall u v, In u (block_rows N nb q) -> In v (submatrix_cols q s nb u) ->
                    0 <= v < N).
  { intros u v Hu Hv. unfold block_rows, submatrix_cols in *. apply In_range in Hu, Hv. lia. }
  assert (Hreg : scanned_edges N (adjs q) q nb (submatrix_cols q s nb) = bip_edges N A nb q s).
  { apply scanned_region; [lia | lia | now apply Hown | exact Hcols]. }
  unfold add_edges_from_submatrix.
  change ((q - Z.rem q s - s) * nb) with (submatrix_start q s nb).
  rewrite add_edges_from_submatrix_scan.
  rewrite scan_rows_iota; [rewrite Hreg, place_0; reflexivity | lia | |].
  - intros i j Hi Hlt Hj.
    apply (scanned_index N nb A (adjs q) q (submatrix_cols q s nb)); auto.
  - assert (Hle : Z.of_nat (length (scanned_edges N (adjs q) q nb (submatrix_cols q s nb)))
                  <= nb * (nb * s)).
    { apply length_scanned_le; try nia. intros i Hi. unfold submatrix_cols.
      rewrite length_range. lia. }
    nia.
Qed.

Lemma send_bipartite_forest_spec q s (net : Net) :
  0 <= q < numProcs -> 1 <= s -> (q / s) mod 2 = 1 ->
  send_bipartite_forest q s (nb * nb) nb (adjs q) N net
  = Some (net ++ edge_msgs q (q - q mod (2 * s))
                   (kruskal_forest N (bip_edges N A nb q s))).
Proof.
  intros Hq Hs Hodd. pose proof (nb_pos N numProcs HN1 HP nb Hnb) as Hnbp.
  unfold send_bipartite_forest.
  rewrite add_edges_from_submatrix_spec; try assumption;
    [|unfold calloc_edges; rewrite repeat_length; nia].
  cbn [fst snd]. rewrite qsort_spec.
  destruct (union_find_forest N HNmax
              (block_rows N nb q
               ++ range (submatrix_start q s nb) (submatrix_start q s nb + nb * s))
              (sort_edges (bip_edges N A nb q s))
              (skipn (length (bip_edges N A nb q s)) (calloc_edges (nb * nb * s * s)))
              (calloc_edges ((s + 1) * nb - 1)) (bip_edges N A nb q s)) as [Huf _].
  - apply (sort_edges_sorted N HNmax).
    + apply (bip_valid N numProcs A HN1 HP Hadj nb Hnb); [lia | assumption | assumption].
    + apply (bip_NoDup N numProcs A HN1 HP nb Hnb); [lia | assumption | assumption].
  - apply sort_edges_In.
  - apply (bip_valid N numProcs A HN1 HP Hadj nb Hnb); [lia | assumption | assumption].
  - apply (bip_NoDup N numProcs A HN1 HP nb Hnb); [lia | assumption | assumption].
  - intros e. apply (bip_vertices N numProcs A HN1 HP nb Hnb); [lia | assumption].
  - pose proof (bip_vertices_length N numProcs HN1 HP nb Hnb q s ltac:(lia) Hs).
    unfold calloc_edges. rewrite repeat_length. lia.
  - rewrite length_sort_edges in Huf. rewrite Huf. cbn [fst snd].
    rewrite send_edges_to_spec.
    destruct (sender_target q s ltac:(lia) Hs Hodd) as [-> _]. reflexivity.
Qed.

Lemma send_forest_spec q s (F rest : list Edge) (net : Net) :
  send_forest q s (F ++ rest) (Z.of_nat (length F)) net
  = Some (net ++ edge_msgs q (q - s) F).
Proof. unfold send_forest. apply send_edges_to_spec. Qed.

(** *** The receiving side *)

Lemma realloc_edges_length (forest : list Edge) n :
  0 <= n -> Z.of_nat (length (realloc_edges forest n)) = n.
Proof.
  intros Hn. unfold realloc_edges. rewrite length_app, length_firstn, repeat_length. lia.
Qed.

(** The edges of the forests that a receiver merges are edges of the
    group, hence of the graph. *)
Lemma right_forest_incl g s :
  0 <= g -> 1 <= s -> g mod (2 * s) = 0 ->
  incl (kruskal_forest N (group_edges N A nb (g + s) s)) (group_edges N A nb g (2 * s)).
Proof.
  intros Hg Hs Hmod e He.
  apply (group_split N numProcs A HN1 HP nb Hnb g s e Hg Hs Hmod). right. left.
  apply (kruskal_forest_incl N HNmax) in He; [assumption| |apply group_NoDup].
  apply (group_valid N numProcs A HN1 HP Hadj nb Hnb). lia.
Qed.

Lemma left_forest_incl g s :
  0 <= g -> 1 <= s -> g mod (2 * s) = 0 ->
  incl (kruskal_forest N (group_edges N A nb g s)) (group_edges N A nb g (2 * s)).
Proof.
  intros Hg Hs Hmod e He.
  apply (group_split N numProcs A HN1 HP nb Hnb g s e Hg Hs Hmod). left.
  apply (kruskal_forest_incl N HNmax) in He; [assumption| |apply group_NoDup].
  apply (group_valid N numProcs A HN1 HP Hadj nb Hnb). lia.
Qed.

Lemma bip_forest_incl g s q :
  0 <= g -> 1 <= s -> g mod (2 * s) = 0 -> g + s <= q < Z.min (g + 2 * s) numProcs ->
  incl (kruskal_forest N (bip_edges N A nb q s)) (bip_edges N A nb q s)
  /\ incl (bip_edges N A nb q s) (group_edges N A nb g (2 * s)).
Proof.
  intros Hg Hs Hmod Hq.
  destruct (sender_base g s q Hg Hs Hmod ltac:(lia)) as (Hodd & _).
  split.
  - apply (kruskal_forest_incl N HNmax).
    + apply (bip_valid N numProcs A HN1 HP Hadj nb Hnb); [lia | assumption | assumption].
    + apply (bip_NoDup N numProcs A HN1 HP nb Hnb); [lia | assumption | assumption].
  - intros e He. apply (group_split N numProcs A HN1 HP nb Hnb g s e Hg Hs Hmod).
    right. right. exists q. auto.
Qed.

(** A list without repetition of edges of a group fits in [M] entries. *)
Lemma group_list_le_M g s (l : list Edge) :
  0 <= g -> NoDup l -> incl l (group_edges N A nb g s) -> Z.of_nat (length l) <= M.
Proof.
  intros Hg Hnd Hincl.
  assert (Hle : (length l <= length (upper_edges N A))%nat).
  { apply NoDup_incl_length; [assumption|]. intros e He.
    apply (group_incl_upper N numProcs A HN1 HP Hsym nb Hnb g s Hg). now apply Hincl. }
  lia.
Qed.

Lemma receive_edges_loop_break g s ks st :
  match ks with [] => True | i :: _ => numProcs <= g + s + i end ->
  receive_edges_loop g numProcs s ks st = Some st.
Proof.
  destruct ks as [|i ks]; intros H; [reflexivity|]. cbn [receive_edges_loop].
  destruct (Z.geb_spec (g + s + i) numProcs); [reflexivity | lia].
Qed.

Lemma no_pending_senders g s (src a b : Z) :
  src < a ->
  no_pending src g
    (flat_map (fun q => edge_msgs q g (kruskal_forest N (bip_edges N A nb q s)))
       (rev (range a b))).
Proof.
  intros Hlt m Hm Hsrc _. apply in_flat_map in Hm. destruct Hm as (q & Hq & Hm).
  apply in_rev in Hq. apply In_range in Hq.
  destruct Hm as [<-|[<-|[]]]; cbn [msg_src] in Hsrc; lia.
Qed.

(** One exchange of [receive_edges]. *)
Lemma receive_edges_step g s k i st :
  0 <= g -> 1 <= s -> g mod (2 * s) = 0 ->
  0 <= i < k -> k <= s -> g + s + k <= numProcs ->
  recv_inv N nb g s k
    (Z.min M (s * (nb * (s + 1) - 1) + 2 * (s * nb - 1))) A i st ->
  exists r merged,
    receive_edges_from g s (g + s + i) (rs_newEdges st) (rs_net st) = Some r
    /\ merge_sorted_lists (rs_buf1 st) (rs_nbEdges st) (fst (fst r)) (snd (fst r))
         (rs_buf2 st) = Some merged
    /\ recv_inv N nb g s k
         (Z.min M (s * (nb * (s + 1) - 1) + 2 * (s * nb - 1))) A (i + 1)
         (mkRecvSt merged (rs_buf1 st) (fst (fst r)) (rs_nbEdges st + snd (fst r))
            (1 - rs_parity st) (snd r)).
Proof.
  intros Hg Hs Hmod Hi Hk HkP
    (m & t1 & Hbuf1 & Hn & Hsorted & Hin & Hl1 & Hl2 & Hl3 & Hnet & Hbound).
  pose proof (nb_pos N numProcs HN1 HP nb Hnb) as Hnbp.
  set (q := g + s + i).
  set (B := kruskal_forest N (bip_edges N A nb q s)).
  assert (Hq : g + s <= q < Z.min (g + 2 * s) numProcs) by (unfold q; lia).
  destruct (sender_base g s q Hg Hs Hmod ltac:(lia)) as (Hodd & _).
  destruct (bip_forest_incl g s q Hg Hs Hmod Hq) as [HBin HBgroup].
  assert (HgroupV : Forall (valid_edge N) (group_edges N A nb g (2 * s)))
    by (apply (group_valid N numProcs A HN1 HP Hadj nb Hnb); lia).
  rewrite Forall_forall in HgroupV.
  assert (Hmincl : incl m (group_edges N A nb g (2 * s))).
  { intros e He. apply Hin in He. destruct He as [He|(q' & Hq' & He)].
    - now apply right_forest_incl.
    - destruct (bip_forest_incl g s q' Hg Hs Hmod ltac:(lia)) as [H1 H2]. auto. }
  assert (HBsorted : StronglySorted edge_lt B).
  { apply (kruskal_forest_sorted N HNmax).
    - apply (bip_valid N numProcs A HN1 HP Hadj nb Hnb); [lia | assumption | assumption].
    - apply (bip_NoDup N numProcs A HN1 HP nb Hnb); [lia | assumption | assumption]. }
  assert (HBbound : Z.of_nat (length B) <= (s + 1) * nb - 1)
    by (apply (bip_forest_bound N numProcs A HN1 HNmax HP Hadj nb Hnb); [lia | assumption | assumption]).
  assert (HBfit : Z.of_nat (length B) <= s * (nb * nb)) by nia.
  assert (Hdis : forall x, In x m -> ~ In x B).
  { intros x Hx HxB. apply HBin in HxB.
    pose proof (bip_edge_range N numProcs A HN1 HP nb Hnb g s q x Hg Hs Hmod ltac:(lia) HxB)
      as Hr.
    apply Hin in Hx. destruct Hx as [Hx|(q' & Hq' & Hx)].
    - apply (kruskal_forest_incl N HNmax) in Hx;
        [|apply (group_valid N numProcs A HN1 HP Hadj nb Hnb); lia | apply group_NoDup].
      apply group_edge_range in Hx. lia.
    - destruct (bip_forest_incl g s q' Hg Hs Hmod ltac:(lia)) as [H1 _]. apply H1 in Hx.
      pose proof (bip_edge_range N numProcs A HN1 HP nb Hnb g s q' x Hg Hs Hmod ltac:(lia) Hx)
        as Hr'.
      unfold q in *. nia. }
  assert (Hcap : Z.of_nat (length m + length B)
                 <= Z.min M (s * (nb * (s + 1) - 1) + 2 * (s * nb - 1))).
  { apply Z.min_glb.
    - rewrite <- length_app. apply (group_list_le_M g (2 * s)); [assumption| |].
      + apply NoDup_app; [now apply sorted_NoDup | now apply sorted_NoDup | exact Hdis].
      + intros e He. apply in_app_or in He. destruct He as [He|He]; auto.
    - nia. }
  (* the receive *)
  assert (Hrange : range (g + s + i) (g + s + k) = q :: range (q + 1) (g + s + k))
    by (apply range_cons; lia).
  rewrite Hrange in Hnet. cbn [rev] in Hnet. rewrite flat_map_app in Hnet.
  cbn [flat_map] in Hnet. fold B in Hnet.
  rewrite Hnet.
  rewrite (receive_edges_from_spec g s q B (rs_newEdges st)).
  2: { apply no_pending_senders. lia. }
  2: { lia. }
  rewrite Hbuf1, Hn.
  destruct (merge_sorted_lists_spec N HNmax m B t1
              (skipn (length B) (rs_newEdges st)) (rs_buf2 st))
    as (m' & Hmerge & Hperm & Hs').
  { lia. }
  { apply Forall_forall. intros e He. apply HgroupV. now apply Hmincl. }
  { apply Forall_forall. intros e He. apply HgroupV. auto. }
  { assumption. }
  { assumption. }
  { exact Hdis. }
  eexists. exists (m' ++ skipn (length m') (rs_buf2 st)).
  split; [reflexivity|]. cbn [fst snd]. split; [exact Hmerge|].
  assert (Hlen' : length m' = (length m + length B)%nat)
    by (rewrite (Permutation_length Hperm), length_app; reflexivity).
  exists m', (skipn (length m') (rs_buf2 st)).
  cbn [rs_buf1 rs_buf2 rs_newEdges rs_nbEdges rs_parity rs_net].
  split; [reflexivity|]. split; [lia|]. split; [assumption|]. split; [|split; [|split; [|split; [|split]]]].
  - intros e. split.
    + intros He. apply (Permutation_in _ Hperm) in He. apply in_app_or in He.
      destruct He as [He|He].
      * apply Hin in He. destruct He as [He|(q' & Hq' & He)]; [now left|].
        right. exists q'. split; [lia | assumption].
      * right. exists q. split; [unfold q; lia | assumption].
    + intros He. apply (Permutation_in _ (Permutation_sym Hperm)). apply in_or_app.
      destruct He as [He|(q' & Hq' & He)].
      * left. apply Hin. now left.
      * destruct (Z.eq_dec q' q) as [->|Hne]; [now right|].
        left. apply Hin. right. exists q'. split; [unfold q in *; lia | assumption].
  - rewrite length_app, length_skipn. lia.
  - rewrite <- Hbuf1. assumption.
  - rewrite length_app, length_skipn. lia.
  - rewrite app_nil_r. unfold q. replace (g + s + (i + 1)) with (g + s + i + 1) by lia.
    reflexivity.
  - nia.
Qed.

Lemma receive_edges_loop_spec g s k (n : nat) : forall i st,
  0 <= g -> 1 <= s -> g mod (2 * s) = 0 ->
  0 <= i -> i + Z.of_nat n = k -> k <= s -> (0 < k -> g + s + k <= numProcs) ->
  (k < s -> numProcs <= g + s + k) ->
  recv_inv N nb g s k
    (Z.min M (s * (nb * (s + 1) - 1) + 2 * (s * nb - 1))) A i st ->
  exists st',
    receive_edges_loop g numProcs s (range i s) st = Some st'
    /\ recv_inv N nb g s k
         (Z.min M (s * (nb * (s + 1) - 1) + 2 * (s * nb - 1))) A k st'.
Proof.
  induction n as [|n IH]; intros i st Hg Hs Hmod Hi Hik Hk HkP Hbreak Hinv.
  - assert (i = k) by lia. subst i. exists st. split; [|assumption].
    apply receive_edges_loop_break.
    destruct (Z.lt_ge_cases k s) as [Hlt|Hge].
    + rewrite range_cons by assumption. now apply Hbreak.
    + now rewrite range_empty by lia.
  - rewrite range_cons by lia. cbn [receive_edges_loop].
    destruct (Z.geb_spec (g + s + i) numProcs); [lia|].
    destruct (receive_edges_step g s k i st Hg Hs Hmod ltac:(lia) Hk (HkP ltac:(lia)) Hinv)
      as (r & merged & Hrecv & Hmerge & Hinv').
    rewrite Hrecv, Hmerge.
    apply (IH (i + 1)); try assumption; lia.
Qed.

(** [receive_edges] after [receive_forest]. *)
Lemma receive_edges_spec g s k (t : list Edge) :
  0 <= g -> 1 <= s -> g mod (2 * s) = 0 ->
  0 <= k <= s -> (0 < k -> g + s + k <= numProcs) ->
  (k < s -> numProcs <= g + s + k) ->
  Z.of_nat (length (kruskal_forest N (group_edges N A nb (g + s) s) ++ t))
  = Z.min M (s * (nb * (s + 1) - 1) + 2 * (s * nb - 1)) ->
  exists m t',
    receive_edges g numProcs s (nb * nb)
      (kruskal_forest N (group_edges N A nb (g + s) s) ++ t)
      (Z.of_nat (length (kruskal_forest N (group_edges N A nb (g + s) s))))
      (Z.min M (s * (nb * (s + 1) - 1) + 2 * (s * nb - 1)))
      (flat_map (fun q => edge_msgs q g (kruskal_forest N (bip_edges N A nb q s)))
         (rev (range (g + s) (g + s + k))))
    = Some (m ++ t', Z.of_nat (length m), [])
    /\ StronglySorted edge_lt m
    /\ (forall e, In e m <->
          In e (kruskal_forest N (group_edges N A nb (g + s) s))
          \/ exists q, g + s <= q < g + s + k
                       /\ In e (kruskal_forest N (bip_edges N A nb q s)))
    /\ Z.of_nat (length (m ++ t'))
       = Z.min M (s * (nb * (s + 1) - 1) + 2 * (s * nb - 1))
    /\ Z.of_nat (length m) <= (s * nb - 1) + k * ((s + 1) * nb - 1).
Proof.
  intros Hg Hs Hmod Hk HkP Hbreak Hlen.
  pose proof (nb_pos N numProcs HN1 HP nb Hnb) as Hnbp.
  set (cap := Z.min M (s * (nb * (s + 1) - 1) + 2 * (s * nb - 1))) in *.
  assert (Hcap0 : 0 <= cap) by (unfold cap; apply Z.min_glb; [lia | nia]).
  unfold receive_edges. rewrite <- (range_0 s).
  destruct (receive_edges_loop_spec g s k (Z.to_nat k) 0
              (mkRecvSt (kruskal_forest N (group_edges N A nb (g + s) s) ++ t)
                 (calloc_edges cap) (calloc_edges (s * (nb * nb)))
                 (Z.of_nat (length (kruskal_forest N (group_edges N A nb (g + s) s))))
                 0
                 (flat_map (fun q => edge_msgs q g (kruskal_forest N (bip_edges N A nb q s)))
                    (rev (range (g + s) (g + s + k))))))
    as (st' & Hloop & Hinv); try assumption; try lia.
  { exists (kruskal_forest N (group_edges N A nb (g + s) s)), t.
    cbn [rs_buf1 rs_buf2 rs_newEdges rs_nbEdges rs_parity rs_net].
    split; [reflexivity|]. split; [reflexivity|]. split.
    { apply (kruskal_forest_sorted N HNmax); [|apply group_NoDup].
      apply (group_valid N numProcs A HN1 HP Hadj nb Hnb). lia. }
    split.
    { intros e. split; [now left|]. intros [He|(q & Hq & _)]; [assumption | lia]. }
    split; [exact Hlen|].
    split; [unfold calloc_edges; rewrite repeat_length; lia|].
    split; [unfold calloc_edges; rewrite repeat_length; nia|].
    split; [now rewrite Z.add_0_r|].
    pose proof (group_forest_bound N numProcs A HN1 HNmax HP Hadj nb Hnb (g + s) s
                  ltac:(lia) Hs). lia. }
  rewrite Hloop.
  destruct Hinv as (m & t1 & Hbuf1 & Hn & Hsorted & Hin & Hl1 & Hl2 & Hl3 & Hnet & Hbound).
  rewrite range_empty in Hnet by lia. cbn [rev flat_map] in Hnet.
  destruct (Z.eqb_spec (rs_parity st') 0) as [Hpar|Hpar]; cbn [negb].
  - exists m, t1. rewrite <- Hbuf1, Hn, Hnet. repeat split; try assumption; apply Hin.
  - unfold memcpy_edges.
    destruct (Z.leb_spec 0 (rs_nbEdges st')); [|lia].
    destruct (Z.leb_spec (rs_nbEdges st') (Z.of_nat (length (rs_buf1 st')))) as [_|Hc];
      [|rewrite Hbuf1, length_app in Hc; lia].
    assert (Hmcap : Z.of_nat (length m) <= cap)
      by (pose proof Hl1 as Hx; rewrite Hbuf1, length_app in Hx; lia).
    destruct (Z.leb_spec (rs_nbEdges st') (Z.of_nat (length (rs_buf2 st')))); [|lia].
    cbn [andb]. rewrite Hn, Nat2Z.id, Hbuf1, firstn_exact by reflexivity.
    exists m, (skipn (length m) (rs_buf2 st')). rewrite Hnet.
    split; [reflexivity|]. split; [assumption|]. split; [assumption|].
    split; [|assumption]. rewrite length_app, length_skipn. lia.
Qed.

Lemma merge_into_spec (l1 t1 l2 t2 : list Edge) :
  (length l1 + length l2 <= length (l2 ++ t2))%nat ->
  Forall (valid_edge N) l1 -> Forall (valid_edge N) l2 ->
  StronglySorted edge_lt l1 -> StronglySorted edge_lt l2 ->
  (forall x, In x l1 -> ~ In x l2) ->
  exists m,
    merge_into (l1 ++ t1) (Z.of_nat (length l1)) (l2 ++ t2) (Z.of_nat (length l2))
    = Some (m ++ skipn (length m) (l2 ++ t2))
    /\ Permutation m (l1 ++ l2)
    /\ StronglySorted edge_lt m.
Proof.
  intros Hfit Hv1 Hv2 Hs1 Hs2 Hdis. unfold merge_into.
  destruct (merge_sorted_lists_spec N HNmax l1 l2 t1 t2
              (calloc_edges (Z.of_nat (length l1) + Z.of_nat (length l2))))
    as (m & Hmerge & Hperm & Hsorted); try assumption.
  { unfold calloc_edges. rewrite repeat_length. lia. }
  rewrite Hmerge.
  assert (Hlen : length m = (length l1 + length l2)%nat)
    by (rewrite (Permutation_length Hperm), length_app; reflexivity).
  rewrite skipn_all2 by (unfold calloc_edges; rewrite repeat_length; lia).
  rewrite app_nil_r. unfold memcpy_edges.
  destruct (Z.leb_spec 0 (Z.of_nat (length l1) + Z.of_nat (length l2))); [|lia].
  destruct (Z.leb_spec (Z.of_nat (length l1) + Z.of_nat (length l2)) (Z.of_nat (length m)));
    [|lia].
  destruct (Z.leb_spec (Z.of_nat (length l1) + Z.of_nat (length l2))
              (Z.of_nat (length (l2 ++ t2)))); [|lia].
  cbn [andb].
  replace (Z.to_nat (Z.of_nat (length l1) + Z.of_nat (length l2))) with (length m) by lia.
  rewrite firstn_all. exists m. auto.
Qed.

(** The messages for the receiver [g]: the forest of the first sender, and
    the forests of all the senders. *)
Lemma group_net_shape g s :
  0 <= g -> 1 <= s -> g mod (2 * s) = 0 -> g + s < numProcs ->
  flat_map (sender_msgs N nb s A) (rev (range (g + s) (Z.min (g + 2 * s) numProcs)))
  = flat_map (fun q => edge_msgs q g (kruskal_forest N (bip_edges N A nb q s)))
      (rev (range (g + s + 1) (Z.min (g + 2 * s) numProcs)))
    ++ edge_msgs (g + s) g (kruskal_forest N (group_edges N A nb (g + s) s))
    ++ edge_msgs (g + s) g (kruskal_forest N (bip_edges N A nb (g + s) s)).
Proof.
  intros Hg Hs Hmod Hlt.
  rewrite range_cons by lia. cbn [rev]. rewrite flat_map_app. cbn [flat_map].
  rewrite app_nil_r. f_equal.
  - apply flat_map_ext_in. intros q Hq. apply in_rev in Hq. apply In_range in Hq.
    destruct (sender_base g s q Hg Hs Hmod ltac:(lia)) as (_ & Hm2 & Hm1).
    unfold sender_msgs. rewrite Hm1, Hm2.
    destruct (Z.eqb_spec (q - g - s) 0); [lia|]. cbn [app]. f_equal. lia.
  - destruct (sender_base g s (g + s) Hg Hs Hmod ltac:(lia)) as (_ & Hm2 & Hm1).
    unfold sender_msgs. rewrite Hm1, Hm2.
    destruct (Z.eqb_spec (g + s - g - s) 0); [|lia].
    f_equal; f_equal; lia.
Qed.

Lemma senders_snoc g s k :
  1 <= k ->
  flat_map (fun q => edge_msgs q g (kruskal_forest N (bip_edges N A nb q s)))
    (rev (range (g + s) (g + s + k)))
  = flat_map (fun q => edge_msgs q g (kruskal_forest N (bip_edges N A nb q s)))
      (rev (range (g + s + 1) (g + s + k)))
    ++ edge_msgs (g + s) g (kruskal_forest N (bip_edges N A nb (g + s) s)).
Proof.
  intros Hk. rewrite (range_cons (g + s)) by lia. cbn [rev].
  rewrite flat_map_app. cbn [flat_map]. now rewrite app_nil_r.
Qed.

(** [receive_forest] on the receiver [g]. *)
Lemma receive_forest_spec g s :
  0 <= g -> 1 <= s -> g mod (2 * s) = 0 ->
  let cap := Z.min M (s * (nb * (s + 1) - 1) + 2 * (s * nb - 1)) in
  let k := Z.max 0 (Z.min (g + 2 * s) numProcs - (g + s)) in
  exists t,
    receive_forest g numProcs s (calloc_edges cap)
      (flat_map (sender_msgs N nb s A) (rev (range (g + s) (Z.min (g + 2 * s) numProcs))))
    = Some (kruskal_forest N (group_edges N A nb (g + s) s) ++ t,
            Z.of_nat (length (kruskal_forest N (group_edges N A nb (g + s) s))),
            flat_map (fun q => edge_msgs q g (kruskal_forest N (bip_edges N A nb q s)))
              (rev (range (g + s) (g + s + k))))
    /\ Z.of_nat (length (kruskal_forest N (group_edges N A nb (g + s) s) ++ t)) = cap.
Proof.
  intros Hg Hs Hmod cap k.
  pose proof (nb_pos N numProcs HN1 HP nb Hnb) as Hnbp.
  pose proof (nb_covers N numProcs HN1 HP nb Hnb) as Hcov.
  assert (Hcap0 : 0 <= cap) by (unfold cap; apply Z.min_glb; [lia | nia]).
  unfold receive_forest.
  destruct (Z.geb_spec (g + s) numProcs) as [Hge|Hlt].
  - rewrite group_empty by nia. rewrite kruskal_forest_nil.
    rewrite !range_empty by lia. cbn [rev flat_map app length Z.of_nat].
    exists (calloc_edges cap). split; [reflexivity|].
    unfold calloc_edges. rewrite repeat_length. lia.
  - assert (Hk : g + s + k = Z.min (g + 2 * s) numProcs) by lia.
    rewrite group_net_shape by assumption. rewrite Hk, <- Hk.
    rewrite senders_snoc by lia.
    set (F := kruskal_forest N (group_edges N A nb (g + s) s)).
    assert (HF : Z.of_nat (length F) <= cap).
    { apply Z.min_glb.
      - apply (group_list_le_M g (2 * s)); [assumption| |now apply right_forest_incl].
        apply sorted_NoDup. apply (kruskal_forest_sorted N HNmax); [|apply group_NoDup].
        apply (group_valid N numProcs A HN1 HP Hadj nb Hnb). lia.
      - pose proof (group_forest_bound N numProcs A HN1 HNmax HP Hadj nb Hnb (g + s) s
                      ltac:(lia) Hs). fold F in H. nia. }
    rewrite (receive_edges_from_spec g s (g + s) F (calloc_edges cap)).
    + exists (skipn (length F) (calloc_edges cap)). split; [reflexivity|].
      rewrite length_app, length_skipn. unfold calloc_edges. rewrite repeat_length. lia.
    + apply no_pending_senders. lia.
    + unfold calloc_edges. rewrite repeat_length. lia.
Qed.

(** [receive_new_edges] on the receiver [g]: the sorted list of the edges
    of its forest and of the forests it receives. *)
Lemma receive_new_edges_spec g s (rest : list Edge) :
  0 <= g -> 1 <= s -> g mod (2 * s) = 0 ->
  let cap := Z.min M (s * (nb * (s + 1) - 1) + 2 * (s * nb - 1)) in
  exists m t,
    receive_new_edges g numProcs s (nb * nb) nb (calloc_edges cap) cap
      (kruskal_forest N (group_edges N A nb g s) ++ rest)
      (Z.of_nat (length (kruskal_forest N (group_edges N A nb g s))))
      (flat_map (sender_msgs N nb s A) (rev (range (g + s) (Z.min (g + 2 * s) numProcs))))
    = Some (m ++ t, Z.of_nat (length m), [])
    /\ StronglySorted edge_lt m
    /\ (forall e, In e m <->
          In e (kruskal_forest N (group_edges N A nb g s))
          \/ In e (kruskal_forest N (group_edges N A nb (g + s) s))
          \/ exists q, g + s <= q < Z.min (g + 2 * s) numProcs
                       /\ In e (kruskal_forest N (bip_edges N A nb q s))).
Proof.
  intros Hg Hs Hmod cap.
  pose proof (nb_pos N numProcs HN1 HP nb Hnb) as Hnbp.
  set (k := Z.max 0 (Z.min (g + 2 * s) numProcs - (g + s))).
  destruct (receive_forest_spec g s Hg Hs Hmod) as (t0 & Hrf & Hlen0).
  fold cap in Hrf, Hlen0. fold k in Hrf.
  unfold receive_new_edges. rewrite Hrf. cbn [fst snd].
  destruct (receive_edges_spec g s k t0 Hg Hs Hmod) as (m & t1 & Hre & Hsm & Hin & Hlen1 & Hbound);
    try (unfold k; lia); try assumption.
  fold cap in Hre, Hlen1. rewrite Hre. cbn [fst snd].
  set (F := kruskal_forest N (group_edges N A nb g s)) in *.
  assert (HgroupV : Forall (valid_edge N) (group_edges N A nb g (2 * s)))
    by (apply (group_valid N numProcs A HN1 HP Hadj nb Hnb); lia).
  rewrite Forall_forall in HgroupV.
  assert (HFsorted : StronglySorted edge_lt F).
  { apply (kruskal_forest_sorted N HNmax); [|apply group_NoDup].
    apply (group_valid N numProcs A HN1 HP Hadj nb Hnb). lia. }
  assert (HFincl : incl F (group_edges N A nb g (2 * s))) by (now apply left_forest_incl).
  assert (Hmincl : incl m (group_edges N A nb g (2 * s))).
  { intros e He. apply Hin in He. destruct He as [He|(q & Hq & He)].
    - now apply right_forest_incl.
    - destruct (bip_forest_incl g s q Hg Hs Hmod ltac:(unfold k in Hq; lia)) as [H1 H2].
      auto. }
  assert (Hdis : forall x, In x F -> ~ In x m).
  { intros x Hx Hxm.
    apply (kruskal_forest_incl N HNmax) in Hx;
      [|apply (group_valid N numProcs A HN1 HP Hadj nb Hnb); lia | apply group_NoDup].
    apply group_edge_range in Hx.
    apply Hin in Hxm. destruct Hxm as [Hxm|(q & Hq & Hxm)].
    - apply (kruskal_forest_incl N HNmax) in Hxm;
        [|apply (group_valid N numProcs A HN1 HP Hadj nb Hnb); lia | apply group_NoDup].
      apply group_edge_range in Hxm. lia.
    - destruct (bip_forest_incl g s q Hg Hs Hmod ltac:(unfold k in Hq; lia)) as [H1 _].
      apply H1 in Hxm.
      pose proof (bip_edge_range N numProcs A HN1 HP nb Hnb g s q x Hg Hs Hmod
                    ltac:(unfold k in Hq; lia) Hxm) as Hr.
      nia. }
  assert (HFbound : Z.of_nat (length F) <= s * nb - 1)
    by (apply (group_forest_bound N numProcs A HN1 HNmax HP Hadj nb Hnb); lia).
  destruct (merge_into_spec F rest m t1) as (m2 & Hmi & Hperm & Hs2).
  { assert (Hfit : Z.of_nat (length F + length m) <= cap).
    { apply Z.min_glb.
      - rewrite <- length_app. apply (group_list_le_M g (2 * s)); [assumption| |].
        + apply NoDup_app; [now apply sorted_NoDup | now apply sorted_NoDup | exact Hdis].
        + intros e He. apply in_app_or in He. destruct He as [He|He]; auto.
      - assert (k <= s) by (unfold k; lia). nia. }
    lia. }
  { apply Forall_forall. intros e He. apply HgroupV. auto. }
  { apply Forall_forall. intros e He. apply HgroupV. auto. }
  { assumption. }
  { assumption. }
  { exact Hdis. }
  rewrite Hmi.
  assert (Hlen2 : length m2 = (length F + length m)%nat)
    by (rewrite (Permutation_length Hperm), length_app; reflexivity).
  exists m2, (skipn (length m2) (m ++ t1)). split; [|split; [assumption|]].
  - f_equal. f_equal. f_equal. lia.
  - intros e. split.
    + intros He. apply (Permutation_in _ Hperm) in He. apply in_app_or in He.
      destruct He as [He|He]; [now left|]. right. apply Hin in He.
      destruct He as [He|(q & Hq & He)]; [now left|].
      right. exists q. split; [unfold k in Hq; lia | assumption].
    + intros He. apply (Permutation_in _ (Permutation_sym Hperm)). apply in_or_app.
      destruct He as [He|[He|(q & Hq & He)]]; [now left | right; apply Hin; now left |].
      right. apply Hin. right. exists q. split; [unfold k; lia | assumption].
Qed.

(** *** One iteration of the loop of [parallel_kruskal] *)

Lemma land_1 x : Z.land x 1 = x mod 2.
Proof. change 1 with (Z.ones 1) at 1. rewrite Z.land_ones by lia. reflexivity. Qed.

Lemma shiftl_1 x : Z.shiftl x 1 = 2 * x.
Proof. rewrite Z.shiftl_mul_pow2 by lia. change (2 ^ 1) with 2. lia. Qed.

Lemma shiftr_1 x : Z.shiftr x 1 = x / 2.
Proof. rewrite Z.shiftr_div_pow2 by lia. reflexivity. Qed.

Lemma mod_double q s : 1 <= s -> q mod (2 * s) = q mod s + s * ((q / s) mod 2).
Proof. intros Hs. rewrite (Z.mul_comm 2 s). apply Z.rem_mul_r; lia. Qed.

Lemma div_double q s : 1 <= s -> q / s / 2 = q / (2 * s).
Proof. intros Hs. rewrite Z.div_div by lia. f_equal. lia. Qed.

Lemma next_inv_not_leader q s (p : Proc) forest forestSize :
  1 <= s -> q mod (2 * s) <> 0 -> p_rank p = q / s ->
  pk_inv N nb A (2 * s) q
    (mkProc forest forestSize 0 (Z.shiftl s 1) (Z.shiftr (p_rank p) 1)).
Proof.
  intros Hs Hne Hrank. unfold pk_inv. cbn [p_stepSize p_rank p_receiver p_forest p_forestSize].
  split; [apply shiftl_1|]. split; [rewrite shiftr_1, Hrank; now apply div_double|].
  destruct (Z.eqb_spec (q mod (2 * s)) 0); [contradiction|]. split; [reflexivity|].
  intros Hc. contradiction.
Qed.

(** A rank of the upper half of its group sends. *)
Lemma iter_sender q s (p : Proc) (net : Net) :
  0 <= q < numProcs -> 1 <= s -> (q / s) mod 2 = 1 ->
  pk_inv N nb A s q p ->
  exists p',
    parallel_kruskal_iter q numProcs (adjs q) N M p net
    = Some (p', net ++ sender_msgs N nb s A q)
    /\ pk_inv N nb A (2 * s) q p'.
Proof.
  intros Hq Hs Hodd (Hstep & Hrank & Hrecv & Hforest).
  unfold parallel_kruskal_iter. rewrite <- Hnb, Hstep, Hrank, land_1, Hodd.
  cbn [Z.eqb negb]. rewrite Z.rem_mod_nonneg by lia.
  assert (Hnz : q mod (2 * s) <> 0).
  { rewrite mod_double, Hodd by assumption. pose proof (Z.mod_pos_bound q s ltac:(lia)). lia. }
  unfold sender_msgs.
  destruct (Z.eqb_spec (q mod s) 0) as [Hz|Hz].
  - destruct (Hforest Hz) as (rest & Hf & Hsize). rewrite Hf, Hsize, send_forest_spec.
    rewrite send_bipartite_forest_spec by assumption.
    eexists. split; [rewrite <- app_assoc; reflexivity|].
    rewrite <- Hrank. apply next_inv_not_leader; assumption.
  - rewrite send_bipartite_forest_spec by assumption.
    eexists. split; [reflexivity|].
    rewrite <- Hrank. apply next_inv_not_leader; assumption.
Qed.

(** A rank that has sent and is in the lower half of its group does
    nothing. *)
Lemma iter_idle q s (p : Proc) (net : Net) :
  0 <= q -> 1 <= s -> (q / s) mod 2 = 0 -> q mod s <> 0 ->
  pk_inv N nb A s q p ->
  exists p',
    parallel_kruskal_iter q numProcs (adjs q) N M p net = Some (p', net)
    /\ pk_inv N nb A (2 * s) q p'.
Proof.
  intros Hq Hs Heven Hnz (Hstep & Hrank & Hrecv & Hforest).
  unfold parallel_kruskal_iter. rewrite <- Hnb, Hstep, Hrank, land_1, Heven, Hrecv.
  destruct (Z.eqb_spec (q mod s) 0); [contradiction|].
  cbn [Z.eqb negb].
  eexists. split; [reflexivity|].
  rewrite <- Hrank. apply next_inv_not_leader; try assumption.
  rewrite mod_double, Heven by assumption. lia.
Qed.

(** The first rank of a group of [2 * s] ranks receives and builds the
    forest of the group. *)
Lemma iter_receiver g s (p : Proc) :
  0 <= g -> 1 <= s -> g mod (2 * s) = 0 ->
  pk_inv N nb A s g p ->
  exists p',
    parallel_kruskal_iter g numProcs (adjs g) N M p
      (flat_map (sender_msgs N nb s A) (rev (range (g + s) (Z.min (g + 2 * s) numProcs))))
    = Some (p', [])
    /\ pk_inv N nb A (2 * s) g p'.
Proof.
  intros Hg Hs Hmod (Hstep & Hrank & Hrecv & Hforest).
  pose proof (nb_pos N numProcs HN1 HP nb Hnb) as Hnbp.
  pose proof (base_mod g s Hs Hmod) as Hms.
  assert (Heven : (g / s) mod 2 = 0).
  { pose proof (mod_double g s Hs) as Hd. rewrite Hmod, Hms in Hd.
    pose proof (Z.mod_pos_bound (g / s) 2 ltac:(lia)). nia. }
  destruct (Hforest Hms) as (rest & Hf & Hsize).
  unfold parallel_kruskal_iter. rewrite <- Hnb, Hstep, Hrank, land_1, Heven, Hrecv.
  rewrite Hms. cbn [Z.eqb negb].
  replace (if M <? s * (nb * (s + 1) - 1) + 2 * (s * nb - 1)
           then M else s * (nb * (s + 1) - 1) + 2 * (s * nb - 1))
    with (Z.min M (s * (nb * (s + 1) - 1) + 2 * (s * nb - 1)))
    by (destruct (Z.ltb_spec M (s * (nb * (s + 1) - 1) + 2 * (s * nb - 1))); lia).
  rewrite Hf, Hsize.
  destruct (receive_new_edges_spec g s rest Hg Hs Hmod) as (m & t & Hrn & Hsm & Hin).
  rewrite Hrn. cbn [fst snd].
  assert (HgroupV : Forall (valid_edge N) (group_edges N A nb g (2 * s)))
    by (apply (group_valid N numProcs A HN1 HP Hadj nb Hnb); lia).
  assert (Hmincl : incl m (group_edges N A nb g (2 * s))).
  { intros e He. apply Hin in He. destruct He as [He|[He|(q & Hq & He)]].
    - now apply left_forest_incl.
    - now apply right_forest_incl.
    - destruct (bip_forest_incl g s q Hg Hs Hmod Hq) as [H1 H2]. auto. }
  assert (Hfirst : firstn (Z.to_nat (Z.of_nat (length m))) (m ++ t) = m)
    by (rewrite Nat2Z.id; now apply firstn_exact).
  destruct (union_find_msf N (range (g * nb) (Z.min ((g + 2 * s) * nb) N))
              (m ++ t) (Z.of_nat (length m))
              (realloc_edges (kruskal_forest N (group_edges N A nb g s) ++ rest)
                 (s * nb * 2 - 1)))
    as (out & Huf & Hmsf & _).
  { rewrite length_app. lia. }
  { rewrite Hfirst. rewrite Forall_forall in *. intros e He. apply HgroupV. auto. }
  { now rewrite Hfirst. }
  { rewrite Hfirst. intros e He. apply (group_vertices N A nb g (2 * s)). auto. }
  { rewrite realloc_edges_length by nia. rewrite length_range. nia. }
  rewrite Huf. cbn [fst snd]. rewrite Hfirst in Hmsf.
  assert (Hout : out = kruskal_forest N (group_edges N A nb g (2 * s))).
  { apply (msf_unique (group_edges N A nb g (2 * s)));
      [|apply (group_forest_msf N numProcs A HN1 HNmax HP Hadj nb Hnb); assumption].
    apply (msf_compose
             ((group_edges N A nb g s, kruskal_forest N (group_edges N A nb g s))
              :: (group_edges N A nb (g + s) s,
                  kruskal_forest N (group_edges N A nb (g + s) s))
              :: map (fun q => (bip_edges N A nb q s,
                                kruskal_forest N (bip_edges N A nb q s)))
                   (range (g + s) (Z.min (g + 2 * s) numProcs)))
             _ m); [| | |assumption].
    - intros pr [<-|[<-|Hpr]]; cbn [fst snd].
      + apply (group_forest_msf N numProcs A HN1 HNmax HP Hadj nb Hnb). assumption.
      + apply (group_forest_msf N numProcs A HN1 HNmax HP Hadj nb Hnb). lia.
      + apply in_map_iff in Hpr. destruct Hpr as (q & <- & Hq). apply In_range in Hq.
        cbn [fst snd].
        destruct (sender_base g s q Hg Hs Hmod ltac:(lia)) as (Hodd & _).
        apply (bip_forest_msf N numProcs A HN1 HNmax HP Hadj nb Hnb); [lia | assumption | assumption].
    - intros e. rewrite (group_split N numProcs A HN1 HP nb Hnb g s e Hg Hs Hmod). split.
      + intros [He|[He|(q & Hq & He)]].
        * eexists. split; [left; reflexivity | exact He].
        * eexists. split; [right; left; reflexivity | exact He].
        * eexists. split; [right; right; apply in_map_iff; exists q; split;
                            [reflexivity | apply In_range; lia] | exact He].
      + intros (pr & [<-|[<-|Hpr]] & He); cbn [fst] in He; [now left | right; now left |].
        apply in_map_iff in Hpr. destruct Hpr as (q & <- & Hq). apply In_range in Hq.
        right. right. exists q. split; [lia | exact He].
    - intros e. rewrite Hin. split.
      + intros [He|[He|(q & Hq & He)]].
        * eexists. split; [left; reflexivity | exact He].
        * eexists. split; [right; left; reflexivity | exact He].
        * eexists. split; [right; right; apply in_map_iff; exists q; split;
                            [reflexivity | apply In_range; lia] | exact He].
      + intros (pr & [<-|[<-|Hpr]] & He); cbn [snd] in He; [now left | right; now left |].
        apply in_map_iff in Hpr. destruct Hpr as (q & <- & Hq). apply In_range in Hq.
        right. right. exists q. split; [lia | exact He]. }
  subst out. eexists. split; [reflexivity|].
  unfold pk_inv. cbn [p_stepSize p_rank p_receiver p_forest p_forestSize].
  split; [apply shiftl_1|]. split; [rewrite shiftr_1; now apply div_double|].
  rewrite Hmod. cbn [Z.eqb]. split; [reflexivity|].
  intros _. eexists. split; reflexivity.
Qed.

(** *** One round: every rank runs one iteration, from the last rank down *)

Lemma pred_mod r s :
  1 <= s -> r mod (2 * s) <> 0 -> (r - 1) mod (2 * s) = r mod (2 * s) - 1.
Proof.
  intros Hs Hnz. pose proof (Z.mod_pos_bound r (2 * s) ltac:(lia)).
  pose proof (Z.div_mod r (2 * s) ltac:(lia)).
  symmetry. apply (Z.mod_unique (r - 1) (2 * s) (r / (2 * s))); lia.
Qed.

Lemma pred_mod_0 r s :
  1 <= s -> r mod (2 * s) = 0 -> (r - 1) mod (2 * s) = 2 * s - 1.
Proof.
  intros Hs Hz. pose proof (Z.div_mod r (2 * s) ltac:(lia)).
  symmetry. apply (Z.mod_unique (r - 1) (2 * s) (r / (2 * s) - 1)); lia.
Qed.

Lemma pending_last s : 1 <= s -> pending_net N nb numProcs s A numProcs = [].
Proof.
  intros Hs. unfold pending_net. rewrite range_empty by lia. reflexivity.
Qed.

Lemma pending_sender r s :
  0 <= r < numProcs -> 1 <= s -> (r / s) mod 2 = 1 ->
  pending_net N nb numProcs s A r
  = pending_net N nb numProcs s A (r + 1) ++ sender_msgs N nb s A r.
Proof.
  intros Hr Hs Hodd. unfold pending_net.
  pose proof (mod_double r s Hs) as Hd. rewrite Hodd in Hd.
  pose proof (Z.mod_pos_bound r s ltac:(lia)).
  pose proof (Z.mod_pos_bound r (2 * s) ltac:(lia)).
  rewrite pred_mod by lia.
  replace (r + 1 - 1) with r by lia.
  replace (r - 1 - (r mod (2 * s) - 1)) with (r - r mod (2 * s)) by lia.
  set (g := r - r mod (2 * s)).
  rewrite (Z.max_l r) by lia. rewrite (Z.max_l (r + 1)) by lia.
  rewrite (range_cons r) by lia. cbn [rev]. rewrite flat_map_app. cbn [flat_map].
  now rewrite app_nil_r.
Qed.

Lemma pending_idle r s :
  0 <= r -> 1 <= s -> (r / s) mod 2 = 0 -> r mod s <> 0 ->
  pending_net N nb numProcs s A r = pending_net N nb numProcs s A (r + 1).
Proof.
  intros Hr Hs Heven Hnz. unfold pending_net.
  pose proof (mod_double r s Hs) as Hd. rewrite Heven in Hd.
  pose proof (Z.mod_pos_bound r s ltac:(lia)).
  rewrite pred_mod by lia.
  replace (r + 1 - 1) with r by lia.
  replace (r - 1 - (r mod (2 * s) - 1)) with (r - r mod (2 * s)) by lia.
  rewrite !Z.max_r by lia. reflexivity.
Qed.

Lemma pending_receiver r s :
  1 <= s -> r mod (2 * s) = 0 ->
  pending_net N nb numProcs s A (r + 1)
  = flat_map (sender_msgs N nb s A) (rev (range (r + s) (Z.min (r + 2 * s) numProcs)))
  /\ pending_net N nb numProcs s A r = [].
Proof.
  intros Hs Hz. unfold pending_net. split.
  - replace (r + 1 - 1) with r by lia. rewrite Hz, Z.sub_0_r.
    rewrite Z.max_r by lia. reflexivity.
  - rewrite pred_mod_0 by assumption. rewrite range_empty by lia. reflexivity.
Qed.

Lemma run_round_app l1 l2 w :
  run_round numProcs adjs N M (l1 ++ l2) w
  = match run_round numProcs adjs N M l1 w with
    | Some w' => run_round numProcs adjs N M l2 w'
    | None => None
    end.
Proof.
  revert w. induction l1 as [|r l1 IH]; intros w; cbn [app run_round]; [reflexivity|].
  destruct (rd (w_procs w) r) as [p|]; [|reflexivity].
  destruct (parallel_kruskal_iter r numProcs (adjs r) N M p (w_net w)) as [res|];
    [|reflexivity].
  destruct (wr (w_procs w) r (fst res)); [apply IH | reflexivity].
Qed.

(** The iteration of the rank [r], in the state where the ranks above it
    have run. *)
Lemma run_rank r s w :
  0 <= r < numProcs -> 1 <= s ->
  round_inv N nb numProcs s A (r + 1) w ->
  exists w',
    run_round numProcs adjs N M [r] w = Some w'
    /\ round_inv N nb numProcs s A r w'.
Proof.
  intros Hr Hs (Hlen & Hnet & Hprocs). cbn [run_round].
  destruct (rd_in_range (w_procs w) r ltac:(lia)) as [p Hp]. rewrite Hp.
  pose proof (Hprocs r p Hp) as Hinv.
  destruct (Z.ltb_spec r (r + 1)); [|lia].
  assert (Hstep : exists p',
    parallel_kruskal_iter r numProcs (adjs r) N M p (w_net w)
    = Some (p', pending_net N nb numProcs s A r)
    /\ pk_inv N nb A (2 * s) r p').
  { pose proof (Z.mod_pos_bound (r / s) 2 ltac:(lia)) as Hbit.
    assert (Hcase : (r / s) mod 2 = 1 \/ (r / s) mod 2 = 0) by lia.
    destruct Hcase as [Hodd|Heven].
    - destruct (iter_sender r s p (w_net w) Hr Hs Hodd Hinv) as (p' & Hit & Hinv').
      exists p'. rewrite Hit, Hnet, (pending_sender r s Hr Hs Hodd). auto.
    - destruct (Z.eq_dec (r mod s) 0) as [Hz|Hnz].
      + assert (Hmod : r mod (2 * s) = 0)
          by (rewrite mod_double, Heven, Hz by assumption; lia).
        destruct (pending_receiver r s Hs Hmod) as [Hn1 Hn0].
        rewrite Hnet, Hn1, Hn0. apply iter_receiver; [lia | assumption | assumption | assumption].
      + destruct (iter_idle r s p (w_net w) ltac:(lia) Hs Heven Hnz Hinv) as (p' & Hit & Hinv').
        exists p'. rewrite Hit, Hnet, (pending_idle r s ltac:(lia) Hs Heven Hnz). auto. }
  destruct Hstep as (p' & Hit & Hinv'). rewrite Hit. cbn [fst snd].
  rewrite (wr_in_range (w_procs w) r p') by lia.
  eexists. split; [reflexivity|].
  assert (Hw : wr (w_procs w) r p' = Some (upd (w_procs w) (Z.to_nat r) p'))
    by (apply wr_in_range; lia).
  split; [cbn [w_procs]; rewrite length_upd; assumption|]. split; [reflexivity|].
  cbn [w_procs]. intros q pq Hq.
  destruct (Z.eq_dec q r) as [->|Hne].
  - rewrite (rd_wr_same _ _ _ _ Hw) in Hq. injection Hq as <-.
    destruct (Z.ltb_spec r r); [lia | assumption].
  - rewrite (rd_wr_other _ _ _ _ q Hw Hne) in Hq. specialize (Hprocs q pq Hq).
    destruct (Z.ltb_spec q (r + 1)), (Z.ltb_spec q r); try lia; assumption.
Qed.

Lemma run_round_down s w0 (n : nat) :
  1 <= s -> Z.of_nat n <= numProcs ->
  round_inv N nb numProcs s A numProcs w0 ->
  exists w,
    run_round numProcs adjs N M (rev (range (numProcs - Z.of_nat n) numProcs)) w0 = Some w
    /\ round_inv N nb numProcs s A (numProcs - Z.of_nat n) w.
Proof.
  intros Hs. induction n as [|n IH]; intros Hn Hinv.
  - rewrite Z.sub_0_r, range_empty by lia. exists w0. split; [reflexivity | assumption].
  - destruct IH as (w1 & Hrun & Hinv1); [lia | assumption|].
    replace (numProcs - Z.of_nat n) with (numProcs - Z.of_nat (S n) + 1) in Hrun, Hinv1 by lia.
    rewrite (range_cons (numProcs - Z.of_nat (S n))) by lia. cbn [rev].
    rewrite run_round_app, Hrun.
    apply run_rank; [lia | assumption | assumption].
Qed.

(** A round takes the processes from step [s] to step [2 * s]. *)
Lemma run_round_spec s w0 :
  1 <= s -> round_inv N nb numProcs s A numProcs w0 ->
  exists w,
    run_round numProcs adjs N M (rev (iota numProcs)) w0 = Some w
    /\ round_inv N nb numProcs (2 * s) A numProcs w.
Proof.
  intros Hs Hinv.
  destruct (run_round_down s w0 (Z.to_nat numProcs) Hs ltac:(lia) Hinv) as (w & Hrun & Hinv').
  replace (numProcs - Z.of_nat (Z.to_nat numProcs)) with 0 in Hrun, Hinv' by lia.
  rewrite range_0 in Hrun. exists w. split; [assumption|].
  destruct Hinv' as (Hlen & Hnet & Hprocs). split; [assumption|]. split.
  - rewrite pending_last by lia. rewrite Hnet.
    destruct (pending_receiver 0 s Hs) as [_ H0]; [now rewrite Z.mod_0_l by lia | exact H0].
  - intros q p Hq. specialize (Hprocs q p Hq).
    pose proof (rd_range _ _ _ Hq).
    destruct (Z.ltb_spec q 0), (Z.ltb_spec q numProcs); try lia. assumption.
Qed.

(** *** The rounds *)

Lemma forallb_const {X} (f : X -> bool) (l : list X) (b : bool) :
  l <> [] -> (forall x, In x l -> f x = b) -> forallb f l = b.
Proof.
  intros Hne Hf. destruct l as [|x l]; [contradiction|]. clear Hne.
  revert x Hf. induction l as [|y l IH]; intros x Hf; cbn [forallb].
  - rewrite andb_true_r. apply Hf. now left.
  - rewrite (Hf x (or_introl eq_refl)). destruct b; cbn [andb]; [|reflexivity].
    apply IH. intros z Hz. apply Hf. now right.
Qed.

Lemma running_test s w :
  round_inv N nb numProcs s A numProcs w ->
  forallb (fun p => negb (parallel_kruskal_running numProcs N p)) (w_procs w)
  = negb (s * nb <? N).
Proof.
  intros (Hlen & _ & Hprocs). apply forallb_const.
  - intros Hnil. rewrite Hnil in Hlen. cbn in Hlen. lia.
  - intros p Hp. apply In_nth_error in Hp. destruct Hp as [n Hn].
    assert (Hrd : rd (w_procs w) (Z.of_nat n) = Some p)
      by (apply rd_Some; split; [lia | now rewrite Nat2Z.id]).
    specialize (Hprocs _ _ Hrd). pose proof (rd_range _ _ _ Hrd).
    destruct (Z.ltb_spec (Z.of_nat n) numProcs); [|lia].
    destruct Hprocs as (Hstep & _).
    unfold parallel_kruskal_running. now rewrite Hstep, <- Hnb.
Qed.

Lemma run_rounds_spec (fuel : nat) : forall s w,
  1 <= s -> N - s <= Z.of_nat fuel ->
  round_inv N nb numProcs s A numProcs w ->
  exists s' w',
    run_rounds fuel numProcs adjs N M w = Some w'
    /\ 1 <= s' /\ N <= s' * nb
    /\ round_inv N nb numProcs s' A numProcs w'.
Proof.
  pose proof (nb_pos N numProcs HN1 HP nb Hnb) as Hnbp.
  induction fuel as [|fuel IH]; intros s w Hs Hfuel Hinv.
  - exists s, w. cbn [run_rounds]. rewrite (running_test s w Hinv).
    assert (HsN : N <= s) by lia.
    destruct (Z.ltb_spec (s * nb) N); [nia|]. cbn [negb].
    split; [reflexivity|]. split; [assumption|]. split; [lia | assumption].
  - cbn [run_rounds]. rewrite (running_test s w Hinv).
    destruct (Z.ltb_spec (s * nb) N) as [Hrun|Hstop]; cbn [negb].
    + destruct (run_round_spec s w Hs Hinv) as (w1 & Hround & Hinv1).
      rewrite Hround. apply (IH (2 * s) w1); [lia | lia | assumption].
    + exists s, w. split; [reflexivity|]. split; [assumption|]. split; [lia | assumption].
Qed.

(** Lines 332-336 on every rank. *)
Lemma init_procs_spec (rs : list Z) :
  (forall r, In r rs -> 0 <= r < numProcs) ->
  exists procs,
    init_procs numProcs adjs N rs = Some procs
    /\ length procs = length rs
    /\ forall i r p, nth_error rs i = Some r -> nth_error procs i = Some p ->
         pk_inv N nb A 1 r p.
Proof.
  induction rs as [|r rs IH]; intros Hrs.
  - exists []. split; [reflexivity|]. split; [reflexivity|]. intros [|i] r p H; discriminate.
  - cbn [init_procs]. unfold parallel_kruskal_init. rewrite <- Hnb.
    rewrite create_forest_spec by (apply Hrs; now left). cbn [fst snd].
    destruct IH as (procs & Hinit & Hlen & Hnth). { intros; apply Hrs; now right. }
    rewrite Hinit. eexists. split; [reflexivity|]. split; [cbn [length]; congruence|].
    intros [|i] r' p Hi Hp; cbn [nth_error] in Hi, Hp; [|eapply Hnth; eassumption].
    injection Hi as <-. injection Hp as <-.
    unfold pk_inv. cbn [p_stepSize p_rank p_receiver p_forest p_forestSize].
    rewrite Z.div_1_r, Z.mod_1_r. cbn [Z.eqb]. repeat split.
    intros _. eexists. split; reflexivity.
Qed.

Lemma init_world :
  exists procs,
    init_procs numProcs adjs N (iota numProcs) = Some procs
    /\ round_inv N nb numProcs 1 A numProcs (mkWorld procs []).
Proof.
  destruct (init_procs_spec (iota numProcs)) as (procs & Hinit & Hlen & Hnth).
  { intros r Hr. now apply In_iota in Hr. }
  exists procs. split; [assumption|]. split; [|split].
  - cbn [w_procs]. rewrite Hlen, length_iota. lia.
  - cbn [w_net]. now rewrite pending_last.
  - cbn [w_procs]. intros q p Hq.
    assert (Hr : 0 <= q < numProcs).
    { apply rd_range in Hq. rewrite Hlen, length_iota in Hq. lia. }
    destruct (Z.ltb_spec q numProcs); [|lia].
    pose proof (rd_iota numProcs q Hr) as Hi. apply rd_Some in Hi. destruct Hi as [_ Hi].
    apply rd_Some in Hq. destruct Hq as [_ Hq].
    exact (Hnth _ q p Hi Hq).
Qed.

(** Parallel Kruskal leaves in [tree] the forest of all the blocks. *)
Lemma parallel_kruskal_run (tree : list Edge) :
  N - 1 <= Z.of_nat (length tree) ->
  exists s,
    1 <= s /\ N <= s * nb
    /\ parallel_kruskal numProcs adjs N M tree
       = Some (kruskal_forest N (group_edges N A nb 0 s)
               ++ skipn (length (kruskal_forest N (group_edges N A nb 0 s))) tree).
Proof.
  intros Htree. unfold parallel_kruskal.
  destruct init_world as (procs & Hinit & Hinv). rewrite Hinit.
  destruct (run_rounds_spec (Z.to_nat N) 1 (mkWorld procs []) ltac:(lia) ltac:(lia) Hinv)
    as (s & w & Hrun & Hs & HsN & Hlen & _ & Hprocs).
  rewrite Hrun. exists s. split; [assumption|]. split; [assumption|].
  destruct (rd_in_range (w_procs w) 0 ltac:(lia)) as [p0 Hp0]. rewrite Hp0.
  specialize (Hprocs 0 p0 Hp0). destruct (Z.ltb_spec 0 numProcs); [|lia].
  destruct Hprocs as (_ & _ & _ & Hforest).
  destruct (Hforest ltac:(now rewrite Z.mod_0_l by lia)) as (rest & Hf & Hsize).
  unfold parallel_kruskal_finish. cbn [Z.eqb]. rewrite Hf, Hsize.
  set (F := kruskal_forest N (group_edges N A nb 0 s)).
  assert (HF : Z.of_nat (length F) <= N - 1).
  { apply (kruskal_forest_bound N HNmax (range (0 * nb) (Z.min ((0 + s) * nb) N)));
      [|apply group_NoDup|apply group_vertices| |lia].
    - apply (group_valid N numProcs A HN1 HP Hadj nb Hnb). lia.
    - rewrite length_range. lia. }
  unfold memcpy_edges.
  destruct (Z.leb_spec 0 (Z.of_nat (length F))); [|lia].
  destruct (Z.leb_spec (Z.of_nat (length F)) (Z.of_nat (length (F ++ rest)))) as [_|Hc];
    [|rewrite length_app in Hc; lia].
  destruct (Z.leb_spec (Z.of_nat (length F)) (Z.of_nat (length tree))); [|lia].
  cbn [andb]. rewrite Nat2Z.id, firstn_exact by reflexivity. reflexivity.
Qed.

End Steps.

(** Sequential Kruskal leaves in [tree] the forest of the whole graph. *)
Lemma sequential_kruskal_forest (N M : Z) (A : Adj) (tree : list Edge) :
  N <= INT_MAX + 1 -> adjacency N A ->
  Z.of_nat (length (upper_edges N A)) <= M ->
  N - 1 <= Z.of_nat (length tree) ->
  sequential_kruskal N M A tree
  = Some (kruskal_forest N (upper_edges N A)
          ++ skipn (length (kruskal_forest N (upper_edges N A))) tree,
          Z.of_nat (length (kruskal_forest N (upper_edges N A)))).
Proof.
  intros HNmax Hadj HM Hcap.
  destruct (sequential_kruskal_run N M A tree Hadj HM Hcap) as (_ & _ & out & Hseq & Hg).
  apply greedy_skip_loops in Hg;
    [|apply Forall_forall; intros e He; apply repeat_spec in He; now subst].
  assert (out = kruskal_forest N (upper_edges N A)).
  { apply (msf_unique (upper_edges N A)).
    - apply (msf_ext (sort_edges (upper_edges N A))); [apply sort_edges_In|].
      apply greedy_msf; [|assumption].
      apply (sort_edges_sorted N HNmax); [now apply upper_edges_valid | apply upper_edges_NoDup].
    - apply (kruskal_forest_msf N HNmax); [now apply upper_edges_valid | apply upper_edges_NoDup]. }
  now subst out.
Qed.


(** ** Parallel Kruskal and sequential Kruskal *)

(** The forest of all the blocks is the forest of the upper triangle. *)
Lemma full_group_forest N numProcs A s :
  1 <= N -> N <= INT_MAX + 1 -> 1 <= numProcs ->
  adjacency N A -> symmetric N A -> N <= s * ceil_div N numProcs ->
  kruskal_forest N (group_edges N A (ceil_div N numProcs) 0 s)
  = kruskal_forest N (upper_edges N A).
Proof.
  intros HN1 HNmax HP Hadj Hsym Hs.
  apply (msf_unique (upper_edges N A)).
  - apply (msf_ext (group_edges N A (ceil_div N numProcs) 0 s)).
    + apply (group_full N numProcs A HN1 HP Hsym _ eq_refl s Hs).
    + apply (group_forest_msf N numProcs A HN1 HNmax HP Hadj _ eq_refl). lia.
  - apply (kruskal_forest_msf N HNmax); [now apply upper_edges_valid | apply upper_edges_NoDup].
Qed.

(** C1 (amended).  On a graph of the data model (a symmetric matrix of
    non-negative [int] weights with at most [M] edges), when every rank
    holds the rows of the matrix from the first row of its own block on,
    parallel Kruskal leaves on rank 0 the array that sequential Kruskal
    produces on the same input: the same edges in the same order, whatever
    the number of processes. *)
Theorem parallel_kruskal_equals_sequential
  (N M : Z) (A : Adj) (tree : list Edge) :
  1 <= N -> N <= INT_MAX + 1 ->
  adjacency N A -> symmetric N A ->
  Z.of_nat (length (upper_edges N A)) <= M ->
  N - 1 <= Z.of_nat (length tree) ->
  exists out n,
    sequential_kruskal N M A tree = Some (out, n)
    /\ forall numProcs, 1 <= numProcs ->
         parallel_kruskal numProcs (row_blocks N numProcs A) N M tree = Some out.
Proof.
  intros HN1 HNmax Hadj Hsym HM Htree.
  eexists. eexists.
  split; [apply sequential_kruskal_forest; assumption|].
  intros numProcs HP.
  destruct (parallel_kruskal_run N numProcs M A (row_blocks N numProcs A)
              HN1 HNmax HP Hadj Hsym (ceil_div N numProcs) eq_refl) with (tree := tree)
    as (s & Hs & HsN & Hpar); try assumption.
  - intros r Hr. apply own_rows_row_blocks; [assumption | lia | lia].
  - rewrite Hpar. now rewrite full_group_forest.
Qed.

Lemma parallel_kruskal_equals_sequential_witness :
  exists out n,
    sequential_kruskal 3 3 [0; 1; 4; 1; 0; 2; 4; 2; 0] (calloc_edges 2) = Some (out, n)
    /\ forall numProcs, 1 <= numProcs ->
         parallel_kruskal numProcs (row_blocks 3 numProcs [0; 1; 4; 1; 0; 2; 4; 2; 0]) 3 3
           (calloc_edges 2) = Some out.
Proof.
  apply (parallel_kruskal_equals_sequential 3 3 [0; 1; 4; 1; 0; 2; 4; 2; 0]
           (calloc_edges 2)).
  - lia.
  - unfold INT_MAX. lia.
  - split; [lia|]. split; [reflexivity|].
    intros a Ha. unfold INT_MAX. simpl in Ha.
    repeat (destruct Ha as [<-|Ha]; [lia|]). contradiction.
  - intros i j Hi Hj.
    assert (Ei : i = 0 \/ i = 1 \/ i = 2) by lia.
    assert (Ej : j = 0 \/ j = 1 \/ j = 2) by lia.
    destruct Ei as [->|[->| ->]], Ej as [->|[->| ->]]; reflexivity.
  - simpl. lia.
  - simpl. lia.
Defined.

(** C1 as stated fails when every rank holds the whole matrix: on the
    connected graph with the vertices 0 and 1 and two processes, rank 1
    reads row 0 in place of its own row 1 and finds no edge towards the
    block of rank 0; rank 0 ends with an empty forest, while sequential
    Kruskal finds the edge. *)
Lemma parallel_kruskal_replicated_differs :
  adjacency 2 [0; 1; 1; 0] /\ symmetric 2 [0; 1; 1; 0] /\ connected 2 [0; 1; 1; 0]
  /\ sequential_kruskal 2 1 [0; 1; 1; 0] (calloc_edges 1) = Some ([mkEdge 0 1 1], 1)
  /\ parallel_kruskal 2 (replicated [0; 1; 1; 0]) 2 1 (calloc_edges 1) = Some [zero_edge].
Proof.
  split; [|split; [|split; [|split]]].
  - split; [lia|]. split; [reflexivity|].
    intros a Ha. unfold INT_MAX. simpl in Ha.
    repeat (destruct Ha as [<-|Ha]; [lia|]). contradiction.
  - intros i j Hi Hj.
    assert (Ei : i = 0 \/ i = 1) by lia.
    assert (Ej : j = 0 \/ j = 1) by lia.
    destruct Ei as [->| ->], Ej as [->| ->]; reflexivity.
  - split; [lia|]. intros v Hv.
    assert (Ev : v = 0 \/ v = 1) by lia.
    destruct Ev as [->| ->].
    + apply reach_refl.
    + apply (reach_step 2 _ 0 0 1); [apply reach_refl | lia | discriminate].
  - vm_compute. reflexivity.
  - vm_compute. reflexivity.
Qed.


(** ** The binary heap *)

Lemma INT_MAX_bound : INT_MAX + 1 <= INT_MAX + 1.
Proof. lia. Qed.

Lemma edge_le_iff a b :
  model_edge a -> model_edge b -> (edge_le a b <-> edge_lt a b \/ a = b).
Proof.
  intros Ha Hb. unfold edge_le.
  pose proof (cmp_edges_neg _ a b INT_MAX_bound Ha Hb) as H1.
  pose proof (cmp_edges_zero _ a b INT_MAX_bound Ha Hb) as H2.
  split.
  - intros H. destruct (Z.eq_dec (cmp_edges a b) 0) as [H0|H0].
    + right. now apply H2.
    + left. apply H1. lia.
  - intros [H| H]; [apply H1 in H; lia | apply H2 in H; lia].
Qed.

Lemma edge_le_refl a : model_edge a -> edge_le a a.
Proof. intros Ha. apply edge_le_iff; auto. Qed.

Lemma edge_le_trans a b c :
  model_edge a -> model_edge b -> model_edge c ->
  edge_le a b -> edge_le b c -> edge_le a c.
Proof.
  intros Ha Hb Hc H1 H2.
  apply edge_le_iff in H1, H2; auto. apply edge_le_iff; auto.
  destruct H1 as [H1| ->], H2 as [H2| ->]; auto.
  left. eapply edge_lt_trans; eauto.
Qed.

Lemma cmp_pos_le a b : model_edge a -> model_edge b -> cmp_edges a b > 0 -> edge_le b a.
Proof.
  intros Ha Hb H. apply edge_le_iff; auto. left.
  now apply (cmp_edges_pos _ a b INT_MAX_bound Ha Hb).
Qed.

Lemma cmp_not_neg_le a b :
  model_edge a -> model_edge b -> ~ cmp_edges a b < 0 -> edge_le b a.
Proof.
  intros Ha Hb H. apply edge_le_iff; auto.
  destruct (edge_lt_total a b) as [Hl|[->|Hl]]; auto.
  exfalso. apply H. now apply (cmp_edges_neg _ a b INT_MAX_bound Ha Hb).
Qed.

Lemma cmp_neg_le a b : cmp_edges a b < 0 -> edge_le a b.
Proof. unfold edge_le. lia. Qed.

Lemma rd_at_slot d k : 0 <= k < Z.of_nat (length d) -> rd d k = Some (at_slot d k).
Proof. intros H. unfold at_slot. destruct (rd_in_range d k H) as [e ->]. reflexivity. Qed.

Lemma at_slot_wr_same d k x d' : wr d k x = Some d' -> at_slot d' k = x.
Proof. intros H. unfold at_slot. now rewrite (rd_wr_same _ _ _ _ H). Qed.

Lemma at_slot_wr_other d k x d' m : wr d k x = Some d' -> m <> k -> at_slot d' m = at_slot d m.
Proof. intros H Hm. unfold at_slot. now rewrite (rd_wr_other _ _ _ _ _ H Hm). Qed.

Lemma perm_upd1 {A} (t : list A) b x y :
  nth_error t b = Some y -> Permutation (y :: upd t b x) (x :: t).
Proof.
  revert b. induction t as [|h t IH]; intros [|b] H; simpl in *; try discriminate.
  - inversion H; subst. apply perm_swap.
  - rewrite perm_swap. rewrite (IH b H). apply perm_swap.
Qed.

Lemma perm_upd2 {A} (l : list A) a b x y :
  nth_error l a = Some x -> nth_error l b = Some y ->
  Permutation (upd (upd l a y) b x) l.
Proof.
  revert a b. induction l as [|h t IH]; intros [|a] [|b] Ha Hb; simpl in *;
    try discriminate.
  - inversion Ha; inversion Hb; subst. reflexivity.
  - inversion Ha; subst. now apply perm_upd1.
  - inversion Hb; subst. now apply perm_upd1.
  - constructor. now apply IH.
Qed.

Lemma swap_edges_spec d a b :
  0 <= a < Z.of_nat (length d) -> 0 <= b < Z.of_nat (length d) ->
  exists d', swap_edges d a b = Some d'
    /\ length d' = length d
    /\ at_slot d' a = at_slot d b
    /\ at_slot d' b = at_slot d a
    /\ (forall k, k <> a -> k <> b -> at_slot d' k = at_slot d k)
    /\ Permutation d' d.
Proof.
  intros Ha Hb. unfold swap_edges.
  rewrite (rd_at_slot d a Ha), (rd_at_slot d b Hb).
  destruct (wr d a (at_slot d b)) as [d1|] eqn:H1;
    [|rewrite wr_in_range in H1 by assumption; discriminate].
  pose proof (wr_length _ _ _ _ H1) as Hl1.
  destruct (wr d1 b (at_slot d a)) as [d2|] eqn:H2;
    [|rewrite wr_in_range in H2 by lia; discriminate].
  exists d2. split; [reflexivity|].
  split; [rewrite (wr_length _ _ _ _ H2); assumption|].
  split; [|split; [|split]].
  - destruct (Z.eq_dec a b) as [->|Hab].
    + rewrite (at_slot_wr_same _ _ _ _ H2). reflexivity.
    + rewrite (at_slot_wr_other _ _ _ _ a H2) by assumption.
      apply (at_slot_wr_same _ _ _ _ H1).
  - apply (at_slot_wr_same _ _ _ _ H2).
  - intros k Hka Hkb. rewrite (at_slot_wr_other _ _ _ _ k H2) by assumption.
    apply (at_slot_wr_other _ _ _ _ k H1). assumption.
  - apply wr_Some in H1, H2. destruct H1 as [_ ->], H2 as [_ ->].
    apply perm_upd2.
    + pose proof (rd_at_slot d a Ha) as E. apply rd_Some in E. tauto.
    + pose proof (rd_at_slot d b Hb) as E. apply rd_Some in E. tauto.
Qed.

Lemma father_spec k : 0 <= k -> 2 * father k <= k <= 2 * father k + 1.
Proof.
  intros H. unfold father. rewrite Z.quot_div_nonneg by lia.
  pose proof (Z.div_mod k 2 ltac:(lia)). pose proof (Z.mod_pos_bound k 2 ltac:(lia)). lia.
Qed.

(** *** [add_edge] *)

Lemma sift_up_spec (fuel : nat) (d : list Edge) (cur_end node : Z) :
  slots_ok d cur_end -> 1 <= node < cur_end -> (Z.to_nat node <= fuel)%nat ->
  (forall k, 2 <= k < cur_end -> k <> node -> ordered_at d k) ->
  (forall k, 2 <= k < cur_end -> father k = node -> 2 <= node ->
     edge_le (at_slot d (father node)) (at_slot d k)) ->
  exists d', sift_up fuel d node = Some d'
    /\ slots_ok d' cur_end
    /\ length d' = length d
    /\ (forall k, 2 <= k < cur_end -> ordered_at d' k)
    /\ (forall k, cur_end <= k -> at_slot d' k = at_slot d k)
    /\ at_slot d' 0 = at_slot d 0
    /\ Permutation d' d.
Proof.
  revert d node. induction fuel as [|fuel IH]; intros d node Hok Hnode Hfuel Hord Hgp.
  - lia.
  - pose proof (father_spec node ltac:(lia)) as Hf.
    cbn [sift_up].
    destruct (Z.eqb_spec (father node) 0) as [Hz|Hnz]; cbn [negb].
    + (* node = 1 *)
      exists d. split; [reflexivity|]. split; [assumption|]. split; [reflexivity|].
      split; [|repeat split; reflexivity]. intros k Hk. apply Hord; lia.
    + destruct Hok as [Hlen Hval].
      rewrite (rd_at_slot d (father node)) by lia.
      rewrite (rd_at_slot d node) by lia.
      destruct (Z.gtb_spec (cmp_edges (at_slot d (father node)) (at_slot d node)) 0)
        as [Hgt|Hle].
      * destruct (swap_edges_spec d (father node) node)
          as (d1 & Hsw & Hl1 & Hsf & Hsn & Hso & Hp1); try lia.
        rewrite Hsw.
        assert (Hle' : edge_le (at_slot d node) (at_slot d (father node))).
        { apply cmp_pos_le; [apply Hval; lia | apply Hval; lia | lia]. }
        assert (Hval1 : forall k, 1 <= k < cur_end -> model_edge (at_slot d1 k)).
        { intros k Hk. destruct (Z.eq_dec k (father node)) as [->|Hk1].
          - rewrite Hsf. apply Hval. lia.
          - destruct (Z.eq_dec k node) as [->|Hk2].
            + rewrite Hsn. apply Hval. lia.
            + rewrite Hso by assumption. now apply Hval. }
        destruct (IH d1 (father node)) as (d' & Hsu & Hok' & Hl' & Hord' & Hout & H0 & Hp');
          try lia.
        { split; [lia | exact Hval1]. }
        { (* order away from the new position *)
          intros k Hk Hkf. unfold ordered_at.
          pose proof (father_spec k ltac:(lia)) as Hfk.
          destruct (Z.eq_dec k node) as [->|Hkn].
          - rewrite Hsf, Hsn. exact Hle'.
          - rewrite (Hso k) by assumption.
            destruct (Z.eq_dec (father k) node) as [Hfn|Hfn].
            + rewrite Hfn, Hsn. apply Hgp; auto; lia.
            + destruct (Z.eq_dec (father k) (father node)) as [Hff|Hff].
              * rewrite Hff, Hsf.
                apply (edge_le_trans _ (at_slot d (father node)));
                  try (apply Hval; lia); [exact Hle'|].
                rewrite <- Hff. apply Hord; auto.
              * rewrite Hso by assumption. apply Hord; auto. }
        { (* the grandfather of the new position *)
          intros k Hk Hkf Hf2.
          pose proof (father_spec (father node) ltac:(lia)) as Hff.
          pose proof (father_spec k ltac:(lia)) as Hfk.
          rewrite (Hso (father (father node))) by lia.
          destruct (Z.eq_dec k node) as [->|Hkn].
          - rewrite Hsn. apply (Hord (father node)); lia.
          - rewrite Hso by lia.
            apply (edge_le_trans _ (at_slot d (father node)));
              try (apply Hval; lia).
            + apply (Hord (father node)); lia.
            + rewrite <- Hkf. apply Hord; auto. }
        exists d'. split; [exact Hsu|]. split; [exact Hok'|]. split; [lia|].
        split; [exact Hord'|]. split; [|split].
        -- intros k Hk. rewrite Hout by assumption. apply Hso; lia.
        -- rewrite H0. apply Hso; lia.
        -- now rewrite Hp'.
      * exists d. split; [reflexivity|]. split; [split; assumption|]. split; [reflexivity|].
        split; [|repeat split; reflexivity]. intros k Hk.
        destruct (Z.eq_dec k node) as [->|Hkn]; [|now apply Hord].
        unfold ordered_at, edge_le. lia.
Qed.

(** *** [extract_min] *)

Lemma father_child k node : 1 <= k -> father k = node -> k = left node \/ k = right node.
Proof. intros Hk H. pose proof (father_spec k ltac:(lia)). unfold left, right. lia. Qed.

Lemma father_left node : 0 <= node -> father (left node) = node.
Proof.
  intros H. pose proof (father_spec (left node)) as Hf. unfold left in *. lia.
Qed.

Lemma father_right node : 0 <= node -> father (right node) = node.
Proof.
  intros H. pose proof (father_spec (right node)) as Hf. unfold right in *. lia.
Qed.

Lemma sift_down_spec (fuel : nat) (d : list Edge) (cur_end node : Z) :
  slots_ok d cur_end -> 1 <= node -> (Z.to_nat (cur_end - node) <= fuel)%nat ->
  (forall k, 2 <= k < cur_end -> father k <> node -> ordered_at d k) ->
  (2 <= node -> forall k, 2 <= k < cur_end -> father k = node ->
     edge_le (at_slot d (father node)) (at_slot d k)) ->
  exists d', sift_down fuel d cur_end node = Some d'
    /\ slots_ok d' cur_end
    /\ length d' = length d
    /\ (forall k, 2 <= k < cur_end -> ordered_at d' k)
    /\ (forall k, cur_end <= k -> at_slot d' k = at_slot d k)
    /\ at_slot d' 0 = at_slot d 0
    /\ Permutation d' d.
Proof.
  revert d node. induction fuel as [|fuel IH]; intros d node Hok Hnode Hfuel Hord Hgp.
  - (* no fuel: [node] is past the end *)
    exists d. assert (Hout : cur_end <= node) by lia.
    cbn [sift_down]. destruct (Z.ltb_spec (left node) cur_end) as [Hl|_];
      [unfold left in Hl; lia|].
    split; [reflexivity|]. split; [assumption|]. split; [reflexivity|].
    split; [|repeat split; reflexivity].
    intros k Hk. apply Hord; [assumption|]. intros Hf.
    destruct (father_child k node ltac:(lia) Hf); unfold left, right in *; lia.
  - cbn [sift_down]. destruct Hok as [Hlen Hval].
    destruct (Z.ltb_spec (left node) cur_end) as [Hl|Hl].
    + unfold left in Hl.
      rewrite (rd_at_slot d (left node)) by (unfold left; lia).
      set (next := if right node <? cur_end
                   then if cmp_edges (at_slot d (left node)) (at_slot d (right node)) >? 0
                        then right node else left node
                   else left node).
      assert (Enext :
        (if right node <? cur_end then
           do r <- rd d (right node);
           Some (if cmp_edges (at_slot d (left node)) r >? 0 then right node else left node)
         else Some (left node)) = Some next).
      { unfold next. destruct (Z.ltb_spec (right node) cur_end) as [Hr|Hr]; [|reflexivity].
        rewrite (rd_at_slot d (right node)) by (unfold right in *; lia). reflexivity. }
      rewrite Enext.
      assert (Hnext : (next = left node \/ next = right node) /\ next < cur_end
                      /\ edge_le (at_slot d next) (at_slot d (left node))
                      /\ (right node < cur_end ->
                          edge_le (at_slot d next) (at_slot d (right node)))).
      { unfold next. destruct (Z.ltb_spec (right node) cur_end) as [Hr|Hr].
        - unfold right in Hr.
          destruct (Z.gtb_spec (cmp_edges (at_slot d (left node)) (at_slot d (right node))) 0)
            as [Hgt|Hle].
          + split; [now right|]. split; [unfold right; lia|]. split.
            * apply cmp_pos_le; try lia; apply Hval; unfold left, right; lia.
            * intros _. apply edge_le_refl, Hval. unfold right; lia.
          + split; [now left|]. split; [unfold left; lia|]. split.
            * apply edge_le_refl, Hval. unfold left; lia.
            * intros _. unfold edge_le. lia.
        - split; [now left|]. split; [unfold left; lia|]. split.
          + apply edge_le_refl, Hval. unfold left; lia.
          + intros Hr'. lia. }
      destruct Hnext as (Hcase & Hnlt & Hxl & Hxr).
      assert (Hnge : 2 * node <= next <= 2 * node + 1)
        by (destruct Hcase as [-> | ->]; unfold left, right; lia).
      assert (Hfnext : father next = node)
        by (destruct Hcase as [-> | ->]; [apply father_left | apply father_right]; lia).
      rewrite (rd_at_slot d node) by lia.
      rewrite (rd_at_slot d next) by lia.
      assert (Hkids : forall k, 2 <= k < cur_end -> father k = node ->
                edge_le (at_slot d next) (at_slot d k)).
      { intros k Hk Hf. destruct (father_child k node ltac:(lia) Hf) as [-> | ->].
        - exact Hxl.
        - apply Hxr. lia. }
      destruct (Z.ltb_spec (cmp_edges (at_slot d node) (at_slot d next)) 0) as [Hlt|Hge].
      * (* break *)
        exists d. split; [reflexivity|]. split; [split; assumption|]. split; [reflexivity|].
        split; [|repeat split; reflexivity].
        intros k Hk. destruct (Z.eq_dec (father k) node) as [Hf|Hf]; [|now apply Hord].
        unfold ordered_at. rewrite Hf.
        apply (edge_le_trans _ (at_slot d next)); try (apply Hval; lia).
        -- now apply cmp_neg_le.
        -- now apply Hkids.
      * destruct (swap_edges_spec d node next)
          as (d1 & Hsw & Hl1 & Hsn & Hsx & Hso & Hp1); try lia.
        rewrite Hsw.
        assert (Hle' : edge_le (at_slot d next) (at_slot d node)).
        { apply cmp_not_neg_le; [apply Hval; lia | apply Hval; lia | lia]. }
        assert (Hval1 : forall k, 1 <= k < cur_end -> model_edge (at_slot d1 k)).
        { intros k Hk. destruct (Z.eq_dec k node) as [->|Hk1].
          - rewrite Hsn. apply Hval. lia.
          - destruct (Z.eq_dec k next) as [->|Hk2].
            + rewrite Hsx. apply Hval. lia.
            + rewrite Hso by assumption. now apply Hval. }
        destruct (IH d1 next) as (d' & Hsd & Hok' & Hl' & Hord' & Hout & H0 & Hp');
          try lia.
        { split; [lia | exact Hval1]. }
        { intros k Hk Hkf. unfold ordered_at.
          pose proof (father_spec k ltac:(lia)) as Hfk.
          destruct (Z.eq_dec (father k) node) as [Hf|Hf].
          - rewrite Hf, Hsn.
            destruct (Z.eq_dec k next) as [->|Hkx].
            + rewrite Hsx. exact Hle'.
            + rewrite Hso by lia. now apply Hkids.
          - destruct (Z.eq_dec k node) as [->|Hkn].
            + rewrite Hsn. rewrite Hso by lia.
              apply Hgp; lia.
            + assert (k <> next) by congruence.
              rewrite (Hso k) by assumption. rewrite Hso by assumption.
              now apply Hord. }
        { intros _ k Hk Hkf. rewrite Hfnext, Hsn.
          pose proof (father_spec k ltac:(lia)) as Hfk.
          rewrite Hso by lia.
          rewrite <- Hkf. apply Hord; [assumption|lia]. }
        exists d'. split; [exact Hsd|]. split; [exact Hok'|]. split; [lia|].
        split; [exact Hord'|]. split; [|split].
        -- intros k Hk. rewrite Hout by assumption. apply Hso; lia.
        -- rewrite H0. apply Hso; lia.
        -- now rewrite Hp'.
    + exists d. split; [reflexivity|]. split; [split; assumption|]. split; [reflexivity|].
      split; [|repeat split; reflexivity].
      intros k Hk. apply Hord; [assumption|]. intros Hf.
      destruct (father_child k node ltac:(lia) Hf); unfold left, right in *; lia.
Qed.

(** *** The edges in the heap *)

Lemma skipn_ext_at (d d' : list Edge) (c : nat) :
  length d' = length d ->
  (forall k, Z.of_nat c <= k -> at_slot d' k = at_slot d k) ->
  skipn c d' = skipn c d.
Proof.
  intros Hlen H. apply nth_error_ext. intros n. rewrite !nth_error_skipn.
  destruct (Nat.lt_ge_cases (c + n) (length d)) as [Hlt|Hge].
  - specialize (H (Z.of_nat (c + n)) ltac:(lia)).
    pose proof (rd_at_slot d (Z.of_nat (c + n)) ltac:(lia)) as E.
    pose proof (rd_at_slot d' (Z.of_nat (c + n)) ltac:(lia)) as E'.
    apply rd_Some in E, E'. rewrite Nat2Z.id in E, E'.
    destruct E as [_ ->], E' as [_ ->]. now rewrite H.
  - rewrite (proj2 (nth_error_None d (c + n))) by lia.
    apply nth_error_None. lia.
Qed.

Lemma region_perm (d d' : list Edge) (c : Z) :
  Permutation d' d -> length d' = length d ->
  1 <= c <= Z.of_nat (length d) ->
  at_slot d' 0 = at_slot d 0 ->
  (forall k, c <= k -> at_slot d' k = at_slot d k) ->
  Permutation (firstn (Z.to_nat (c - 1)) (skipn 1 d'))
              (firstn (Z.to_nat (c - 1)) (skipn 1 d)).
Proof.
  intros Hp Hlen Hc H0 Hout.
  destruct d as [|x rest]; [simpl in Hc; lia|].
  destruct d' as [|x' rest']; [discriminate|].
  assert (x' = x) by (unfold at_slot, rd in H0; simpl in H0; exact H0). subst x'.
  cbn [skipn].
  assert (HT : skipn (Z.to_nat (c - 1)) rest' = skipn (Z.to_nat (c - 1)) rest).
  { change (skipn (S (Z.to_nat (c - 1))) (x :: rest') = skipn (S (Z.to_nat (c - 1))) (x :: rest)).
    apply skipn_ext_at; [assumption|]. intros k Hk. apply Hout. lia. }
  apply Permutation_cons_inv in Hp.
  assert (Hp2 : Permutation
            (firstn (Z.to_nat (c - 1)) rest' ++ skipn (Z.to_nat (c - 1)) rest')
            (firstn (Z.to_nat (c - 1)) rest ++ skipn (Z.to_nat (c - 1)) rest))
    by (now rewrite !firstn_skipn).
  rewrite HT in Hp2. now apply Permutation_app_inv_r in Hp2.
Qed.

Lemma firstn_snoc {A} (l : list A) n x :
  nth_error l n = Some x -> firstn (S n) l = firstn n l ++ [x].
Proof.
  revert n. induction l as [|h t IH]; intros [|n] H; simpl in *; try discriminate.
  - now inversion H.
  - f_equal. now apply IH.
Qed.

Lemma heap_min d c :
  slots_ok d c -> (forall k, 2 <= k < c -> ordered_at d k) ->
  forall k, 1 <= k < c -> edge_le (at_slot d 1) (at_slot d k).
Proof.
  intros [Hlen Hval] Hord k Hk.
  remember (Z.to_nat k) as n eqn:Hn. revert k Hk Hn.
  induction n as [n IH] using lt_wf_ind. intros k Hk Hn.
  destruct (Z.eq_dec k 1) as [->|Hk1]; [apply edge_le_refl, Hval; lia|].
  pose proof (father_spec k ltac:(lia)) as Hf.
  apply (edge_le_trans _ (at_slot d (father k))); try (apply Hval; lia).
  - apply (IH (Z.to_nat (father k))); lia.
  - apply Hord. lia.
Qed.

Lemma create_heap_inv nbMaxEdges : 0 <= nbMaxEdges -> heap_inv (create_heap nbMaxEdges).
Proof.
  intros H. unfold heap_inv, create_heap, calloc_edges, slots_ok.
  cbn [sizeMax data curEnd]. rewrite repeat_length.
  split; [lia|]. split; [split; [lia|]|]; intros k Hk; lia.
Qed.

Lemma add_edge_spec h e :
  heap_inv h -> curEnd h < sizeMax h -> model_edge e ->
  exists h', add_edge h e = Some h'
    /\ heap_inv h'
    /\ curEnd h' = curEnd h + 1 /\ sizeMax h' = sizeMax h
    /\ Permutation (heap_elems h') (e :: heap_elems h).
Proof.
  intros (Hsz & [Hlen Hval] & Hord) Hcap He. unfold add_edge.
  destruct (wr (data h) (curEnd h) e) as [d1|] eqn:Hw;
    [|rewrite wr_in_range in Hw by lia; discriminate].
  pose proof (wr_length _ _ _ _ Hw) as Hl1.
  assert (Hval1 : forall k, 1 <= k < curEnd h + 1 -> model_edge (at_slot d1 k)).
  { intros k Hk. destruct (Z.eq_dec k (curEnd h)) as [->|Hne].
    - now rewrite (at_slot_wr_same _ _ _ _ Hw).
    - rewrite (at_slot_wr_other _ _ _ _ k Hw) by assumption. apply Hval. lia. }
  destruct (sift_up_spec (Z.to_nat (curEnd h)) d1 (curEnd h + 1) (curEnd h))
    as (d' & Hsu & Hok' & Hl' & Hord' & Hout & H0 & Hp); try lia.
  - split; [lia | exact Hval1].
  - intros k Hk Hne. unfold ordered_at.
    pose proof (father_spec k ltac:(lia)) as Hf.
    rewrite !(at_slot_wr_other _ _ _ _ _ Hw) by lia. apply Hord. lia.
  - intros k Hk Hf. pose proof (father_spec k ltac:(lia)). lia.
  - rewrite Hsu. eexists. split; [reflexivity|].
    cbn [sizeMax curEnd data]. unfold heap_inv. cbn [sizeMax curEnd data].
    split; [split; [lia | split; assumption]|]. split; [reflexivity|]. split; [reflexivity|].
    unfold heap_elems. cbn [curEnd data].
    pose proof (region_perm d1 d' (curEnd h + 1) Hp Hl' ltac:(lia) H0 Hout) as Hr.
    rewrite Hr. apply wr_Some in Hw. destruct Hw as [_ ->].
    replace (Z.to_nat (curEnd h + 1 - 1)) with (S (Z.to_nat (curEnd h - 1))) by lia.
    destruct (data h) as [|x rest] eqn:Hd; [simpl in Hlen; lia|].
    replace (Z.to_nat (curEnd h)) with (S (Z.to_nat (curEnd h - 1))) by lia.
    cbn [upd skipn].
    rewrite (firstn_snoc _ _ e).
    + rewrite firstn_upd_ge by lia. apply Permutation_sym, Permutation_cons_append.
    + apply nth_error_upd_same. cbn [length] in Hlen, Hsz. lia.
Qed.

Lemma extract_min_spec h :
  heap_inv h -> 1 < curEnd h ->
  exists top h', extract_min h = Some (top, h')
    /\ heap_inv h'
    /\ curEnd h' = curEnd h - 1 /\ sizeMax h' = sizeMax h
    /\ Permutation (top :: heap_elems h') (heap_elems h)
    /\ top = at_slot (data h) 1
    /\ forall k, 1 <= k < curEnd h -> edge_le top (at_slot (data h) k).
Proof.
  intros (Hsz & [Hlen Hval] & Hord) Hne. unfold extract_min.
  rewrite (rd_at_slot (data h) 1) by lia.
  destruct (swap_edges_spec (data h) 1 (curEnd h - 1))
    as (d1 & Hsw & Hl1 & Hs1 & Hsc & Hso & Hp1); try lia.
  rewrite Hsw.
  assert (Hval1 : forall k, 1 <= k < curEnd h -> model_edge (at_slot d1 k)).
  { intros k Hk. destruct (Z.eq_dec k 1) as [->|Hk1].
    - rewrite Hs1. apply Hval. lia.
    - destruct (Z.eq_dec k (curEnd h - 1)) as [->|Hk2].
      + rewrite Hsc. apply Hval. lia.
      + rewrite Hso by assumption. now apply Hval. }
  destruct (sift_down_spec (Z.to_nat (curEnd h - 1)) d1 (curEnd h - 1) 1)
    as (d' & Hsd & Hok' & Hl' & Hord' & Hout & H0 & Hp); try lia.
  - split; [lia|]. intros k Hk. apply Hval1. lia.
  - intros k Hk Hf. unfold ordered_at.
    pose proof (father_spec k ltac:(lia)) as Hfk.
    rewrite !Hso by lia. apply Hord. lia.
  - rewrite Hsd. eexists _, _. split; [reflexivity|].
    unfold heap_inv. cbn [sizeMax curEnd data].
    split; [split; [lia | split; assumption]|]. split; [reflexivity|]. split; [reflexivity|].
    split; [|split; [reflexivity|]].
    + unfold heap_elems. cbn [curEnd data].
      pose proof (region_perm d1 d' (curEnd h - 1) Hp Hl' ltac:(lia) H0 Hout) as Hr.
      rewrite Hr.
      assert (Hr1 : Permutation (firstn (Z.to_nat (curEnd h - 1)) (skipn 1 d1))
                                (firstn (Z.to_nat (curEnd h - 1)) (skipn 1 (data h)))).
      { apply region_perm; try assumption; try lia.
        - apply Hso; lia.
        - intros k Hk. apply Hso; lia. }
      rewrite <- Hr1.
      replace (Z.to_nat (curEnd h - 1)) with (S (Z.to_nat (curEnd h - 1 - 1))) by lia.
      rewrite (firstn_snoc _ _ (at_slot (data h) 1)).
      * apply Permutation_cons_append.
      * rewrite nth_error_skipn.
        pose proof (rd_at_slot d1 (curEnd h - 1) ltac:(lia)) as E.
        apply rd_Some in E. destruct E as [_ E]. rewrite Hsc in E.
        rewrite <- E. f_equal. lia.
    + apply heap_min; [split; assumption | assumption].
Qed.

Lemma heap_inv_ordered h : heap_inv h -> heap_ordered h.
Proof.
  intros (Hsz & [Hlen Hval] & Hord) k Hk.
  pose proof (father_spec k ltac:(lia)) as Hf.
  exists (at_slot (data h) (father k)), (at_slot (data h) k).
  split; [apply rd_at_slot; lia|]. split; [apply rd_at_slot; lia|].
  now apply Hord.
Qed.

Lemma reachable_inv h : reachable h -> heap_inv h.
Proof.
  induction 1 as [n Hn | h e h' Hr IH Hcap He Hadd | h e h' Hr IH Hne Hex].
  - now apply create_heap_inv.
  - destruct (add_edge_spec h e IH Hcap He) as (h2 & Hadd2 & Hinv & _). congruence.
  - destruct (extract_min_spec h IH Hne) as (t & h2 & Hex2 & Hinv & _). congruence.
Qed.

(** C7.  Every heap reachable from [create_heap] by [add_edge] (within the
    capacity) and [extract_min] (on a heap that is not empty) has the
    1-indexed min-heap property: the edge of slot [k / 2] is not after the
    edge of slot [k] under [cmp_edges], for every occupied slot [k >= 2].
    On such a heap [add_edge] and [extract_min] return, and the edge that
    [extract_min] returns is the one of slot 1, which is not after any edge
    stored. *)
Theorem reachable_heap_is_ordered_and_extracts_minimum (h : Heap) :
  reachable h ->
  heap_ordered h
  /\ (forall e, curEnd h < sizeMax h -> model_edge e ->
        exists h', add_edge h e = Some h')
  /\ (1 < curEnd h ->
        exists top h', extract_min h = Some (top, h')
          /\ slot h 1 top
          /\ forall k x, slot h k x -> cmp_edges top x <= 0).
Proof.
  intros Hr. pose proof (reachable_inv h Hr) as Hinv.
  split; [now apply heap_inv_ordered|]. split.
  - intros e Hcap He. destruct (add_edge_spec h e Hinv Hcap He) as (h' & H & _). eauto.
  - intros Hne.
    destruct (extract_min_spec h Hinv Hne) as (top & h' & Hex & _ & _ & _ & _ & Htop & Hmin).
    exists top, h'. split; [exact Hex|].
    destruct Hinv as (_ & [Hlen _] & _). split.
    + split; [lia|]. subst top. apply rd_at_slot. lia.
    + intros k x [Hk Hx]. specialize (Hmin k Hk).
      unfold at_slot in Hmin. rewrite Hx in Hmin. exact Hmin.
Qed.

Lemma reachable_heap_is_ordered_and_extracts_minimum_witness :
  heap_ordered (mkHeap 4 3 [zero_edge; mkEdge 0 1 1; mkEdge 0 2 4; zero_edge]).
Proof.
  apply (reachable_heap_is_ordered_and_extracts_minimum
           (mkHeap 4 3 [zero_edge; mkEdge 0 1 1; mkEdge 0 2 4; zero_edge])).
  apply (reachable_add (mkHeap 4 2 [zero_edge; mkEdge 0 2 4; zero_edge; zero_edge])
           (mkEdge 0 1 1)).
  - apply (reachable_add (create_heap 3) (mkEdge 0 2 4)).
    + apply reachable_create. lia.
    + simpl. lia.
    + unfold model_edge, valid_edge, INT_MAX. simpl. lia.
    + reflexivity.
  - simpl. lia.
  - unfold model_edge, valid_edge, INT_MAX. simpl. lia.
  - reflexivity.
Defined.


(** ** Sequential Prim *)

Lemma length_heap_elems h :
  heap_inv h -> Z.of_nat (length (heap_elems h)) = curEnd h - 1.
Proof.
  intros (_ & [Hlen _] & _). unfold heap_elems.
  rewrite length_firstn, length_skipn. lia.
Qed.

Lemma visited_dec iv v : 0 <= v < Z.of_nat (length iv) ->
  (rd iv v = Some 0 /\ ~ visited iv v) \/ visited iv v.
Proof.
  intros H. destruct (rd_in_range iv v H) as [x Hx].
  destruct (Z.eq_dec x 0) as [->|Hne].
  - left. split; [assumption|]. intros (y & Hy & Hny). congruence.
  - right. exists x. auto.
Qed.

Lemma visited_wr iv node iv' x :
  wr iv node 1 = Some iv' -> (visited iv' x <-> visited iv x \/ x = node).
Proof.
  intros Hw. unfold visited. destruct (Z.eq_dec x node) as [->|Hne].
  - rewrite (rd_wr_same _ _ _ _ Hw). split; [auto|]. intros _. exists 1. split; [reflexivity | lia].
  - rewrite (rd_wr_other _ _ _ _ x Hw Hne). tauto.
Qed.

Lemma count_filter_upd (l : list Z) n :
  nth_error l n = Some 0 ->
  length (filter (fun x => negb (x =? 0)) (upd l n 1))
  = S (length (filter (fun x => negb (x =? 0)) l)).
Proof.
  revert n. induction l as [|h t IH]; intros [|n] H; simpl in *; try discriminate.
  - inversion H; subst. reflexivity.
  - destruct (negb (h =? 0)); simpl; rewrite (IH n H); reflexivity.
Qed.

Lemma count_visited_wr iv node iv' :
  rd iv node = Some 0 -> wr iv node 1 = Some iv' ->
  count_visited iv' = count_visited iv + 1.
Proof.
  intros Hr Hw. apply wr_Some in Hw. destruct Hw as [_ ->].
  apply rd_Some in Hr. destruct Hr as [_ Hr].
  unfold count_visited. rewrite (count_filter_upd _ _ Hr). lia.
Qed.

Lemma count_visited_le iv : count_visited iv <= Z.of_nat (length iv).
Proof. unfold count_visited. pose proof (filter_length_le (fun x => negb (x =? 0)) iv). lia. Qed.

Lemma count_filter_lt (l : list Z) n :
  nth_error l n = Some 0 ->
  (length (filter (fun x : Z => negb (Z.eqb x 0)) l) < length l)%nat.
Proof.
  revert n. induction l as [|h t IH]; intros [|n] H; simpl in *; try discriminate.
  - inversion H; subst. simpl.
    pose proof (filter_length_le (fun x => negb (x =? 0)) t). lia.
  - specialize (IH n H). destruct (negb (h =? 0)); simpl; lia.
Qed.

Lemma count_visited_lt iv v : rd iv v = Some 0 -> count_visited iv < Z.of_nat (length iv).
Proof.
  intros H. apply rd_Some in H. destruct H as [_ H].
  unfold count_visited. pose proof (count_filter_lt _ _ H). lia.
Qed.

Lemma count_visited_pos iv v : visited iv v -> 1 <= count_visited iv.
Proof.
  intros (x & Hx & Hne). apply rd_In in Hx. unfold count_visited.
  assert (Hin : In x (filter (fun x => negb (x =? 0)) iv)).
  { apply filter_In. split; [assumption|]. now apply negb_true_iff, Z.eqb_neq. }
  destruct (filter (fun x => negb (x =? 0)) iv); [contradiction | simpl; lia].
Qed.

Lemma count_visited_all iv :
  (forall v, 0 <= v < Z.of_nat (length iv) -> visited iv v) ->
  count_visited iv = Z.of_nat (length iv).
Proof.
  intros H. unfold count_visited. f_equal.
  rewrite forallb_filter_id; [reflexivity|].
  apply forallb_forall. intros x Hx.
  apply In_nth_error in Hx. destruct Hx as [n Hn].
  assert (Hlt : (n < length iv)%nat) by (apply nth_error_Some; congruence).
  destruct (H (Z.of_nat n) ltac:(lia)) as (y & Hy & Hne).
  apply rd_Some in Hy. rewrite Nat2Z.id in Hy. destruct Hy as [_ Hy].
  assert (x = y) by congruence. subst.
  now apply negb_true_iff, Z.eqb_neq.
Qed.

Lemma init_edge_endpoints u v w :
  (edge_i (init_edge u v w) = u /\ edge_j (init_edge u v w) = v)
  \/ (edge_i (init_edge u v w) = v /\ edge_j (init_edge u v w) = u).
Proof.
  unfold init_edge. cbn.
  destruct (Z.ltb_spec u v), (Z.gtb_spec v u); try lia; auto.
Qed.

Lemma init_edge_weight u v w : edge_w (init_edge u v w) = w.
Proof. reflexivity. Qed.

Lemma init_edge_same_pair u v w u' v' w' :
  init_edge u v w = init_edge u' v' w' ->
  (u = u' /\ v = v') \/ (u = v' /\ v = u').
Proof.
  intros H.
  pose proof (f_equal edge_i H) as Hi. pose proof (f_equal edge_j H) as Hj.
  destruct (init_edge_endpoints u v w) as [[A B]|[A B]],
           (init_edge_endpoints u' v' w') as [[C D]|[C D]]; lia.
Qed.

Lemma init_edge_model N u v w :
  N <= INT_MAX + 1 -> 0 <= u < N -> 0 <= v < N -> 0 <= w <= INT_MAX ->
  model_edge (init_edge u v w).
Proof.
  intros HN Hu Hv Hw. unfold model_edge, valid_edge.
  rewrite init_edge_weight.
  destruct (init_edge_endpoints u v w) as [[A B]|[A B]]; rewrite A, B; lia.
Qed.

Lemma entry_range N adj u v :
  adjacency N adj -> 0 <= entry N adj u v <= INT_MAX.
Proof.
  intros (_ & _ & Hw). destruct (Z.eq_dec (entry N adj u v) 0) as [->|Hne].
  - unfold INT_MAX. lia.
  - apply Hw. now apply entry_In.
Qed.

(** An edge [u - v] of a symmetric matrix is among the edges of its upper
    triangle. *)
Lemma init_edge_upper N adj u v :
  symmetric N adj -> 0 <= u < N -> 0 <= v < N -> entry N adj u v <> 0 ->
  In (init_edge u v (entry N adj u v)) (upper_edges N adj).
Proof.
  intros Hsym Hu Hv Hne. apply In_upper_edges.
  destruct (Z.le_gt_cases u v) as [Hle|Hgt].
  - exists u, v. rewrite init_edge_le by assumption. repeat split; auto; lia.
  - exists v, u. rewrite init_edge_ge by lia.
    rewrite <- (Hsym u v) by assumption. repeat split; auto; lia.
Qed.

(** *** [add_neighbors] *)

Lemma pushed_edges_cons node N adj iv nb nbs :
  pushed_edges node N adj iv (nb :: nbs)
  = (if negb (entry N adj node nb =? 0)
        && (match rd iv nb with Some v => v =? 0 | None => false end)
     then [init_edge node nb (entry N adj node nb)] else [])
    ++ pushed_edges node N adj iv nbs.
Proof. reflexivity. Qed.

Lemma add_neighbors_loop_spec node N adj iv nbs heap :
  heap_inv heap ->
  (forall nb, In nb nbs ->
     0 <= node * N + nb < Z.of_nat (length adj) /\ 0 <= nb < Z.of_nat (length iv)) ->
  (forall e, In e (pushed_edges node N adj iv nbs) -> model_edge e) ->
  curEnd heap + Z.of_nat (length (pushed_edges node N adj iv nbs)) <= sizeMax heap ->
  exists heap',
    add_neighbors_loop node N adj iv nbs heap = Some heap'
    /\ heap_inv heap' /\ sizeMax heap' = sizeMax heap
    /\ curEnd heap' = curEnd heap + Z.of_nat (length (pushed_edges node N adj iv nbs))
    /\ Permutation (heap_elems heap')
         (pushed_edges node N adj iv nbs ++ heap_elems heap).
Proof.
  revert heap. induction nbs as [|nb nbs IH]; intros heap Hinv Hin Hmod Hcap.
  - exists heap. simpl. rewrite Z.add_0_r. auto.
  - destruct (Hin nb (or_introl eq_refl)) as [Ha Hv].
    cbn [add_neighbors_loop]. rewrite pushed_edges_cons in *.
    rewrite (entry_rd N adj node nb Ha).
    destruct (rd_in_range iv nb Hv) as [x Hx]. rewrite Hx in *.
    destruct (Z.eqb_spec (entry N adj node nb) 0) as [Hz|Hnz]; cbn [negb andb] in *.
    + destruct (IH heap) as (heap' & H1 & H2 & H3 & H4 & H5); auto.
      { intros; apply Hin; now right. }
      exists heap'. cbn [app]. auto.
    + destruct (Z.eqb_spec x 0) as [Hx0|Hx0].
      * cbn [app length] in *.
        destruct (add_edge_spec heap (init_edge node nb (entry N adj node nb)))
          as (h1 & Hadd & Hinv1 & Hce1 & Hsz1 & Hp1); auto; try lia.
        { apply Hmod. now left. }
        rewrite Hadd.
        destruct (IH h1) as (heap' & H1 & H2 & H3 & H4 & H5); auto; try lia.
        { intros; apply Hin; now right. }
        { intros; apply Hmod; now right. }
        exists heap'. split; [exact H1|]. split; [exact H2|]. split; [congruence|].
        split; [lia|]. rewrite H5, Hp1. apply Permutation_sym, Permutation_middle.
      * destruct (IH heap) as (heap' & H1 & H2 & H3 & H4 & H5); auto.
        { intros; apply Hin; now right. }
        exists heap'. cbn [app]. auto.
Qed.

Lemma In_pushed_edges node N adj iv nbs e :
  In e (pushed_edges node N adj iv nbs) <->
  exists nb, In nb nbs /\ entry N adj node nb <> 0 /\ rd iv nb = Some 0
             /\ e = init_edge node nb (entry N adj node nb).
Proof.
  unfold pushed_edges. rewrite in_flat_map. split.
  - intros (nb & Hnb & He). exists nb. split; [assumption|].
    destruct (Z.eqb_spec (entry N adj node nb) 0); cbn [negb andb] in He; [contradiction|].
    destruct (rd iv nb) as [x|]; [|contradiction].
    destruct (Z.eqb_spec x 0); [|contradiction]. subst.
    destruct He as [<-|[]]. auto.
  - intros (nb & Hnb & Hne & Hr & ->). exists nb. split; [assumption|].
    destruct (Z.eqb_spec (entry N adj node nb) 0); [contradiction|]. rewrite Hr.
    cbn. now left.
Qed.

Lemma length_pushed_edges node N adj iv nbs :
  (length (pushed_edges node N adj iv nbs) <= length nbs)%nat.
Proof.
  induction nbs as [|nb nbs IH]; [simpl; lia|].
  rewrite pushed_edges_cons, length_app. cbn [length].
  destruct (negb _ && _); simpl; lia.
Qed.

Lemma length_pushed_edges_lt node N adj iv nbs nb0 x :
  In nb0 nbs -> rd iv nb0 = Some x -> x <> 0 ->
  (length (pushed_edges node N adj iv nbs) < length nbs)%nat.
Proof.
  intros Hin Hr Hx. induction nbs as [|nb nbs IH]; [contradiction|].
  rewrite pushed_edges_cons, length_app. cbn [length].
  destruct (Z.eq_dec nb nb0) as [->|Hne].
  - rewrite Hr. destruct (Z.eqb_spec x 0); [contradiction|].
    rewrite andb_false_r. cbn [length].
    pose proof (length_pushed_edges node N adj iv nbs). lia.
  - destruct Hin as [Hin|Hin]; [contradiction|]. specialize (IH Hin).
    destruct (negb _ && _); simpl; lia.
Qed.

Lemma NoDup_pushed_edges node N adj iv nbs :
  NoDup nbs -> NoDup (pushed_edges node N adj iv nbs).
Proof.
  induction 1 as [|nb nbs Hnin Hnd IH]; [constructor|].
  rewrite pushed_edges_cons.
  destruct (negb _ && _) eqn:E; cbn [app]; [|assumption].
  constructor; [|assumption]. intros Hin. apply In_pushed_edges in Hin.
  destruct Hin as (nb' & Hnb' & _ & Hr' & Heq).
  apply init_edge_same_pair in Heq. destruct Heq as [[_ ->]|[-> ->]]; contradiction.
Qed.

(** *** Visiting a vertex *)

Lemma frontier_elems_upper N M adj iv heap ex e :
  symmetric N adj -> frontier_heap N M adj iv heap ex ->
  In e (heap_elems heap) -> In e (upper_edges N adj).
Proof.
  intros Hsym (_ & _ & _ & Hel & _) He.
  destruct (Hel e He) as (u & v & Hu & Hv & _ & _ & Hne & ->).
  now apply init_edge_upper.
Qed.

Lemma visit_spec N M adj iv heap node :
  N <= INT_MAX + 1 -> adjacency N adj -> symmetric N adj ->
  Z.of_nat (length (upper_edges N adj)) <= M ->
  frontier_heap N M adj iv heap (fun v => v = node) ->
  0 <= node < N -> rd iv node = Some 0 ->
  exists iv' heap',
    wr iv node 1 = Some iv'
    /\ add_neighbors node N adj iv' heap = Some heap'
    /\ frontier_heap N M adj iv' heap' (fun _ => False)
    /\ count_visited iv' = count_visited iv + 1
    /\ curEnd heap' <= curEnd heap + N - 1.
Proof.
  intros HN Hadj Hsym HM Hfr Hnode Hunv.
  pose proof Hfr as (Hlen & Hinv & Hsz & Hel & Hnd & Hcross).
  destruct (wr iv node 1) as [iv'|] eqn:Hw;
    [|rewrite wr_in_range in Hw by lia; discriminate].
  pose proof (wr_length _ _ _ _ Hw) as Hlen'.
  set (pushed := pushed_edges node N adj iv' (iota N)).
  assert (Hnv : ~ visited iv node).
  { intros (x & Hx & Hne). congruence. }
  assert (Hpushed : forall e, In e pushed ->
     exists nb, 0 <= nb < N /\ nb <> node /\ rd iv nb = Some 0
                /\ entry N adj node nb <> 0
                /\ e = init_edge node nb (entry N adj node nb)).
  { intros e He. apply In_pushed_edges in He.
    destruct He as (nb & Hnb & Hne & Hr & ->). apply In_iota in Hnb.
    assert (Hnn : nb <> node).
    { intros ->. rewrite (rd_wr_same _ _ _ _ Hw) in Hr. discriminate. }
    exists nb. repeat split; auto; try lia.
    now rewrite <- (rd_wr_other _ _ _ _ nb Hw Hnn). }
  assert (Hdisj : forall e, In e pushed -> ~ In e (heap_elems heap)).
  { intros e He Hin. destruct (Hpushed e He) as (nb & Hnb & Hnn & Hr & Hne & ->).
    destruct (Hel _ Hin) as (u & v & Hu & Hv & Hvis & Huv & Hne' & Heq).
    apply init_edge_same_pair in Heq.
    destruct Hvis as (x & Hx & Hxne).
    destruct Heq as [[-> ->]|[-> ->]]; congruence. }
  assert (Hndall : NoDup (pushed ++ heap_elems heap)).
  { apply NoDup_app; auto. apply NoDup_pushed_edges, NoDup_iota. }
  assert (Hincl : incl (pushed ++ heap_elems heap) (upper_edges N adj)).
  { intros e He. apply in_app_or in He. destruct He as [He|He].
    - destruct (Hpushed e He) as (nb & Hnb & _ & _ & Hne & ->).
      now apply init_edge_upper.
    - eapply frontier_elems_upper; eauto. }
  pose proof (NoDup_incl_length Hndall Hincl) as Hcount.
  rewrite length_app in Hcount.
  pose proof (length_heap_elems heap Hinv) as Hhe.
  destruct (add_neighbors_loop_spec node N adj iv' (iota N) heap)
    as (heap' & Hadd & Hinv' & Hsz' & Hce' & Hperm); auto.
  { intros nb Hnb. apply In_iota in Hnb. split; [|lia].
    apply adjacency_index; auto. }
  { intros e He. destruct (Hpushed e He) as (nb & Hnb & _ & _ & Hne & ->).
    apply (init_edge_model N); auto. now apply entry_range. }
  { fold pushed. lia. }
  fold pushed in Hce', Hperm.
  exists iv', heap'. split; [reflexivity|]. split; [exact Hadd|].
  split; [|split].
  - split; [lia|]. split; [exact Hinv'|]. split; [congruence|].
    split; [|split].
    + intros e He. apply (Permutation_in _ Hperm) in He.
      apply in_app_or in He. destruct He as [He|He].
      * destruct (Hpushed e He) as (nb & Hnb & Hnn & _ & Hne & ->).
        exists node, nb. repeat split; auto; try lia.
        apply (visited_wr _ _ _ _ Hw). now right.
      * destruct (Hel e He) as (u & v & Hu & Hv & Hvis & Huv & Hne & ->).
        exists u, v. repeat split; auto; try lia.
        apply (visited_wr _ _ _ _ Hw). now left.
    + apply (Permutation_NoDup (Permutation_sym Hperm)). exact Hndall.
    + intros u v Hu Hv Hvis Hnvis _ Hne.
      apply (Permutation_in _ (Permutation_sym Hperm)). apply in_or_app.
      apply (visited_wr _ _ _ _ Hw) in Hvis.
      assert (Hvn : v <> node).
      { intros ->. apply Hnvis. apply (visited_wr _ _ _ _ Hw). now right. }
      assert (Hnvis0 : ~ visited iv v).
      { intros H. apply Hnvis. apply (visited_wr _ _ _ _ Hw). now left. }
      destruct Hvis as [Hvis| ->].
      * right. apply Hcross; auto.
      * left. apply In_pushed_edges. exists v. split; [apply In_iota; lia|].
        split; [assumption|]. split; [|reflexivity].
        destruct (visited_dec iv' v ltac:(lia)) as [[H _]|H]; [assumption | contradiction].
  - now apply (count_visited_wr iv node).
  - pose proof (length_pushed_edges_lt node N adj iv' (iota N) node 1) as Hlp.
    rewrite length_iota in Hlp. fold pushed in Hlp.
    assert (length pushed < Z.to_nat N)%nat.
    { apply Hlp; [apply In_iota; lia | apply (rd_wr_same _ _ _ _ Hw) | lia]. }
    lia.
Qed.

(** *** The loop *)

Lemma prim_measure_nonneg N M adj edges0 s :
  prim_inv N M adj edges0 s -> 0 <= prim_measure N s.
Proof.
  intros ((Hlen & (_ & [Hce _] & _) & _) & _). unfold prim_measure.
  pose proof (count_visited_le (pr_isVisited s)).
  assert (0 <= N * (N - count_visited (pr_isVisited s))) by nia. lia.
Qed.

Lemma skipn_upd_same {A} (l : list A) n x :
  skipn (S n) (upd l n x) = skipn (S n) l.
Proof. apply skipn_upd_lt. lia. Qed.

(** The slots of the heap hold its elements. *)
Lemma heap_elems_slot h x :
  heap_inv h -> In x (heap_elems h) ->
  exists k, 1 <= k < curEnd h /\ at_slot (data h) k = x.
Proof.
  intros (_ & [Hlen _] & _) Hin. unfold heap_elems in Hin.
  apply In_nth_error in Hin. destruct Hin as [n Hn].
  assert (Hlt : (n < Z.to_nat (curEnd h - 1))%nat).
  { assert (H : nth_error (firstn (Z.to_nat (curEnd h - 1)) (skipn 1 (data h))) n <> None)
      by congruence.
    apply nth_error_Some in H. rewrite length_firstn in H. lia. }
  rewrite nth_error_firstn in Hn.
  destruct (Nat.ltb_spec n (Z.to_nat (curEnd h - 1))); [|lia].
  rewrite nth_error_skipn in Hn.
  exists (Z.of_nat (1 + n)). split; [lia|].
  unfold at_slot, rd. destruct (Z.ltb_spec (Z.of_nat (1 + n)) 0); [lia|].
  rewrite Nat2Z.id. now rewrite Hn.
Qed.

Section PrimLoop.

Variables (N M : Z) (adj : Adj) (edges0 : list Edge).
Hypothesis HN : N <= INT_MAX + 1.
Hypothesis Hadj : adjacency N adj.
Hypothesis Hsym : symmetric N adj.
Hypothesis HM : Z.of_nat (length (upper_edges N adj)) <= M.
Hypothesis Hbuf : N - 1 <= Z.of_nat (length edges0).

(** One iteration of the loop of [sequential_prim]: the minimum of the heap
    is discarded when both its endpoints are visited; otherwise it is an
    edge from a visited vertex [u] to a vertex [v] that is not visited, no
    edge between a visited vertex and one that is not visited is lighter,
    the edge is emitted and [v] is visited. *)
Lemma prim_iteration (s : Prim) :
  prim_inv N M adj edges0 s ->
  curEnd (pr_heap s) <> 1 -> pr_curEdge s < N ->
  exists s1,
    (forall fuel, prim_loop (S fuel) N adj s = prim_loop fuel N adj s1)
    /\ prim_inv N M adj edges0 s1
    /\ prim_measure N s1 < prim_measure N s
    /\ ((pr_curEdge s1 = pr_curEdge s /\ pr_isVisited s1 = pr_isVisited s
         /\ pr_edges s1 = pr_edges s)
        \/ exists u v,
             0 <= u < N /\ 0 <= v < N /\ visited (pr_isVisited s) u
             /\ rd (pr_isVisited s) v = Some 0
             /\ entry N adj u v <> 0
             /\ (forall u' v', 0 <= u' < N -> 0 <= v' < N ->
                   visited (pr_isVisited s) u' -> ~ visited (pr_isVisited s) v' ->
                   entry N adj u' v' <> 0 -> entry N adj u v <= entry N adj u' v')
             /\ pr_curEdge s1 = pr_curEdge s + 1
             /\ wr (pr_isVisited s) v 1 = Some (pr_isVisited s1)
             /\ pr_edges s1
                = upd (pr_edges s) (Z.to_nat (pr_curEdge s))
                    (init_edge u v (entry N adj u v))).
Proof.
  intros Hinv Hc1 Hc2.
  assert (Hcond : negb (curEnd (pr_heap s) =? 1) && (pr_curEdge s <? N) = true).
  { apply andb_true_iff. split; [apply negb_true_iff, Z.eqb_neq; assumption|].
    now apply Z.ltb_lt. }
    destruct s as [curEdge iv heap edges]. cbn [pr_curEdge pr_isVisited pr_heap pr_edges] in *.
    destruct Hinv as (Hfr & Hv0 & Hcnt & Hlen & Hskip & Hemit).
    cbn [pr_curEdge pr_isVisited pr_heap pr_edges] in *.
    pose proof Hfr as (Hivlen & Hhinv & Hsz & Hel & Hnd & Hcross).
    pose proof Hhinv as (_ & [Hce Hmodel] & _).
    destruct (extract_min_spec heap Hhinv ltac:(lia))
      as (top & h2 & Hex & Hinv2 & Hce2 & Hsz2 & Hperm & Htop1 & Hmin).
    assert (Htop : In top (heap_elems heap))
      by (apply (Permutation_in _ Hperm); now left).
    destruct (Hel top Htop) as (u & v & Hu & Hv & Hvis & Huv & Hne & Etop).
    assert (Hnd2 : NoDup (top :: heap_elems h2))
      by (apply (Permutation_NoDup (Permutation_sym Hperm)); assumption).
    inversion Hnd2 as [|? ? Hnotin Hnd2']; subst x l.
    assert (Hel2 : forall e, In e (heap_elems h2) -> In e (heap_elems heap))
      by (intros e He; apply (Permutation_in _ Hperm); now right).
    assert (Hends : (edge_i top = u /\ edge_j top = v) \/ (edge_i top = v /\ edge_j top = u))
      by (rewrite Etop; apply init_edge_endpoints).
    assert (Hi_range : 0 <= edge_i top < Z.of_nat (length iv)) by (destruct Hends as [[-> _]|[-> _]]; lia).
    assert (Hj_range : 0 <= edge_j top < Z.of_nat (length iv)) by (destruct Hends as [[_ ->]|[_ ->]]; lia).
    destruct (rd_in_range iv (edge_i top) Hi_range) as [vi Hvi].
    set (node := if vi =? 0 then edge_i top else edge_j top).
    assert (Hnode_range : 0 <= node < Z.of_nat (length iv))
      by (unfold node; destruct (vi =? 0); assumption).
    destruct (rd_in_range iv node Hnode_range) as [vn Hvn].
    assert (Hnode_v : vn = 0 -> node = v).
    { intros ->. destruct Hvis as (x & Hx & Hxne). unfold node in *.
      destruct (Z.eqb_spec vi 0) as [->|Hvi0].
      - destruct Hends as [[A B]|[A B]]; [congruence | assumption].
      - destruct Hends as [[A B]|[A B]]; [assumption | congruence]. }
    assert (Hboth : vn <> 0 -> visited iv u /\ visited iv v).
    { intros Hvn0. split; [assumption|]. unfold node in *.
      destruct (Z.eqb_spec vi 0) as [->|Hvi0].
      - congruence.
      - destruct Hends as [[A B]|[A B]].
        + exists vn. rewrite <- B. auto.
        + exists vi. rewrite <- A. auto. }
    destruct (Z.eqb_spec vn 0) as [Hvn0|Hvn0].
    + (* the edge leads to a new vertex: emit it *)
      subst vn. specialize (Hnode_v eq_refl).
      assert (Hcl : count_visited iv < N) by (rewrite <- Hivlen; eapply count_visited_lt; eauto).
      pose proof (count_visited_pos iv 0 Hv0) as Hc0.
      destruct (visit_spec N M adj iv h2 node)
        as (iv' & heap' & Hw & Hadd & Hfr' & Hcnt' & Hce'); auto; try lia.
      { split; [assumption|]. split; [assumption|]. split; [congruence|].
        split; [|split].
        - intros e He. apply Hel. now apply Hel2.
        - assumption.
        - intros u' v' Hu' Hv' Hvis' Hnvis' Hex' Hne'.
          specialize (Hcross u' v' Hu' Hv' Hvis' Hnvis' (fun f => f) Hne').
          apply (Permutation_in _ (Permutation_sym Hperm)) in Hcross.
          destruct Hcross as [Heq|Hin]; [|assumption].
          exfalso. rewrite Etop in Heq. apply init_edge_same_pair in Heq.
          destruct Heq as [[-> ->]|[-> ->]]; [now apply Hex' | now apply Hnvis']. }
      exists (mkPrim (curEdge + 1) iv' heap' (upd edges (Z.to_nat curEdge) top)).
      split; [|split; [|split]].
      * intros fuel. cbn [prim_loop pr_curEdge pr_isVisited pr_heap pr_edges].
        rewrite Hcond, Hex. cbn [fst snd]. rewrite Hvi. fold node. rewrite Hvn.
        cbn [Z.eqb negb]. rewrite wr_in_range by lia. now rewrite Hw, Hadd.
      * split; [exact Hfr'|]. cbn [pr_curEdge pr_isVisited pr_heap pr_edges].
        split; [apply (visited_wr _ _ _ _ Hw); now left|].
        split; [lia|]. split; [rewrite length_upd; assumption|].
        replace (Z.to_nat (curEdge + 1)) with (S (Z.to_nat curEdge)) by lia.
        split.
        -- rewrite skipn_upd_same.
           apply (f_equal (skipn 1)) in Hskip. rewrite !skipn_skipn in Hskip.
           exact Hskip.
        -- rewrite firstn_S_upd by lia. apply Forall_app. split.
           ++ exact Hemit.
           ++ constructor; [|constructor]. rewrite Etop. now apply init_edge_upper.
      * unfold prim_measure in *. cbn [pr_curEdge pr_isVisited pr_heap pr_edges] in *.
        nia.
      * right. exists u, v. cbn [pr_curEdge pr_isVisited pr_heap pr_edges].
        clearbody node. subst node. rewrite <- Etop.
        split; [assumption|]. split; [lia|]. split; [assumption|].
        split; [assumption|]. split; [assumption|].
        split; [|auto].
        intros u' v' Hu' Hv' Hvis' Hnvis' Hne'.
        specialize (Hcross u' v' Hu' Hv' Hvis' Hnvis' (fun f => f) Hne').
        destruct (heap_elems_slot heap _ Hhinv Hcross) as (k & Hk & Ek).
        destruct (heap_elems_slot heap _ Hhinv Htop) as (k0 & Hk0 & Ek0).
        pose proof (Hmin k Hk) as Hle. rewrite Ek in Hle.
        apply edge_le_iff in Hle;
          [|rewrite <- Ek0; now apply Hmodel|rewrite <- Ek; now apply Hmodel].
        replace (entry N adj u v) with (edge_w top) by (now rewrite Etop).
        replace (entry N adj u' v')
          with (edge_w (init_edge u' v' (entry N adj u' v'))) by reflexivity.
        destruct Hle as [Hlt| ->]; [|lia].
        unfold edge_lt in Hlt. lia.
    + (* both endpoints are visited: discard the edge *)
      destruct (Hboth Hvn0) as [Hvu Hvv].
      pose proof (count_visited_pos iv 0 Hv0) as Hc0.
      exists (mkPrim curEdge iv h2 edges).
      split; [|split; [|split]].
      * intros fuel. cbn [prim_loop pr_curEdge pr_isVisited pr_heap pr_edges].
        rewrite Hcond, Hex. cbn [fst snd]. rewrite Hvi. fold node. rewrite Hvn.
        destruct (Z.eqb_spec vn 0); [contradiction | reflexivity].
      * split; [|cbn [pr_curEdge pr_isVisited pr_heap pr_edges]; auto].
        cbn [pr_curEdge pr_isVisited pr_heap pr_edges].
        split; [assumption|]. split; [assumption|]. split; [congruence|].
        split; [|split].
        -- intros e He. apply Hel. now apply Hel2.
        -- assumption.
        -- intros u' v' Hu' Hv' Hvis' Hnvis' _ Hne'.
           specialize (Hcross u' v' Hu' Hv' Hvis' Hnvis' (fun f => f) Hne').
           apply (Permutation_in _ (Permutation_sym Hperm)) in Hcross.
           destruct Hcross as [Heq|Hin]; [|assumption].
           exfalso. rewrite Etop in Heq. apply init_edge_same_pair in Heq.
           destruct Heq as [[-> ->]|[-> ->]]; now apply Hnvis'.
      * unfold prim_measure in *. cbn [pr_curEdge pr_isVisited pr_heap pr_edges] in *. lia.
      * left. cbn [pr_curEdge pr_isVisited pr_heap pr_edges]. auto.
Qed.

Lemma prim_loop_spec (fuel : nat) (s : Prim) :
  prim_inv N M adj edges0 s ->
  prim_measure N s < Z.of_nat fuel ->
  exists s', prim_loop fuel N adj s = Some s'
    /\ prim_inv N M adj edges0 s'
    /\ (curEnd (pr_heap s') = 1 \/ N <= pr_curEdge s').
Proof.
  revert s. induction fuel as [|fuel IH]; intros s Hinv Hmu.
  - pose proof (prim_measure_nonneg _ _ _ _ _ Hinv). lia.
  - destruct (negb (curEnd (pr_heap s) =? 1) && (pr_curEdge s <? N)) eqn:Hcond.
    2:{ exists s. cbn [prim_loop]. rewrite Hcond.
        split; [reflexivity|]. split; [assumption|].
        apply andb_false_iff in Hcond. destruct Hcond as [Hc|Hc].
        - left. apply negb_false_iff in Hc. now apply Z.eqb_eq.
        - right. apply Z.ltb_ge in Hc. lia. }
    apply andb_true_iff in Hcond. destruct Hcond as [Hc1 Hc2].
    apply negb_true_iff, Z.eqb_neq in Hc1. apply Z.ltb_lt in Hc2.
    destruct (prim_iteration s Hinv Hc1 Hc2) as (s1 & Hstep & Hinv1 & Hmu1 & _).
    rewrite Hstep. apply IH; [assumption | lia].
Qed.

End PrimLoop.

Lemma count_visited_calloc n : count_visited (calloc_int n) = 0.
Proof.
  unfold count_visited, calloc_int. induction (Z.to_nat n) as [|k IH]; simpl; auto.
Qed.

Lemma not_visited_calloc n v : ~ visited (calloc_int n) v.
Proof.
  intros (x & Hx & Hne). apply rd_In in Hx. unfold calloc_int in Hx.
  apply repeat_spec in Hx. contradiction.
Qed.

Lemma rd_calloc_int n v : 0 <= v < n -> rd (calloc_int n) v = Some 0.
Proof.
  intros H. unfold calloc_int.
  destruct (rd_in_range (repeat 0 (Z.to_nat n)) v) as [x Hx];
    [rewrite repeat_length; lia|].
  rewrite Hx. f_equal. apply rd_In in Hx. now apply repeat_spec in Hx.
Qed.


(** ** Parallel Prim *)

(** *** [create_border] *)

Section Border.

Variables (N nbRows procRank : Z) (A adj : Adj).
Hypothesis Hnb : 0 <= nbRows.
Hypothesis Hr : 0 <= procRank.
Hypothesis HN : 1 <= N.
Hypothesis Hown : own_rows N nbRows A adj procRank.

Lemma create_border_loop_break ys border :
  (forall y, In y ys -> N <= procRank * nbRows + y) ->
  create_border_loop procRank nbRows N adj 0 ys border = Some border.
Proof.
  destruct ys as [|y ys]; intros H; [reflexivity|]. cbn [create_border_loop].
  specialize (H y (or_introl eq_refl)).
  destruct (Z.geb_spec (procRank * nbRows + y) N); [reflexivity | lia].
Qed.

Lemma create_border_loop_spec (l1 l2 : list Z) (border : list BorderNode) :
  NoDup l1 ->
  (forall y, In y l1 -> 0 <= y < Z.of_nat (length border) /\ procRank * nbRows + y < N) ->
  (forall y, In y l2 -> N <= procRank * nbRows + y) ->
  exists border',
    create_border_loop procRank nbRows N adj 0 (l1 ++ l2) border = Some border'
    /\ length border' = length border
    /\ (forall y, In y l1 ->
          rd border' y = Some (mkBorder (entry N A (procRank * nbRows + y) 0) 0))
    /\ (forall y, ~ In y l1 -> rd border' y = rd border y).
Proof.
  intros Hnd. revert border. induction Hnd as [|y l1 Hnin Hnd IH]; intros border H1 H2.
  - exists border. cbn [app]. rewrite create_border_loop_break by assumption.
    split; [reflexivity|]. split; [reflexivity|]. split; [intros y []|reflexivity].
  - cbn [app create_border_loop].
    destruct (H1 y (or_introl eq_refl)) as [Hy Hlt].
    destruct (Z.geb_spec (procRank * nbRows + y) N); [lia|].
    destruct (Hown y 0 ltac:(lia) Hlt ltac:(lia)) as [Hidx Hent].
    rewrite (entry_rd N adj y 0 Hidx).
    destruct (rd_in_range border y Hy) as [b Hb]. rewrite Hb.
    destruct (wr border y (mkBorder (entry N adj y 0) (border_z b))) as [b1|] eqn:Hw1;
      [|rewrite wr_in_range in Hw1 by assumption; discriminate].
    rewrite (rd_wr_same _ _ _ _ Hw1). cbn [border_w].
    pose proof (wr_length _ _ _ _ Hw1) as Hl1.
    destruct (wr b1 y (mkBorder (entry N adj y 0) 0)) as [b2|] eqn:Hw2;
      [|rewrite wr_in_range in Hw2 by lia; discriminate].
    pose proof (wr_length _ _ _ _ Hw2) as Hl2.
    destruct (IH b2) as (border' & Hloop & Hlen & Hrows & Hframe).
    + intros y' Hy'. rewrite Hl2, Hl1. apply H1. now right.
    + assumption.
    + exists border'. split; [exact Hloop|]. split; [lia|]. split.
      * intros y' [<-|Hy']; [|now apply Hrows].
        rewrite (Hframe y Hnin), <- Hent. apply (rd_wr_same _ _ _ _ Hw2).
      * intros y' Hy'. rewrite Hframe by (intros Hc; apply Hy'; now right).
        assert (y' <> y) by (intros ->; apply Hy'; now left).
        rewrite (rd_wr_other _ _ _ _ y' Hw2) by assumption.
        now apply (rd_wr_other _ _ _ _ y' Hw1).
Qed.

(** The rows of the block that exist in the graph. *)
Lemma rows_split :
  exists k, 0 <= k <= nbRows
    /\ iota nbRows = iota k ++ range k nbRows
    /\ (forall y, In y (iota k) -> 0 <= y < nbRows /\ procRank * nbRows + y < N)
    /\ (forall y, In y (range k nbRows) -> N <= procRank * nbRows + y)
    /\ (forall y, 0 <= y < nbRows -> procRank * nbRows + y < N -> In y (iota k)).
Proof.
  exists (Z.max 0 (Z.min nbRows (N - procRank * nbRows))).
  split; [lia|]. split; [apply iota_split; lia|]. split; [|split].
  - intros y Hy. apply In_iota in Hy. lia.
  - intros y Hy. apply In_range in Hy. lia.
  - intros y Hy Hlt. apply In_iota. lia.
Qed.

Lemma create_border_spec :
  exists border iv,
    create_border procRank nbRows (calloc_int N) N adj = Some (border, iv)
    /\ wr (calloc_int N) 0 1 = Some iv
    /\ Z.of_nat (length border) = nbRows
    /\ (forall y b, 0 <= y < nbRows -> procRank * nbRows + y < N ->
          rd border y = Some b ->
          border_w b = entry N A (procRank * nbRows + y) 0).
Proof.
  unfold create_border.
  destruct (wr (calloc_int N) 0 1) as [iv|] eqn:Hw;
    [|rewrite wr_in_range in Hw by (unfold calloc_int; rewrite repeat_length; lia);
      discriminate].
  destruct rows_split as (k & Hk & Hsplit & Hvalid & Hinvalid & Hall).
  rewrite Hsplit.
  destruct (create_border_loop_spec (iota k) (range k nbRows)
              (repeat (mkBorder 0 0) (Z.to_nat nbRows)))
    as (border & Hloop & Hlen & Hrows & _).
  - apply NoDup_iota.
  - intros y Hy. rewrite repeat_length. destruct (Hvalid y Hy). lia.
  - assumption.
  - rewrite Hloop. exists border, iv. split; [reflexivity|]. split; [reflexivity|].
    split; [rewrite Hlen, repeat_length; lia|].
    intros y b Hy Hlt Hb. rewrite (Hrows y (Hall y Hy Hlt)) in Hb.
    inversion Hb. reflexivity.
Qed.

End Border.

(** *** [find_closest_border] *)

Section Find.

Variables (N nbRows procRank : Z) (border : list BorderNode) (iv : list Z).

Lemma find_closest_border_loop_break ys yOpt smallest :
  (forall y, In y ys -> N <= procRank * nbRows + y) ->
  find_closest_border_loop procRank N nbRows border iv ys yOpt smallest = Some yOpt.
Proof.
  destruct ys as [|y ys]; intros H; [reflexivity|]. cbn [find_closest_border_loop].
  specialize (H y (or_introl eq_refl)).
  destruct (Z.geb_spec (procRank * nbRows + y) N); [reflexivity | lia].
Qed.

Lemma find_closest_border_loop_spec (l1 l2 : list Z) (yOpt : Z) (smallest : Edge) :
  (forall y, In y l1 ->
     0 <= y < nbRows /\ procRank * nbRows + y < N
     /\ 0 <= y + procRank * nbRows < Z.of_nat (length iv)
     /\ 0 <= y < Z.of_nat (length border)) ->
  (forall y, In y l2 -> N <= procRank * nbRows + y) ->
  exists yres,
    find_closest_border_loop procRank N nbRows border iv (l1 ++ l2) yOpt smallest
      = Some yres
    /\ (yres = yOpt \/ (In yres l1 /\ candidate_row N nbRows procRank border iv yres))
    /\ (yOpt <> -1 -> yres <> -1)
    /\ ((exists y, In y l1 /\ candidate_row N nbRows procRank border iv y) -> yres <> -1).
Proof.
  revert yOpt smallest. induction l1 as [|y l1 IH]; intros yOpt smallest H1 H2.
  - exists yOpt. cbn [app]. rewrite find_closest_border_loop_break by assumption.
    split; [reflexivity|]. split; [now left|]. split; [auto|].
    intros (y & [] & _).
  - cbn [app find_closest_border_loop].
    destruct (H1 y (or_introl eq_refl)) as (Hy & Hlt & Hiv & Hb).
    destruct (Z.geb_spec (procRank * nbRows + y) N); [lia|].
    destruct (rd_in_range iv _ Hiv) as [v Hv]. rewrite Hv.
    assert (H1' : forall y', In y' l1 ->
       0 <= y' < nbRows /\ procRank * nbRows + y' < N
       /\ 0 <= y' + procRank * nbRows < Z.of_nat (length iv)
       /\ 0 <= y' < Z.of_nat (length border))
      by (intros; apply H1; now right).
    destruct (Z.eqb_spec v 0) as [Hv0|Hv0]; cbn [negb].
    + subst v. destruct (rd_in_range border y Hb) as [b Hbd]. rewrite Hbd.
      destruct (negb (border_w b =? 0)
                && ((yOpt =? -1) || (cmp_edges smallest
                      (init_edge (procRank * nbRows + y) (border_z b) (border_w b)) >? 0)))
        eqn:Hcond.
      * apply andb_true_iff in Hcond. destruct Hcond as [Hw _].
        apply negb_true_iff, Z.eqb_neq in Hw.
        destruct (IH y (init_edge (procRank * nbRows + y) (border_z b) (border_w b)) H1' H2)
          as (yres & Hloop & Hres & Hkeep & _).
        exists yres. split; [exact Hloop|].
        assert (Hne : yres <> -1) by (apply Hkeep; lia).
        split; [|split; auto].
        right. destruct Hres as [->|[Hin Hc]].
        -- split; [now left|]. repeat split; auto; try lia. eauto.
        -- split; [now right | assumption].
      * destruct (IH yOpt smallest H1' H2) as (yres & Hloop & Hres & Hkeep & Hex).
        exists yres. split; [exact Hloop|]. split; [|split; [assumption|]].
        -- destruct Hres as [->|[Hin Hc]]; [now left | right; split; [now right | assumption]].
        -- intros (y0 & [<-|Hin] & Hc).
           ++ apply Hkeep. destruct Hc as (_ & _ & _ & b' & Hb' & Hw').
              assert (b' = b) by congruence. subst b'.
              apply andb_false_iff in Hcond. destruct Hcond as [Hc|Hc].
              ** apply negb_false_iff, Z.eqb_eq in Hc. contradiction.
              ** apply orb_false_iff in Hc. destruct Hc as [Hc _].
                 now apply Z.eqb_neq in Hc.
           ++ apply Hex. eauto.
    + destruct (IH yOpt smallest H1' H2) as (yres & Hloop & Hres & Hkeep & Hex).
      exists yres. split; [exact Hloop|]. split; [|split; [assumption|]].
      * destruct Hres as [->|[Hin Hc]]; [now left | right; split; [now right | assumption]].
      * intros (y0 & [<-|Hin] & Hc).
        -- destruct Hc as (_ & _ & Hr0 & _). congruence.
        -- apply Hex. eauto.
Qed.

End Find.

(** *** [select_new_vertex] *)

Lemma select_new_vertex_loop_spec (minEdges : list Z) (Q : Z -> Prop)
  (ids : list Z) (idS : Z) (sm : Edge) :
  (forall id, In id ids ->
     exists e0 e1 e2,
       rd minEdges (id * 3 + 0) = Some e0 /\ rd minEdges (id * 3 + 1) = Some e1
       /\ rd minEdges (id * 3 + 2) = Some e2 /\ (e0 <> -1 -> Q e0)) ->
  exists id' sm',
    select_new_vertex_loop minEdges ids idS sm = Some (id', sm')
    /\ (id' = idS \/ (id' <> -1 /\ Q id'))
    /\ (idS <> -1 -> id' <> -1)
    /\ ((exists id e0, In id ids /\ rd minEdges (id * 3 + 0) = Some e0 /\ e0 <> -1) ->
        id' <> -1).
Proof.
  revert idS sm. induction ids as [|id ids IH]; intros idS sm H.
  - exists idS, sm. split; [reflexivity|]. split; [now left|]. split; [auto|].
    intros (id & e0 & [] & _).
  - cbn [select_new_vertex_loop].
    destruct (H id (or_introl eq_refl)) as (e0 & e1 & e2 & H0 & H1 & H2 & HQ).
    rewrite H0.
    assert (H' : forall id0, In id0 ids ->
       exists e0 e1 e2,
         rd minEdges (id0 * 3 + 0) = Some e0 /\ rd minEdges (id0 * 3 + 1) = Some e1
         /\ rd minEdges (id0 * 3 + 2) = Some e2 /\ (e0 <> -1 -> Q e0))
      by (intros; apply H; now right).
    destruct (Z.eqb_spec e0 (-1)) as [He|He].
    + destruct (IH idS sm H') as (id' & sm' & Hloop & Hres & Hkeep & Hex).
      exists id', sm'. split; [exact Hloop|]. split; [assumption|]. split; [assumption|].
      intros (id0 & x & [<-|Hin] & Hx & Hne); [congruence|]. apply Hex. eauto.
    + rewrite H1, H2.
      destruct ((idS =? -1) || (cmp_edges sm (init_edge e0 e1 e2) >? 0)) eqn:Hcond.
      * destruct (IH e0 (init_edge e0 e1 e2) H') as (id' & sm' & Hloop & Hres & Hkeep & _).
        exists id', sm'. split; [exact Hloop|].
        assert (id' <> -1) by (now apply Hkeep).
        split; [|split; auto].
        right. destruct Hres as [->|Hr]; [split; auto | assumption].
      * destruct (IH idS sm H') as (id' & sm' & Hloop & Hres & Hkeep & Hex).
        exists id', sm'. split; [exact Hloop|]. split; [assumption|]. split; [assumption|].
        intros _. apply Hkeep. apply orb_false_iff in Hcond. destruct Hcond as [Hc _].
        now apply Z.eqb_neq in Hc.
Qed.

(** *** [add_vertex_to_border] *)

Section Update.

Variables (N nbRows procRank newVertex : Z) (A adj : Adj) (iv' : list Z).
Hypothesis Hnb : 0 <= nbRows.
Hypothesis Hr : 0 <= procRank.
Hypothesis Hnew : 0 <= newVertex < N.
Hypothesis Hown : own_rows N nbRows A adj procRank.
Hypothesis Hivlen : Z.of_nat (length iv') = N.

Lemma add_vertex_to_border_loop_break ys border :
  (forall y, In y ys -> N <= procRank * nbRows + y) ->
  add_vertex_to_border_loop procRank N nbRows newVertex adj iv' ys border = Some border.
Proof.
  destruct ys as [|y ys]; intros H; [reflexivity|]. cbn [add_vertex_to_border_loop].
  specialize (H y (or_introl eq_refl)).
  destruct (Z.geb_spec (procRank * nbRows + y) N); [reflexivity | lia].
Qed.

Lemma add_vertex_to_border_loop_spec (l1 l2 : list Z) (border : list BorderNode) :
  NoDup l1 ->
  (forall y, In y l1 -> 0 <= y < Z.of_nat (length border) /\ procRank * nbRows + y < N) ->
  (forall y, In y l2 -> N <= procRank * nbRows + y) ->
  exists border',
    add_vertex_to_border_loop procRank N nbRows newVertex adj iv' (l1 ++ l2) border
      = Some border'
    /\ length border' = length border
    /\ (forall y, ~ In y l1 -> rd border' y = rd border y)
    /\ (forall y b, In y l1 -> rd border y = Some b ->
          exists b', rd border' y = Some b'
            /\ (border_w b <> 0 -> border_w b' <> 0)
            /\ (~ visited iv' (procRank * nbRows + y) ->
                entry N A (procRank * nbRows + y) newVertex <> 0 ->
                border_w b' <> 0)).
Proof.
  intros Hnd. revert border. induction Hnd as [|y l1 Hnin Hnd IH]; intros border H1 H2.
  - exists border. cbn [app]. rewrite add_vertex_to_border_loop_break by assumption.
    split; [reflexivity|]. split; [reflexivity|]. split; [reflexivity|]. intros y b [].
  - cbn [app add_vertex_to_border_loop].
    destruct (H1 y (or_introl eq_refl)) as [Hy Hlt].
    destruct (Z.geb_spec (procRank * nbRows + y) N); [lia|].
    assert (Hvr : 0 <= procRank * nbRows + y < Z.of_nat (length iv')) by nia.
    destruct (rd_in_range iv' _ Hvr) as [v Hv]. rewrite Hv.
    destruct (Hown y newVertex ltac:(lia) Hlt Hnew) as [Hidx Hent].
    destruct (rd_in_range border y Hy) as [b Hb].
    assert (H1' : forall z, forall bd : list BorderNode, length bd = length border ->
              In z l1 -> 0 <= z < Z.of_nat (length bd) /\ procRank * nbRows + z < N)
      by (intros z bd Hl Hz; rewrite Hl; apply H1; now right).
    (* the cases where [border] is left as it is *)
    assert (Hsame :
      (v <> 0 \/ entry N A (procRank * nbRows + y) newVertex = 0 \/ border_w b <> 0) ->
      exists border',
        add_vertex_to_border_loop procRank N nbRows newVertex adj iv' (l1 ++ l2) border
          = Some border'
        /\ length border' = length border
        /\ (forall y0, ~ In y0 (y :: l1) -> rd border' y0 = rd border y0)
        /\ (forall y0 b0, In y0 (y :: l1) -> rd border y0 = Some b0 ->
              exists b', rd border' y0 = Some b'
                /\ (border_w b0 <> 0 -> border_w b' <> 0)
                /\ (~ visited iv' (procRank * nbRows + y0) ->
                    entry N A (procRank * nbRows + y0) newVertex <> 0 ->
                    border_w b' <> 0))).
    { intros Hcase.
      destruct (IH border (fun z => H1' z border eq_refl) H2) as (border' & Hloop & Hlen & Hframe & Hrows).
      exists border'. split; [exact Hloop|]. split; [exact Hlen|]. split.
      - intros y0 Hy0. apply Hframe. intros Hc. apply Hy0. now right.
      - intros y0 b0 [<-|Hin] Hb0; [|now apply Hrows].
        exists b0. rewrite (Hframe y Hnin). split; [assumption|]. split; [auto|].
        intros Hnv Hne. destruct Hcase as [Hc|[Hc|Hc]].
        + exfalso. apply Hnv. exists v. auto.
        + contradiction.
        + congruence. }
    destruct (Z.eqb_spec v 0) as [Hv0|Hv0]; cbn [negb]; [|apply Hsame; auto].
    rewrite (entry_rd N adj y newVertex Hidx). rewrite Hent.
    destruct (Z.eqb_spec (entry N A (procRank * nbRows + y) newVertex) 0) as [Hw0|Hw0];
      [apply Hsame; auto|].
    rewrite Hb.
    destruct ((border_w b =? 0)
              || (cmp_edges (init_edge (border_z b) y (border_w b))
                    (init_edge newVertex y (entry N A (procRank * nbRows + y) newVertex)) >? 0))
      eqn:Hcond.
    + destruct (wr border y (mkBorder (entry N A (procRank * nbRows + y) newVertex) newVertex))
        as [b1|] eqn:Hw1; [|rewrite wr_in_range in Hw1 by assumption; discriminate].
      pose proof (wr_length _ _ _ _ Hw1) as Hl1.
      destruct (IH b1 (fun z => H1' z b1 Hl1) H2) as (border' & Hloop & Hlen & Hframe & Hrows).
      exists border'. split; [exact Hloop|]. split; [lia|]. split.
      * intros y0 Hy0. rewrite Hframe by (intros Hc; apply Hy0; now right).
        apply (rd_wr_other _ _ _ _ y0 Hw1). intros ->. apply Hy0. now left.
      * intros y0 b0 [<-|Hin] Hb0.
        -- eexists. rewrite (Hframe y Hnin). split; [apply (rd_wr_same _ _ _ _ Hw1)|].
           cbn [border_w]. auto.
        -- apply Hrows; [assumption|].
           rewrite (rd_wr_other _ _ _ _ y0 Hw1); [assumption|]. intros ->. contradiction.
    + apply Hsame. right; right. apply orb_false_iff in Hcond. destruct Hcond as [Hc _].
      now apply Z.eqb_neq in Hc.
Qed.

End Update.

(** *** One round of parallel Prim *)

Section Round.

Variables (N numProcs : Z) (A : Adj) (adjs : Z -> Adj).
Hypothesis HN : 1 <= N.
Hypothesis HP : 1 <= numProcs.
Hypothesis Hown : forall r, 0 <= r < numProcs ->
  own_rows N (ceil_div N numProcs) A (adjs r) r.

Lemma nbRows_nonneg : 0 <= ceil_div N numProcs.
Proof. apply ceil_div_nonneg; lia. Qed.

Lemma gather_min_edges_spec (procs : list PrimProc) (iv : list Z) (rs : list Z) :
  Z.of_nat (length iv) = N ->
  (forall r, In r rs -> 0 <= r < Z.of_nat (length procs)) ->
  (forall r p, rd procs r = Some p ->
     pp_isVisited p = iv /\ Z.of_nat (length (pp_border p)) = ceil_div N numProcs) ->
  exists me,
    gather_min_edges numProcs N rs procs = Some me
    /\ forall i r, nth_error rs i = Some r ->
         exists e0 e1 e2,
           nth_error me (3 * i) = Some e0 /\ nth_error me (3 * i + 1) = Some e1
           /\ nth_error me (3 * i + 2) = Some e2 /\ triple_ok N numProcs procs iv r e0.
Proof.
  intros Hiv Hrs Hps. induction rs as [|r rs IH].
  - exists []. split; [reflexivity|]. intros [|i] r H; discriminate.
  - cbn [gather_min_edges].
    destruct (Hrs r (or_introl eq_refl)) as [Hr0 Hr1].
    destruct (rd_in_range procs r (conj Hr0 Hr1)) as [p Hp]. rewrite Hp.
    destruct (Hps r p Hp) as [Hpiv Hpb].
    destruct (rows_split N (ceil_div N numProcs) r nbRows_nonneg Hr0 HN)
      as (k & Hk & Hsplit & Hvalid & Hinvalid & Hall).
    unfold find_closest_border. rewrite Hsplit.
    destruct (find_closest_border_loop_spec N (ceil_div N numProcs) r (pp_border p)
                (pp_isVisited p) (iota k) (range k (ceil_div N numProcs)) (-1) zero_edge)
      as (yres & Hloop & Hres & _ & Hex).
    { intros y Hy. destruct (Hvalid y Hy) as [Hy1 Hy2]. rewrite Hpiv, Hiv, Hpb.
      pose proof nbRows_nonneg. repeat split; try lia; nia. }
    { exact Hinvalid. }
    rewrite Hloop.
    destruct IH as (rest & Hrest & Hnth). { intros; apply Hrs; now right. }
    assert (Hhead : exists e0 e1 e2,
      send_edge_contribution r (pp_border p) (ceil_div N numProcs) yres = Some [e0; e1; e2]
      /\ triple_ok N numProcs procs iv r e0).
    { unfold send_edge_contribution. destruct Hres as [->|[Hin Hc]].
      - cbn. exists (-1), 0, 0. split; [reflexivity|]. split; [congruence|].
        intros (p' & y & Hp' & Hy). exfalso. apply Hex; [|reflexivity].
        assert (p' = p) by congruence. subst p'.
        exists y. rewrite Hpiv. split; [|assumption].
        destruct Hy as (Hy1 & Hy2 & _). now apply Hall.
      - rewrite Hpiv in Hc. destruct Hc as (Hy1 & Hy2 & Hrd & b & Hb & Hw).
        destruct (Z.eqb_spec yres (-1)); [lia|]. cbn [negb]. rewrite Hb.
        exists (yres + r * ceil_div N numProcs), (border_z b), (border_w b).
        split; [reflexivity|]. pose proof nbRows_nonneg.
        assert (0 <= r * ceil_div N numProcs) by nia.
        split; [intros _; split; [lia | assumption] | intros _; lia]. }
    destruct Hhead as (e0 & e1 & e2 & Hsend & Hok). rewrite Hsend, Hrest.
    eexists. split; [reflexivity|]. intros [|i] r' Hi.
    + cbn in Hi. injection Hi as <-. exists e0, e1, e2. cbn. auto.
    + cbn [nth_error] in Hi. destruct (Hnth i r' Hi) as (x0 & x1 & x2 & H0 & H1 & H2 & Hx).
      exists x0, x1, x2.
      replace (3 * S i)%nat with (S (S (S (3 * i)))) by lia.
      cbn [app Nat.add nth_error]. auto.
Qed.

Lemma add_vertex_to_border_spec (iv iv' : list Z) (newVertex r : Z) (p : PrimProc) :
  Z.of_nat (length iv) = N -> 0 <= newVertex < N -> wr iv newVertex 1 = Some iv' ->
  0 <= r < numProcs ->
  pp_isVisited p = iv -> Z.of_nat (length (pp_border p)) = ceil_div N numProcs ->
  exists border',
    add_vertex_to_border r (adjs r) N newVertex (pp_border p) (pp_isVisited p)
      (ceil_div N numProcs) = Some (border', iv')
    /\ border_step N numProcs A iv' newVertex r p (mkPrimProc border' iv').
Proof.
  intros Hiv Hnew Hwr Hr Hpiv Hpb. unfold add_vertex_to_border. rewrite Hpiv, Hwr.
  destruct (rows_split N (ceil_div N numProcs) r nbRows_nonneg (proj1 Hr) HN)
    as (k & Hk & Hsplit & Hvalid & Hinvalid & Hall).
  rewrite Hsplit.
  destruct (add_vertex_to_border_loop_spec N (ceil_div N numProcs) r newVertex A (adjs r)
              iv' nbRows_nonneg (proj1 Hr) Hnew (Hown r Hr)
              ltac:(rewrite (wr_length _ _ _ _ Hwr); exact Hiv)
              (iota k) (range k (ceil_div N numProcs)) (pp_border p) (NoDup_iota k))
    as (border' & Hloop & Hlen & _ & Hrows).
  { intros y Hy. destruct (Hvalid y Hy). rewrite Hpb. split; lia. }
  { exact Hinvalid. }
  rewrite Hloop. exists border'. split; [reflexivity|].
  split; [reflexivity|]. split; [exact Hlen|].
  intros y b Hy Hlt Hb. apply Hrows; [now apply Hall | assumption].
Qed.

Lemma update_borders_spec (iv iv' : list Z) (newVertex : Z) (rs : list Z) :
  Z.of_nat (length iv) = N -> 0 <= newVertex < N -> wr iv newVertex 1 = Some iv' ->
  NoDup rs -> (forall r, In r rs -> 0 <= r < numProcs) ->
  forall procs,
  (forall r p, In r rs -> rd procs r = Some p ->
     pp_isVisited p = iv /\ Z.of_nat (length (pp_border p)) = ceil_div N numProcs) ->
  (forall r, In r rs -> 0 <= r < Z.of_nat (length procs)) ->
  exists procs',
    update_borders numProcs N newVertex adjs rs procs = Some procs'
    /\ length procs' = length procs
    /\ (forall r, ~ In r rs -> rd procs' r = rd procs r)
    /\ (forall r p, In r rs -> rd procs r = Some p ->
          exists p', rd procs' r = Some p' /\ border_step N numProcs A iv' newVertex r p p').
Proof.
  intros Hiv Hnew Hwr Hnd. induction Hnd as [|r rs Hnin Hnd IH]; intros Hrs procs Hps Hlen.
  - exists procs. split; [reflexivity|]. split; [reflexivity|]. split; [reflexivity|].
    intros r p [].
  - cbn [update_borders].
    destruct (rd_in_range procs r (Hlen r (or_introl eq_refl))) as [p Hp]. rewrite Hp.
    destruct (Hps r p (or_introl eq_refl) Hp) as [Hpiv Hpb].
    destruct (add_vertex_to_border_spec iv iv' newVertex r p Hiv Hnew Hwr
                (Hrs r (or_introl eq_refl)) Hpiv Hpb) as (border' & Hadd & Hstep).
    rewrite Hadd. cbn [fst snd].
    rewrite (wr_in_range procs r _ (Hlen r (or_introl eq_refl))).
    set (procs1 := upd procs (Z.to_nat r) (mkPrimProc border' iv')).
    assert (Hw1 : wr procs r (mkPrimProc border' iv') = Some procs1)
      by (apply wr_in_range, Hlen; now left).
    pose proof (wr_length _ _ _ _ Hw1) as Hl1.
    destruct (IH (fun r0 H0 => Hrs r0 (or_intror H0)) procs1) as (procs' & Hupd & Hl & Hframe & Hrows).
    { intros r0 p0 Hin Hp0. apply (Hps r0 p0 (or_intror Hin)).
      rewrite <- Hp0. symmetry. apply (rd_wr_other _ _ _ _ r0 Hw1). intros ->. contradiction. }
    { intros r0 Hin. rewrite Hl1. apply Hlen. now right. }
    exists procs'. split; [exact Hupd|]. split; [congruence|]. split.
    + intros r0 Hr0. rewrite Hframe by (intros Hc; apply Hr0; now right).
      apply (rd_wr_other _ _ _ _ r0 Hw1). intros ->. apply Hr0. now left.
    + intros r0 p0 [<-|Hin] Hp0.
      * assert (p0 = p) by congruence. subst p0.
        exists (mkPrimProc border' iv'). split; [|exact Hstep].
        rewrite (Hframe r Hnin). apply (rd_wr_same _ _ _ _ Hw1).
      * apply Hrows; [assumption|]. rewrite <- Hp0.
        apply (rd_wr_other _ _ _ _ r0 Hw1). intros ->. contradiction.
Qed.

End Round.

(** *** The vertex that the next round finds *)

Lemma reach_in_range N A v : 1 <= N -> reach N A 0 v -> 0 <= v < N.
Proof. intros HN H. induction H; lia. Qed.

Lemma visited_or_not iv v : visited iv v \/ ~ visited iv v.
Proof.
  unfold visited. destruct (rd iv v) as [x|].
  - destruct (Z.eq_dec x 0) as [->|Hx].
    + right. intros (y & Hy & Hne). congruence.
    + left. eauto.
  - right. intros (y & Hy & _). discriminate.
Qed.

(** On the way from a visited vertex to one that is not visited, an edge
    leaves the visited vertices. *)
Lemma crossing_edge N A iv v :
  1 <= N -> visited iv 0 -> reach N A 0 v -> ~ visited iv v ->
  exists a b, 0 <= a < N /\ 0 <= b < N /\ visited iv a /\ ~ visited iv b
              /\ entry N A a b <> 0.
Proof.
  intros HN H0 Hreach. induction Hreach as [|u w Hreach IH Hw He]; intros Hnv.
  - contradiction.
  - destruct (visited_or_not iv u) as [Hu|Hu].
    + exists u, w. pose proof (reach_in_range N A u HN Hreach). auto.
    + now apply IH.
Qed.

Lemma unvisited_exists iv :
  count_visited iv < Z.of_nat (length iv) ->
  exists v, 0 <= v < Z.of_nat (length iv) /\ rd iv v = Some 0.
Proof.
  unfold count_visited. induction iv as [|x iv IH]; cbn [length filter]; intros H; [lia|].
  destruct (Z.eqb_spec x 0) as [->|Hx]; cbn [negb] in H.
  - exists 0. split; [lia | reflexivity].
  - cbn [length] in H. destruct IH as (v & Hv & Hrd); [lia|].
    exists (v + 1). split; [lia|]. apply rd_Some. apply rd_Some in Hrd.
    destruct Hrd as [Hv0 Hn]. split; [lia|].
    replace (Z.to_nat (v + 1)) with (S (Z.to_nat v)) by lia. exact Hn.
Qed.

Lemma parallel_prim_loop_app numProcs N adjs l1 l2 w w1 :
  parallel_prim_loop numProcs N adjs l1 w = Done w1 ->
  parallel_prim_loop numProcs N adjs (l1 ++ l2) w
  = parallel_prim_loop numProcs N adjs l2 w1.
Proof.
  revert w. induction l1 as [|e l1 IH]; intros w H; cbn [app parallel_prim_loop] in *.
  - now injection H as ->.
  - destruct (parallel_prim_iteration numProcs N adjs e w); try discriminate. now apply IH.
Qed.

Section Rounds.

Variables (N numProcs : Z) (A : Adj) (adjs : Z -> Adj).
Hypothesis HN : 1 <= N.
Hypothesis HP : 1 <= numProcs.
Hypothesis Hown : forall r, 0 <= r < numProcs ->
  own_rows N (ceil_div N numProcs) A (adjs r) r.
Hypothesis Hsym : symmetric N A.
Hypothesis Hconn : connected N A.

(** Before the iteration [k < N - 1] some rank has a candidate row. *)
Lemma some_rank_has_candidate k w iv :
  0 <= k < N - 1 ->
  Z.of_nat (length iv) = N -> visited iv 0 -> count_visited iv = k + 1 ->
  Z.of_nat (length (pw_procs w)) = numProcs ->
  (forall r p, rd (pw_procs w) r = Some p ->
     pp_isVisited p = iv
     /\ Z.of_nat (length (pp_border p)) = ceil_div N numProcs
     /\ forall y b, 0 <= y < ceil_div N numProcs ->
          r * ceil_div N numProcs + y < N ->
          rd (pp_border p) y = Some b ->
          ~ visited iv (r * ceil_div N numProcs + y) ->
          (exists u, 0 <= u < N /\ visited iv u
                     /\ entry N A (r * ceil_div N numProcs + y) u <> 0) ->
          border_w b <> 0) ->
  exists r p y, 0 <= r < numProcs /\ rd (pw_procs w) r = Some p
    /\ candidate_row N (ceil_div N numProcs) r (pp_border p) iv y.
Proof.
  intros Hk Hlen Hv0 Hcnt HlenP Hprocs.
  destruct (unvisited_exists iv) as (v & Hv & Hrd); [lia|].
  assert (Hnv : ~ visited iv v) by (intros (x & Hx & Hne); congruence).
  destruct (crossing_edge N A iv v HN Hv0 (proj2 Hconn v ltac:(lia)) Hnv)
    as (a & b & Ha & Hb & Hva & Hnvb & Hab).
  pose proof (ceil_div_pos N numProcs HN HP) as Hnb.
  pose proof (ceil_div_covers N numProcs ltac:(lia) HP) as Hcov.
  set (nb := ceil_div N numProcs) in *.
  pose proof (Z.div_mod b nb ltac:(lia)) as Hdm.
  pose proof (Z.mod_pos_bound b nb ltac:(lia)) as Hmod.
  assert (Hq0 : 0 <= b / nb) by (apply Z.div_pos; lia).
  assert (Hq1 : b / nb < numProcs).
  { apply Z.div_lt_upper_bound; [lia|]. lia. }
  destruct (rd_in_range (pw_procs w) (b / nb) ltac:(lia)) as [p Hp].
  destruct (Hprocs _ p Hp) as (Hpiv & Hpb & Hrows).
  assert (Hrow : b / nb * nb + b mod nb = b) by lia.
  destruct (rd_in_range (pp_border p) (b mod nb) ltac:(lia)) as [bb Hbb].
  exists (b / nb), p, (b mod nb). split; [lia|]. split; [assumption|].
  unfold candidate_row. split; [lia|]. split; [lia|]. split.
  - replace (b mod nb + b / nb * nb) with b by lia.
    destruct (visited_dec iv b ltac:(lia)) as [[H _]|H]; [assumption | contradiction].
  - exists bb. split; [assumption|].
    apply (Hrows (b mod nb) bb); try assumption; try lia.
    + now rewrite Hrow.
    + exists a. rewrite Hrow. split; [assumption|]. split; [assumption|].
      rewrite (Hsym b a) by assumption. assumption.
Qed.

Lemma gather_min_edges_round k w :
  0 <= k < N - 1 -> prim_world_inv N numProcs A k w ->
  exists iv me,
    Z.of_nat (length iv) = N
    /\ (forall r p, rd (pw_procs w) r = Some p -> pp_isVisited p = iv)
    /\ gather_min_edges numProcs N (iota numProcs) (pw_procs w) = Some me
    /\ (forall id, 0 <= id < numProcs ->
          exists e0 e1 e2,
            rd me (id * 3 + 0) = Some e0 /\ rd me (id * 3 + 1) = Some e1
            /\ rd me (id * 3 + 2) = Some e2
            /\ (e0 <> -1 -> 0 <= e0 < N /\ rd iv e0 = Some 0))
    /\ exists r e0, 0 <= r < numProcs /\ rd me (r * 3 + 0) = Some e0 /\ e0 <> -1.
Proof.
  intros Hk (iv & Hlen & Hv0 & Hcnt & HlenP & Htree & Hprocs).
  destruct (gather_min_edges_spec N numProcs HN HP (pw_procs w) iv (iota numProcs) Hlen)
    as (me & Hg & Hnth).
  { intros r Hr. apply In_iota in Hr. lia. }
  { intros r p Hp. destruct (Hprocs r p Hp) as (H1 & H2 & _). auto. }
  assert (Hrd : forall id, 0 <= id < numProcs ->
    exists e0 e1 e2,
      rd me (id * 3 + 0) = Some e0 /\ rd me (id * 3 + 1) = Some e1
      /\ rd me (id * 3 + 2) = Some e2
      /\ triple_ok N numProcs (pw_procs w) iv id e0).
  { intros id Hid. pose proof (rd_iota numProcs id Hid) as Hi. apply rd_Some in Hi.
    destruct (Hnth _ _ (proj2 Hi)) as (e0 & e1 & e2 & H0 & H1 & H2 & Hok).
    exists e0, e1, e2. split; [|split; [|split; [|exact Hok]]].
    - apply rd_Some. split; [lia|].
      replace (Z.to_nat (id * 3 + 0)) with (3 * Z.to_nat id)%nat by lia. exact H0.
    - apply rd_Some. split; [lia|].
      replace (Z.to_nat (id * 3 + 1)) with (3 * Z.to_nat id + 1)%nat by lia. exact H1.
    - apply rd_Some. split; [lia|].
      replace (Z.to_nat (id * 3 + 2)) with (3 * Z.to_nat id + 2)%nat by lia. exact H2. }
  exists iv, me. split; [assumption|]. split.
  { intros r p Hp. now destruct (Hprocs r p Hp). }
  split; [assumption|]. split.
  - intros id Hid. destruct (Hrd id Hid) as (e0 & e1 & e2 & H0 & H1 & H2 & Hok & _).
    exists e0, e1, e2. auto.
  - destruct (some_rank_has_candidate k w iv Hk Hlen Hv0 Hcnt HlenP Hprocs)
      as (r & p & y & Hr & Hp & Hc).
    destruct (Hrd r Hr) as (e0 & e1 & e2 & H0 & _ & _ & _ & Hne).
    exists r, e0. split; [assumption|]. split; [assumption|]. apply Hne. eauto.
Qed.

End Rounds.

Section Iteration.

Variables (N numProcs : Z) (A : Adj) (adjs : Z -> Adj).
Hypothesis HN : 1 <= N.
Hypothesis HP : 1 <= numProcs.
Hypothesis Hown : forall r, 0 <= r < numProcs ->
  own_rows N (ceil_div N numProcs) A (adjs r) r.
Hypothesis Hsym : symmetric N A.
Hypothesis Hconn : connected N A.

(** An iteration of the loop of [parallel_prim] completes and keeps the
    invariant. *)
Lemma parallel_prim_iteration_spec k w :
  0 <= k < N - 1 -> prim_world_inv N numProcs A k w ->
  exists w',
    parallel_prim_iteration numProcs N adjs k w = Done w'
    /\ prim_world_inv N numProcs A (k + 1) w'.
Proof.
  intros Hk Hinv.
  destruct (gather_min_edges_round N numProcs A HN HP Hsym Hconn k w Hk Hinv)
    as (iv & me & Hlen & Hpiv & Hg & Hrd & r0 & x0 & Hr0 & Hx0 & Hne0).
  destruct Hinv as (iv0 & Hlen0 & Hv0 & Hcnt & HlenP & Htree & Hprocs).
  assert (iv0 = iv).
  { destruct (rd_in_range (pw_procs w) 0 ltac:(lia)) as [p Hp].
    rewrite <- (Hpiv 0 p Hp). symmetry. now destruct (Hprocs 0 p Hp). }
  subst iv0. unfold parallel_prim_iteration. rewrite Hg.
  destruct (rd_in_range (pw_tree w) k ltac:(lia)) as [newEdge Hne]. rewrite Hne.
  unfold select_new_vertex.
  destruct (select_new_vertex_loop_spec me (fun e0 => 0 <= e0 < N /\ rd iv e0 = Some 0)
              (iota numProcs) (-1) newEdge)
    as (nv & sm & Hsel & Hres & _ & Hex).
  { intros id Hid. apply In_iota in Hid. exact (Hrd id Hid). }
  rewrite Hsel. cbn [fst].
  assert (Hnv : nv <> -1).
  { apply Hex. exists r0, x0. split; [apply In_iota; lia | auto]. }
  destruct Hres as [Hres|[_ [Hnv1 Hnv2]]]; [contradiction|].
  destruct (Z.eqb_spec nv (-1)); [contradiction|].
  rewrite (wr_in_range (pw_tree w) k sm) by lia.
  assert (Hwr : wr iv nv 1 = Some (upd iv (Z.to_nat nv) 1)) by (apply wr_in_range; lia).
  set (iv' := upd iv (Z.to_nat nv) 1) in *.
  destruct (update_borders_spec N numProcs A adjs HN HP Hown iv iv' nv (iota numProcs)
              Hlen Hnv1 Hwr (NoDup_iota numProcs)
              (fun r H => proj1 (In_iota numProcs r) H) (pw_procs w))
    as (procs' & Hupd & Hl & _ & Hrows).
  { intros r p _ Hp. destruct (Hprocs r p Hp) as (H1 & H2 & _). auto. }
  { intros r Hr. apply In_iota in Hr. lia. }
  rewrite Hupd. cbn [of_option]. eexists. split; [reflexivity|].
  exists iv'. cbn [pw_procs pw_tree].
  split; [rewrite (wr_length _ _ _ _ Hwr); assumption|].
  split; [apply (visited_wr _ _ _ 0 Hwr); now left|].
  split; [rewrite (count_visited_wr iv nv iv' Hnv2 Hwr); lia|].
  split; [rewrite Hl; assumption|].
  split; [rewrite length_upd; assumption|].
  intros r p' Hp'.
  assert (Hr : 0 <= r < numProcs) by (apply rd_range in Hp'; lia).
  destruct (rd_in_range (pw_procs w) r ltac:(lia)) as [p Hp].
  destruct (Hrows r p (proj2 (In_iota numProcs r) Hr) Hp) as (p1 & Hp1 & Hstep).
  assert (p1 = p') by congruence. subst p1.
  destruct Hstep as (Hiv' & Hbl & Hb).
  destruct (Hprocs r p Hp) as (_ & Hpb & Hold).
  split; [assumption|]. split; [rewrite Hbl; assumption|].
  intros y b' Hy Hlt Hb' Hnvis (u & Hu & Hvu & Heu).
  destruct (rd_in_range (pp_border p) y ltac:(lia)) as [b Hbb].
  destruct (Hb y b Hy Hlt Hbb) as (b1 & Hb1 & Hkeep & Hnew).
  assert (b1 = b') by congruence. subst b1.
  apply (visited_wr _ _ _ u Hwr) in Hvu. destruct Hvu as [Hvu| ->].
  - apply Hkeep. apply (Hold y b Hy Hlt Hbb).
    + intros Hc. apply Hnvis. apply (visited_wr _ _ _ _ Hwr). now left.
    + eauto.
  - now apply Hnew.
Qed.

(** [create_border] on every rank. *)
Lemma prim_init_procs_spec (rs : list Z) :
  (forall r, In r rs -> 0 <= r < numProcs) ->
  exists procs,
    prim_init_procs numProcs N adjs rs = Some procs
    /\ length procs = length rs
    /\ forall i r p, nth_error rs i = Some r -> nth_error procs i = Some p ->
         wr (calloc_int N) 0 1 = Some (pp_isVisited p)
         /\ Z.of_nat (length (pp_border p)) = ceil_div N numProcs
         /\ forall y b, 0 <= y < ceil_div N numProcs ->
              r * ceil_div N numProcs + y < N ->
              rd (pp_border p) y = Some b ->
              border_w b = entry N A (r * ceil_div N numProcs + y) 0.
Proof.
  induction rs as [|r rs IH]; intros Hrs.
  - exists []. split; [reflexivity|]. split; [reflexivity|]. intros [|i] r p H; discriminate.
  - cbn [prim_init_procs].
    destruct (create_border_spec N (ceil_div N numProcs) r A (adjs r)
                (nbRows_nonneg N numProcs HN HP) (proj1 (Hrs r (or_introl eq_refl))) HN
                (Hown r (Hrs r (or_introl eq_refl))))
      as (border & iv & Hcb & Hiv & Hbl & Hb).
    rewrite Hcb. destruct IH as (procs & Hinit & Hlen & Hnth).
    { intros; apply Hrs; now right. }
    rewrite Hinit. eexists. split; [reflexivity|]. split; [cbn [length]; congruence|].
    intros [|i] r' p Hi Hp; cbn [nth_error] in Hi, Hp.
    + injection Hi as <-. injection Hp as <-. cbn [fst snd pp_isVisited pp_border]. auto.
    + eapply Hnth; eassumption.
Qed.

Lemma prim_world_inv_init (tree : list Edge) :
  N - 1 <= Z.of_nat (length tree) ->
  exists procs,
    prim_init_procs numProcs N adjs (iota numProcs) = Some procs
    /\ prim_world_inv N numProcs A 0 (mkPrimWorld procs tree).
Proof.
  intros Htree.
  destruct (prim_init_procs_spec (iota numProcs)) as (procs & Hinit & Hlen & Hnth).
  { intros r Hr. now apply In_iota in Hr. }
  exists procs. split; [assumption|].
  assert (Hc : Z.of_nat (length (calloc_int N)) = N)
    by (unfold calloc_int; rewrite repeat_length; lia).
  assert (Hwr : wr (calloc_int N) 0 1 = Some (upd (calloc_int N) (Z.to_nat 0) 1))
    by (apply wr_in_range; lia).
  set (iv := upd (calloc_int N) (Z.to_nat 0) 1) in *.
  exists iv. cbn [pw_procs pw_tree].
  split; [rewrite (wr_length _ _ _ _ Hwr); assumption|].
  split; [apply (visited_wr _ _ _ 0 Hwr); now right|].
  split. { rewrite (count_visited_wr _ 0 iv (rd_calloc_int N 0 ltac:(lia)) Hwr).
           rewrite count_visited_calloc. lia. }
  split. { rewrite Hlen, length_iota. lia. }
  split; [assumption|].
  intros r p Hp.
  assert (Hr : 0 <= r < numProcs).
  { apply rd_range in Hp. rewrite Hlen, length_iota in Hp. lia. }
  pose proof (rd_iota numProcs r Hr) as Hi. apply rd_Some in Hi. destruct Hi as [_ Hi].
  apply rd_Some in Hp. destruct Hp as [_ Hp].
  destruct (Hnth _ r p Hi Hp) as (Hiv & Hbl & Hb).
  split; [congruence|]. split; [assumption|].
  intros y b Hy Hlt Hrd Hnvis (u & Hu & Hvu & Heu).
  apply (visited_wr _ _ _ u Hwr) in Hvu. destruct Hvu as [Hvu| ->].
  - exfalso. exact (not_visited_calloc N u Hvu).
  - rewrite (Hb y b Hy Hlt Hrd). assumption.
Qed.

(** The first [k] iterations complete and lead to a state that satisfies the
    invariant. *)
Lemma parallel_prim_loop_prefix (w0 : PrimWorld) (k : nat) :
  prim_world_inv N numProcs A 0 w0 -> Z.of_nat k <= N - 1 ->
  exists w,
    parallel_prim_loop numProcs N adjs (iota (Z.of_nat k)) w0 = Done w
    /\ prim_world_inv N numProcs A (Z.of_nat k) w.
Proof.
  intros H0. induction k as [|k IH]; intros Hk.
  - exists w0. split; [reflexivity | assumption].
  - destruct IH as (w & Hloop & Hinv); [lia|].
    destruct (parallel_prim_iteration_spec (Z.of_nat k) w ltac:(lia) Hinv)
      as (w' & Hit & Hinv').
    exists w'. replace (Z.of_nat (S k)) with (Z.of_nat k + 1) by lia.
    split; [|assumption].
    rewrite iota_succ by lia. rewrite (parallel_prim_loop_app _ _ _ _ _ _ _ Hloop).
    cbn [parallel_prim_loop]. now rewrite Hit.
Qed.

End Iteration.

(** C5 (amended).  When every rank holds the rows of a connected graph (a
    symmetric matrix) from the first row of its own block on, parallel Prim
    runs its [N - 1] iterations to the end: before each iteration [k] the
    array [minEdges] gathered on rank 0 holds a triple of some rank whose
    first int is not the sentinel -1, so that the assertion
    [idSmallestVertex != -1] of [select_new_vertex] does not fire. *)
Theorem parallel_prim_assertion_never_fires
  (N numProcs : Z) (A : Adj) (tree : list Edge) :
  adjacency N A -> symmetric N A -> connected N A -> 1 <= numProcs ->
  N - 1 <= Z.of_nat (length tree) ->
  (exists tree',
     parallel_prim numProcs (row_blocks N numProcs A) N tree = Done tree')
  /\ forall k, 0 <= k < N - 1 ->
       exists procs w minEdges r e0,
         prim_init_procs numProcs N (row_blocks N numProcs A) (iota numProcs)
           = Some procs
         /\ parallel_prim_loop numProcs N (row_blocks N numProcs A) (iota k)
              (mkPrimWorld procs tree) = Done w
         /\ gather_min_edges numProcs N (iota numProcs) (pw_procs w) = Some minEdges
         /\ 0 <= r < numProcs
         /\ rd minEdges (r * 3 + 0) = Some e0 /\ e0 <> -1.
Proof.
  intros Hadj Hsym Hconn HP Htree. pose proof (proj1 Hconn) as HN.
  assert (Hown : forall r, 0 <= r < numProcs ->
            own_rows N (ceil_div N numProcs) A (row_blocks N numProcs A r) r)
    by (intros r Hr; apply own_rows_row_blocks; [assumption | lia | lia]).
  destruct (prim_world_inv_init N numProcs A (row_blocks N numProcs A) HN HP Hown tree Htree)
    as (procs & Hinit & Hinv0).
  split.
  - destruct (parallel_prim_loop_prefix N numProcs A (row_blocks N numProcs A)
                HN HP Hown Hsym Hconn _ (Z.to_nat (N - 1)) Hinv0 ltac:(lia))
      as (w & Hloop & _).
    exists (pw_tree w). unfold parallel_prim. rewrite Hinit.
    replace (Z.of_nat (Z.to_nat (N - 1))) with (N - 1) in Hloop by lia.
    now rewrite Hloop.
  - intros k Hk.
    destruct (parallel_prim_loop_prefix N numProcs A (row_blocks N numProcs A)
                HN HP Hown Hsym Hconn _ (Z.to_nat k) Hinv0 ltac:(lia))
      as (w & Hloop & Hinv).
    replace (Z.of_nat (Z.to_nat k)) with k in * by lia.
    destruct (gather_min_edges_round N numProcs A HN HP Hsym Hconn k w Hk Hinv)
      as (iv & me & _ & _ & Hg & _ & r & e0 & Hr & He0 & Hne).
    exists procs, w, me, r, e0. repeat split; auto; lia.
Qed.

Lemma parallel_prim_assertion_never_fires_witness :
  (exists tree',
     parallel_prim 2 (row_blocks 3 2 [0; 1; 0; 1; 0; 2; 0; 2; 0]) 3 (calloc_edges 2)
       = Done tree')
  /\ forall k, 0 <= k < 3 - 1 ->
       exists procs w minEdges r e0,
         prim_init_procs 2 3 (row_blocks 3 2 [0; 1; 0; 1; 0; 2; 0; 2; 0]) (iota 2)
           = Some procs
         /\ parallel_prim_loop 2 3 (row_blocks 3 2 [0; 1; 0; 1; 0; 2; 0; 2; 0]) (iota k)
              (mkPrimWorld procs (calloc_edges 2)) = Done w
         /\ gather_min_edges 2 3 (iota 2) (pw_procs w) = Some minEdges
         /\ 0 <= r < 2
         /\ rd minEdges (r * 3 + 0) = Some e0 /\ e0 <> -1.
Proof.
  apply (parallel_prim_assertion_never_fires 3 2 [0; 1; 0; 1; 0; 2; 0; 2; 0]
           (calloc_edges 2)).
  - split; [lia|]. split; [reflexivity|].
    intros a Ha. unfold INT_MAX. simpl in Ha.
    repeat (destruct Ha as [<-|Ha]; [lia|]). contradiction.
  - intros i j Hi Hj.
    assert (Ei : i = 0 \/ i = 1 \/ i = 2) by lia.
    assert (Ej : j = 0 \/ j = 1 \/ j = 2) by lia.
    destruct Ei as [->|[->| ->]], Ej as [->|[->| ->]]; reflexivity.
  - split; [lia|]. intros v Hv.
    assert (Ev : v = 0 \/ v = 1 \/ v = 2) by lia.
    destruct Ev as [->|[->| ->]].
    + apply reach_refl.
    + apply (reach_step 3 _ 0 0 1); [apply reach_refl | lia | discriminate].
    + apply (reach_step 3 _ 0 1 2); [|lia | discriminate].
      apply (reach_step 3 _ 0 0 1); [apply reach_refl | lia | discriminate].
  - lia.
  - simpl. lia.
Defined.

(** C5 as stated fails when every rank holds the whole matrix: on the
    connected graph with the two vertices 0 and 1 and two processes, rank 1
    reads row 0 in place of its own row 1, no rank has a candidate, and the
    assertion fires in the first iteration. *)
Lemma parallel_prim_replicated_assertion_fails :
  adjacency 2 [0; 1; 1; 0] /\ symmetric 2 [0; 1; 1; 0] /\ connected 2 [0; 1; 1; 0]
  /\ parallel_prim 2 (replicated [0; 1; 1; 0]) 2 (calloc_edges 1) = Assertion_failed.
Proof.
  split; [|split; [|split]].
  - split; [lia|]. split; [reflexivity|].
    intros a Ha. unfold INT_MAX. simpl in Ha.
    repeat (destruct Ha as [<-|Ha]; [lia|]). contradiction.
  - intros i j Hi Hj.
    assert (Ei : i = 0 \/ i = 1) by lia.
    assert (Ej : j = 0 \/ j = 1) by lia.
    destruct Ei as [->| ->], Ej as [->| ->]; reflexivity.
  - split; [lia|]. intros v Hv.
    assert (Ev : v = 0 \/ v = 1) by lia.
    destruct Ev as [->| ->].
    + apply reach_refl.
    + apply (reach_step 2 _ 0 0 1); [apply reach_refl | lia | discriminate].
  - vm_compute. reflexivity.
Qed.


(** ** Further properties of the sequential code

    *** Checking the hypotheses on a concrete matrix *)

Lemma adjacency_by_test N adj :
  0 <= N -> Z.of_nat (length adj) = N * N ->
  forallb (fun a => (0 <=? a) && (a <=? INT_MAX)) adj = true ->
  adjacency N adj.
Proof.
  intros HN Hl Ht. split; [assumption|]. split; [assumption|].
  intros a Ha. rewrite forallb_forall in Ht. specialize (Ht a Ha). lia.
Qed.

Lemma symmetric_by_test N adj :
  forallb (fun i => forallb (fun j => entry N adj i j =? entry N adj j i) (iota N))
    (iota N) = true ->
  symmetric N adj.
Proof.
  intros Ht i j Hi Hj. rewrite forallb_forall in Ht.
  specialize (Ht i (proj2 (In_iota N i) Hi)). rewrite forallb_forall in Ht.
  specialize (Ht j (proj2 (In_iota N j) Hj)). lia.
Qed.

(** *** [create_edges] *)

Lemma sorted_range a b : StronglySorted Z.lt (range a b).
Proof.
  remember (Z.to_nat (b - a)) as n eqn:Hn. revert a Hn.
  induction n as [|n IH]; intros a Hn.
  - rewrite range_empty by lia. constructor.
  - rewrite range_cons by lia. constructor; [apply IH; lia|].
    apply Forall_forall. intros x Hx. apply In_range in Hx. lia.
Qed.

Lemma sorted_flat_map {X Y} (R : Y -> Y -> Prop) (f : X -> list Y) (l : list X) :
  (forall x, In x l -> StronglySorted R (f x)) ->
  ForallOrdPairs (fun x y => forall a b, In a (f x) -> In b (f y) -> R a b) l ->
  StronglySorted R (flat_map f l).
Proof.
  intros Hin Hp. induction Hp as [|x l Hx Hp IH]; cbn [flat_map]; [constructor|].
  assert (Hs : StronglySorted R (f x)) by (apply Hin; now left).
  assert (Hl : StronglySorted R (flat_map f l)) by (apply IH; intros; apply Hin; now right).
  assert (Hcross : forall a b, In a (f x) -> In b (flat_map f l) -> R a b).
  { intros a b Ha Hb. apply in_flat_map in Hb. destruct Hb as (y & Hy & Hb).
    rewrite Forall_forall in Hx. exact (Hx y Hy a b Ha Hb). }
  clear Hin Hx IH. induction Hs as [|a r Hs IHs Ha]; cbn [app]; [assumption|].
  constructor.
  - apply IHs. intros a' b Ha' Hb. apply Hcross; [now right | assumption].
  - apply Forall_app. split; [assumption|].
    apply Forall_forall. intros b Hb. apply Hcross; [now left | assumption].
Qed.

Lemma pairs_of_sorted {X} (R : X -> X -> Prop) (l : list X) :
  StronglySorted R l -> ForallOrdPairs R l.
Proof. induction 1; constructor; assumption. Qed.

Lemma pairs_impl {X} (R R' : X -> X -> Prop) (l : list X) :
  (forall x y, In x l -> In y l -> R x y -> R' x y) ->
  ForallOrdPairs R l -> ForallOrdPairs R' l.
Proof.
  intros H Hp. induction Hp as [|x l Hx Hp IH]; constructor.
  - rewrite Forall_forall in *. intros y Hy. apply H; [now left | now right | now apply Hx].
  - apply IH. intros a b Ha Hb. apply H; now right.
Qed.

(** The order in which [create_edges] writes the edges: by row, then by
    column. *)
Lemma upper_edges_row_major N adj :
  StronglySorted (fun a b => edge_i a < edge_i b
                             \/ (edge_i a = edge_i b /\ edge_j a < edge_j b))
    (upper_edges N adj).
Proof.
  unfold upper_edges. apply sorted_flat_map.
  - intros i _. unfold row_edges. apply sorted_flat_map.
    + intros j _. destruct (entry N adj i j =? 0); repeat constructor.
    + apply (pairs_impl Z.lt); [|apply pairs_of_sorted, sorted_range].
      intros j j' Hj Hj' Hlt a b Ha Hb. apply In_range in Hj, Hj'.
      destruct (entry N adj i j =? 0); [contradiction|].
      destruct (entry N adj i j' =? 0); [contradiction|].
      destruct Ha as [<-|[]], Hb as [<-|[]].
      rewrite !init_edge_le by lia. cbn. right. lia.
  - apply (pairs_impl Z.lt); [|rewrite <- range_0; apply pairs_of_sorted, sorted_range].
    intros i i' _ _ Hlt a b Ha Hb.
    apply In_row_edges in Ha, Hb.
    destruct Ha as (j & Hj & _ & ->), Hb as (j' & Hj' & _ & ->).
    apply In_range in Hj, Hj'. rewrite !init_edge_le by lia. cbn. left. lia.
Qed.

(** The inner loop of [create_edges] writes out of the buffer when the
    row holds more non-zero entries than the buffer has room for. *)
Lemma create_edges_row_overflow N adj (i : Z) (js : list Z) (buf : list Edge) (num : Z) :
  0 <= num <= Z.of_nat (length buf) ->
  (forall j, In j js -> 0 <= i * N + j < Z.of_nat (length adj)) ->
  Z.of_nat (length buf) < num + Z.of_nat (length (row_edges N adj i i js)) ->
  create_edges_row N adj i js (buf, num) = None.
Proof.
  revert buf num. induction js as [|j js IH]; intros buf num Hnum Hin Hcap.
  - cbn in Hcap. lia.
  - cbn [create_edges_row row_edges flat_map] in *.
    rewrite entry_rd by (apply Hin; now left). cbn [fst snd].
    destruct (Z.eqb_spec (entry N adj i j) 0) as [He|Hne]; cbn [negb app] in *.
    + apply IH; auto. intros; apply Hin; now right.
    + cbn [length] in Hcap. fold (row_edges N adj i i js) in Hcap.
      destruct (wr buf num (init_edge i j (entry N adj i j))) as [buf'|] eqn:Hw;
        [|reflexivity].
      pose proof (wr_length _ _ _ _ Hw) as Hl. apply wr_Some in Hw.
      apply IH; [lia | intros; apply Hin; now right | lia].
Qed.

Lemma create_edges_rows_overflow N adj (rows : list Z) (buf : list Edge) (num : Z) :
  0 <= num <= Z.of_nat (length buf) ->
  (forall i j, In i rows -> i <= j < N -> 0 <= i * N + j < Z.of_nat (length adj)) ->
  Z.of_nat (length buf)
  < num + Z.of_nat (length (flat_map (fun i => row_edges N adj i i (range i N)) rows)) ->
  create_edges_rows N adj rows (buf, num) = None.
Proof.
  revert buf num. induction rows as [|i rows IH]; intros buf num Hnum Hin Hcap.
  - cbn in Hcap. lia.
  - cbn [create_edges_rows flat_map] in *. rewrite length_app in Hcap.
    assert (Hrow : forall j, In j (range i N) -> 0 <= i * N + j < Z.of_nat (length adj)).
    { intros j Hj. apply In_range in Hj. apply Hin; [now left | assumption]. }
    destruct (Z.le_gt_cases (num + Z.of_nat (length (row_edges N adj i i (range i N))))
                (Z.of_nat (length buf))) as [Hfit|Hover].
    + rewrite create_edges_row_spec by (assumption || lia).
      apply IH; [rewrite length_place by lia; lia | intros; apply Hin; auto; now right|].
      rewrite length_place by lia. lia.
    + now rewrite create_edges_row_overflow.
Qed.

(** [create_edges] (lines 21-32), when the buffer has room: the non-zero
    entries [adj[i][j]] with [i <= j] (the diagonal included) are written at
    the start of the buffer, each once, as [(i, j, adj[i][j])], row by row
    and by increasing column; the rest of the buffer is left as it was, and
    the count is returned. *)
Theorem create_edges_lists_upper_triangle (N : Z) (adj : Adj) (buf : list Edge) :
  adjacency N adj ->
  Z.of_nat (length (upper_edges N adj)) <= Z.of_nat (length buf) ->
  exists es,
    create_edges N adj buf = Some (es ++ skipn (length es) buf, Z.of_nat (length es))
    /\ (forall e, In e es <->
          exists i j, 0 <= i <= j /\ j < N /\ entry N adj i j <> 0
                      /\ e = mkEdge i j (entry N adj i j))
    /\ StronglySorted (fun a b => edge_i a < edge_i b
                                  \/ (edge_i a = edge_i b /\ edge_j a < edge_j b)) es.
Proof.
  intros Hadj Hcap. exists (upper_edges N adj).
  split; [|split].
  - rewrite create_edges_spec by assumption. unfold place. reflexivity.
  - apply In_upper_edges.
  - apply upper_edges_row_major.
Qed.

Lemma create_edges_lists_upper_triangle_witness :
  exists es,
    create_edges 3 [0; 1; 4; 1; 7; 2; 4; 2; 0] (calloc_edges 5)
      = Some (es ++ skipn (length es) (calloc_edges 5), Z.of_nat (length es))
    /\ (forall e, In e es <->
          exists i j, 0 <= i <= j /\ j < 3
                      /\ entry 3 [0; 1; 4; 1; 7; 2; 4; 2; 0] i j <> 0
                      /\ e = mkEdge i j (entry 3 [0; 1; 4; 1; 7; 2; 4; 2; 0] i j))
    /\ StronglySorted (fun a b => edge_i a < edge_i b
                                  \/ (edge_i a = edge_i b /\ edge_j a < edge_j b)) es.
Proof.
  apply (create_edges_lists_upper_triangle 3 [0; 1; 4; 1; 7; 2; 4; 2; 0] (calloc_edges 5)).
  - apply adjacency_by_test; [lia | reflexivity | reflexivity].
  - simpl. lia.
Defined.

(** [create_edges] does not know the size of the buffer: it stays inside
    it exactly when the buffer has an entry for every non-zero [adj[i][j]]
    with [i <= j]; with a shorter buffer it writes past the end. *)
Theorem create_edges_in_bounds_iff_room (N : Z) (adj : Adj) (buf : list Edge) :
  adjacency N adj ->
  (create_edges N adj buf <> None
   <-> Z.of_nat (length (upper_edges N adj)) <= Z.of_nat (length buf)).
Proof.
  intros Hadj. split.
  - intros Hsome. destruct (Z.le_gt_cases (Z.of_nat (length (upper_edges N adj)))
                              (Z.of_nat (length buf))) as [H|H]; [assumption|].
    exfalso. apply Hsome. unfold create_edges.
    apply create_edges_rows_overflow; [lia| |exact H].
    intros i j Hi Hj. apply In_iota in Hi. apply adjacency_index; auto. lia.
  - intros Hcap. now rewrite create_edges_spec.
Qed.

Lemma create_edges_in_bounds_iff_room_witness :
  create_edges 2 [0; 5; 5; 3] [] = None.
Proof.
  destruct (create_edges 2 [0; 5; 5; 3] []) as [r|] eqn:E; [|reflexivity].
  exfalso.
  assert (H : create_edges 2 [0; 5; 5; 3] [] <> None) by (rewrite E; discriminate).
  apply (create_edges_in_bounds_iff_room 2 [0; 5; 5; 3] []) in H.
  - simpl in H. lia.
  - apply adjacency_by_test; [lia | reflexivity | reflexivity].
Defined.

(** [sequential_kruskal] (lines 168-175) allocates [M] entries and lets
    [create_edges] fill them unchecked: when [M] is smaller than the number
    of non-zero entries on and above the diagonal, the edge buffer is
    overrun. *)
Theorem sequential_kruskal_overruns_when_M_too_small
  (N M : Z) (adj : Adj) (tree : list Edge) :
  adjacency N adj ->
  0 <= M < Z.of_nat (length (upper_edges N adj)) ->
  sequential_kruskal N M adj tree = None.
Proof.
  intros Hadj HM. unfold sequential_kruskal.
  replace (create_edges N adj (calloc_edges M)) with (@None (list Edge * Z)); [reflexivity|].
  symmetry. unfold create_edges. apply create_edges_rows_overflow; [split; [lia | apply Nat2Z.is_nonneg]| |].
  - intros i j Hi Hj. apply In_iota in Hi. apply adjacency_index; auto. lia.
  - unfold upper_edges in HM. unfold calloc_edges. rewrite repeat_length. lia.
Qed.

Lemma sequential_kruskal_overruns_when_M_too_small_witness :
  sequential_kruskal 3 2 [0; 1; 4; 1; 0; 2; 4; 2; 0] (calloc_edges 2) = None.
Proof.
  apply (sequential_kruskal_overruns_when_M_too_small 3 2 [0; 1; 4; 1; 0; 2; 4; 2; 0]).
  - apply adjacency_by_test; [lia | reflexivity | reflexivity].
  - simpl. lia.
Defined.

(** *** The comparator outside the data model *)

(** [cmp_edges] (lines 34-42) returns the difference of the two weights
    when they differ.  The sign of that [int] is the order of the weights
    as long as the difference fits an [int].  With weights of opposite sign
    that lie further apart the subtraction overflows; under the wrap-around
    of 32-bit two's complement arithmetic the heavier edge is then reported
    as the lighter one. *)
Theorem cmp_edges_reverses_order_when_difference_overflows (a b : Edge) :
  in_int (edge_w a) -> in_int (edge_w b) -> edge_w a <> edge_w b ->
  (INT_MIN <= edge_w a - edge_w b <= INT_MAX ->
     cmp_edges a b = edge_w a - edge_w b)
  /\ (INT_MAX < edge_w a - edge_w b -> cmp_edges a b < 0)
  /\ (edge_w a - edge_w b < INT_MIN -> cmp_edges a b > 0).
Proof.
  unfold in_int, INT_MIN, INT_MAX. intros Ha Hb Hne.
  unfold cmp_edges. destruct (Z.eqb_spec (edge_w a) (edge_w b)) as [|_]; [contradiction|].
  cbn [negb]. unfold int_sub, wrap.
  set (d := edge_w a - edge_w b) in *.
  split; [|split]; intros Hd.
  - rewrite Z.mod_small by lia. lia.
  - replace (d + 2147483648) with (d - 2147483648 + 1 * 4294967296) by lia.
    rewrite Z.mod_add by lia. rewrite Z.mod_small by lia. lia.
  - replace (d + 2147483648) with (d + 6442450944 + (-1) * 4294967296) by lia.
    rewrite Z.mod_add by lia. rewrite Z.mod_small by lia. lia.
Qed.

Lemma cmp_edges_reverses_order_when_difference_overflows_witness :
  (INT_MIN <= edge_w (mkEdge 0 1 INT_MAX) - edge_w (mkEdge 0 2 (-1)) <= INT_MAX ->
     cmp_edges (mkEdge 0 1 INT_MAX) (mkEdge 0 2 (-1))
     = edge_w (mkEdge 0 1 INT_MAX) - edge_w (mkEdge 0 2 (-1)))
  /\ (INT_MAX < edge_w (mkEdge 0 1 INT_MAX) - edge_w (mkEdge 0 2 (-1)) ->
      cmp_edges (mkEdge 0 1 INT_MAX) (mkEdge 0 2 (-1)) < 0)
  /\ (edge_w (mkEdge 0 1 INT_MAX) - edge_w (mkEdge 0 2 (-1)) < INT_MIN ->
      cmp_edges (mkEdge 0 1 INT_MAX) (mkEdge 0 2 (-1)) > 0).
Proof.
  apply (cmp_edges_reverses_order_when_difference_overflows
           (mkEdge 0 1 INT_MAX) (mkEdge 0 2 (-1))).
  - unfold in_int, INT_MIN, INT_MAX. simpl. lia.
  - unfold in_int, INT_MIN, INT_MAX. simpl. lia.
  - unfold INT_MAX. simpl. lia.
Defined.


(** *** [find] and [fusion] *)

(** The vertex that [find] was called on points at the root it returns. *)
Lemma find_result_father fuel nodes v nodes' r :
  find fuel nodes v = Some (nodes', r) ->
  exists nd', rd nodes' v = Some nd' /\ node_father nd' = r.
Proof.
  destruct fuel as [|fuel]; [discriminate|]. cbn [find].
  destruct (rd nodes v) as [nd|] eqn:Hv; [|discriminate].
  destruct (negb (node_father nd =? v)).
  - destruct (find fuel nodes (node_father nd)) as [[n1 r1]|]; [|discriminate].
    cbn [fst snd]. destruct (rd n1 v) as [nd1|]; [|discriminate].
    destruct (wr n1 v (mkNode r1 (node_rank nd1))) as [n2|]; [|discriminate].
    destruct (rd n2 v) as [nd2|] eqn:H2; [|discriminate].
    intros H. inversion H; subst. eauto.
  - intros H. inversion H; subst. eauto.
Qed.

(** [find] (lines 134-139) on a disjoint-set array without cycles (the
    rank grows strictly from a vertex to its father): it returns the root
    of the set of [node], the array represents the same sets afterwards and
    is still without cycles, and [node] now points directly at its root,
    with its rank unchanged.  The recursion is as deep as the path from
    [node] to its root, which is shorter than the difference of the ranks
    allows. *)
Theorem find_returns_root_and_compresses
  (N B : Z) (fuel : nat) (nodes : list Node) (node : Z) (nd : Node) :
  wf_nodes N B nodes -> rd nodes node = Some nd ->
  B - node_rank nd < Z.of_nat fuel ->
  exists nodes' r,
    find fuel nodes node = Some (nodes', r)
    /\ Root nodes node r
    /\ same_roots nodes nodes'
    /\ wf_nodes N B nodes'
    /\ rd nodes' node = Some (mkNode r (node_rank nd)).
Proof.
  intros Hwf Hnd Hfuel.
  destruct (find_spec N B fuel nodes node nd Hwf Hnd Hfuel) as (nodes' & r & Hf & Hr & Hc).
  exists nodes', r. split; [exact Hf|]. split; [exact Hr|].
  split; [now apply (compressed_same_roots N B)|].
  split; [now apply (compressed_wf N B nodes)|].
  destruct (find_result_father _ _ _ _ _ Hf) as (nd' & Hnd' & Hfa).
  destruct Hc as [_ Hc]. destruct (Hc node nd Hnd) as (nu & Hnu & Hrk & _).
  rewrite Hnd' in Hnu. inversion Hnu; subst nu.
  rewrite Hnd'. f_equal. destruct nd' as [f k]. cbn in *. congruence.
Qed.

Lemma find_returns_root_and_compresses_witness :
  exists nodes' r,
    find 3 [mkNode 1 1; mkNode 2 2; mkNode 2 3] 0 = Some (nodes', r)
    /\ Root [mkNode 1 1; mkNode 2 2; mkNode 2 3] 0 r
    /\ same_roots [mkNode 1 1; mkNode 2 2; mkNode 2 3] nodes'
    /\ wf_nodes 3 3 nodes'
    /\ rd nodes' 0 = Some (mkNode r (node_rank (mkNode 1 1))).
Proof.
  apply (find_returns_root_and_compresses 3 3 3 [mkNode 1 1; mkNode 2 2; mkNode 2 3] 0
           (mkNode 1 1)).
  - split; [reflexivity|]. intros v nd H.
    pose proof (rd_range _ _ _ H) as Hr. simpl in Hr.
    assert (Hv : v = 0 \/ v = 1 \/ v = 2) by lia.
    destruct Hv as [->|[->| ->]]; inversion H; subst; cbn [node_rank node_father];
      (split; [lia|]); eexists; (split; [reflexivity|]); cbn [node_rank]; lia.
  - reflexivity.
  - simpl. lia.
Defined.

(** [fusion] (lines 141-150) on two distinct roots: the root of smaller
    rank is hung under the other one ([root1] under [root2] when the ranks
    are equal, and the rank of [root2] then grows by one).  The two sets
    become one, the other sets are untouched, and the array stays without
    cycles. *)
Theorem fusion_hangs_lower_rank_under_higher
  (N B : Z) (nodes : list Node) (root1 root2 : Z) (n1 n2 : Node) :
  wf_nodes N B nodes ->
  rd nodes root1 = Some n1 -> rd nodes root2 = Some n2 ->
  node_father n1 = root1 -> node_father n2 = root2 -> root1 <> root2 ->
  let top := if node_rank n1 >? node_rank n2 then root1 else root2 in
  exists nodes',
    fusion 2 nodes root1 root2 = Some nodes'
    /\ wf_nodes N (B + 1) nodes'
    /\ count_roots nodes' = count_roots nodes - 1
    /\ (forall v r, Root nodes v r ->
          Root nodes' v (if (r =? root1) || (r =? root2) then top else r))
    /\ rd nodes' top
       = Some (mkNode top (Z.max (node_rank n1) (node_rank n2)
                           + if node_rank n1 =? node_rank n2 then 1 else 0)).
Proof.
  intros Hwf H1 H2 Hf1 Hf2 Hne top. subst top. cbn [fusion]. rewrite H1, H2.
  destruct (Z.gtb_spec (node_rank n1) (node_rank n2)) as [Hgt|Hle].
  - destruct (Z.gtb_spec (node_rank n2) (node_rank n1)) as [Hgt'|_]; [lia|].
    destruct (link_spec nodes root2 root1 n2 n1) as (nodes' & Heq & Hl); auto; [lia|].
    exists nodes'. split; [exact Heq|].
    split; [eapply linked_wf; eauto|]. split; [now apply linked_count in Hl|].
    split.
    + intros v r Hr. pose proof (linked_Root _ _ _ _ _ _ Hl Hr) as H'.
      destruct (Z.eqb_spec r root2); [now rewrite orb_true_r|].
      rewrite orb_false_r. destruct (Z.eqb_spec r root1); subst; exact H'.
    + destruct Hl as (_ & na & nb & Ha & Hb & _ & _ & _ & _ & _ & Hb' & _).
      rewrite H2 in Ha. rewrite H1 in Hb. inversion Ha; inversion Hb; subst na nb.
      rewrite Hb'. f_equal. f_equal.
      destruct (Z.eqb_spec (node_rank n2) (node_rank n1)),
               (Z.eqb_spec (node_rank n1) (node_rank n2)); lia.
  - destruct (link_spec nodes root1 root2 n1 n2) as (nodes' & Heq & Hl); auto.
    exists nodes'. split; [exact Heq|].
    split; [eapply linked_wf; eauto|]. split; [now apply linked_count in Hl|].
    split.
    + intros v r Hr. pose proof (linked_Root _ _ _ _ _ _ Hl Hr) as H'.
      destruct (Z.eqb_spec r root1); cbn [orb]; [exact H'|].
      destruct (Z.eqb_spec r root2); subst; exact H'.
    + destruct Hl as (_ & na & nb & Ha & Hb & _ & _ & _ & _ & _ & Hb' & _).
      rewrite H1 in Ha. rewrite H2 in Hb. inversion Ha; inversion Hb; subst na nb.
      rewrite Hb'. f_equal. f_equal. lia.
Qed.

Lemma fusion_hangs_lower_rank_under_higher_witness :
  exists nodes',
    fusion 2 [mkNode 0 2; mkNode 1 1; mkNode 0 1] 0 1 = Some nodes'
    /\ wf_nodes 3 (2 + 1) nodes'
    /\ count_roots nodes' = count_roots [mkNode 0 2; mkNode 1 1; mkNode 0 1] - 1
    /\ (forall v r, Root [mkNode 0 2; mkNode 1 1; mkNode 0 1] v r ->
          Root nodes' v (if (r =? 0) || (r =? 1) then 0 else r))
    /\ rd nodes' 0 = Some (mkNode 0 2).
Proof.
  apply (fusion_hangs_lower_rank_under_higher 3 2 [mkNode 0 2; mkNode 1 1; mkNode 0 1]
           0 1 (mkNode 0 2) (mkNode 1 1)).
  - split; [reflexivity|]. intros v nd H.
    pose proof (rd_range _ _ _ H) as Hr. simpl in Hr.
    assert (Hv : v = 0 \/ v = 1 \/ v = 2) by lia.
    destruct Hv as [->|[->| ->]]; inversion H; subst; cbn [node_rank node_father];
      (split; [lia|]); eexists; (split; [reflexivity|]); cbn [node_rank]; lia.
  - reflexivity.
  - reflexivity.
  - reflexivity.
  - reflexivity.
  - lia.
Defined.

(** *** [union_find] builds a spanning forest *)

(** The edges taken by a greedy run connect what the edges read connect. *)
Lemma greedy_spans acc es out :
  greedy acc es out ->
  forall e, In e es -> conn (out ++ acc) (edge_i e) (edge_j e).
Proof.
  induction 1 as [acc | acc e es out Hc Hg IH | acc e es out Hc Hg IH]; intros x Hx.
  - contradiction.
  - destruct Hx as [<-|Hx]; [|now apply IH].
    apply (conn_mono acc); [|assumption]. intros y Hy. apply in_or_app. now right.
  - destruct Hx as [<-|Hx]; [apply conn_edge; now left|].
    apply (conn_mono (out ++ e :: acc)); [|now apply IH].
    intros y Hy. apply in_app_or in Hy. destruct Hy as [Hy|[<-|Hy]].
    + right. apply in_or_app. now left.
    + now left.
    + right. apply in_or_app. now right.
Qed.

Lemma greedy_same_conn es out u v :
  greedy [] es out -> (conn es u v <-> conn out u v).
Proof.
  intros Hg. split.
  - apply conn_subst. intros e He.
    pose proof (greedy_spans _ _ _ Hg e He) as H. now rewrite app_nil_r in H.
  - apply conn_mono. eapply greedy_incl; eauto.
Qed.

(** [union_find] (lines 152-166) on the first [M] entries of an array of
    edges between vertices below [N], in any order: the edges it emits are
    those that join two vertices which the edges emitted before them do not
    connect, so that they form a forest; this forest connects the same
    vertices as the [M] edges read, although the loop stops as soon as
    [N - 1] edges are emitted; and when the edges read touch only the
    vertices [vs], at most [length vs - 1] edges are written to [tree]. *)
Theorem union_find_emits_spanning_forest
  (vs : list Z) (edges : list Edge) (N M : Z) (tree : list Edge) :
  0 <= M <= Z.of_nat (length edges) ->
  Forall (endpoints_in N) (firstn (Z.to_nat M) edges) ->
  (forall e, In e (firstn (Z.to_nat M) edges) -> In (edge_i e) vs /\ In (edge_j e) vs) ->
  Z.of_nat (length vs) - 1 <= Z.of_nat (length tree) ->
  exists out,
    union_find edges N M tree
      = Some (out ++ skipn (length out) tree, Z.of_nat (length out))
    /\ greedy [] (firstn (Z.to_nat M) edges) out
    /\ (forall u v, conn (firstn (Z.to_nat M) edges) u v <-> conn out u v)
    /\ (out = [] \/ Z.of_nat (length out) <= Z.of_nat (length vs) - 1).
Proof.
  intros HM Hval Hvs Hcap.
  destruct (union_find_greedy_region vs edges N M tree HM Hval Hvs Hcap)
    as (out & Huf & Hg & Hb).
  exists out. split; [exact Huf|]. split; [exact Hg|].
  split; [intros u v; now apply greedy_same_conn|].
  destruct Hb as [Hb|Hb]; [now left | right; lia].
Qed.

Lemma union_find_emits_spanning_forest_witness :
  exists out,
    union_find [mkEdge 2 3 9; mkEdge 1 2 5; mkEdge 1 3 1; mkEdge 0 0 7] 5 3
      (calloc_edges 2)
      = Some (out ++ skipn (length out) (calloc_edges 2), Z.of_nat (length out))
    /\ greedy [] (firstn (Z.to_nat 3)
                    [mkEdge 2 3 9; mkEdge 1 2 5; mkEdge 1 3 1; mkEdge 0 0 7]) out
    /\ (forall u v,
          conn (firstn (Z.to_nat 3)
                  [mkEdge 2 3 9; mkEdge 1 2 5; mkEdge 1 3 1; mkEdge 0 0 7]) u v
          <-> conn out u v)
    /\ (out = [] \/ Z.of_nat (length out) <= Z.of_nat (length [1; 2; 3]) - 1).
Proof.
  apply (union_find_emits_spanning_forest [1; 2; 3]
           [mkEdge 2 3 9; mkEdge 1 2 5; mkEdge 1 3 1; mkEdge 0 0 7] 5 3 (calloc_edges 2)).
  - simpl. lia.
  - simpl. repeat constructor; cbn; lia.
  - simpl. intros e [<-|[<-|[<-|[]]]]; cbn; tauto.
  - simpl. lia.
Defined.

(** *** Sequential Kruskal *)

(** [sequential_kruskal] (lines 168-175) on the matrix of a graph, with
    [M] at least the number of non-zero entries on and above the diagonal
    and room for [N - 1] edges in [tree]: the edges written to [tree] are
    the minimum spanning forest of the graph for the order of [cmp_edges],
    in ascending order.  That is, an edge of the graph is emitted exactly
    when the edges of the graph before it do not connect its endpoints, and
    the endpoints of every other edge are connected by emitted edges that
    come before it. *)
Theorem sequential_kruskal_returns_minimum_spanning_forest
  (N M : Z) (adj : Adj) (tree : list Edge) :
  N <= INT_MAX + 1 -> adjacency N adj ->
  Z.of_nat (length (upper_edges N adj)) <= M ->
  N - 1 <= Z.of_nat (length tree) ->
  exists out,
    sequential_kruskal N M adj tree
      = Some (out ++ skipn (length out) tree, Z.of_nat (length out))
    /\ msf (upper_edges N adj) out
    /\ forall e, In e out <-> In e (upper_edges N adj) /\ light (upper_edges N adj) e.
Proof.
  intros HN Hadj HM Hcap.
  exists (kruskal_forest N (upper_edges N adj)).
  split; [now apply sequential_kruskal_forest|].
  assert (Hmsf : msf (upper_edges N adj) (kruskal_forest N (upper_edges N adj))).
  { apply (kruskal_forest_msf N HN); [now apply upper_edges_valid | apply upper_edges_NoDup]. }
  split; [exact Hmsf|]. intros e. now apply msf_In.
Qed.

Lemma sequential_kruskal_returns_minimum_spanning_forest_witness :
  exists out,
    sequential_kruskal 3 4 [0; 1; 4; 1; 0; 2; 4; 2; 0] (calloc_edges 2)
      = Some (out ++ skipn (length out) (calloc_edges 2), Z.of_nat (length out))
    /\ msf (upper_edges 3 [0; 1; 4; 1; 0; 2; 4; 2; 0]) out
    /\ forall e, In e out <->
         In e (upper_edges 3 [0; 1; 4; 1; 0; 2; 4; 2; 0])
         /\ light (upper_edges 3 [0; 1; 4; 1; 0; 2; 4; 2; 0]) e.
Proof.
  apply (sequential_kruskal_returns_minimum_spanning_forest 3 4
           [0; 1; 4; 1; 0; 2; 4; 2; 0] (calloc_edges 2)).
  - unfold INT_MAX. lia.
  - apply adjacency_by_test; [lia | reflexivity | reflexivity].
  - simpl. lia.
  - simpl. lia.
Defined.

(** What [union_find] leaves in the disjoint-set array that it frees: one
    set for each tree of the forest emitted. *)
Lemma union_find_components (edges : list Edge) (N M : Z) (tree : list Edge) :
  1 <= N ->
  0 <= M <= Z.of_nat (length edges) ->
  Forall (endpoints_in N) (firstn (Z.to_nat M) edges) ->
  N - 1 <= Z.of_nat (length tree) ->
  exists out nodes',
    union_find edges N M tree
      = Some (out ++ skipn (length out) tree, Z.of_nat (length out))
    /\ greedy [] (firstn (Z.to_nat M) edges) out
    /\ wf_nodes N (1 + Z.of_nat (length out)) nodes'
    /\ count_roots nodes' = N - Z.of_nat (length out)
    /\ represents N nodes' (rev out).
Proof.
  intros HN HM Hval Hcap. unfold union_find.
  assert (Hsplit : edges = [] ++ firstn (Z.to_nat M) edges ++ skipn (Z.to_nat M) edges)
    by (simpl; symmetry; apply firstn_skipn).
  assert (Hlen : Z.of_nat (length (firstn (Z.to_nat M) edges)) = M)
    by (rewrite firstn_length_le; lia).
  destruct (union_find_loop_greedy N (iota N) (firstn (Z.to_nat M) edges) []
              (skipn (Z.to_nat M) edges) (mkUF (create_nodes N) tree 0) [])
    as (out & nodes' & Hloop & Hg & _ & Hwf & Hcnt & Hrep); cbn [uf_nodes uf_tree uf_num];
    try assumption; try lia.
  { apply create_nodes_wf. lia. }
  { rewrite count_roots_create; lia. }
  { apply represents_create. }
  { intros e [[]|He]. rewrite Forall_forall in Hval. destruct (Hval e He).
    split; now apply In_iota. }
  { rewrite length_iota. lia. }
  rewrite <- Hsplit in Hloop. rewrite Hlen in Hloop.
  cbn [length] in Hloop. rewrite <- iota_as_range in Hloop.
  rewrite Hloop. cbn [uf_tree uf_num] in *.
  exists out, nodes'. split; [now rewrite place_0|]. split; [assumption|].
  rewrite app_nil_r in Hrep. auto.
Qed.

(** When the edges taken connect all the vertices, there is one set. *)
Lemma one_component N B nodes acc :
  1 <= N -> wf_nodes N B nodes -> represents N nodes acc ->
  (forall v, 0 <= v < N -> conn acc 0 v) ->
  count_roots nodes = 1.
Proof.
  intros HN Hwf Hrep Hall.
  destruct (Root_exists N B nodes 0 Hwf ltac:(lia)) as [r0 H0].
  assert (Hone : forall r, is_root nodes r = true -> r = r0).
  { intros r Hr. unfold is_root in Hr. destruct (rd nodes r) as [nd|] eqn:E; [|discriminate].
    apply Z.eqb_eq in Hr. pose proof (rd_range _ _ _ E) as Hrange.
    destruct Hwf as [Hlen Hwf']. rewrite Hlen in Hrange.
    assert (Hrr : Root nodes r r) by (econstructor; eauto).
    destruct (conn_uf_eq N B nodes acc 0 r (conj Hlen Hwf') Hrep (Hall r Hrange) ltac:(lia))
      as (x & Hx0 & Hxr).
    rewrite (Root_functional _ _ _ _ Hrr Hxr). apply (Root_functional _ _ _ _ Hx0 H0). }
  unfold count_roots.
  assert (Hin : In r0 (filter (is_root nodes) (iota (Z.of_nat (length nodes))))).
  { apply filter_In. split; [|eapply Root_is_root_true; eauto].
    apply In_iota. destruct (Root_in_range _ _ _ H0). lia. }
  assert (Hnd : NoDup (filter (is_root nodes) (iota (Z.of_nat (length nodes)))))
    by apply NoDup_filter, NoDup_iota.
  assert (Hall' : forall x, In x (filter (is_root nodes) (iota (Z.of_nat (length nodes))))
                            -> x = r0).
  { intros x Hx. apply Hone. now apply filter_In in Hx. }
  destruct (filter (is_root nodes) (iota (Z.of_nat (length nodes)))) as [|a [|b l]].
  - contradiction.
  - reflexivity.
  - exfalso. assert (Ha : a = r0) by (apply Hall'; now left).
    assert (Hb : b = r0) by (apply Hall'; right; now left).
    subst. inversion Hnd as [|? ? Hnin _]. apply Hnin. now left.
Qed.

(** A path of entries of a symmetric matrix is a path of edges of its
    upper triangle. *)
Lemma reach_conn_upper N adj v :
  1 <= N -> symmetric N adj -> reach N adj 0 v -> conn (upper_edges N adj) 0 v.
Proof.
  intros HN Hsym H. induction H as [|v w Hr IH Hw Hne]; [apply conn_refl|].
  pose proof (reach_in_range N adj v HN Hr) as Hv.
  apply (conn_trans _ 0 v); [exact IH|].
  destruct (Z.lt_trichotomy v w) as [Hlt|[->|Hgt]].
  - apply (conn_edge _ (mkEdge v w (entry N adj v w))).
    apply In_upper_edges. exists v, w. repeat split; try lia; assumption.
  - apply conn_refl.
  - apply conn_sym. rewrite Hsym in Hne by lia.
    apply (conn_edge _ (mkEdge w v (entry N adj w v))).
    apply In_upper_edges. exists w, v. repeat split; try lia; assumption.
Qed.

(** On a connected graph the forest that Kruskal's algorithm finds has
    [N - 1] edges and connects every vertex to vertex 0. *)
Lemma kruskal_forest_spans (N : Z) (adj : Adj) :
  N <= INT_MAX + 1 -> adjacency N adj -> symmetric N adj -> connected N adj ->
  Z.of_nat (length (kruskal_forest N (upper_edges N adj))) = N - 1
  /\ (forall e, In e (kruskal_forest N (upper_edges N adj)) -> In e (upper_edges N adj))
  /\ forall v, 0 <= v < N -> conn (kruskal_forest N (upper_edges N adj)) 0 v.
Proof.
  intros HNmax Hadj Hsym [HN Hconn].
  set (es := upper_edges N adj).
  assert (Hval : Forall (valid_edge N) es) by (now apply upper_edges_valid).
  assert (Hlen : Z.to_nat (Z.of_nat (length es)) = length (sort_edges es))
    by (rewrite length_sort_edges; lia).
  destruct (union_find_components (sort_edges es) N (Z.of_nat (length es))
              (calloc_edges (N - 1)) HN) as (out & nodes' & Huf & Hg & Hwf & Hcnt & Hrep).
  { rewrite length_sort_edges. lia. }
  { rewrite Hlen, firstn_all. apply Forall_forall. intros e He.
    apply (proj1 (sort_edges_In _ _)) in He. rewrite Forall_forall in Hval.
    apply (valid_endpoints N). now apply Hval. }
  { unfold calloc_edges. rewrite repeat_length. lia. }
  rewrite Hlen, firstn_all in Hg.
  assert (Hout : kruskal_forest N es = out).
  { unfold kruskal_forest. rewrite Huf, Nat2Z.id. now apply firstn_exact. }
  assert (Hspan : forall v, 0 <= v < N -> conn out 0 v).
  { intros v Hv. apply (greedy_same_conn (sort_edges es)); [assumption|].
    apply (conn_mono es); [intros e He; now apply sort_edges_In|].
    apply reach_conn_upper; auto. }
  assert (Hone : count_roots nodes' = 1).
  { apply (one_component N _ nodes' (rev out) HN Hwf Hrep).
    intros v Hv. apply (conn_mono out); [intros e He; now apply in_rev in He|].
    now apply Hspan. }
  rewrite Hout. split; [lia|]. split; [|exact Hspan].
  intros e He. apply (proj1 (sort_edges_In es e)). eapply greedy_incl; eauto.
Qed.

(** On a connected graph the minimum spanning forest is a spanning tree:
    [sequential_kruskal] emits exactly [N - 1] edges, and they connect every
    vertex to vertex 0. *)
Theorem sequential_kruskal_spans_connected_graph
  (N M : Z) (adj : Adj) (tree : list Edge) :
  N <= INT_MAX + 1 -> adjacency N adj -> symmetric N adj -> connected N adj ->
  Z.of_nat (length (upper_edges N adj)) <= M ->
  N - 1 <= Z.of_nat (length tree) ->
  exists out,
    sequential_kruskal N M adj tree
      = Some (out ++ skipn (Z.to_nat (N - 1)) tree, N - 1)
    /\ Z.of_nat (length out) = N - 1
    /\ (forall e, In e out -> In e (upper_edges N adj))
    /\ forall v, 0 <= v < N -> conn out 0 v.
Proof.
  intros HNmax Hadj Hsym Hconn HM Hcap.
  destruct (kruskal_forest_spans N adj HNmax Hadj Hsym Hconn) as (Hn & Hin & Hspan).
  exists (kruskal_forest N (upper_edges N adj)).
  rewrite (sequential_kruskal_forest N M adj tree HNmax Hadj HM Hcap).
  split; [now rewrite Hn, <- Hn, Nat2Z.id|]. auto.
Qed.

Lemma sequential_kruskal_spans_connected_graph_witness :
  exists out,
    sequential_kruskal 3 3 [0; 1; 4; 1; 0; 2; 4; 2; 0] (calloc_edges 2)
      = Some (out ++ skipn (Z.to_nat (3 - 1)) (calloc_edges 2), 3 - 1)
    /\ Z.of_nat (length out) = 3 - 1
    /\ (forall e, In e out -> In e (upper_edges 3 [0; 1; 4; 1; 0; 2; 4; 2; 0]))
    /\ forall v, 0 <= v < 3 -> conn out 0 v.
Proof.
  apply (sequential_kruskal_spans_connected_graph 3 3 [0; 1; 4; 1; 0; 2; 4; 2; 0]
           (calloc_edges 2)).
  - unfold INT_MAX. lia.
  - apply adjacency_by_test; [lia | reflexivity | reflexivity].
  - apply symmetric_by_test. reflexivity.
  - split; [lia|]. intros v Hv.
    assert (Ev : v = 0 \/ v = 1 \/ v = 2) by lia.
    destruct Ev as [->|[->| ->]].
    + apply reach_refl.
    + apply (reach_step 3 _ 0 0 1); [apply reach_refl | lia | discriminate].
    + apply (reach_step 3 _ 0 0 2); [apply reach_refl | lia | discriminate].
  - simpl. lia.
  - simpl. lia.
Defined.


(** *** The heap as a bag of edges *)

(** [add_edge] (lines 396-407) and [extract_min] (lines 409-424) on a heap
    built by these operations: the heap holds exactly the edges that were
    added and not yet extracted, each as many times as it was added;
    [curEnd - 1] counts them; and the edge extracted is not after any edge
    held, for [cmp_edges]. *)
Theorem heap_holds_the_edges_added_and_not_extracted (h : Heap) :
  reachable h ->
  Z.of_nat (length (heap_elems h)) = curEnd h - 1
  /\ curEnd h <= sizeMax h
  /\ (forall e, curEnd h < sizeMax h -> model_edge e ->
        exists h', add_edge h e = Some h'
          /\ curEnd h' = curEnd h + 1 /\ sizeMax h' = sizeMax h
          /\ Permutation (heap_elems h') (e :: heap_elems h))
  /\ (1 < curEnd h ->
        exists top h', extract_min h = Some (top, h')
          /\ curEnd h' = curEnd h - 1 /\ sizeMax h' = sizeMax h
          /\ Permutation (top :: heap_elems h') (heap_elems h)
          /\ forall x, In x (heap_elems h) -> cmp_edges top x <= 0).
Proof.
  intros Hr. pose proof (reachable_inv h Hr) as Hinv.
  split; [now apply length_heap_elems|].
  split; [destruct Hinv as (Hsz & [Hlen _] & _); lia|]. split.
  - intros e Hcap He.
    destruct (add_edge_spec h e Hinv Hcap He) as (h' & Hadd & _ & Hce & Hsz & Hp).
    exists h'. auto.
  - intros Hne.
    destruct (extract_min_spec h Hinv Hne)
      as (top & h' & Hex & _ & Hce & Hsz & Hp & _ & Hmin).
    exists top, h'. split; [exact Hex|]. split; [exact Hce|]. split; [exact Hsz|].
    split; [exact Hp|]. intros x Hx.
    destruct (heap_elems_slot h x Hinv Hx) as (k & Hk & <-). now apply Hmin.
Qed.

Lemma heap_holds_the_edges_added_and_not_extracted_witness :
  Z.of_nat (length (heap_elems (mkHeap 3 2 [zero_edge; mkEdge 0 2 4; zero_edge])))
  = curEnd (mkHeap 3 2 [zero_edge; mkEdge 0 2 4; zero_edge]) - 1.
Proof.
  apply (heap_holds_the_edges_added_and_not_extracted
           (mkHeap 3 2 [zero_edge; mkEdge 0 2 4; zero_edge])).
  apply (reachable_add (create_heap 2) (mkEdge 0 2 4)).
  - apply reachable_create. lia.
  - simpl. lia.
  - unfold model_edge, valid_edge, INT_MAX. simpl. lia.
  - reflexivity.
Defined.

(** [add_edge] does not look at [sizeMax]: on a heap built by the heap
    operations it stays inside the array exactly when the heap is not full;
    on a full heap the [memcpy] writes past the end of [data]. *)
Theorem add_edge_in_bounds_iff_not_full (h : Heap) (e : Edge) :
  reachable h -> model_edge e ->
  (add_edge h e <> None <-> curEnd h < sizeMax h).
Proof.
  intros Hr He. pose proof (reachable_inv h Hr) as Hinv. split.
  - intros Hsome. destruct (Z.lt_ge_cases (curEnd h) (sizeMax h)) as [H|H]; [assumption|].
    exfalso. apply Hsome. unfold add_edge.
    destruct (wr (data h) (curEnd h) e) as [d|] eqn:Hw; [|reflexivity].
    apply wr_Some in Hw. destruct Hinv as (Hsz & _). lia.
  - intros Hcap. destruct (add_edge_spec h e Hinv Hcap He) as (h' & Hadd & _).
    rewrite Hadd. discriminate.
Qed.

Lemma add_edge_in_bounds_iff_not_full_witness :
  add_edge (mkHeap 2 2 [zero_edge; mkEdge 0 2 4]) (mkEdge 0 1 1) = None.
Proof.
  destruct (add_edge (mkHeap 2 2 [zero_edge; mkEdge 0 2 4]) (mkEdge 0 1 1)) as [h'|] eqn:E;
    [|reflexivity].
  exfalso.
  assert (H : add_edge (mkHeap 2 2 [zero_edge; mkEdge 0 2 4]) (mkEdge 0 1 1) <> None)
    by (rewrite E; discriminate).
  apply (add_edge_in_bounds_iff_not_full (mkHeap 2 2 [zero_edge; mkEdge 0 2 4])
           (mkEdge 0 1 1)) in H.
  - simpl in H. lia.
  - apply (reachable_add (create_heap 1) (mkEdge 0 2 4)).
    + apply reachable_create. lia.
    + simpl. lia.
    + unfold model_edge, valid_edge, INT_MAX. simpl. lia.
    + reflexivity.
  - unfold model_edge, valid_edge, INT_MAX. simpl. lia.
Defined.

(** [extract_min] does not look whether the heap is empty.  On an empty
    heap with room for an edge or more it returns the stale content of slot
    1 and leaves [curEnd = 0]; the next [add_edge] then writes slot 0, which
    the heap never reads, and the edge added is lost: the heap is empty
    again. *)
Theorem extract_min_of_empty_heap_loses_next_edge (h : Heap) :
  reachable h -> curEnd h = 1 -> 2 <= sizeMax h ->
  exists top h',
    extract_min h = Some (top, h')
    /\ rd (data h) 1 = Some top
    /\ curEnd h' = 0
    /\ forall e, exists h'',
         add_edge h' e = Some h'' /\ curEnd h'' = 1 /\ heap_elems h'' = [].
Proof.
  intros Hr Hce Hsz. pose proof (reachable_inv h Hr) as (Hlen & _ & _).
  unfold extract_min. rewrite Hce. cbn [Z.sub Z.add Z.opp Z.pos_sub].
  destruct (rd_in_range (data h) 1 ltac:(lia)) as [top Htop]. rewrite Htop.
  destruct (swap_edges_spec (data h) 1 0) as (d1 & Hsw & Hl1 & _); try lia.
  rewrite Hsw. cbn [sift_down Z.to_nat left Z.mul Z.ltb Z.compare].
  exists top, (mkHeap (sizeMax h) 0 d1). split; [reflexivity|]. split; [reflexivity|].
  split; [reflexivity|]. intros e. unfold add_edge. cbn [data curEnd sizeMax].
  destruct (wr d1 0 e) as [d2|] eqn:Hw; [|rewrite wr_in_range in Hw by lia; discriminate].
  cbn [sift_up Z.to_nat father Z.quot Z.quotrem Z.eqb negb fst].
  exists (mkHeap (sizeMax h) 1 d2). split; [reflexivity|]. split; [reflexivity|].
  reflexivity.
Qed.

Lemma extract_min_of_empty_heap_loses_next_edge_witness :
  exists top h',
    extract_min (create_heap 1) = Some (top, h')
    /\ rd (data (create_heap 1)) 1 = Some top
    /\ curEnd h' = 0
    /\ forall e, exists h'',
         add_edge h' e = Some h'' /\ curEnd h'' = 1 /\ heap_elems h'' = [].
Proof.
  apply (extract_min_of_empty_heap_loses_next_edge (create_heap 1)).
  - apply reachable_create. lia.
  - reflexivity.
  - simpl. lia.
Defined.

(** *** [add_neighbors] *)

(** [add_neighbors] (lines 426-434) on a well-formed heap with room for
    [N] more edges: the heap receives the edge [node - neighbor] for every
    [neighbor] that is adjacent to [node] and is not marked in [isVisited],
    once each, and nothing else; the edges it held stay. *)
Theorem add_neighbors_pushes_edges_to_unvisited_neighbours
  (node N : Z) (adj : Adj) (isVisited : list Z) (heap : Heap) :
  N <= INT_MAX + 1 -> adjacency N adj -> 0 <= node < N ->
  Z.of_nat (length isVisited) = N ->
  heap_inv heap -> curEnd heap + N <= sizeMax heap ->
  exists heap' pushed,
    add_neighbors node N adj isVisited heap = Some heap'
    /\ heap_inv heap'
    /\ Permutation (heap_elems heap') (pushed ++ heap_elems heap)
    /\ NoDup pushed
    /\ forall e, In e pushed <->
         exists neighbor, 0 <= neighbor < N
           /\ entry N adj node neighbor <> 0
           /\ rd isVisited neighbor = Some 0
           /\ e = init_edge node neighbor (entry N adj node neighbor).
Proof.
  intros HN Hadj Hnode Hlen Hinv Hcap. unfold add_neighbors.
  pose proof (length_pushed_edges node N adj isVisited (iota N)) as Hle.
  rewrite length_iota in Hle.
  destruct (add_neighbors_loop_spec node N adj isVisited (iota N) heap Hinv)
    as (heap' & Hloop & Hinv' & _ & _ & Hp).
  - intros nb Hnb. apply In_iota in Hnb. split; [|lia].
    apply adjacency_index; auto.
  - intros e He. apply In_pushed_edges in He.
    destruct He as (nb & Hnb & _ & _ & ->). apply In_iota in Hnb.
    apply (init_edge_model N); auto. now apply entry_range.
  - lia.
  - exists heap', (pushed_edges node N adj isVisited (iota N)).
    split; [exact Hloop|]. split; [exact Hinv'|]. split; [exact Hp|].
    split; [apply NoDup_pushed_edges, NoDup_iota|].
    intros e. rewrite In_pushed_edges. split.
    + intros (nb & Hnb & H). exists nb. apply In_iota in Hnb. tauto.
    + intros (nb & Hnb & H). exists nb. split; [now apply In_iota | tauto].
Qed.

Lemma add_neighbors_pushes_edges_to_unvisited_neighbours_witness :
  exists heap' pushed,
    add_neighbors 1 3 [0; 1; 4; 1; 0; 2; 4; 2; 0] [1; 1; 0] (create_heap 3) = Some heap'
    /\ heap_inv heap'
    /\ Permutation (heap_elems heap') (pushed ++ heap_elems (create_heap 3))
    /\ NoDup pushed
    /\ forall e, In e pushed <->
         exists neighbor, 0 <= neighbor < 3
           /\ entry 3 [0; 1; 4; 1; 0; 2; 4; 2; 0] 1 neighbor <> 0
           /\ rd [1; 1; 0] neighbor = Some 0
           /\ e = init_edge 1 neighbor (entry 3 [0; 1; 4; 1; 0; 2; 4; 2; 0] 1 neighbor).
Proof.
  apply (add_neighbors_pushes_edges_to_unvisited_neighbours 1 3
           [0; 1; 4; 1; 0; 2; 4; 2; 0] [1; 1; 0] (create_heap 3)).
  - unfold INT_MAX. lia.
  - apply adjacency_by_test; [lia | reflexivity | reflexivity].
  - lia.
  - reflexivity.
  - apply create_heap_inv. lia.
  - simpl. lia.
Defined.

(** *** Sequential Prim follows Prim's rule *)

Lemma prim_run_conn N adj vis out vis' :
  prim_run N adj vis out vis' ->
  forall v, In v vis' -> exists u, In u vis /\ conn out u v.
Proof.
  induction 1 as [|out vis' u v Hrun IH Hu Hv Hr Hne Hmin]; intros x Hx.
  - exists x. split; [assumption | apply conn_refl].
  - assert (Hmono : forall a b, conn out a b ->
              conn (out ++ [init_edge u v (entry N adj u v)]) a b).
    { intros a b. apply conn_mono. intros e He. apply in_or_app. now left. }
    destruct Hx as [<-|Hx].
    + destruct (IH u Hu) as (r & Hr0 & Hc). exists r. split; [assumption|].
      apply (conn_trans _ r u); [now apply Hmono|].
      assert (He : conn (out ++ [init_edge u v (entry N adj u v)])
                     (edge_i (init_edge u v (entry N adj u v)))
                     (edge_j (init_edge u v (entry N adj u v))))
        by (apply conn_edge, in_or_app; right; now left).
      destruct (init_edge_endpoints u v (entry N adj u v)) as [[A B]|[A B]];
        rewrite A, B in He; [assumption | now apply conn_sym].
    + destruct (IH x Hx) as (r & Hr0 & Hc). exists r. split; [assumption | now apply Hmono].
Qed.

Lemma prim_run_length N adj vis out vis' :
  prim_run N adj vis out vis' -> length vis' = (length vis + length out)%nat.
Proof.
  induction 1; [simpl; lia|]. rewrite length_app. simpl. lia.
Qed.

Section PrimRule.

Variables (N M : Z) (adj : Adj) (edges0 : list Edge).
Hypothesis HN : N <= INT_MAX + 1.
Hypothesis Hadj : adjacency N adj.
Hypothesis Hsym : symmetric N adj.
Hypothesis HM : Z.of_nat (length (upper_edges N adj)) <= M.
Hypothesis Hbuf : N - 1 <= Z.of_nat (length edges0).

(** The loop of [sequential_prim] extends a run of Prim's rule. *)
Lemma prim_loop_rule (fuel : nat) : forall (s : Prim) (vis : list Z),
  prim_inv N M adj edges0 s ->
  prim_measure N s < Z.of_nat fuel ->
  prim_run N adj [0] (firstn (Z.to_nat (pr_curEdge s)) (pr_edges s)) vis ->
  (forall v, visited (pr_isVisited s) v <-> In v vis) ->
  exists s' vis',
    prim_loop fuel N adj s = Some s'
    /\ prim_inv N M adj edges0 s'
    /\ (curEnd (pr_heap s') = 1 \/ N <= pr_curEdge s')
    /\ prim_run N adj [0] (firstn (Z.to_nat (pr_curEdge s')) (pr_edges s')) vis'
    /\ (forall v, visited (pr_isVisited s') v <-> In v vis').
Proof.
  induction fuel as [|fuel IH]; intros s vis Hinv Hmu Hrun Hvis.
  - pose proof (prim_measure_nonneg _ _ _ _ _ Hinv). lia.
  - destruct (negb (curEnd (pr_heap s) =? 1) && (pr_curEdge s <? N)) eqn:Hcond.
    2:{ exists s, vis. cbn [prim_loop]. rewrite Hcond.
        split; [reflexivity|]. split; [assumption|]. split; [|auto].
        apply andb_false_iff in Hcond. destruct Hcond as [Hc|Hc].
        - left. apply negb_false_iff in Hc. now apply Z.eqb_eq.
        - right. apply Z.ltb_ge in Hc. lia. }
    apply andb_true_iff in Hcond. destruct Hcond as [Hc1 Hc2].
    apply negb_true_iff, Z.eqb_neq in Hc1. apply Z.ltb_lt in Hc2.
    destruct (prim_iteration N M adj edges0 HN Hadj Hsym HM Hbuf s Hinv Hc1 Hc2)
      as (s1 & Hstep & Hinv1 & Hmu1 & Hcase).
    rewrite Hstep.
    destruct Hcase as [(E1 & E2 & E3)
                      |(u & v & Hu & Hv & Hvu & Hnv & Hne & Hmin & E1 & Hw & E3)].
    + apply (IH s1 vis); [assumption | lia | now rewrite E1, E3 | now rewrite E2].
    + pose proof Hinv as (Hfr & Hv0 & Hcnt & Hlen & _).
      pose proof Hfr as (Hivlen & _).
      pose proof (count_visited_pos _ 0 Hv0) as Hc0.
      assert (Hcl : count_visited (pr_isVisited s) < N)
        by (rewrite <- Hivlen; eapply count_visited_lt; eauto).
      assert (Hnvis : ~ visited (pr_isVisited s) v)
        by (intros (x & Hx & Hx0); congruence).
      apply (IH s1 (v :: vis)); [assumption | lia | |].
      * rewrite E1, E3.
        replace (Z.to_nat (pr_curEdge s + 1)) with (S (Z.to_nat (pr_curEdge s))) by lia.
        rewrite firstn_S_upd by lia.
        apply prim_run_snoc; auto.
        -- now apply Hvis.
        -- intros Hin. apply Hnvis. now apply Hvis.
        -- intros u' v' Hu' Hv' Hr' Hne'. apply Hmin; auto.
           ++ apply Hvis in Hu'. destruct Hu' as (x & Hx & _).
              apply rd_range in Hx. lia.
           ++ now apply Hvis.
           ++ intros Hc. apply Hv'. now apply Hvis.
      * intros x. rewrite (visited_wr _ _ _ x Hw). rewrite Hvis. cbn [In].
        split; intros [H|H]; auto.
Qed.

End PrimRule.

Lemma prim_run_NoDup N adj vis out vis' :
  prim_run N adj vis out vis' -> NoDup vis -> NoDup vis'.
Proof. induction 1; intros Hnd; [assumption|]. constructor; auto. Qed.

Lemma prim_run_range N adj vis out vis' :
  prim_run N adj vis out vis' ->
  (forall v, In v vis -> 0 <= v < N) -> forall v, In v vis' -> 0 <= v < N.
Proof.
  induction 1; intros Hr x Hx; [now apply Hr|].
  destruct Hx as [<-|Hx]; [assumption | now apply IHprim_run].
Qed.

Lemma prim_run_reach N adj out vis :
  prim_run N adj [0] out vis -> forall v, In v vis -> reach N adj 0 v.
Proof.
  induction 1 as [|out vis' u v Hrun IH Hu Hv Hr Hne Hmin]; intros x Hx.
  - destruct Hx as [<-|[]]. apply reach_refl.
  - destruct Hx as [<-|Hx]; [|now apply IH].
    apply (reach_step N adj 0 u v); auto.
Qed.

(** A run of Prim's rule from vertex 0 that has taken in every vertex that
    can be reached has [N - 1] edges exactly when the graph is connected. *)
Lemma prim_run_spans N adj out vis :
  1 <= N -> prim_run N adj [0] out vis ->
  (forall v, reach N adj 0 v -> In v vis) ->
  Z.of_nat (length out) <= N - 1
  /\ (Z.of_nat (length out) = N - 1 <-> connected N adj).
Proof.
  intros HN Hrun Hclosed.
  assert (Hnd : NoDup vis).
  { apply (prim_run_NoDup _ _ _ _ _ Hrun). constructor; [intros []|constructor]. }
  assert (Hr : forall v, In v vis -> 0 <= v < N).
  { apply (prim_run_range _ _ _ _ _ Hrun). intros v [<-|[]]. lia. }
  pose proof (prim_run_length _ _ _ _ _ Hrun) as Hl. cbn [length] in Hl.
  assert (Hle : (length vis <= length (iota N))%nat).
  { apply NoDup_incl_length; [exact Hnd|]. intros v Hv. apply In_iota. now apply Hr. }
  rewrite length_iota in Hle.
  split; [lia|]. split.
  - intros Hn. split; [assumption|].
    assert (Hincl : incl (iota N) vis).
    { apply (NoDup_length_incl Hnd).
      - rewrite length_iota. lia.
      - intros v Hv. apply In_iota. now apply Hr. }
    intros v Hv. apply (prim_run_reach N adj out vis Hrun). apply Hincl. now apply In_iota.
  - intros [_ Hconn].
    assert (Hge : (length (iota N) <= length vis)%nat).
    { apply NoDup_incl_length; [apply NoDup_iota|].
      intros v Hv. apply In_iota in Hv. apply Hclosed. now apply Hconn. }
    rewrite length_iota in Hge. lia.
Qed.

(** The run of [sequential_prim] on any graph. *)
Lemma sequential_prim_result
  (N M : Z) (adj : Adj) (edges : list Edge) :
  1 <= N -> N <= INT_MAX + 1 ->
  adjacency N adj -> symmetric N adj ->
  Z.of_nat (length (upper_edges N adj)) <= M ->
  N - 1 <= Z.of_nat (length edges) ->
  exists out vis,
    sequential_prim N M adj edges
      = Some (out ++ skipn (length out) edges, Z.of_nat (length out))
    /\ prim_run N adj [0] out vis
    /\ (forall v, reach N adj 0 v -> In v vis).
Proof.
  intros HN1 HN Hadj Hsym HM Hbuf. unfold sequential_prim.
  destruct (visit_spec N M adj (calloc_int N) (create_heap M) 0)
    as (iv1 & heap1 & Hw & Hadd & Hfr & Hcnt & Hce); auto; try lia.
  { split; [unfold calloc_int; rewrite repeat_length; lia|].
    split; [apply create_heap_inv; lia|]. split; [reflexivity|].
    split; [intros e []|]. split; [constructor|].
    intros u v _ _ Hvis. exfalso. eapply not_visited_calloc; eauto. }
  { apply rd_calloc_int. lia. }
  rewrite Hw, Hadd. rewrite count_visited_calloc in Hcnt.
  destruct (prim_loop_rule N M adj edges HN Hadj Hsym HM Hbuf (Z.to_nat (N * N))
              (mkPrim 0 iv1 heap1 edges) [0]) as (s' & vis & Hloop & Hinv & Hexit & Hrun & Hvis).
  - split; [exact Hfr|]. cbn [pr_curEdge pr_isVisited pr_heap pr_edges].
    split; [apply (visited_wr _ _ _ _ Hw); now right|].
    split; [lia|]. split; [reflexivity|]. split; [reflexivity | constructor].
  - unfold prim_measure. cbn [pr_curEdge pr_isVisited pr_heap pr_edges].
    cbn [curEnd create_heap] in Hce. nia.
  - cbn [pr_curEdge pr_edges Z.to_nat firstn]. constructor.
  - cbn [pr_isVisited]. intros v. rewrite (visited_wr _ _ _ v Hw). cbn [In].
    split; [intros [H|H]; [exfalso; eapply not_visited_calloc; eauto | auto]|].
    intros [H|[]]; auto.
  - rewrite Hloop.
    destruct Hinv as (Hfr' & Hv0 & Hcur & Hlen & Hskip & Hemit).
    pose proof Hfr' as (Hivlen & Hhinv & _ & _ & _ & Hcross).
    pose proof (count_visited_le (pr_isVisited s')) as Hle.
    pose proof (count_visited_pos _ 0 Hv0) as Hpos.
    assert (Hempty : heap_elems (pr_heap s') = []).
    { destruct Hexit as [He|He]; [|lia].
      pose proof (length_heap_elems _ Hhinv) as Hl. rewrite He in Hl.
      destruct (heap_elems (pr_heap s')); [reflexivity | simpl in Hl; lia]. }
    assert (Hall : forall v, reach N adj 0 v -> 0 <= v < N -> visited (pr_isVisited s') v).
    { induction 1 as [|v w Hr IH Hw' Hne]; intros Hv; [assumption|].
      inversion Hr as [Heq | v0 w0 Hr0 Hv0' Hne0]; subst.
      - destruct (visited_dec (pr_isVisited s') w ltac:(lia)) as [[_ Hnv]|Hvis']; [|assumption].
        exfalso. specialize (Hcross 0 w ltac:(lia) Hv Hv0 Hnv (fun f => f) Hne).
        now rewrite Hempty in Hcross.
      - destruct (visited_dec (pr_isVisited s') w ltac:(lia)) as [[_ Hnv]|Hvis']; [|assumption].
        exfalso. specialize (Hcross v w Hv0' Hv (IH Hv0') Hnv (fun f => f) Hne).
        now rewrite Hempty in Hcross. }
    set (out := firstn (Z.to_nat (pr_curEdge s')) (pr_edges s')) in *.
    assert (Hout : length out = Z.to_nat (pr_curEdge s')).
    { unfold out. rewrite length_firstn. lia. }
    exists out, vis. split; [|split; [exact Hrun|]].
    + rewrite Hout, Z2Nat.id by lia. rewrite <- Hskip. unfold out.
      now rewrite firstn_skipn.
    + intros v Hr. apply Hvis. apply Hall; [assumption|].
      now apply (reach_in_range N adj v HN1).
Qed.


(** The edges of a run of Prim's rule are edges of the graph. *)
Lemma prim_run_upper N adj out vis :
  1 <= N -> symmetric N adj -> prim_run N adj [0] out vis ->
  Forall (fun e => In e (upper_edges N adj)) out.
Proof.
  intros HN Hsym Hrun.
  assert (Hr : forall v, In v vis -> 0 <= v < N).
  { apply (prim_run_range _ _ _ _ _ Hrun). intros v [<-|[]]. lia. }
  revert Hr. induction Hrun as [|out vis' u v Hrun IH Hu Hv Hvr Hne Hmin]; intros Hr.
  - constructor.
  - apply Forall_app. split.
    + apply IH. intros x Hx. apply Hr. now right.
    + constructor; [|constructor].
      apply init_edge_upper; auto. apply Hr. now right.
Qed.

(** C2.  On a connected graph with [N] vertices (a symmetric matrix of
    non-negative weights with at most [M] edges), [sequential_prim], which
    starts from vertex 0 marked visited, pops the heap minimum, discards it
    when its candidate endpoint is visited and otherwise emits it and pushes
    the edges of the new vertex to its unvisited neighbours, terminates and
    emits exactly [N - 1] edges into the output buffer; each one is an edge
    of the graph.  The edges emitted follow Prim's rule from vertex 0: each
    of them leads from a vertex that was visited when it was emitted to a
    vertex that was not, no edge between the visited vertices and the others
    was lighter at that moment, and in the end every vertex is visited. *)
Theorem sequential_prim_emits_N_minus_1_edges
  (N M : Z) (adj : Adj) (edges : list Edge) :
  N <= INT_MAX + 1 ->
  adjacency N adj -> symmetric N adj -> connected N adj ->
  Z.of_nat (length (upper_edges N adj)) <= M ->
  N - 1 <= Z.of_nat (length edges) ->
  exists out,
    sequential_prim N M adj edges
      = Some (out ++ skipn (Z.to_nat (N - 1)) edges, N - 1)
    /\ Z.of_nat (length out) = N - 1
    /\ Forall (fun e => In e (upper_edges N adj)) out
    /\ exists vis,
         prim_run N adj [0] out vis
         /\ (forall v, 0 <= v < N -> In v vis).
Proof.
  intros HN Hadj Hsym Hconn HM Hbuf. pose proof (proj1 Hconn) as HN1.
  destruct (sequential_prim_result N M adj edges HN1 HN Hadj Hsym HM Hbuf)
    as (out & vis & Hres & Hrun & Hclosed).
  destruct (prim_run_spans N adj out vis HN1 Hrun Hclosed) as [_ Hc].
  pose proof (proj2 Hc Hconn) as Hlen.
  exists out. split; [|split; [exact Hlen|split]].
  - rewrite Hres, Hlen. replace (length out) with (Z.to_nat (N - 1)) by lia. reflexivity.
  - now apply (prim_run_upper N adj out vis).
  - exists vis. split; [exact Hrun|].
    intros v Hv. apply Hclosed. now apply (proj2 Hconn).
Qed.

Lemma sequential_prim_emits_N_minus_1_edges_witness :
  exists out,
    sequential_prim 3 3 [0; 1; 1; 1; 0; 1; 1; 1; 0] (calloc_edges 2)
      = Some (out ++ skipn (Z.to_nat (3 - 1)) (calloc_edges 2), 3 - 1)
    /\ Z.of_nat (length out) = 3 - 1
    /\ Forall (fun e => In e (upper_edges 3 [0; 1; 1; 1; 0; 1; 1; 1; 0])) out
    /\ exists vis,
         prim_run 3 [0; 1; 1; 1; 0; 1; 1; 1; 0] [0] out vis
         /\ (forall v, 0 <= v < 3 -> In v vis).
Proof.
  apply (sequential_prim_emits_N_minus_1_edges 3 3 [0; 1; 1; 1; 0; 1; 1; 1; 0]
           (calloc_edges 2)).
  - unfold INT_MAX. lia.
  - split; [lia|]. split; [reflexivity|].
    intros a Ha. unfold INT_MAX. simpl in Ha.
    repeat (destruct Ha as [<-|Ha]; [lia|]). contradiction.
  - intros i j Hi Hj.
    assert (Ei : i = 0 \/ i = 1 \/ i = 2) by lia.
    assert (Ej : j = 0 \/ j = 1 \/ j = 2) by lia.
    destruct Ei as [->|[->| ->]], Ej as [->|[->| ->]]; reflexivity.
  - split; [lia|]. intros v Hv.
    assert (Ev : v = 0 \/ v = 1 \/ v = 2) by lia.
    destruct Ev as [->|[->| ->]].
    + apply reach_refl.
    + apply (reach_step 3 _ 0 0 1); [apply reach_refl | lia | discriminate].
    + apply (reach_step 3 _ 0 0 2); [apply reach_refl | lia | discriminate].
  - simpl. lia.
  - simpl. lia.
Defined.

(** [sequential_prim] (lines 436-454) grows a tree from vertex 0 by Prim's
    rule: every edge it emits leads from a vertex already in the tree to a
    vertex that is not, and no edge between the tree and the rest of the
    graph is lighter.  It stops when the heap is empty; the tree then
    spans the vertices that can be reached from vertex 0, and only them.
    It emits [N - 1] edges exactly when the graph is connected; otherwise
    it emits fewer, and the rest of the output buffer is left as it was. *)
Theorem sequential_prim_follows_prim_rule
  (N M : Z) (adj : Adj) (edges : list Edge) :
  1 <= N -> N <= INT_MAX + 1 ->
  adjacency N adj -> symmetric N adj ->
  Z.of_nat (length (upper_edges N adj)) <= M ->
  N - 1 <= Z.of_nat (length edges) ->
  exists out vis,
    sequential_prim N M adj edges
      = Some (out ++ skipn (length out) edges, Z.of_nat (length out))
    /\ prim_run N adj [0] out vis
    /\ (forall v, In v vis <-> reach N adj 0 v)
    /\ (forall v, In v vis -> conn out 0 v)
    /\ Z.of_nat (length out) <= N - 1
    /\ (Z.of_nat (length out) = N - 1 <-> connected N adj).
Proof.
  intros HN1 HN Hadj Hsym HM Hbuf.
  destruct (sequential_prim_result N M adj edges HN1 HN Hadj Hsym HM Hbuf)
    as (out & vis & Hres & Hrun & Hclosed).
  exists out, vis. split; [exact Hres|]. split; [exact Hrun|].
  split; [|split].
  - intros v. split; [apply (prim_run_reach N adj out vis Hrun) | apply Hclosed].
  - intros v Hv. destruct (prim_run_conn _ _ _ _ _ Hrun v Hv) as (u & [<-|[]] & Hc).
    exact Hc.
  - now apply (prim_run_spans N adj out vis).
Qed.

Lemma sequential_prim_follows_prim_rule_witness :
  exists out vis,
    sequential_prim 3 3 [0; 1; 4; 1; 0; 2; 4; 2; 0] (calloc_edges 2)
      = Some (out ++ skipn (length out) (calloc_edges 2), Z.of_nat (length out))
    /\ prim_run 3 [0; 1; 4; 1; 0; 2; 4; 2; 0] [0] out vis
    /\ (forall v, In v vis <-> reach 3 [0; 1; 4; 1; 0; 2; 4; 2; 0] 0 v)
    /\ (forall v, In v vis -> conn out 0 v)
    /\ Z.of_nat (length out) <= 3 - 1
    /\ (Z.of_nat (length out) = 3 - 1 <-> connected 3 [0; 1; 4; 1; 0; 2; 4; 2; 0]).
Proof.
  apply (sequential_prim_follows_prim_rule 3 3 [0; 1; 4; 1; 0; 2; 4; 2; 0]
           (calloc_edges 2)).
  - lia.
  - unfold INT_MAX. lia.
  - apply adjacency_by_test; [lia | reflexivity | reflexivity].
  - apply symmetric_by_test. reflexivity.
  - simpl. lia.
  - simpl. lia.
Defined.


(** ** Parallel Prim follows Prim's rule *)

(** *** Comparing weights with [cmp_edges] *)

Lemma cmp_gt_weight a b :
  model_edge a -> model_edge b -> (cmp_edges a b >? 0) = true -> edge_w b <= edge_w a.
Proof.
  intros Ha Hb H. apply Z.gtb_lt in H.
  rewrite (cmp_edges_valid _ a b INT_MAX_bound Ha Hb) in H.
  destruct (Z.eqb_spec (edge_w a) (edge_w b)); cbn [negb] in H; lia.
Qed.

Lemma cmp_le_weight a b :
  model_edge a -> model_edge b -> (cmp_edges a b >? 0) = false -> edge_w a <= edge_w b.
Proof.
  intros Ha Hb H. destruct (Z.gtb_spec (cmp_edges a b) 0) as [|Hle]; [discriminate|].
  rewrite (cmp_edges_valid _ a b INT_MAX_bound Ha Hb) in Hle.
  destruct (Z.eqb_spec (edge_w a) (edge_w b)); cbn [negb] in Hle; lia.
Qed.

Lemma init_edge_sym u v w : init_edge u v w = init_edge v u w.
Proof.
  unfold init_edge.
  destruct (Z.ltb_spec u v), (Z.gtb_spec v u), (Z.ltb_spec v u), (Z.gtb_spec u v);
    try lia; try reflexivity; f_equal; lia.
Qed.

(** *** [find_closest_border] returns a candidate row of least weight *)

Section FindMin.

Variables (N nbRows procRank : Z) (border : list BorderNode) (iv : list Z).

Lemma find_closest_border_loop_min (l1 l2 : list Z) (yOpt : Z) (smallest : Edge) :
  (forall y, In y l1 ->
     0 <= y < nbRows /\ procRank * nbRows + y < N
     /\ 0 <= y + procRank * nbRows < Z.of_nat (length iv)
     /\ 0 <= y < Z.of_nat (length border)) ->
  (forall y, In y l2 -> N <= procRank * nbRows + y) ->
  (forall y b, In y l1 -> rd border y = Some b -> border_w b <> 0 ->
     rd iv (y + procRank * nbRows) = Some 0 ->
     model_edge (init_edge (procRank * nbRows + y) (border_z b) (border_w b))) ->
  (yOpt <> -1 -> model_edge smallest) ->
  exists yres,
    find_closest_border_loop procRank N nbRows border iv (l1 ++ l2) yOpt smallest
      = Some yres
    /\ ((yres = yOpt
         /\ forall y b, In y l1 -> candidate_row N nbRows procRank border iv y ->
              rd border y = Some b -> yOpt <> -1 /\ edge_w smallest <= border_w b)
        \/ (In yres l1 /\ candidate_row N nbRows procRank border iv yres
            /\ exists bres, rd border yres = Some bres
                 /\ (yOpt <> -1 -> border_w bres <= edge_w smallest)
                 /\ forall y b, In y l1 ->
                      candidate_row N nbRows procRank border iv y ->
                      rd border y = Some b -> border_w bres <= border_w b)).
Proof.
  revert yOpt smallest. induction l1 as [|y l1 IH]; intros yOpt smallest H1 H2 Hval Hsm.
  - exists yOpt. cbn [app]. rewrite find_closest_border_loop_break by assumption.
    split; [reflexivity|]. left. split; [reflexivity|]. intros y b [].
  - cbn [app find_closest_border_loop].
    destruct (H1 y (or_introl eq_refl)) as (Hy & Hlt & Hiv & Hb).
    destruct (Z.geb_spec (procRank * nbRows + y) N); [lia|].
    destruct (rd_in_range iv _ Hiv) as [v Hv]. rewrite Hv.
    assert (H1' : forall y', In y' l1 ->
       0 <= y' < nbRows /\ procRank * nbRows + y' < N
       /\ 0 <= y' + procRank * nbRows < Z.of_nat (length iv)
       /\ 0 <= y' < Z.of_nat (length border))
      by (intros; apply H1; now right).
    assert (Hval' : forall y' b, In y' l1 -> rd border y' = Some b -> border_w b <> 0 ->
       rd iv (y' + procRank * nbRows) = Some 0 ->
       model_edge (init_edge (procRank * nbRows + y') (border_z b) (border_w b)))
      by (intros y' b Hy'; apply Hval; now right).
    destruct (Z.eqb_spec v 0) as [Hv0|Hv0]; cbn [negb].
    + subst v. destruct (rd_in_range border y Hb) as [b Hbd]. rewrite Hbd.
      set (cur := init_edge (procRank * nbRows + y) (border_z b) (border_w b)).
      assert (Hcand : border_w b <> 0 -> candidate_row N nbRows procRank border iv y).
      { intros Hw. split; [assumption|]. split; [assumption|]. split; [assumption|]. eauto. }
      destruct (negb (border_w b =? 0)
                && ((yOpt =? -1) || (cmp_edges smallest cur >? 0))) eqn:Hcond.
      * apply andb_true_iff in Hcond. destruct Hcond as [Hw Hbetter].
        apply negb_true_iff, Z.eqb_neq in Hw.
        assert (Hcur : model_edge cur) by (apply (Hval y b); auto; now left).
        assert (Hle : yOpt <> -1 -> border_w b <= edge_w smallest).
        { intros Hne. apply orb_true_iff in Hbetter. destruct Hbetter as [Hc|Hc].
          - apply Z.eqb_eq in Hc. contradiction.
          - apply (cmp_gt_weight smallest cur (Hsm Hne) Hcur Hc). }
        destruct (IH y cur H1' H2 Hval' (fun _ => Hcur)) as (yres & Hloop & Hres).
        exists yres. split; [exact Hloop|]. right.
        destruct Hres as [[-> Hall]|(Hin & Hc & bres & Hbres & Hb1 & Hall)].
        -- split; [now left|]. split; [now apply Hcand|].
           exists b. split; [assumption|]. split; [assumption|].
           intros y' b' [<-|Hy'] Hc' Hb'.
           ++ assert (b' = b) by congruence. subst. lia.
           ++ destruct (Hall y' b' Hy' Hc' Hb') as [_ Hx]. exact Hx.
        -- split; [now right|]. split; [assumption|].
           exists bres. split; [assumption|].
           assert (Hbc : border_w bres <= border_w b) by (apply Hb1; lia).
           split; [intros Hne; specialize (Hle Hne); lia|].
           intros y' b' [<-|Hy'] Hc' Hb'.
           ++ assert (b' = b) by congruence. subst. exact Hbc.
           ++ now apply (Hall y' b').
      * assert (Hskip : border_w b <> 0 -> yOpt <> -1 /\ edge_w smallest <= border_w b).
        { intros Hw. apply andb_false_iff in Hcond. destruct Hcond as [Hc|Hc].
          - apply negb_false_iff, Z.eqb_eq in Hc. contradiction.
          - apply orb_false_iff in Hc. destruct Hc as [Hc1 Hc2].
            apply Z.eqb_neq in Hc1. split; [assumption|].
            assert (Hcur : model_edge cur) by (apply (Hval y b); auto; now left).
            apply (cmp_le_weight smallest cur (Hsm Hc1) Hcur Hc2). }
        destruct (IH yOpt smallest H1' H2 Hval' Hsm) as (yres & Hloop & Hres).
        exists yres. split; [exact Hloop|].
        destruct Hres as [[-> Hall]|(Hin & Hc & bres & Hbres & Hb1 & Hall)].
        -- left. split; [reflexivity|]. intros y' b' [<-|Hy'] Hc' Hb'.
           ++ assert (b' = b) by congruence. subst. apply Hskip.
              destruct Hc' as (_ & _ & _ & b0 & Hb0 & Hw0). congruence.
           ++ now apply (Hall y' b').
        -- right. split; [now right|]. split; [assumption|].
           exists bres. split; [assumption|]. split; [assumption|].
           intros y' b' [<-|Hy'] Hc' Hb'.
           ++ assert (b' = b) by congruence. subst.
              destruct Hc' as (_ & _ & _ & b0 & Hb0 & Hw0).
              assert (b0 = b) by congruence. subst.
              destruct (Hskip Hw0) as [Hne Hle]. specialize (Hb1 Hne). lia.
           ++ now apply (Hall y' b').
    + destruct (IH yOpt smallest H1' H2 Hval' Hsm) as (yres & Hloop & Hres).
      exists yres. split; [exact Hloop|].
      assert (Hnot : ~ candidate_row N nbRows procRank border iv y).
      { intros (_ & _ & Hr0 & _). congruence. }
      destruct Hres as [[-> Hall]|(Hin & Hc & bres & Hbres & Hb1 & Hall)].
      * left. split; [reflexivity|]. intros y' b' [<-|Hy'] Hc' Hb'; [contradiction|].
        now apply (Hall y' b').
      * right. split; [now right|]. split; [assumption|].
        exists bres. split; [assumption|]. split; [assumption|].
        intros y' b' [<-|Hy'] Hc' Hb'; [contradiction|]. now apply (Hall y' b').
Qed.

End FindMin.

(** *** [select_new_vertex] returns a triple of least weight *)

Lemma select_new_vertex_loop_min (minEdges : list Z) (ids : list Z) (idS : Z) (sm : Edge) :
  (forall id, In id ids ->
     exists e0 e1 e2,
       rd minEdges (id * 3 + 0) = Some e0 /\ rd minEdges (id * 3 + 1) = Some e1
       /\ rd minEdges (id * 3 + 2) = Some e2
       /\ (e0 <> -1 -> model_edge (init_edge e0 e1 e2))) ->
  (idS <> -1 -> model_edge sm) ->
  exists id' sm',
    select_new_vertex_loop minEdges ids idS sm = Some (id', sm')
    /\ ((id' = idS /\ sm' = sm
         /\ forall id x0 x2, In id ids -> rd minEdges (id * 3 + 0) = Some x0 ->
              x0 <> -1 -> rd minEdges (id * 3 + 2) = Some x2 ->
              idS <> -1 /\ edge_w sm <= x2)
        \/ (exists id e0 e1 e2,
              In id ids
              /\ rd minEdges (id * 3 + 0) = Some e0 /\ rd minEdges (id * 3 + 1) = Some e1
              /\ rd minEdges (id * 3 + 2) = Some e2 /\ e0 <> -1
              /\ id' = e0 /\ sm' = init_edge e0 e1 e2
              /\ (idS <> -1 -> e2 <= edge_w sm)
              /\ forall id2 x0 x2, In id2 ids -> rd minEdges (id2 * 3 + 0) = Some x0 ->
                   x0 <> -1 -> rd minEdges (id2 * 3 + 2) = Some x2 -> e2 <= x2)).
Proof.
  revert idS sm. induction ids as [|id ids IH]; intros idS sm H Hsm.
  - exists idS, sm. split; [reflexivity|]. left. split; [reflexivity|].
    split; [reflexivity|]. intros id x0 x2 [].
  - cbn [select_new_vertex_loop].
    destruct (H id (or_introl eq_refl)) as (e0 & e1 & e2 & H0 & H1 & H2 & Hmod).
    rewrite H0.
    assert (H' : forall id0, In id0 ids ->
       exists e0 e1 e2,
         rd minEdges (id0 * 3 + 0) = Some e0 /\ rd minEdges (id0 * 3 + 1) = Some e1
         /\ rd minEdges (id0 * 3 + 2) = Some e2
         /\ (e0 <> -1 -> model_edge (init_edge e0 e1 e2)))
      by (intros; apply H; now right).
    destruct (Z.eqb_spec e0 (-1)) as [He|He].
    + destruct (IH idS sm H' Hsm) as (id' & sm' & Hloop & Hres).
      exists id', sm'. split; [exact Hloop|].
      destruct Hres as [(-> & -> & Hall)
                       |(i & a0 & a1 & a2 & Hi & Ha0 & Ha1 & Ha2 & Hne & -> & -> & Hb1 & Hall)].
      * left. split; [reflexivity|]. split; [reflexivity|].
        intros id0 x0 x2 [<-|Hin] Hx0 Hne Hx2; [congruence|]. now apply (Hall id0 x0 x2).
      * right. exists i, a0, a1, a2. split; [now right|].
        repeat (split; [assumption|]). split; [reflexivity|]. split; [reflexivity|].
        split; [assumption|].
        intros id0 x0 x2 [<-|Hin] Hx0 Hne0 Hx2; [congruence|]. now apply (Hall id0 x0 x2).
    + rewrite H1, H2. set (cur := init_edge e0 e1 e2).
      assert (Hcur : model_edge cur) by (now apply Hmod).
      destruct ((idS =? -1) || (cmp_edges sm cur >? 0)) eqn:Hcond.
      * assert (Hle : idS <> -1 -> e2 <= edge_w sm).
        { intros Hne. apply orb_true_iff in Hcond. destruct Hcond as [Hc|Hc].
          - apply Z.eqb_eq in Hc. contradiction.
          - apply (cmp_gt_weight sm cur (Hsm Hne) Hcur Hc). }
        destruct (IH e0 cur H' (fun _ => Hcur)) as (id' & sm' & Hloop & Hres).
        exists id', sm'. split; [exact Hloop|]. right.
        destruct Hres as [(-> & -> & Hall)
                         |(i & a0 & a1 & a2 & Hi & Ha0 & Ha1 & Ha2 & Hne & -> & -> & Hb1 & Hall)].
        -- exists id, e0, e1, e2. split; [now left|].
           repeat (split; [assumption|]). split; [reflexivity|]. split; [reflexivity|].
           split; [assumption|].
           intros id0 x0 x2 [<-|Hin] Hx0 Hne0 Hx2.
           ++ assert (x2 = e2) by congruence. lia.
           ++ destruct (Hall id0 x0 x2 Hin Hx0 Hne0 Hx2) as [_ Hx]. exact Hx.
        -- exists i, a0, a1, a2. split; [now right|].
           repeat (split; [assumption|]). split; [reflexivity|]. split; [reflexivity|].
           assert (Hac : a2 <= e2) by (apply Hb1; assumption).
           split; [intros Hn; specialize (Hle Hn); lia|].
           intros id0 x0 x2 [<-|Hin] Hx0 Hne0 Hx2.
           ++ assert (x2 = e2) by congruence. lia.
           ++ now apply (Hall id0 x0 x2).
      * apply orb_false_iff in Hcond. destruct Hcond as [Hc1 Hc2].
        apply Z.eqb_neq in Hc1.
        assert (Hle : edge_w sm <= e2) by (apply (cmp_le_weight sm cur (Hsm Hc1) Hcur Hc2)).
        destruct (IH idS sm H' Hsm) as (id' & sm' & Hloop & Hres).
        exists id', sm'. split; [exact Hloop|].
        destruct Hres as [(-> & -> & Hall)
                         |(i & a0 & a1 & a2 & Hi & Ha0 & Ha1 & Ha2 & Hne & -> & -> & Hb1 & Hall)].
        -- left. split; [reflexivity|]. split; [reflexivity|].
           intros id0 x0 x2 [<-|Hin] Hx0 Hne0 Hx2.
           ++ assert (x2 = e2) by congruence. subst. auto.
           ++ now apply (Hall id0 x0 x2).
        -- right. exists i, a0, a1, a2. split; [now right|].
           repeat (split; [assumption|]). split; [reflexivity|]. split; [reflexivity|].
           split; [assumption|].
           intros id0 x0 x2 [<-|Hin] Hx0 Hne0 Hx2.
           ++ assert (x2 = e2) by congruence. subst. specialize (Hb1 Hc1). lia.
           ++ now apply (Hall id0 x0 x2).
Qed.

(** *** [add_vertex_to_border] keeps the lightest edge of every row *)

Section UpdateMin.

Variables (N nbRows procRank newVertex : Z) (A adj : Adj) (iv' : list Z).
Hypothesis HNmax : N <= INT_MAX + 1.
Hypothesis Hadj : adjacency N A.
Hypothesis Hnb : 0 <= nbRows.
Hypothesis Hr : 0 <= procRank.
Hypothesis Hnew : 0 <= newVertex < N.
Hypothesis Hown : own_rows N nbRows A adj procRank.
Hypothesis Hivlen : Z.of_nat (length iv') = N.

Lemma add_vertex_to_border_loop_near (l1 l2 : list Z) (border : list BorderNode) :
  NoDup l1 ->
  (forall y, In y l1 -> 0 <= y < Z.of_nat (length border) /\ procRank * nbRows + y < N) ->
  (forall y, In y l2 -> N <= procRank * nbRows + y) ->
  (forall y b, In y l1 -> rd border y = Some b -> border_w b <> 0 ->
     rd iv' (procRank * nbRows + y) = Some 0 ->
     0 <= border_z b < N /\ 0 <= border_w b <= INT_MAX) ->
  exists border',
    add_vertex_to_border_loop procRank N nbRows newVertex adj iv' (l1 ++ l2) border
      = Some border'
    /\ length border' = length border
    /\ (forall y, ~ In y l1 -> rd border' y = rd border y)
    /\ (forall y b, In y l1 -> rd border y = Some b ->
          exists b', rd border' y = Some b'
            /\ (visited iv' (procRank * nbRows + y)
                \/ entry N A (procRank * nbRows + y) newVertex = 0 -> b' = b)
            /\ (~ visited iv' (procRank * nbRows + y) ->
                entry N A (procRank * nbRows + y) newVertex <> 0 ->
                (b' = mkBorder (entry N A (procRank * nbRows + y) newVertex) newVertex
                 /\ (border_w b = 0
                     \/ entry N A (procRank * nbRows + y) newVertex <= border_w b))
                \/ (b' = b /\ border_w b <> 0
                    /\ border_w b <= entry N A (procRank * nbRows + y) newVertex))).
Proof.
  intros Hnd. revert border. induction Hnd as [|y l1 Hnin Hnd IH]; intros border H1 H2 Hval.
  - exists border. cbn [app]. rewrite add_vertex_to_border_loop_break by assumption.
    split; [reflexivity|]. split; [reflexivity|]. split; [reflexivity|]. intros y b [].
  - cbn [app add_vertex_to_border_loop].
    destruct (H1 y (or_introl eq_refl)) as [Hy Hlt].
    destruct (Z.geb_spec (procRank * nbRows + y) N); [lia|].
    assert (Hvr : 0 <= procRank * nbRows + y < Z.of_nat (length iv')) by nia.
    destruct (rd_in_range iv' _ Hvr) as [v Hv]. rewrite Hv.
    destruct (Hown y newVertex ltac:(lia) Hlt Hnew) as [Hidx Hent].
    destruct (rd_in_range border y Hy) as [b Hb].
    set (w := entry N A (procRank * nbRows + y) newVertex) in *.
    assert (Hvis : v <> 0 <-> visited iv' (procRank * nbRows + y)).
    { split; [intros Hne; exists v; auto|]. intros (x & Hx & Hne). congruence. }
    (* what the rest of the loop does to the other rows *)
    assert (Hrest : forall b1 : list BorderNode,
      length b1 = length border -> (forall y0, y0 <> y -> rd b1 y0 = rd border y0) ->
      exists border',
        add_vertex_to_border_loop procRank N nbRows newVertex adj iv' (l1 ++ l2) b1
          = Some border'
        /\ length border' = length border
        /\ rd border' y = rd b1 y
        /\ (forall y0, ~ In y0 (y :: l1) -> rd border' y0 = rd border y0)
        /\ (forall y0 b0, In y0 l1 -> rd border y0 = Some b0 ->
              exists b', rd border' y0 = Some b'
                /\ (visited iv' (procRank * nbRows + y0)
                    \/ entry N A (procRank * nbRows + y0) newVertex = 0 -> b' = b0)
                /\ (~ visited iv' (procRank * nbRows + y0) ->
                    entry N A (procRank * nbRows + y0) newVertex <> 0 ->
                    (b' = mkBorder (entry N A (procRank * nbRows + y0) newVertex) newVertex
                     /\ (border_w b0 = 0
                         \/ entry N A (procRank * nbRows + y0) newVertex <= border_w b0))
                    \/ (b' = b0 /\ border_w b0 <> 0
                        /\ border_w b0 <= entry N A (procRank * nbRows + y0) newVertex)))).
    { intros b1 Hl1 Hsame.
      assert (Hne : forall y0, In y0 l1 -> y0 <> y) by (intros y0 Hin ->; contradiction).
      destruct (IH b1) as (border' & Hloop & Hlen & Hframe & Hrows).
      - intros z Hz. rewrite Hl1. apply H1. now right.
      - assumption.
      - intros y0 b0 Hin Hb0 Hw0 Hr0. apply (Hval y0 b0); auto; [now right|].
        rewrite <- Hb0. symmetry. apply Hsame. now apply Hne.
      - exists border'. split; [exact Hloop|]. split; [lia|].
        split; [now apply Hframe|]. split.
        + intros y0 Hy0. rewrite Hframe by (intros Hc; apply Hy0; now right).
          apply Hsame. intros ->. apply Hy0. now left.
        + intros y0 b0 Hin Hb0. apply Hrows; [assumption|].
          rewrite Hsame; [assumption | now apply Hne]. }
    (* the cases where the row [y] is left as it is *)
    assert (Hkeep :
      (v <> 0 \/ w = 0 \/ (border_w b <> 0 /\ border_w b <= w)) ->
      exists border',
        add_vertex_to_border_loop procRank N nbRows newVertex adj iv' (l1 ++ l2) border
          = Some border'
        /\ length border' = length border
        /\ (forall y0, ~ In y0 (y :: l1) -> rd border' y0 = rd border y0)
        /\ (forall y0 b0, In y0 (y :: l1) -> rd border y0 = Some b0 ->
              exists b', rd border' y0 = Some b'
                /\ (visited iv' (procRank * nbRows + y0)
                    \/ entry N A (procRank * nbRows + y0) newVertex = 0 -> b' = b0)
                /\ (~ visited iv' (procRank * nbRows + y0) ->
                    entry N A (procRank * nbRows + y0) newVertex <> 0 ->
                    (b' = mkBorder (entry N A (procRank * nbRows + y0) newVertex) newVertex
                     /\ (border_w b0 = 0
                         \/ entry N A (procRank * nbRows + y0) newVertex <= border_w b0))
                    \/ (b' = b0 /\ border_w b0 <> 0
                        /\ border_w b0 <= entry N A (procRank * nbRows + y0) newVertex)))).
    { intros Hcase.
      destruct (Hrest border eq_refl (fun _ _ => eq_refl))
        as (border' & Hloop & Hlen & Hy' & Hframe & Hrows).
      exists border'. split; [exact Hloop|]. split; [exact Hlen|]. split; [exact Hframe|].
      intros y0 b0 [<-|Hin] Hb0; [|now apply Hrows].
      assert (b0 = b) by congruence. subst b0.
      exists b. rewrite Hy'. split; [assumption|]. split; [reflexivity|].
      intros Hnv Hne. fold w in Hne |- *. destruct Hcase as [Hc|[Hc|Hc]].
      - exfalso. apply Hnv. now apply Hvis.
      - contradiction.
      - right. tauto. }
    destruct (Z.eqb_spec v 0) as [Hv0|Hv0]; cbn [negb]; [|apply Hkeep; auto].
    rewrite (entry_rd N adj y newVertex Hidx). rewrite Hent. fold w.
    destruct (Z.eqb_spec w 0) as [Hw0|Hw0]; [apply Hkeep; auto|].
    rewrite Hb.
    assert (Hwr : 0 <= w <= INT_MAX) by (apply entry_range; assumption).
    assert (Hcand : model_edge (init_edge newVertex y w))
      by (apply (init_edge_model N); auto; lia).
    destruct (Z.eqb_spec (border_w b) 0) as [Hbw0|Hbw0]; cbn [orb].
    + destruct (wr border y (mkBorder w newVertex)) as [b1|] eqn:Hw1;
        [|rewrite wr_in_range in Hw1 by assumption; discriminate].
      destruct (Hrest b1 (wr_length _ _ _ _ Hw1)
                  (fun y0 Hne => rd_wr_other _ _ _ _ y0 Hw1 Hne))
        as (border' & Hloop & Hlen & Hy' & Hframe & Hrows).
      exists border'. split; [exact Hloop|]. split; [exact Hlen|]. split; [exact Hframe|].
      intros y0 b0 [<-|Hin] Hb0; [|now apply Hrows].
      assert (b0 = b) by congruence. subst b0.
      exists (mkBorder w newVertex). rewrite Hy'.
      split; [apply (rd_wr_same _ _ _ _ Hw1)|]. split.
      * intros [Hc|Hc]; [apply Hvis in Hc; contradiction | contradiction].
      * intros _ _. left. auto.
    + assert (Hz : 0 <= border_z b < N /\ 0 <= border_w b <= INT_MAX).
      { apply (Hval y b); auto; [now left | now rewrite <- Hv0]. }
      assert (Hcur : model_edge (init_edge (border_z b) y (border_w b)))
        by (apply (init_edge_model N); auto; lia).
      destruct (cmp_edges (init_edge (border_z b) y (border_w b))
                  (init_edge newVertex y w) >? 0) eqn:Hcmp.
      * pose proof (cmp_gt_weight _ _ Hcur Hcand Hcmp) as Hle. cbn [edge_w init_edge] in Hle.
        destruct (wr border y (mkBorder w newVertex)) as [b1|] eqn:Hw1;
          [|rewrite wr_in_range in Hw1 by assumption; discriminate].
        destruct (Hrest b1 (wr_length _ _ _ _ Hw1)
                    (fun y0 Hne => rd_wr_other _ _ _ _ y0 Hw1 Hne))
          as (border' & Hloop & Hlen & Hy' & Hframe & Hrows).
        exists border'. split; [exact Hloop|]. split; [exact Hlen|]. split; [exact Hframe|].
        intros y0 b0 [<-|Hin] Hb0; [|now apply Hrows].
        assert (b0 = b) by congruence. subst b0.
        exists (mkBorder w newVertex). rewrite Hy'.
        split; [apply (rd_wr_same _ _ _ _ Hw1)|]. split.
        -- intros [Hc|Hc]; [apply Hvis in Hc; contradiction | contradiction].
        -- intros _ _. left. auto.
      * pose proof (cmp_le_weight _ _ Hcur Hcand Hcmp) as Hle. cbn [edge_w init_edge] in Hle.
        apply Hkeep. right; right. auto.
Qed.

End UpdateMin.

(** *** One round *)

Lemma update_borders_each numProcs N newVertex adjs
  (Q : Z -> PrimProc -> PrimProc -> Prop) (rs : list Z) :
  NoDup rs ->
  forall procs,
  (forall r, In r rs -> 0 <= r < Z.of_nat (length procs)) ->
  (forall r p, In r rs -> rd procs r = Some p ->
     exists ab,
       add_vertex_to_border r (adjs r) N newVertex (pp_border p) (pp_isVisited p)
         (ceil_div N numProcs) = Some ab
       /\ Q r p (mkPrimProc (fst ab) (snd ab))) ->
  exists procs',
    update_borders numProcs N newVertex adjs rs procs = Some procs'
    /\ length procs' = length procs
    /\ (forall r, ~ In r rs -> rd procs' r = rd procs r)
    /\ (forall r p, In r rs -> rd procs r = Some p ->
          exists p', rd procs' r = Some p' /\ Q r p p').
Proof.
  intros Hnd. induction Hnd as [|r rs Hnin Hnd IH]; intros procs Hlen Hstep.
  - exists procs. split; [reflexivity|]. split; [reflexivity|]. split; [reflexivity|].
    intros r p [].
  - cbn [update_borders].
    destruct (rd_in_range procs r (Hlen r (or_introl eq_refl))) as [p Hp]. rewrite Hp.
    destruct (Hstep r p (or_introl eq_refl) Hp) as (ab & Hadd & HQ). rewrite Hadd.
    destruct (wr procs r (mkPrimProc (fst ab) (snd ab))) as [procs1|] eqn:Hw1;
      [|rewrite wr_in_range in Hw1 by (apply Hlen; now left); discriminate].
    pose proof (wr_length _ _ _ _ Hw1) as Hl1.
    destruct (IH procs1) as (procs' & Hupd & Hl & Hframe & Hrows).
    { intros r0 Hin. rewrite Hl1. apply Hlen. now right. }
    { intros r0 p0 Hin Hp0. apply (Hstep r0 p0 (or_intror Hin)).
      rewrite <- Hp0. symmetry. apply (rd_wr_other _ _ _ _ r0 Hw1). intros ->. contradiction. }
    exists procs'. split; [exact Hupd|]. split; [congruence|]. split.
    + intros r0 Hr0. rewrite Hframe by (intros Hc; apply Hr0; now right).
      apply (rd_wr_other _ _ _ _ r0 Hw1). intros ->. apply Hr0. now left.
    + intros r0 p0 [<-|Hin] Hp0.
      * assert (p0 = p) by congruence. subst p0.
        exists (mkPrimProc (fst ab) (snd ab)). split; [|exact HQ].
        rewrite (Hframe r Hnin). apply (rd_wr_same _ _ _ _ Hw1).
      * apply Hrows; [assumption|]. rewrite <- Hp0.
        apply (rd_wr_other _ _ _ _ r0 Hw1). intros ->. contradiction.
Qed.

Lemma unvisited_rd iv v :
  0 <= v < Z.of_nat (length iv) -> (rd iv v = Some 0 <-> ~ visited iv v).
Proof.
  intros Hv. destruct (visited_dec iv v Hv) as [[H1 H2]|H]; [tauto|].
  split; [|contradiction]. intros H0 _. destruct H as (x & Hx & Hne). congruence.
Qed.

Section RoundMin.

Variables (N numProcs : Z) (A : Adj) (adjs : Z -> Adj).
Hypothesis HN : 1 <= N.
Hypothesis HNmax : N <= INT_MAX + 1.
Hypothesis HP : 1 <= numProcs.
Hypothesis Hadj : adjacency N A.
Hypothesis Hown : forall r, 0 <= r < numProcs ->
  own_rows N (ceil_div N numProcs) A (adjs r) r.

(** A candidate row of an up-to-date border holds an edge of the graph. *)
Lemma candidate_edge iv r border y b :
  Z.of_nat (length iv) = N -> 0 <= r ->
  border_near N numProcs A iv r border ->
  candidate_row N (ceil_div N numProcs) r border iv y -> rd border y = Some b ->
  border_w b <> 0
  /\ nearest_visited N A iv (r * ceil_div N numProcs + y) b
  /\ 0 <= border_z b < N /\ 0 <= border_w b <= INT_MAX
  /\ model_edge (init_edge (r * ceil_div N numProcs + y) (border_z b) (border_w b)).
Proof.
  intros Hlen Hr Hnear (Hy & Hlt & Hrd & b0 & Hb0 & Hw) Hb.
  assert (b0 = b) by congruence. subst b0.
  pose proof (nbRows_nonneg N numProcs HN HP) as Hnb.
  assert (Hv : 0 <= r * ceil_div N numProcs + y < Z.of_nat (length iv)) by nia.
  assert (Hnv : ~ visited iv (r * ceil_div N numProcs + y)).
  { apply unvisited_rd; [assumption|]. now rewrite Z.add_comm. }
  pose proof (Hnear y b Hy Hlt Hb Hnv) as Hnv'.
  destruct (proj2 Hnv' Hw) as (Hz & Hvz & Hwe & Hmin).
  assert (Hwr : 0 <= border_w b <= INT_MAX) by (rewrite Hwe; now apply entry_range).
  split; [assumption|]. split; [assumption|]. split; [assumption|]. split; [assumption|].
  apply (init_edge_model N); auto; lia.
Qed.

Lemma gather_min_edges_min (procs : list PrimProc) (iv : list Z) (rs : list Z) :
  Z.of_nat (length iv) = N ->
  (forall r, In r rs -> 0 <= r < Z.of_nat (length procs)) ->
  (forall r p, rd procs r = Some p ->
     pp_isVisited p = iv /\ Z.of_nat (length (pp_border p)) = ceil_div N numProcs
     /\ border_near N numProcs A iv r (pp_border p)) ->
  exists me,
    gather_min_edges numProcs N rs procs = Some me
    /\ forall i r, nth_error rs i = Some r ->
         exists e0 e1 e2 p,
           nth_error me (3 * i) = Some e0 /\ nth_error me (3 * i + 1) = Some e1
           /\ nth_error me (3 * i + 2) = Some e2
           /\ rd procs r = Some p
           /\ triple_min N numProcs (pp_border p) iv r e0 e1 e2.
Proof.
  intros Hiv Hrs Hps. induction rs as [|r rs IH].
  - exists []. split; [reflexivity|]. intros [|i] r H; discriminate.
  - cbn [gather_min_edges].
    destruct (Hrs r (or_introl eq_refl)) as [Hr0 Hr1].
    destruct (rd_in_range procs r (conj Hr0 Hr1)) as [p Hp]. rewrite Hp.
    destruct (Hps r p Hp) as (Hpiv & Hpb & Hnear).
    pose proof (nbRows_nonneg N numProcs HN HP) as Hnb.
    destruct (rows_split N (ceil_div N numProcs) r Hnb Hr0 HN)
      as (k & Hk & Hsplit & Hvalid & Hinvalid & Hall).
    unfold find_closest_border. rewrite Hsplit.
    assert (Hin : forall y, candidate_row N (ceil_div N numProcs) r (pp_border p) iv y ->
              In y (iota k)).
    { intros y (Hy1 & Hy2 & _). now apply Hall. }
    destruct (find_closest_border_loop_min N (ceil_div N numProcs) r (pp_border p)
                (pp_isVisited p) (iota k) (range k (ceil_div N numProcs)) (-1) zero_edge)
      as (yres & Hloop & Hres).
    { intros y Hy. destruct (Hvalid y Hy) as [Hy1 Hy2]. rewrite Hpiv, Hiv, Hpb.
      repeat split; try lia; nia. }
    { exact Hinvalid. }
    { intros y b Hy Hb Hw Hrd. rewrite Hpiv in Hrd.
      destruct (Hvalid y Hy) as [Hy1 Hy2].
      apply (candidate_edge iv r (pp_border p) y b Hiv Hr0 Hnear); [|assumption].
      split; [assumption|]. split; [assumption|]. split; [assumption|]. eauto. }
    { intros Hc. contradiction. }
    rewrite Hloop.
    destruct IH as (rest & Hrest & Hnth). { intros; apply Hrs; now right. }
    assert (Hhead : exists e0 e1 e2,
      send_edge_contribution r (pp_border p) (ceil_div N numProcs) yres = Some [e0; e1; e2]
      /\ triple_min N numProcs (pp_border p) iv r e0 e1 e2).
    { unfold send_edge_contribution. rewrite Hpiv in Hres.
      destruct Hres as [[-> Hnone]|(Hyin & Hc & bres & Hbres & _ & Hmin)].
      - cbn. exists (-1), 0, 0. split; [reflexivity|]. left. split; [reflexivity|].
        intros y Hc. pose proof Hc as (_ & _ & _ & b & Hb & _).
        destruct (Hnone y b (Hin y Hc) Hc Hb) as [Hne _]. contradiction.
      - pose proof Hc as (Hy1 & _).
        destruct (Z.eqb_spec yres (-1)); [lia|]. cbn [negb]. rewrite Hbres.
        exists (yres + r * ceil_div N numProcs), (border_z bres), (border_w bres).
        split; [reflexivity|]. right. exists yres, bres.
        split; [assumption|]. split; [assumption|].
        split; [reflexivity|]. split; [reflexivity|]. split; [reflexivity|].
        intros y' b' Hc' Hb'. apply (Hmin y' b'); auto. }
    destruct Hhead as (e0 & e1 & e2 & Hsend & Hok). rewrite Hsend, Hrest.
    eexists. split; [reflexivity|]. intros [|i] r' Hi.
    + cbn in Hi. injection Hi as <-. exists e0, e1, e2, p. cbn. auto.
    + cbn [nth_error] in Hi.
      destruct (Hnth i r' Hi) as (x0 & x1 & x2 & p' & H0 & H1 & H2 & Hx).
      exists x0, x1, x2, p'.
      replace (3 * S i)%nat with (S (S (S (3 * i)))) by lia.
      cbn [app Nat.add nth_error]. auto.
Qed.

Lemma add_vertex_to_border_near (iv iv' : list Z) (newVertex r : Z) (p : PrimProc) :
  Z.of_nat (length iv) = N -> 0 <= newVertex < N -> wr iv newVertex 1 = Some iv' ->
  0 <= r < numProcs ->
  pp_isVisited p = iv -> Z.of_nat (length (pp_border p)) = ceil_div N numProcs ->
  border_near N numProcs A iv r (pp_border p) ->
  exists ab,
    add_vertex_to_border r (adjs r) N newVertex (pp_border p) (pp_isVisited p)
      (ceil_div N numProcs) = Some ab
    /\ pp_isVisited (mkPrimProc (fst ab) (snd ab)) = iv'
    /\ border_near N numProcs A iv' r (pp_border (mkPrimProc (fst ab) (snd ab))).
Proof.
  intros Hiv Hnew Hwr Hr Hpiv Hpb Hnear. unfold add_vertex_to_border. rewrite Hpiv, Hwr.
  pose proof (nbRows_nonneg N numProcs HN HP) as Hnb.
  destruct (rows_split N (ceil_div N numProcs) r Hnb (proj1 Hr) HN)
    as (k & Hk & Hsplit & Hvalid & Hinvalid & Hall).
  rewrite Hsplit.
  assert (Hlen' : Z.of_nat (length iv') = N) by (rewrite (wr_length _ _ _ _ Hwr); exact Hiv).
  assert (Hmono : forall x, visited iv x -> visited iv' x)
    by (intros x Hx; apply (visited_wr _ _ _ x Hwr); now left).
  destruct (add_vertex_to_border_loop_near N (ceil_div N numProcs) r newVertex A (adjs r)
              iv' HNmax Hadj Hnb (proj1 Hr) Hnew (Hown r Hr) Hlen'
              (iota k) (range k (ceil_div N numProcs)) (pp_border p) (NoDup_iota k))
    as (border' & Hloop & Hlen & _ & Hrows).
  { intros y Hy. destruct (Hvalid y Hy). rewrite Hpb. split; lia. }
  { exact Hinvalid. }
  { intros y b Hy Hb Hw Hrd. destruct (Hvalid y Hy) as [Hy1 Hy2].
    assert (Hnv' : ~ visited iv' (r * ceil_div N numProcs + y)).
    { apply unvisited_rd; [nia | assumption]. }
    assert (Hnv : ~ visited iv (r * ceil_div N numProcs + y)) by auto.
    destruct (proj2 (Hnear y b Hy1 Hy2 Hb Hnv) Hw) as (Hz & _ & Hwe & _).
    split; [assumption|]. rewrite Hwe. now apply entry_range. }
  rewrite Hloop. eexists. split; [reflexivity|]. cbn [fst snd pp_isVisited pp_border].
  split; [reflexivity|].
  intros y b' Hy Hlt Hb' Hnv'.
  assert (Hnv : ~ visited iv (r * ceil_div N numProcs + y)) by auto.
  destruct (rd_in_range (pp_border p) y ltac:(lia)) as [b Hb].
  destruct (Hrows y b (Hall y Hy Hlt) Hb) as (b1 & Hb1 & Hsame & Hnew').
  assert (b1 = b') by congruence. subst b1.
  pose proof (Hnear y b Hy Hlt Hb Hnv) as [Hold0 Hold1].
  set (v := r * ceil_div N numProcs + y) in *.
  assert (Hvis' : forall u, visited iv' u -> visited iv u \/ u = newVertex)
    by (intros u; apply (visited_wr _ _ _ u Hwr)).
  destruct (Z.eq_dec (entry N A v newVertex) 0) as [Hw0|Hw0].
  - rewrite (Hsame (or_intror Hw0)). split.
    + intros Hb0 u Hu Hvu. destruct (Hvis' u Hvu) as [H| ->]; [now apply Hold0 | assumption].
    + intros Hbw. destruct (Hold1 Hbw) as (Hz & Hvz & Hwe & Hmin).
      split; [assumption|]. split; [auto|]. split; [assumption|].
      intros u Hu Hvu Hne. destruct (Hvis' u Hvu) as [H| ->]; [now apply Hmin | contradiction].
  - destruct (Hnew' Hnv' Hw0) as [[-> Hcase]|(-> & Hbw & Hle)].
    + split; [cbn [border_w]; contradiction|]. intros _. cbn [border_w border_z].
      split; [assumption|]. split; [apply (visited_wr _ _ _ _ Hwr); now right|].
      split; [reflexivity|].
      intros u Hu Hvu Hne. destruct (Hvis' u Hvu) as [H| ->]; [|lia].
      destruct Hcase as [Hb0|Hle]; [rewrite (Hold0 Hb0 u Hu H) in Hne; contradiction|].
      destruct (Z.eq_dec (border_w b) 0) as [Hb0|Hbw];
        [rewrite (Hold0 Hb0 u Hu H) in Hne; contradiction|].
      destruct (Hold1 Hbw) as (_ & _ & _ & Hmin). specialize (Hmin u Hu H Hne). lia.
    + split; [contradiction|]. intros _.
      destruct (Hold1 Hbw) as (Hz & Hvz & Hwe & Hmin).
      split; [assumption|]. split; [auto|]. split; [assumption|].
      intros u Hu Hvu Hne. destruct (Hvis' u Hvu) as [H| ->]; [now apply Hmin | assumption].
Qed.

Hypothesis Hsym : symmetric N A.

(** An iteration of the loop of [parallel_prim] stops at the assertion of
    [select_new_vertex], or adds an edge by Prim's rule. *)
Lemma parallel_prim_iteration_cases (tree0 : list Edge) k w vis :
  0 <= k < N - 1 -> prim_world_inv N numProcs A k w ->
  prim_rule_inv N numProcs A tree0 k w vis ->
  parallel_prim_iteration numProcs N adjs k w = Assertion_failed
  \/ exists w' vis',
       parallel_prim_iteration numProcs N adjs k w = Done w'
       /\ prim_world_inv N numProcs A (k + 1) w'
       /\ prim_rule_inv N numProcs A tree0 (k + 1) w' vis'.
Proof.
  intros Hk Hinv Hrule.
  destruct Hinv as (iv & Hlen & Hv0 & Hcnt & HlenP & Htree & Hprocs).
  destruct Hrule as (iv2 & Hnear & Hvis & Hrun & Hskip & Htl).
  assert (iv2 = iv).
  { destruct (rd_in_range (pw_procs w) 0 ltac:(lia)) as [p Hp].
    destruct (Hnear 0 p Hp) as [<- _]. now destruct (Hprocs 0 p Hp). }
  subst iv2.
  pose proof (ceil_div_pos N numProcs HN HP) as Hnb.
  pose proof (ceil_div_covers N numProcs ltac:(lia) HP) as Hcov.
  set (nb := ceil_div N numProcs) in *.
  assert (Hpp : forall r p, rd (pw_procs w) r = Some p ->
            pp_isVisited p = iv /\ Z.of_nat (length (pp_border p)) = nb
            /\ border_near N numProcs A iv r (pp_border p)).
  { intros r p Hp. destruct (Hprocs r p Hp) as (H1 & H2 & _).
    destruct (Hnear r p Hp) as [_ H3]. auto. }
  destruct (gather_min_edges_min (pw_procs w) iv (iota numProcs) Hlen) as (me & Hg & Hnth).
  { intros r Hr. apply In_iota in Hr. lia. }
  { exact Hpp. }
  assert (Hrd : forall id, 0 <= id < numProcs ->
    exists e0 e1 e2 p,
      rd me (id * 3 + 0) = Some e0 /\ rd me (id * 3 + 1) = Some e1
      /\ rd me (id * 3 + 2) = Some e2 /\ rd (pw_procs w) id = Some p
      /\ triple_min N numProcs (pp_border p) iv id e0 e1 e2).
  { intros id Hid. pose proof (rd_iota numProcs id Hid) as Hi. apply rd_Some in Hi.
    destruct (Hnth _ _ (proj2 Hi)) as (e0 & e1 & e2 & p & H0 & H1 & H2 & Hp & Hok).
    exists e0, e1, e2, p. split; [|split; [|split; [|split; [exact Hp | exact Hok]]]].
    - apply rd_Some. split; [lia|].
      replace (Z.to_nat (id * 3 + 0)) with (3 * Z.to_nat id)%nat by lia. exact H0.
    - apply rd_Some. split; [lia|].
      replace (Z.to_nat (id * 3 + 1)) with (3 * Z.to_nat id + 1)%nat by lia. exact H1.
    - apply rd_Some. split; [lia|].
      replace (Z.to_nat (id * 3 + 2)) with (3 * Z.to_nat id + 2)%nat by lia. exact H2. }
  unfold parallel_prim_iteration. rewrite Hg.
  destruct (rd_in_range (pw_tree w) k ltac:(lia)) as [newEdge Hne]. rewrite Hne.
  unfold select_new_vertex.
  destruct (select_new_vertex_loop_min me (iota numProcs) (-1) newEdge)
    as (nv & sm & Hsel & Hres).
  { intros id Hid. apply In_iota in Hid.
    destruct (Hrd id Hid) as (e0 & e1 & e2 & p & H0 & H1 & H2 & Hp & Hok).
    exists e0, e1, e2. repeat (split; [assumption|]). intros He0.
    destruct Hok as [[Hc _]|(y & b & Hc & Hb & -> & -> & -> & _)]; [contradiction|].
    destruct (Hpp id p Hp) as (_ & _ & Hnr).
    rewrite Z.add_comm.
    apply (candidate_edge iv id (pp_border p) y b Hlen (proj1 Hid) Hnr Hc Hb). }
  { intros Hc. contradiction. }
  rewrite Hsel. cbn [fst].
  destruct (Z.eqb_spec nv (-1)) as [Hnv|Hnv]; [now left|]. right.
  destruct Hres as [(Hc & _)|(i & e0 & e1 & e2 & Hi & H0 & H1 & H2 & Hne0 & -> & -> & _ & Hmin)];
    [contradiction|].
  apply In_iota in Hi.
  destruct (Hrd i Hi) as (x0 & x1 & x2 & p & Hx0 & Hx1 & Hx2 & Hp & Hok).
  rewrite H0 in Hx0. rewrite H1 in Hx1. rewrite H2 in Hx2.
  injection Hx0 as <-. injection Hx1 as <-. injection Hx2 as <-.
  destruct Hok as [[Hc _]|(y & b & Hc & Hb & E0 & E1 & E2 & _)]; [contradiction|].
  destruct (Hpp i p Hp) as (_ & Hpb & Hnr).
  destruct (candidate_edge iv i (pp_border p) y b Hlen (proj1 Hi) Hnr Hc Hb)
    as (Hbw & [_ Hnear1] & Hz & Hwr & _).
  destruct (Hnear1 Hbw) as (_ & Hvz & Hwe & _).
  pose proof Hc as (Hy & Hlt & Hrd0 & _).
  fold nb in E0, Hy, Hlt, Hrd0, Hwe.
  assert (He0 : 0 <= e0 < N) by nia.
  assert (Hunv : rd iv e0 = Some 0) by (now rewrite E0).
  cbv iota beta.
  rewrite (wr_in_range (pw_tree w) k (init_edge e0 e1 e2)) by lia.
  assert (Hwr' : wr iv e0 1 = Some (upd iv (Z.to_nat e0) 1)) by (apply wr_in_range; lia).
  set (iv' := upd iv (Z.to_nat e0) 1) in *.
  destruct (update_borders_each numProcs N e0 adjs
              (fun r _ p' => pp_isVisited p' = iv'
                             /\ border_near N numProcs A iv' r (pp_border p'))
              (iota numProcs) (NoDup_iota numProcs) (pw_procs w))
    as (procs' & Hupd & Hl & _ & Hrows).
  { intros r Hr. apply In_iota in Hr. lia. }
  { intros r p0 Hr Hp0. apply In_iota in Hr. destruct (Hpp r p0 Hp0) as (H1' & H2' & H3').
    apply (add_vertex_to_border_near iv iv' e0 r p0); auto. }
  destruct (update_borders_spec N numProcs A adjs HN HP Hown iv iv' e0 (iota numProcs)
              Hlen He0 Hwr' (NoDup_iota numProcs)
              (fun r H => proj1 (In_iota numProcs r) H) (pw_procs w))
    as (procs2 & Hupd2 & _ & _ & Hrows2).
  { intros r p0 _ Hp0. destruct (Hpp r p0 Hp0) as (H1' & H2' & _). auto. }
  { intros r Hr. apply In_iota in Hr. lia. }
  assert (procs2 = procs') by congruence. subst procs2.
  rewrite Hupd. cbn [of_option].
  eexists. exists (e0 :: vis). split; [reflexivity|].
  cbn [pw_procs pw_tree].
  assert (Hnew : forall r p', rd procs' r = Some p' ->
            pp_isVisited p' = iv' /\ Z.of_nat (length (pp_border p')) = nb
            /\ border_near N numProcs A iv' r (pp_border p')).
  { intros r p' Hp'.
    assert (Hr : 0 <= r < numProcs) by (apply rd_range in Hp'; lia).
    destruct (rd_in_range (pw_procs w) r ltac:(lia)) as [p0 Hp0].
    destruct (Hrows r p0 (proj2 (In_iota numProcs r) Hr) Hp0) as (p1 & Hp1 & Hq1 & Hq2).
    assert (p1 = p') by congruence. subst p1.
    destruct (Hrows2 r p0 (proj2 (In_iota numProcs r) Hr) Hp0) as (p2 & Hp2 & _ & Hbl & _).
    assert (p2 = p') by congruence. subst p2.
    destruct (Hpp r p0 Hp0) as (_ & Hb0 & _).
    split; [assumption|]. split; [rewrite Hbl; assumption | assumption]. }
  assert (Hk1 : Z.to_nat (k + 1) = S (Z.to_nat k)) by lia.
  split.
  { exists iv'. cbn [pw_procs pw_tree].
    split; [rewrite (wr_length _ _ _ _ Hwr'); assumption|].
    split; [apply (visited_wr _ _ _ 0 Hwr'); now left|].
    split; [rewrite (count_visited_wr iv e0 iv' Hunv Hwr'); lia|].
    split; [rewrite Hl; assumption|].
    split; [rewrite length_upd; assumption|].
    intros r p' Hp'. destruct (Hnew r p' Hp') as (Hq1 & Hq2 & Hq3).
    split; [assumption|]. split; [assumption|].
    intros y0 b' Hy0 Hlt0 Hb' Hnvis (u & Hu & Hvu & Heu) Hb0.
    destruct (Hq3 y0 b' Hy0 Hlt0 Hb' Hnvis) as [Hz0 _].
    apply Heu. now apply (Hz0 Hb0 u Hu Hvu). }
  exists iv'. cbn [pw_procs pw_tree].
  split; [|split; [|split; [|split]]].
  - intros r p' Hp'. destruct (Hnew r p' Hp') as (Hq1 & _ & Hq3). auto.
  - intros v. rewrite (visited_wr _ _ _ v Hwr'). rewrite Hvis. cbn [In].
    split; intros [H|H]; auto.
  - rewrite Hk1, firstn_S_upd by lia.
    assert (Hrow : i * nb + y = e0) by lia. rewrite Hrow in Hwe.
    assert (Hzw : entry N A (border_z b) e0 = e2).
    { rewrite (Hsym (border_z b) e0) by lia. congruence. }
    assert (Heq : init_edge e0 e1 e2
                  = init_edge (border_z b) e0 (entry N A (border_z b) e0)).
    { rewrite Hzw, E1. apply init_edge_sym. }
    rewrite Heq.
    apply prim_run_snoc; auto.
    + now apply Hvis.
    + intros Hin. apply Hvis in Hin. destruct Hin as (x & Hx & Hx0). congruence.
    + rewrite Hzw. congruence.
    + intros u' v' Hu' Hv' Hvr Hne'.
      apply Hvis in Hu'.
      assert (Hur : 0 <= u' < N).
      { destruct Hu' as (x & Hx & _). apply rd_range in Hx. lia. }
      assert (Hnv' : ~ visited iv v') by (intros Hcv; apply Hv'; now apply Hvis).
      pose proof (Z.div_mod v' nb ltac:(lia)) as Hdm.
      pose proof (Z.mod_pos_bound v' nb ltac:(lia)) as Hmod.
      assert (Hq0 : 0 <= v' / nb) by (apply Z.div_pos; lia).
      assert (Hq1 : v' / nb < numProcs) by (apply Z.div_lt_upper_bound; lia).
      destruct (rd_in_range (pw_procs w) (v' / nb) ltac:(lia)) as [p2 Hp2].
      destruct (Hpp _ p2 Hp2) as (_ & Hpb2 & Hnr2).
      assert (Hrow2 : v' / nb * nb + v' mod nb = v') by lia.
      destruct (rd_in_range (pp_border p2) (v' mod nb) ltac:(lia)) as [b2 Hb2].
      pose proof (Hnr2 (v' mod nb) b2 ltac:(lia) ltac:(fold nb; lia) Hb2) as Hn2.
      fold nb in Hn2. rewrite Hrow2 in Hn2. specialize (Hn2 Hnv').
      assert (Hev : entry N A v' u' <> 0) by (rewrite (Hsym v' u') by lia; assumption).
      assert (Hbw2 : border_w b2 <> 0).
      { intros Hb0. apply Hev. now apply (proj1 Hn2 Hb0). }
      destruct (proj2 Hn2 Hbw2) as (_ & _ & _ & Hmin2).
      specialize (Hmin2 u' Hur Hu' Hev).
      assert (Hc2 : candidate_row N nb (v' / nb) (pp_border p2) iv (v' mod nb)).
      { split; [lia|]. split; [lia|]. split; [|eauto].
        replace (v' mod nb + v' / nb * nb) with v' by lia.
        apply unvisited_rd; [lia | assumption]. }
      destruct (Hrd (v' / nb) ltac:(lia)) as (x0 & x1 & x2 & p3 & Hx0 & Hx1 & Hx2 & Hp3 & Hok3).
      assert (p3 = p2) by congruence. subst p3.
      destruct Hok3 as [[_ Hnone]|(y3 & b3 & Hc3 & Hb3 & -> & -> & -> & Hmin3)];
        [exfalso; exact (Hnone _ Hc2)|].
      specialize (Hmin3 _ _ Hc2 Hb2).
      assert (Hle : e2 <= border_w b3).
      { apply (Hmin (v' / nb) (y3 + v' / nb * ceil_div N numProcs) (border_w b3));
          [apply In_iota; lia | assumption | | assumption].
        destruct Hc3 as (Hy3 & _). fold nb. nia. }
      rewrite Hzw. rewrite (Hsym u' v') by lia. lia.
  - rewrite Hk1, skipn_upd_same.
    apply (f_equal (skipn 1)) in Hskip. rewrite !skipn_skipn in Hskip. exact Hskip.
  - rewrite length_upd. exact Htl.
Qed.

Hypothesis Hconn : connected N A.

(** On a connected graph the assertion does not fire. *)
Lemma parallel_prim_iteration_rule (tree0 : list Edge) k w vis :
  0 <= k < N - 1 -> prim_world_inv N numProcs A k w ->
  prim_rule_inv N numProcs A tree0 k w vis ->
  exists w' vis',
    parallel_prim_iteration numProcs N adjs k w = Done w'
    /\ prim_world_inv N numProcs A (k + 1) w'
    /\ prim_rule_inv N numProcs A tree0 (k + 1) w' vis'.
Proof.
  intros Hk Hinv Hrule.
  destruct (parallel_prim_iteration_spec N numProcs A adjs HN HP Hown Hsym Hconn k w Hk Hinv)
    as (w0 & Hit & _).
  destruct (parallel_prim_iteration_cases tree0 k w vis Hk Hinv Hrule) as [Hf|H];
    [congruence | exact H].
Qed.

End RoundMin.

(** *** The whole run *)

Section RunMin.

Variables (N numProcs : Z) (A : Adj) (adjs : Z -> Adj).
Hypothesis HN : 1 <= N.
Hypothesis HNmax : N <= INT_MAX + 1.
Hypothesis HP : 1 <= numProcs.
Hypothesis Hadj : adjacency N A.
Hypothesis Hown : forall r, 0 <= r < numProcs ->
  own_rows N (ceil_div N numProcs) A (adjs r) r.
Hypothesis Hsym : symmetric N A.
Hypothesis Hconn : connected N A.

(** [create_border] on every rank: the border of a row is its entry in
    column 0. *)
Lemma prim_init_procs_near (rs : list Z) :
  (forall r, In r rs -> 0 <= r < numProcs) ->
  exists procs,
    prim_init_procs numProcs N adjs rs = Some procs
    /\ forall i r p, nth_error rs i = Some r -> nth_error procs i = Some p ->
         wr (calloc_int N) 0 1 = Some (pp_isVisited p)
         /\ forall y, 0 <= y < ceil_div N numProcs ->
              r * ceil_div N numProcs + y < N ->
              rd (pp_border p) y
              = Some (mkBorder (entry N A (r * ceil_div N numProcs + y) 0) 0).
Proof.
  induction rs as [|r rs IH]; intros Hrs.
  - exists []. split; [reflexivity|]. intros [|i] r p H; discriminate.
  - cbn [prim_init_procs]. unfold create_border.
    destruct (wr (calloc_int N) 0 1) as [iv|] eqn:Hw;
      [|rewrite wr_in_range in Hw by (unfold calloc_int; rewrite repeat_length; lia);
        discriminate].
    pose proof (nbRows_nonneg N numProcs HN HP) as Hnb.
    destruct (Hrs r (or_introl eq_refl)) as [Hr0 Hr1].
    destruct (rows_split N (ceil_div N numProcs) r Hnb Hr0 HN)
      as (k & Hk & Hsplit & Hvalid & Hinvalid & Hall).
    rewrite Hsplit.
    destruct (create_border_loop_spec N (ceil_div N numProcs) r A (adjs r) HN
                (Hown r (conj Hr0 Hr1)) (iota k) (range k (ceil_div N numProcs))
                (repeat (mkBorder 0 0) (Z.to_nat (ceil_div N numProcs))) (NoDup_iota k))
      as (border & Hloop & Hlen & Hrows & _).
    { intros y Hy. rewrite repeat_length. destruct (Hvalid y Hy). lia. }
    { assumption. }
    rewrite Hloop. destruct IH as (procs & Hinit & Hnth).
    { intros; apply Hrs; now right. }
    rewrite Hinit. eexists. split; [reflexivity|].
    intros [|i] r' p Hi Hp; cbn [nth_error] in Hi, Hp.
    + injection Hi as <-. injection Hp as <-. cbn [fst snd pp_isVisited pp_border].
      split; [reflexivity|]. intros y Hy Hlt. apply Hrows. now apply Hall.
    + eapply Hnth; eassumption.
Qed.

Lemma prim_rule_inv_init (tree : list Edge) (procs : list PrimProc) :
  prim_init_procs numProcs N adjs (iota numProcs) = Some procs ->
  prim_rule_inv N numProcs A tree 0 (mkPrimWorld procs tree) [0].
Proof.
  intros Hinit.
  destruct (prim_init_procs_near (iota numProcs)) as (procs2 & Hinit2 & Hnth).
  { intros r Hr. now apply In_iota in Hr. }
  assert (procs2 = procs) by congruence. subst procs2.
  destruct (prim_init_procs_spec N numProcs A adjs HN HP Hown (iota numProcs))
    as (procs3 & Hinit3 & Hlen & _).
  { intros r Hr. now apply In_iota in Hr. }
  assert (procs3 = procs) by congruence. subst procs3.
  assert (Hc : Z.of_nat (length (calloc_int N)) = N)
    by (unfold calloc_int; rewrite repeat_length; lia).
  assert (Hwr : wr (calloc_int N) 0 1 = Some (upd (calloc_int N) (Z.to_nat 0) 1))
    by (apply wr_in_range; lia).
  set (iv := upd (calloc_int N) (Z.to_nat 0) 1) in *.
  assert (Hvis0 : forall v, visited iv v <-> v = 0).
  { intros v. rewrite (visited_wr _ _ _ v Hwr). split; [|auto].
    intros [H|H]; [exfalso; exact (not_visited_calloc N v H) | assumption]. }
  exists iv. cbn [pw_procs pw_tree Z.to_nat firstn skipn].
  split; [|split; [|split; [constructor | split; reflexivity]]].
  - intros r p Hp.
    assert (Hr : 0 <= r < numProcs).
    { apply rd_range in Hp. rewrite Hlen, length_iota in Hp. lia. }
    pose proof (rd_iota numProcs r Hr) as Hi. apply rd_Some in Hi. destruct Hi as [_ Hi].
    apply rd_Some in Hp. destruct Hp as [_ Hp].
    destruct (Hnth _ r p Hi Hp) as (Hiv & Hb).
    split; [congruence|].
    intros y b Hy Hlt Hrd Hnv. rewrite (Hb y Hy Hlt) in Hrd. injection Hrd as <-.
    split; cbn [border_w border_z].
    + intros Hw u Hu Hvu. apply Hvis0 in Hvu. now subst u.
    + intros Hw. split; [lia|]. split; [now apply Hvis0|]. split; [reflexivity|].
      intros u Hu Hvu _. apply Hvis0 in Hvu. subst u. lia.
  - intros v. rewrite Hvis0. cbn [In]. split; [auto|]. intros [H|[]]; auto.
Qed.

Lemma parallel_prim_loop_rule (tree0 : list Edge) (w0 : PrimWorld) (k : nat) :
  prim_world_inv N numProcs A 0 w0 ->
  prim_rule_inv N numProcs A tree0 0 w0 [0] ->
  Z.of_nat k <= N - 1 ->
  exists w vis,
    parallel_prim_loop numProcs N adjs (iota (Z.of_nat k)) w0 = Done w
    /\ prim_world_inv N numProcs A (Z.of_nat k) w
    /\ prim_rule_inv N numProcs A tree0 (Z.of_nat k) w vis.
Proof.
  intros H0 R0. induction k as [|k IH]; intros Hk.
  - exists w0, [0]. split; [reflexivity|]. auto.
  - destruct IH as (w & vis & Hloop & Hinv & Hrule); [lia|].
    destruct (parallel_prim_iteration_rule N numProcs A adjs HN HNmax HP Hadj Hown Hsym Hconn
                tree0 (Z.of_nat k) w vis ltac:(lia) Hinv Hrule)
      as (w' & vis' & Hit & Hinv' & Hrule').
    exists w', vis'. replace (Z.of_nat (S k)) with (Z.of_nat k + 1) by lia.
    split; [|auto].
    rewrite iota_succ by lia. rewrite (parallel_prim_loop_app _ _ _ _ _ _ _ Hloop).
    cbn [parallel_prim_loop]. now rewrite Hit.
Qed.

Lemma parallel_prim_loop_stops numProcs' N' adjs' l1 l2 w :
  parallel_prim_loop numProcs' N' adjs' l1 w = Assertion_failed ->
  parallel_prim_loop numProcs' N' adjs' (l1 ++ l2) w = Assertion_failed.
Proof.
  revert w. induction l1 as [|e l1 IH]; intros w H; cbn [app parallel_prim_loop] in *.
  - discriminate.
  - destruct (parallel_prim_iteration numProcs' N' adjs' e w); try discriminate; auto.
Qed.

(** Without the hypothesis that the graph is connected: the first [k]
    iterations stop at the assertion or follow Prim's rule. *)
Lemma parallel_prim_loop_cases (tree0 : list Edge) (w0 : PrimWorld) (k : nat) :
  prim_world_inv N numProcs A 0 w0 ->
  prim_rule_inv N numProcs A tree0 0 w0 [0] ->
  Z.of_nat k <= N - 1 ->
  parallel_prim_loop numProcs N adjs (iota (Z.of_nat k)) w0 = Assertion_failed
  \/ exists w vis,
       parallel_prim_loop numProcs N adjs (iota (Z.of_nat k)) w0 = Done w
       /\ prim_world_inv N numProcs A (Z.of_nat k) w
       /\ prim_rule_inv N numProcs A tree0 (Z.of_nat k) w vis.
Proof.
  intros H0 R0. induction k as [|k IH]; intros Hk.
  - right. exists w0, [0]. split; [reflexivity|]. auto.
  - replace (Z.of_nat (S k)) with (Z.of_nat k + 1) by lia.
    rewrite iota_succ by lia.
    destruct IH as [Hf|(w & vis & Hloop & Hinv & Hrule)]; [lia| |].
    + left. now apply parallel_prim_loop_stops.
    + rewrite (parallel_prim_loop_app _ _ _ _ _ _ _ Hloop). cbn [parallel_prim_loop].
      destruct (parallel_prim_iteration_cases N numProcs A adjs HN HNmax HP Hadj Hown Hsym
                  tree0 (Z.of_nat k) w vis ltac:(lia) Hinv Hrule)
        as [Hf|(w' & vis' & Hit & Hinv' & Hrule')]; rewrite ?Hf, ?Hit; [now left|].
      right. exists w', vis'. auto.
Qed.

End RunMin.

(** [parallel_prim] (lines 555-573, with [find_closest_border],
    [send_edge], [select_new_vertex] and [add_vertex_to_border]) on a
    connected graph whose rows are dealt to the ranks by blocks: the [N - 1]
    edges that rank 0 writes to [tree] grow a tree from vertex 0 by Prim's
    rule.  Every edge leads from a vertex already in the tree to a vertex
    that is not, no edge between the tree and the rest of the graph is
    lighter, and in the end the edges reach all the vertices: they form a
    spanning tree.  The entries of [tree] from [N - 1] on are not
    written. *)
Theorem parallel_prim_follows_prim_rule
  (N numProcs : Z) (A : Adj) (tree : list Edge) :
  N <= INT_MAX + 1 ->
  adjacency N A -> symmetric N A -> connected N A -> 1 <= numProcs ->
  N - 1 <= Z.of_nat (length tree) ->
  exists out vis,
    parallel_prim numProcs (row_blocks N numProcs A) N tree
      = Done (out ++ skipn (Z.to_nat (N - 1)) tree)
    /\ Z.of_nat (length out) = N - 1
    /\ prim_run N A [0] out vis
    /\ (forall v, 0 <= v < N -> In v vis)
    /\ (forall v, 0 <= v < N -> conn out 0 v).
Proof.
  intros HNmax Hadj Hsym Hconn HP Htree. pose proof (proj1 Hconn) as HN.
  assert (Hown : forall r, 0 <= r < numProcs ->
            own_rows N (ceil_div N numProcs) A (row_blocks N numProcs A r) r)
    by (intros r Hr; apply own_rows_row_blocks; [assumption | lia | lia]).
  destruct (prim_world_inv_init N numProcs A (row_blocks N numProcs A) HN HP Hown tree Htree)
    as (procs & Hinit & Hinv0).
  pose proof (prim_rule_inv_init N numProcs A (row_blocks N numProcs A) HN HP Hown
                tree procs Hinit) as Hrule0.
  destruct (parallel_prim_loop_rule N numProcs A (row_blocks N numProcs A)
              HN HNmax HP Hadj Hown Hsym Hconn tree _ (Z.to_nat (N - 1)) Hinv0 Hrule0
              ltac:(lia))
    as (w & vis & Hloop & Hinv & Hrule).
  replace (Z.of_nat (Z.to_nat (N - 1))) with (N - 1) in * by lia.
  destruct Hrule as (iv & _ & Hvis & Hrun & Hskip & Hlen).
  exists (firstn (Z.to_nat (N - 1)) (pw_tree w)), vis.
  assert (Hout : Z.of_nat (length (firstn (Z.to_nat (N - 1)) (pw_tree w))) = N - 1)
    by (rewrite length_firstn; lia).
  assert (Hall : forall v, 0 <= v < N -> In v vis).
  { assert (Hnd : NoDup vis).
    { apply (prim_run_NoDup _ _ _ _ _ Hrun). constructor; [intros []|constructor]. }
    assert (Hr : forall v, In v vis -> 0 <= v < N).
    { apply (prim_run_range _ _ _ _ _ Hrun). intros v [<-|[]]. lia. }
    pose proof (prim_run_length _ _ _ _ _ Hrun) as Hl. cbn [length] in Hl.
    assert (Hincl : incl (iota N) vis).
    { apply (NoDup_length_incl Hnd).
      - rewrite length_iota. lia.
      - intros v Hv. apply In_iota. now apply Hr. }
    intros v Hv. apply Hincl. now apply In_iota. }
  split; [|split; [exact Hout|split; [exact Hrun|split; [exact Hall|]]]].
  - unfold parallel_prim. rewrite Hinit, Hloop. f_equal.
    rewrite <- Hskip. symmetry. apply firstn_skipn.
  - intros v Hv.
    destruct (prim_run_conn _ _ _ _ _ Hrun v (Hall v Hv)) as (u & [<-|[]] & Hc).
    exact Hc.
Qed.

Lemma parallel_prim_follows_prim_rule_witness :
  exists out vis,
    parallel_prim 2 (row_blocks 3 2 [0; 1; 4; 1; 0; 2; 4; 2; 0]) 3 (calloc_edges 2)
      = Done (out ++ skipn (Z.to_nat (3 - 1)) (calloc_edges 2))
    /\ Z.of_nat (length out) = 3 - 1
    /\ prim_run 3 [0; 1; 4; 1; 0; 2; 4; 2; 0] [0] out vis
    /\ (forall v, 0 <= v < 3 -> In v vis)
    /\ (forall v, 0 <= v < 3 -> conn out 0 v).
Proof.
  apply (parallel_prim_follows_prim_rule 3 2 [0; 1; 4; 1; 0; 2; 4; 2; 0] (calloc_edges 2)).
  - unfold INT_MAX. lia.
  - apply adjacency_by_test; [lia | reflexivity | reflexivity].
  - apply symmetric_by_test. reflexivity.
  - split; [lia|]. intros v Hv.
    assert (Ev : v = 0 \/ v = 1 \/ v = 2) by lia.
    destruct Ev as [->|[->| ->]].
    + apply reach_refl.
    + apply (reach_step 3 _ 0 0 1); [apply reach_refl | lia | discriminate].
    + apply (reach_step 3 _ 0 0 2); [apply reach_refl | lia | discriminate].
  - lia.
  - simpl. lia.
Defined.

(** *** The steps of a round, one by one *)

(** [create_border] (lines 466-477) on the rank [procRank], whose array
    holds its block of rows: vertex 0 is marked visited, and the border of
    every row of the block that exists in the graph is the entry of that
    row in column 0, with vertex 0 as its other end; the entries of the
    rows past the end of the graph stay zero. *)
Theorem create_border_reads_column_of_first_vertex
  (N numProcs : Z) (A : Adj) (procRank : Z) :
  adjacency N A -> 1 <= N -> 1 <= numProcs -> 0 <= procRank < numProcs ->
  exists border isVisited,
    create_border procRank (ceil_div N numProcs) (calloc_int N) N
      (row_blocks N numProcs A procRank) = Some (border, isVisited)
    /\ Z.of_nat (length isVisited) = N
    /\ (forall v, visited isVisited v <-> v = 0)
    /\ Z.of_nat (length border) = ceil_div N numProcs
    /\ forall y, 0 <= y < ceil_div N numProcs ->
         rd border y
         = Some (if procRank * ceil_div N numProcs + y <? N
                 then mkBorder (entry N A (procRank * ceil_div N numProcs + y) 0) 0
                 else mkBorder 0 0).
Proof.
  intros Hadj HN HP Hr. unfold create_border.
  assert (Hc : Z.of_nat (length (calloc_int N)) = N)
    by (unfold calloc_int; rewrite repeat_length; lia).
  destruct (wr (calloc_int N) 0 1) as [iv|] eqn:Hw;
    [|rewrite wr_in_range in Hw by lia; discriminate].
  pose proof (nbRows_nonneg N numProcs HN HP) as Hnb.
  destruct (rows_split N (ceil_div N numProcs) procRank Hnb (proj1 Hr) HN)
    as (k & Hk & Hsplit & Hvalid & Hinvalid & Hall).
  rewrite Hsplit.
  destruct (create_border_loop_spec N (ceil_div N numProcs) procRank A
              (row_blocks N numProcs A procRank) HN
              (own_rows_row_blocks N numProcs A procRank Hadj HP (proj1 Hr))
              (iota k) (range k (ceil_div N numProcs))
              (repeat (mkBorder 0 0) (Z.to_nat (ceil_div N numProcs))) (NoDup_iota k))
    as (border & Hloop & Hlen & Hrows & Hframe).
  { intros y Hy. rewrite repeat_length. destruct (Hvalid y Hy). lia. }
  { assumption. }
  rewrite Hloop. exists border, iv. split; [reflexivity|].
  split; [rewrite (wr_length _ _ _ _ Hw); assumption|]. split; [|split].
  - intros v. rewrite (visited_wr _ _ _ v Hw). split; [|auto].
    intros [H|H]; [exfalso; exact (not_visited_calloc N v H) | assumption].
  - rewrite Hlen, repeat_length. lia.
  - intros y Hy. destruct (Z.ltb_spec (procRank * ceil_div N numProcs + y) N) as [Hlt|Hge].
    + apply Hrows. now apply Hall.
    + rewrite Hframe.
      * destruct (rd_in_range (repeat (mkBorder 0 0) (Z.to_nat (ceil_div N numProcs))) y)
          as [b Hb]; [rewrite repeat_length; lia|].
        rewrite Hb. f_equal. apply rd_In in Hb. now apply repeat_spec in Hb.
      * intros Hin. destruct (Hvalid y Hin). lia.
Qed.

Lemma create_border_reads_column_of_first_vertex_witness :
  exists border isVisited,
    create_border 1 (ceil_div 3 2) (calloc_int 3) 3
      (row_blocks 3 2 [0; 1; 4; 1; 0; 2; 4; 2; 0] 1) = Some (border, isVisited)
    /\ Z.of_nat (length isVisited) = 3
    /\ (forall v, visited isVisited v <-> v = 0)
    /\ Z.of_nat (length border) = ceil_div 3 2
    /\ forall y, 0 <= y < ceil_div 3 2 ->
         rd border y
         = Some (if 1 * ceil_div 3 2 + y <? 3
                 then mkBorder (entry 3 [0; 1; 4; 1; 0; 2; 4; 2; 0] (1 * ceil_div 3 2 + y) 0) 0
                 else mkBorder 0 0).
Proof.
  apply (create_border_reads_column_of_first_vertex 3 2 [0; 1; 4; 1; 0; 2; 4; 2; 0] 1);
    try lia.
  apply adjacency_by_test; [lia | reflexivity | reflexivity].
Defined.

(** [find_closest_border] (lines 479-497).  A candidate is a row of the
    block whose vertex exists, is not visited, and has a border of non-zero
    weight.  The function returns -1 exactly when there is no candidate,
    and otherwise a candidate whose border weight is the least. *)
Theorem find_closest_border_returns_lightest_candidate
  (N nbRows procRank : Z) (border : list BorderNode) (isVisited : list Z) :
  1 <= N -> 0 <= nbRows -> 0 <= procRank ->
  Z.of_nat (length isVisited) = N -> Z.of_nat (length border) = nbRows ->
  (forall y b, candidate_row N nbRows procRank border isVisited y ->
     rd border y = Some b ->
     model_edge (init_edge (procRank * nbRows + y) (border_z b) (border_w b))) ->
  exists yres,
    find_closest_border procRank border isVisited N nbRows = Some yres
    /\ ((yres = -1 /\ forall y, ~ candidate_row N nbRows procRank border isVisited y)
        \/ (candidate_row N nbRows procRank border isVisited yres
            /\ exists bres,
                 rd border yres = Some bres
                 /\ forall y b, candidate_row N nbRows procRank border isVisited y ->
                      rd border y = Some b -> border_w bres <= border_w b)).
Proof.
  intros HN Hnb Hr Hiv Hbl Hval.
  destruct (rows_split N nbRows procRank Hnb Hr HN)
    as (k & Hk & Hsplit & Hvalid & Hinvalid & Hall).
  unfold find_closest_border. rewrite Hsplit.
  assert (Hin : forall y, candidate_row N nbRows procRank border isVisited y ->
            In y (iota k)).
  { intros y (Hy1 & Hy2 & _). now apply Hall. }
  destruct (find_closest_border_loop_min N nbRows procRank border isVisited
              (iota k) (range k nbRows) (-1) zero_edge)
    as (yres & Hloop & Hres).
  { intros y Hy. destruct (Hvalid y Hy) as [Hy1 Hy2]. rewrite Hiv, Hbl.
    repeat split; try lia; nia. }
  { exact Hinvalid. }
  { intros y b Hy Hb Hw Hrd. destruct (Hvalid y Hy) as [Hy1 Hy2].
    apply Hval; [|assumption].
    split; [assumption|]. split; [assumption|]. split; [assumption|]. eauto. }
  { intros Hc. contradiction. }
  exists yres. split; [exact Hloop|].
  destruct Hres as [[-> Hnone]|(Hyin & Hc & bres & Hbres & _ & Hmin)].
  - left. split; [reflexivity|].
    intros y Hc. pose proof Hc as (_ & _ & _ & b & Hb & _).
    destruct (Hnone y b (Hin y Hc) Hc Hb) as [Hne _]. contradiction.
  - right. split; [assumption|]. exists bres. split; [assumption|].
    intros y b Hc' Hb. apply (Hmin y b); auto.
Qed.

Lemma find_closest_border_returns_lightest_candidate_witness :
  exists yres,
    find_closest_border 0 [mkBorder 0 0; mkBorder 7 0; mkBorder 4 0] [1; 0; 0] 3 3
      = Some yres
    /\ ((yres = -1
         /\ forall y, ~ candidate_row 3 3 0 [mkBorder 0 0; mkBorder 7 0; mkBorder 4 0]
                          [1; 0; 0] y)
        \/ (candidate_row 3 3 0 [mkBorder 0 0; mkBorder 7 0; mkBorder 4 0] [1; 0; 0] yres
            /\ exists bres,
                 rd [mkBorder 0 0; mkBorder 7 0; mkBorder 4 0] yres = Some bres
                 /\ forall y b,
                      candidate_row 3 3 0 [mkBorder 0 0; mkBorder 7 0; mkBorder 4 0]
                        [1; 0; 0] y ->
                      rd [mkBorder 0 0; mkBorder 7 0; mkBorder 4 0] y = Some b ->
                      border_w bres <= border_w b)).
Proof.
  apply (find_closest_border_returns_lightest_candidate 3 3 0
           [mkBorder 0 0; mkBorder 7 0; mkBorder 4 0] [1; 0; 0]); try lia; try reflexivity.
  intros y b (Hy & _) Hb.
  assert (Ey : y = 0 \/ y = 1 \/ y = 2) by lia.
  destruct Ey as [->|[->| ->]]; inversion Hb; subst;
    unfold model_edge, valid_edge, INT_MAX; simpl; lia.
Defined.

(** [select_new_vertex] on rank 0 (lines 514-534), on an array of
    [numProcs] triples.  The assertion fires exactly when every triple
    starts with the sentinel -1.  Otherwise the function returns the first
    int of a triple that does not start with -1 and whose weight, its third
    int, is the least among such triples, and [*smallest] is the edge of
    that triple; the value that [*smallest] had is not used. *)
Theorem select_new_vertex_picks_lightest_triple
  (numProcs : Z) (minEdges : list Z) (smallest : Edge) :
  0 <= numProcs -> numProcs * 3 <= Z.of_nat (length minEdges) ->
  (forall id e0 e1 e2, 0 <= id < numProcs ->
     rd minEdges (id * 3 + 0) = Some e0 -> rd minEdges (id * 3 + 1) = Some e1 ->
     rd minEdges (id * 3 + 2) = Some e2 -> e0 <> -1 ->
     model_edge (init_edge e0 e1 e2)) ->
  (select_new_vertex numProcs minEdges smallest = Assertion_failed
   /\ forall id, 0 <= id < numProcs -> rd minEdges (id * 3 + 0) = Some (-1))
  \/ exists id e0 e1 e2,
       select_new_vertex numProcs minEdges smallest = Done (e0, init_edge e0 e1 e2)
       /\ 0 <= id < numProcs /\ e0 <> -1
       /\ rd minEdges (id * 3 + 0) = Some e0 /\ rd minEdges (id * 3 + 1) = Some e1
       /\ rd minEdges (id * 3 + 2) = Some e2
       /\ forall id' x0 x2, 0 <= id' < numProcs ->
            rd minEdges (id' * 3 + 0) = Some x0 -> x0 <> -1 ->
            rd minEdges (id' * 3 + 2) = Some x2 -> e2 <= x2.
Proof.
  intros HP Hlen Hval. unfold select_new_vertex.
  destruct (select_new_vertex_loop_min minEdges (iota numProcs) (-1) smallest)
    as (nv & sm & Hsel & Hres).
  { intros id Hid. apply In_iota in Hid.
    destruct (rd_in_range minEdges (id * 3 + 0) ltac:(lia)) as [e0 H0].
    destruct (rd_in_range minEdges (id * 3 + 1) ltac:(lia)) as [e1 H1].
    destruct (rd_in_range minEdges (id * 3 + 2) ltac:(lia)) as [e2 H2].
    exists e0, e1, e2. repeat (split; [assumption|]). intros Hne.
    now apply (Hval id). }
  { intros Hc. contradiction. }
  rewrite Hsel. cbn [fst].
  destruct Hres as [(-> & -> & Hall)
                   |(i & e0 & e1 & e2 & Hi & H0 & H1 & H2 & Hne & -> & -> & _ & Hmin)].
  - left. cbn [Z.eqb]. split; [reflexivity|].
    intros id Hid.
    destruct (rd_in_range minEdges (id * 3 + 0) ltac:(lia)) as [x0 Hx0].
    destruct (rd_in_range minEdges (id * 3 + 2) ltac:(lia)) as [x2 Hx2].
    destruct (Z.eq_dec x0 (-1)) as [->|Hx]; [assumption|].
    destruct (Hall id x0 x2 (proj2 (In_iota numProcs id) Hid) Hx0 Hx Hx2) as [Hc _].
    contradiction.
  - right. apply In_iota in Hi. exists i, e0, e1, e2.
    destruct (Z.eqb_spec e0 (-1)); [contradiction|].
    split; [reflexivity|]. repeat (split; [assumption|]).
    intros id' x0 x2 Hid' Hx0 Hx Hx2.
    apply (Hmin id' x0 x2); auto. now apply In_iota.
Qed.

Lemma select_new_vertex_picks_lightest_triple_witness :
  (select_new_vertex 2 [-1; 0; 0; 2; 1; 5] zero_edge = Assertion_failed
   /\ forall id, 0 <= id < 2 -> rd [-1; 0; 0; 2; 1; 5] (id * 3 + 0) = Some (-1))
  \/ exists id e0 e1 e2,
       select_new_vertex 2 [-1; 0; 0; 2; 1; 5] zero_edge = Done (e0, init_edge e0 e1 e2)
       /\ 0 <= id < 2 /\ e0 <> -1
       /\ rd [-1; 0; 0; 2; 1; 5] (id * 3 + 0) = Some e0
       /\ rd [-1; 0; 0; 2; 1; 5] (id * 3 + 1) = Some e1
       /\ rd [-1; 0; 0; 2; 1; 5] (id * 3 + 2) = Some e2
       /\ forall id' x0 x2, 0 <= id' < 2 ->
            rd [-1; 0; 0; 2; 1; 5] (id' * 3 + 0) = Some x0 -> x0 <> -1 ->
            rd [-1; 0; 0; 2; 1; 5] (id' * 3 + 2) = Some x2 -> e2 <= x2.
Proof.
  apply (select_new_vertex_picks_lightest_triple 2 [-1; 0; 0; 2; 1; 5] zero_edge).
  - lia.
  - simpl. lia.
  - intros id e0 e1 e2 Hid H0 H1 H2 Hne.
    assert (Ei : id = 0 \/ id = 1) by lia.
    destruct Ei as [-> | ->]; inversion H0; inversion H1; inversion H2; subst;
      [contradiction|]. unfold model_edge, valid_edge, INT_MAX. simpl. lia.
Defined.

(** [add_vertex_to_border] (lines 536-553) on the rank [procRank], whose
    array holds its block of rows: [newVertex] is marked visited, and when
    the border records, for every row of the block that is not visited, a
    lightest edge to the visited vertices (weight 0 when there is none), it
    does so again after the call, for the visited vertices with
    [newVertex]. *)
Theorem add_vertex_to_border_keeps_lightest_edges
  (N numProcs : Z) (A : Adj) (procRank newVertex : Z)
  (border : list BorderNode) (isVisited : list Z) :
  1 <= N -> N <= INT_MAX + 1 -> 1 <= numProcs -> adjacency N A ->
  0 <= procRank < numProcs -> 0 <= newVertex < N ->
  Z.of_nat (length isVisited) = N ->
  Z.of_nat (length border) = ceil_div N numProcs ->
  border_near N numProcs A isVisited procRank border ->
  exists border' isVisited',
    add_vertex_to_border procRank (row_blocks N numProcs A procRank) N newVertex
      border isVisited (ceil_div N numProcs) = Some (border', isVisited')
    /\ wr isVisited newVertex 1 = Some isVisited'
    /\ (forall v, visited isVisited' v <-> visited isVisited v \/ v = newVertex)
    /\ border_near N numProcs A isVisited' procRank border'.
Proof.
  intros HN HNmax HP Hadj Hr Hnew Hiv Hbl Hnear.
  assert (Hwr : wr isVisited newVertex 1 = Some (upd isVisited (Z.to_nat newVertex) 1))
    by (apply wr_in_range; lia).
  destruct (add_vertex_to_border_near N numProcs A (row_blocks N numProcs A) HN HNmax HP Hadj
              (fun r Hr' => own_rows_row_blocks N numProcs A r Hadj HP (proj1 Hr'))
              isVisited _ newVertex procRank (mkPrimProc border isVisited)
              Hiv Hnew Hwr Hr eq_refl Hbl Hnear)
    as ([border' iv'] & Hadd & Hiv' & Hnear').
  cbn [pp_border pp_isVisited fst snd] in *. subst iv'.
  exists border', (upd isVisited (Z.to_nat newVertex) 1).
  split; [exact Hadd|]. split; [exact Hwr|]. split; [|exact Hnear'].
  intros v. apply (visited_wr _ _ _ v Hwr).
Qed.

Lemma add_vertex_to_border_keeps_lightest_edges_witness :
  exists border' isVisited',
    add_vertex_to_border 0 (row_blocks 3 1 [0; 1; 4; 1; 0; 2; 4; 2; 0] 0) 3 1
      [mkBorder 0 0; mkBorder 1 0; mkBorder 4 0] [1; 0; 0] (ceil_div 3 1)
      = Some (border', isVisited')
    /\ wr [1; 0; 0] 1 1 = Some isVisited'
    /\ (forall v, visited isVisited' v <-> visited [1; 0; 0] v \/ v = 1)
    /\ border_near 3 1 [0; 1; 4; 1; 0; 2; 4; 2; 0] isVisited' 0 border'.
Proof.
  apply (add_vertex_to_border_keeps_lightest_edges 3 1 [0; 1; 4; 1; 0; 2; 4; 2; 0] 0 1
           [mkBorder 0 0; mkBorder 1 0; mkBorder 4 0] [1; 0; 0]); try lia.
  - unfold INT_MAX. lia.
  - apply adjacency_by_test; [lia | reflexivity | reflexivity].
  - reflexivity.
  - reflexivity.
  - assert (Hvis : forall u, 0 <= u < 3 -> visited [1; 0; 0] u -> u = 0).
    { intros u Hu (x & Hx & Hne).
      assert (Eu : u = 0 \/ u = 1 \/ u = 2) by lia.
      destruct Eu as [->|[->| ->]]; [reflexivity| |]; inversion Hx; subst; contradiction. }
    intros y b Hy Hlt Hb Hnv. change (ceil_div 3 1) with 3 in *.
    assert (Ey : y = 0 \/ y = 1 \/ y = 2) by lia.
    destruct Ey as [->|[->| ->]]; inversion Hb; subst; cbn [border_w border_z].
    + exfalso. apply Hnv. exists 1. split; [reflexivity | lia].
    + split; [intros Hc; discriminate|]. intros _. cbn [border_w border_z].
      split; [lia|]. split; [exists 1; split; [reflexivity | lia]|].
      split; [reflexivity|]. intros u Hu Hvu _. rewrite (Hvis u Hu Hvu). vm_compute. discriminate.
    + split; [intros Hc; discriminate|]. intros _. cbn [border_w border_z].
      split; [lia|]. split; [exists 1; split; [reflexivity | lia]|].
      split; [reflexivity|]. intros u Hu Hvu _. rewrite (Hvis u Hu Hvu). vm_compute. discriminate.
Defined.

(** [parallel_prim] (lines 555-573) on a graph that is not connected, its
    rows dealt to the ranks by blocks: the run does not return.  Before
    the [N - 1] iterations are over, the assertion
    [idSmallestVertex != -1] of [select_new_vertex] stops the program on
    rank 0. *)
Theorem parallel_prim_stops_at_assertion_when_not_connected
  (N numProcs : Z) (A : Adj) (tree : list Edge) :
  1 <= N -> N <= INT_MAX + 1 ->
  adjacency N A -> symmetric N A -> ~ connected N A -> 1 <= numProcs ->
  N - 1 <= Z.of_nat (length tree) ->
  parallel_prim numProcs (row_blocks N numProcs A) N tree = Assertion_failed.
Proof.
  intros HN HNmax Hadj Hsym Hnc HP Htree.
  assert (Hown : forall r, 0 <= r < numProcs ->
            own_rows N (ceil_div N numProcs) A (row_blocks N numProcs A r) r)
    by (intros r Hr; apply own_rows_row_blocks; [assumption | lia | lia]).
  destruct (prim_world_inv_init N numProcs A (row_blocks N numProcs A) HN HP Hown tree Htree)
    as (procs & Hinit & Hinv0).
  pose proof (prim_rule_inv_init N numProcs A (row_blocks N numProcs A) HN HP Hown
                tree procs Hinit) as Hrule0.
  unfold parallel_prim. rewrite Hinit.
  destruct (parallel_prim_loop_cases N numProcs A (row_blocks N numProcs A)
              HN HNmax HP Hadj Hown Hsym tree _ (Z.to_nat (N - 1)) Hinv0 Hrule0
              ltac:(lia))
    as [Hf|(w & vis & Hloop & Hinv & Hrule)].
  - replace (Z.of_nat (Z.to_nat (N - 1))) with (N - 1) in Hf by lia. now rewrite Hf.
  - exfalso. apply Hnc. split; [assumption|].
    replace (Z.of_nat (Z.to_nat (N - 1))) with (N - 1) in * by lia.
    destruct Hrule as (iv & _ & Hvis & Hrun & Hskip & Hlen).
    assert (Hnd : NoDup vis).
    { apply (prim_run_NoDup _ _ _ _ _ Hrun). constructor; [intros []|constructor]. }
    assert (Hr : forall v, In v vis -> 0 <= v < N).
    { apply (prim_run_range _ _ _ _ _ Hrun). intros v [<-|[]]. lia. }
    pose proof (prim_run_length _ _ _ _ _ Hrun) as Hl. cbn [length] in Hl.
    rewrite length_firstn in Hl.
    assert (Hincl : incl (iota N) vis).
    { apply (NoDup_length_incl Hnd).
      - rewrite length_iota. lia.
      - intros v Hv. apply In_iota. now apply Hr. }
    intros v Hv. apply (prim_run_reach N A _ vis Hrun). apply Hincl. now apply In_iota.
Qed.

Lemma parallel_prim_stops_at_assertion_when_not_connected_witness :
  parallel_prim 2 (row_blocks 3 2 [0; 1; 0; 1; 0; 0; 0; 0; 0]) 3 (calloc_edges 2)
  = Assertion_failed.
Proof.
  apply (parallel_prim_stops_at_assertion_when_not_connected
           3 2 [0; 1; 0; 1; 0; 0; 0; 0; 0] (calloc_edges 2)).
  - lia.
  - unfold INT_MAX. lia.
  - apply adjacency_by_test; [lia | reflexivity | reflexivity].
  - apply symmetric_by_test. reflexivity.
  - intros [_ H]. specialize (H 2 ltac:(lia)).
    inversion H as [Heq|v w Hr Hw He].
    pose proof (reach_in_range 3 _ v ltac:(lia) Hr) as Hv.
    assert (Hc : v = 0 \/ v = 1 \/ v = 2) by lia.
    destruct Hc as [-> | [-> | ->]]; vm_compute in He; congruence.
  - lia.
  - simpl. lia.
Defined.


(** ** Further properties of parallel Kruskal

    *** Merging *)

(** [merge_sorted_lists] (lines 221-233) on the first [ni] entries of [li]
    and the first [nj] entries of [lj], two ascending lists of edges of the
    data model that share no edge: the first [ni + nj] entries of [output]
    become the ascending list of all these edges; the rest of [output] is
    left as it was.  The entries of [li] and [lj] past [ni] and [nj] are
    not read. *)
Theorem merge_sorted_lists_merges (N : Z) (l1 l2 t1 t2 output : list Edge) :
  N <= INT_MAX + 1 ->
  (length l1 + length l2 <= length output)%nat ->
  Forall (valid_edge N) l1 -> Forall (valid_edge N) l2 ->
  StronglySorted edge_lt l1 -> StronglySorted edge_lt l2 ->
  (forall x, In x l1 -> ~ In x l2) ->
  exists m,
    merge_sorted_lists (l1 ++ t1) (Z.of_nat (length l1)) (l2 ++ t2)
      (Z.of_nat (length l2)) output
    = Some (m ++ skipn (length m) output)
    /\ length m = (length l1 + length l2)%nat
    /\ (forall e, In e m <-> In e l1 \/ In e l2)
    /\ StronglySorted edge_lt m.
Proof.
  intros HN Hout Hv1 Hv2 Hs1 Hs2 Hdis.
  destruct (merge_sorted_lists_spec N HN l1 l2 t1 t2 output Hout Hv1 Hv2 Hs1 Hs2 Hdis)
    as (m & Hm & Hp & Hs).
  exists m. split; [exact Hm|].
  split; [rewrite (Permutation_length Hp); apply length_app|]. split; [|exact Hs].
  intros e. rewrite <- in_app_iff. split; apply Permutation_in; [|apply Permutation_sym];
    exact Hp.
Qed.

Lemma merge_sorted_lists_merges_witness :
  exists m,
    merge_sorted_lists ([mkEdge 0 1 1; mkEdge 1 2 5] ++ [])
      (Z.of_nat (length [mkEdge 0 1 1; mkEdge 1 2 5]))
      ([mkEdge 0 2 3] ++ [zero_edge]) (Z.of_nat (length [mkEdge 0 2 3]))
      (calloc_edges 4)
    = Some (m ++ skipn (length m) (calloc_edges 4))
    /\ length m = (length [mkEdge 0 1 1; mkEdge 1 2 5] + length [mkEdge 0 2 3])%nat
    /\ (forall e, In e m <-> In e [mkEdge 0 1 1; mkEdge 1 2 5] \/ In e [mkEdge 0 2 3])
    /\ StronglySorted edge_lt m.
Proof.
  apply (merge_sorted_lists_merges 3 [mkEdge 0 1 1; mkEdge 1 2 5] [mkEdge 0 2 3] []
           [zero_edge] (calloc_edges 4)).
  - unfold INT_MAX. lia.
  - simpl. lia.
  - repeat constructor; unfold INT_MAX; cbn; try lia.
  - repeat constructor; unfold INT_MAX; cbn; try lia.
  - repeat constructor; try (unfold edge_lt; cbn; lia).
  - repeat constructor.
  - intros x [<-|[<-|[]]] [H|[]]; discriminate.
Defined.

(** [merge_into] (lines 235-240): the merge of the first [n1] entries of
    [oldBuf] and the first [n2] entries of [newBuf] (two ascending lists of
    edges of the data model that share no edge) replaces the first
    [n1 + n2] entries of [newBuf], which must have room for them. *)
Theorem merge_into_merges_in_place (N : Z) (l1 t1 l2 t2 : list Edge) :
  N <= INT_MAX + 1 ->
  (length l1 + length l2 <= length (l2 ++ t2))%nat ->
  Forall (valid_edge N) l1 -> Forall (valid_edge N) l2 ->
  StronglySorted edge_lt l1 -> StronglySorted edge_lt l2 ->
  (forall x, In x l1 -> ~ In x l2) ->
  exists m,
    merge_into (l1 ++ t1) (Z.of_nat (length l1)) (l2 ++ t2) (Z.of_nat (length l2))
    = Some (m ++ skipn (length m) (l2 ++ t2))
    /\ length m = (length l1 + length l2)%nat
    /\ (forall e, In e m <-> In e l1 \/ In e l2)
    /\ StronglySorted edge_lt m.
Proof.
  intros HN Hout Hv1 Hv2 Hs1 Hs2 Hdis.
  destruct (merge_into_spec N [] HN l1 t1 l2 t2 Hout Hv1 Hv2 Hs1 Hs2 Hdis)
    as (m & Hm & Hp & Hs).
  exists m. split; [exact Hm|].
  split; [rewrite (Permutation_length Hp); apply length_app|]. split; [|exact Hs].
  intros e. rewrite <- in_app_iff. split; apply Permutation_in; [|apply Permutation_sym];
    exact Hp.
Qed.

Lemma merge_into_merges_in_place_witness :
  exists m,
    merge_into ([mkEdge 0 1 1; mkEdge 1 2 5] ++ [])
      (Z.of_nat (length [mkEdge 0 1 1; mkEdge 1 2 5]))
      ([mkEdge 0 2 3] ++ [zero_edge; zero_edge]) (Z.of_nat (length [mkEdge 0 2 3]))
    = Some (m ++ skipn (length m) ([mkEdge 0 2 3] ++ [zero_edge; zero_edge]))
    /\ length m = (length [mkEdge 0 1 1; mkEdge 1 2 5] + length [mkEdge 0 2 3])%nat
    /\ (forall e, In e m <-> In e [mkEdge 0 1 1; mkEdge 1 2 5] \/ In e [mkEdge 0 2 3])
    /\ StronglySorted edge_lt m.
Proof.
  apply (merge_into_merges_in_place 3 [mkEdge 0 1 1; mkEdge 1 2 5] [] [mkEdge 0 2 3]
           [zero_edge; zero_edge]).
  - unfold INT_MAX. lia.
  - simpl. lia.
  - repeat constructor; unfold INT_MAX; cbn; try lia.
  - repeat constructor; unfold INT_MAX; cbn; try lia.
  - repeat constructor; try (unfold edge_lt; cbn; lia).
  - repeat constructor.
  - intros x [<-|[<-|[]]] [H|[]]; discriminate.
Defined.

(** *** The forests of a rank *)

Lemma row_blocks_own N numProcs A :
  adjacency N A -> 1 <= numProcs ->
  forall r, 0 <= r < numProcs ->
    own_rows N (ceil_div N numProcs) A (row_blocks N numProcs A r) r.
Proof. intros Hadj HP r Hr. apply own_rows_row_blocks; [assumption | lia | lia]. Qed.

(** [create_forest] (lines 198-205) on the rank [procRank], whose array
    holds its block of rows: the forest written is the minimum spanning
    forest, in ascending order, of the edges between the vertices of the
    block, and it fits the [nbRows - 1] entries that [parallel_kruskal]
    allocates for it. *)
Theorem create_forest_returns_forest_of_own_block
  (N numProcs : Z) (A : Adj) (procRank : Z) :
  1 <= N -> N <= INT_MAX + 1 -> 1 <= numProcs -> adjacency N A ->
  0 <= procRank < numProcs ->
  exists out,
    create_forest procRank (row_blocks N numProcs A procRank) (ceil_div N numProcs) N
      (calloc_edges (ceil_div N numProcs - 1))
    = Some (out ++ skipn (length out) (calloc_edges (ceil_div N numProcs - 1)),
            Z.of_nat (length out))
    /\ msf (block_edges N A procRank (ceil_div N numProcs)) out
    /\ Z.of_nat (length out) <= ceil_div N numProcs - 1.
Proof.
  intros HN HNmax HP Hadj Hr.
  exists (kruskal_forest N (group_edges N A (ceil_div N numProcs) procRank 1)).
  split; [|split].
  - apply (create_forest_spec N numProcs A (row_blocks N numProcs A) HN HNmax HP Hadj
             _ eq_refl (row_blocks_own N numProcs A Hadj HP) procRank Hr).
  - apply (group_forest_msf N numProcs A HN HNmax HP Hadj _ eq_refl procRank 1). lia.
  - pose proof (group_forest_bound N numProcs A HN HNmax HP Hadj _ eq_refl procRank 1
                  ltac:(lia) ltac:(lia)). lia.
Qed.

Lemma create_forest_returns_forest_of_own_block_witness :
  exists out,
    create_forest 0 (row_blocks 3 2 [0; 1; 4; 1; 0; 2; 4; 2; 0] 0) (ceil_div 3 2) 3
      (calloc_edges (ceil_div 3 2 - 1))
    = Some (out ++ skipn (length out) (calloc_edges (ceil_div 3 2 - 1)),
            Z.of_nat (length out))
    /\ msf (block_edges 3 [0; 1; 4; 1; 0; 2; 4; 2; 0] 0 (ceil_div 3 2)) out
    /\ Z.of_nat (length out) <= ceil_div 3 2 - 1.
Proof.
  apply (create_forest_returns_forest_of_own_block 3 2 [0; 1; 4; 1; 0; 2; 4; 2; 0] 0);
    try lia.
  - unfold INT_MAX. lia.
  - apply adjacency_by_test; [lia | reflexivity | reflexivity].
Defined.

(** [add_edges_from_submatrix] (lines 297-312) on a rank [procRank] that
    sends at the step [stepSize] (the bit of [procRank] that the step tests
    is set), whose array holds its block of rows.  The receiving group
    starts at the rank [g = procRank - procRank mod (2 * stepSize)].  The
    function writes, once each, the edges [(v, u, A[u][v])] with [u] a row
    of the block of [procRank] and [v] a vertex of the blocks of the ranks
    [g .. g + stepSize - 1], and returns their number. *)
Theorem add_edges_from_submatrix_lists_edges_to_receiving_group
  (N numProcs : Z) (A : Adj) (procRank stepSize : Z) (buf : list Edge) :
  1 <= N -> 1 <= numProcs -> adjacency N A ->
  0 <= procRank < numProcs -> 1 <= stepSize -> (procRank / stepSize) mod 2 = 1 ->
  ceil_div N numProcs * ceil_div N numProcs * stepSize * stepSize
    <= Z.of_nat (length buf) ->
  exists es,
    add_edges_from_submatrix procRank stepSize (row_blocks N numProcs A procRank)
      (ceil_div N numProcs) N buf
    = Some (es ++ skipn (length es) buf, Z.of_nat (length es))
    /\ NoDup es
    /\ forall e, In e es <->
         exists u v,
           procRank * ceil_div N numProcs <= u < (procRank + 1) * ceil_div N numProcs
           /\ u < N
           /\ (procRank - procRank mod (2 * stepSize)) * ceil_div N numProcs <= v
              < (procRank - procRank mod (2 * stepSize) + stepSize) * ceil_div N numProcs
           /\ entry N A u v <> 0 /\ e = mkEdge v u (entry N A u v).
Proof.
  intros HN HP Hadj Hr Hs Hodd Hcap.
  exists (bip_edges N A (ceil_div N numProcs) procRank stepSize).
  split; [|split].
  - apply (add_edges_from_submatrix_spec N numProcs A (row_blocks N numProcs A) HN HP
             _ eq_refl (row_blocks_own N numProcs A Hadj HP) procRank stepSize buf
             Hr Hs Hodd Hcap).
  - apply (bip_NoDup N numProcs A HN HP _ eq_refl procRank stepSize); [lia | assumption
                                                                         | assumption].
  - intros e. rewrite In_bip_edges by (try apply ceil_div_nonneg; lia).
    destruct (sender_target 0 [] procRank stepSize (proj1 Hr) Hs Hodd) as [Ht _].
    unfold submatrix_start. rewrite Ht.
    split; intros (u & v & H1 & H2 & H3 & H4 & H5); exists u, v;
      (split; [assumption|]); (split; [assumption|]); (split; [|auto]); lia.
Qed.

Lemma add_edges_from_submatrix_lists_edges_to_receiving_group_witness :
  exists es,
    add_edges_from_submatrix 1 1 (row_blocks 3 2 [0; 1; 4; 1; 0; 2; 4; 2; 0] 1)
      (ceil_div 3 2) 3 (calloc_edges 4)
    = Some (es ++ skipn (length es) (calloc_edges 4), Z.of_nat (length es))
    /\ NoDup es
    /\ forall e, In e es <->
         exists u v,
           1 * ceil_div 3 2 <= u < (1 + 1) * ceil_div 3 2
           /\ u < 3
           /\ (1 - 1 mod (2 * 1)) * ceil_div 3 2 <= v
              < (1 - 1 mod (2 * 1) + 1) * ceil_div 3 2
           /\ entry 3 [0; 1; 4; 1; 0; 2; 4; 2; 0] u v <> 0
           /\ e = mkEdge v u (entry 3 [0; 1; 4; 1; 0; 2; 4; 2; 0] u v).
Proof.
  apply (add_edges_from_submatrix_lists_edges_to_receiving_group 3 2
           [0; 1; 4; 1; 0; 2; 4; 2; 0] 1 1 (calloc_edges 4)); try lia.
  - apply adjacency_by_test; [lia | reflexivity | reflexivity].
  - reflexivity.
  - vm_compute. discriminate.
Defined.

(** [send_bipartite_forest] (lines 314-324) on a rank that sends at the
    step [stepSize]: the minimum spanning forest of the edges between its
    rows and the vertices of the receiving group, in ascending order, goes
    to the first rank [g] of that group as two messages, the number of
    edges and then the edges as triples; it has at most
    [(stepSize + 1) * nbRows - 1] edges, the size of the buffer
    allocated for it. *)
Theorem send_bipartite_forest_sends_forest_to_group_leader
  (N numProcs : Z) (A : Adj) (procRank stepSize : Z) (net : Net) :
  1 <= N -> N <= INT_MAX + 1 -> 1 <= numProcs -> adjacency N A ->
  0 <= procRank < numProcs -> 1 <= stepSize -> (procRank / stepSize) mod 2 = 1 ->
  exists forest,
    send_bipartite_forest procRank stepSize
      (ceil_div N numProcs * ceil_div N numProcs) (ceil_div N numProcs)
      (row_blocks N numProcs A procRank) N net
    = Some (net ++ [mkMsg procRank (procRank - procRank mod (2 * stepSize)) 0
                      [Z.of_nat (length forest)];
                    mkMsg procRank (procRank - procRank mod (2 * stepSize)) 0
                      (wire_of_edges forest)])
    /\ msf (bip_edges N A (ceil_div N numProcs) procRank stepSize) forest
    /\ Z.of_nat (length forest) <= (stepSize + 1) * ceil_div N numProcs - 1
    /\ 0 <= procRank - procRank mod (2 * stepSize) < procRank.
Proof.
  intros HN HNmax HP Hadj Hr Hs Hodd.
  exists (kruskal_forest N (bip_edges N A (ceil_div N numProcs) procRank stepSize)).
  split; [|split; [|split]].
  - apply (send_bipartite_forest_spec N numProcs A (row_blocks N numProcs A) HN HNmax HP Hadj
             _ eq_refl (row_blocks_own N numProcs A Hadj HP) procRank stepSize net
             Hr Hs Hodd).
  - apply (bip_forest_msf N numProcs A HN HNmax HP Hadj _ eq_refl procRank stepSize);
      [lia | assumption | assumption].
  - apply (bip_forest_bound N numProcs A HN HNmax HP Hadj _ eq_refl procRank stepSize);
      [lia | assumption | assumption].
  - destruct (sender_target 0 [] procRank stepSize (proj1 Hr) Hs Hodd) as [Ht Hg].
    split; [assumption|]. pose proof (Z.rem_bound_pos procRank stepSize ltac:(lia) ltac:(lia)).
    lia.
Qed.

Lemma send_bipartite_forest_sends_forest_to_group_leader_witness :
  exists forest,
    send_bipartite_forest 1 1 (ceil_div 3 2 * ceil_div 3 2) (ceil_div 3 2)
      (row_blocks 3 2 [0; 1; 4; 1; 0; 2; 4; 2; 0] 1) 3 []
    = Some ([] ++ [mkMsg 1 (1 - 1 mod (2 * 1)) 0 [Z.of_nat (length forest)];
                   mkMsg 1 (1 - 1 mod (2 * 1)) 0 (wire_of_edges forest)])
    /\ msf (bip_edges 3 [0; 1; 4; 1; 0; 2; 4; 2; 0] (ceil_div 3 2) 1 1) forest
    /\ Z.of_nat (length forest) <= (1 + 1) * ceil_div 3 2 - 1
    /\ 0 <= 1 - 1 mod (2 * 1) < 1.
Proof.
  apply (send_bipartite_forest_sends_forest_to_group_leader 3 2
           [0; 1; 4; 1; 0; 2; 4; 2; 0] 1 1 []); try lia.
  - unfold INT_MAX. lia.
  - apply adjacency_by_test; [lia | reflexivity | reflexivity].
  - reflexivity.
Defined.

(** *** The rounds *)

(** The loop of [parallel_kruskal] (lines 337-353) on all the ranks, when
    the rows of the graph are dealt to the ranks by blocks: every
    [MPI_Recv] finds the message it waits for, the ranks leave the loop
    after the same number of rounds, with the same [stepSize], and no
    message is left on the network. *)
Theorem parallel_kruskal_exchanges_complete (N M numProcs : Z) (A : Adj) :
  1 <= N -> N <= INT_MAX + 1 -> adjacency N A -> symmetric N A ->
  Z.of_nat (length (upper_edges N A)) <= M -> 1 <= numProcs ->
  exists procs w stepSize,
    init_procs numProcs (row_blocks N numProcs A) N (iota numProcs) = Some procs
    /\ run_rounds (Z.to_nat N) numProcs (row_blocks N numProcs A) N M (mkWorld procs [])
       = Some w
    /\ w_net w = []
    /\ Z.of_nat (length (w_procs w)) = numProcs
    /\ N <= stepSize * ceil_div N numProcs
    /\ forall r p, rd (w_procs w) r = Some p ->
         p_stepSize p = stepSize /\ p_rank p = r / stepSize
         /\ parallel_kruskal_running numProcs N p = false.
Proof.
  intros HN HNmax Hadj Hsym HM HP.
  pose proof (row_blocks_own N numProcs A Hadj HP) as Hown.
  destruct (init_world N numProcs A (row_blocks N numProcs A) HN HNmax HP Hadj _ eq_refl Hown)
    as (procs & Hinit & Hinv).
  destruct (run_rounds_spec N numProcs M A (row_blocks N numProcs A) HN HNmax HP Hadj Hsym
              _ eq_refl Hown HM (Z.to_nat N) 1 (mkWorld procs []) ltac:(lia) ltac:(lia) Hinv)
    as (s & w & Hrun & Hs & HsN & Hlen & Hnet & Hprocs).
  exists procs, w, s. split; [exact Hinit|]. split; [exact Hrun|].
  split; [rewrite Hnet; now apply pending_last|]. split; [exact Hlen|].
  split; [exact HsN|].
  intros r p Hp. pose proof (rd_range _ _ _ Hp) as Hr.
  specialize (Hprocs r p Hp). destruct (Z.ltb_spec r numProcs); [|lia].
  destruct Hprocs as (H1 & H2 & _). split; [exact H1|]. split; [exact H2|].
  unfold parallel_kruskal_running. rewrite H1. apply Z.ltb_ge. lia.
Qed.

Lemma parallel_kruskal_exchanges_complete_witness :
  exists procs w stepSize,
    init_procs 3 (row_blocks 3 3 [0; 1; 4; 1; 0; 2; 4; 2; 0]) 3 (iota 3) = Some procs
    /\ run_rounds (Z.to_nat 3) 3 (row_blocks 3 3 [0; 1; 4; 1; 0; 2; 4; 2; 0]) 3 3
         (mkWorld procs []) = Some w
    /\ w_net w = []
    /\ Z.of_nat (length (w_procs w)) = 3
    /\ 3 <= stepSize * ceil_div 3 3
    /\ forall r p, rd (w_procs w) r = Some p ->
         p_stepSize p = stepSize /\ p_rank p = r / stepSize
         /\ parallel_kruskal_running 3 3 p = false.
Proof.
  apply (parallel_kruskal_exchanges_complete 3 3 3 [0; 1; 4; 1; 0; 2; 4; 2; 0]); try lia.
  - unfold INT_MAX. lia.
  - apply adjacency_by_test; [lia | reflexivity | reflexivity].
  - apply symmetric_by_test. reflexivity.
  - simpl. lia.
Defined.

(** [parallel_kruskal] (lines 331-358), when the rows of the graph are
    dealt to the ranks by blocks: whatever the number of processes, rank 0
    ends with the minimum spanning forest of the graph at the start of
    [tree], in ascending order; on a connected graph these are [N - 1]
    edges that connect every vertex to vertex 0. *)
Theorem parallel_kruskal_returns_minimum_spanning_forest
  (N M numProcs : Z) (A : Adj) (tree : list Edge) :
  1 <= N -> N <= INT_MAX + 1 -> adjacency N A -> symmetric N A ->
  Z.of_nat (length (upper_edges N A)) <= M -> N - 1 <= Z.of_nat (length tree) ->
  1 <= numProcs ->
  exists out,
    parallel_kruskal numProcs (row_blocks N numProcs A) N M tree
      = Some (out ++ skipn (length out) tree)
    /\ msf (upper_edges N A) out
    /\ (connected N A ->
          Z.of_nat (length out) = N - 1 /\ forall v, 0 <= v < N -> conn out 0 v).
Proof.
  intros HN HNmax Hadj Hsym HM Htree HP.
  pose proof (row_blocks_own N numProcs A Hadj HP) as Hown.
  destruct (parallel_kruskal_run N numProcs M A (row_blocks N numProcs A) HN HNmax HP Hadj
              Hsym _ eq_refl Hown HM tree Htree) as (s & Hs & HsN & Hpar).
  rewrite (full_group_forest N numProcs A s HN HNmax HP Hadj Hsym HsN) in Hpar.
  exists (kruskal_forest N (upper_edges N A)). split; [exact Hpar|]. split.
  - apply (kruskal_forest_msf N HNmax); [now apply upper_edges_valid | apply upper_edges_NoDup].
  - intros Hconn. destruct (kruskal_forest_spans N A HNmax Hadj Hsym Hconn) as (Hn & _ & Hsp).
    auto.
Qed.

Lemma parallel_kruskal_returns_minimum_spanning_forest_witness :
  exists out,
    parallel_kruskal 2 (row_blocks 3 2 [0; 1; 4; 1; 0; 2; 4; 2; 0]) 3 3 (calloc_edges 2)
      = Some (out ++ skipn (length out) (calloc_edges 2))
    /\ msf (upper_edges 3 [0; 1; 4; 1; 0; 2; 4; 2; 0]) out
    /\ (connected 3 [0; 1; 4; 1; 0; 2; 4; 2; 0] ->
          Z.of_nat (length out) = 3 - 1 /\ forall v, 0 <= v < 3 -> conn out 0 v).
Proof.
  apply (parallel_kruskal_returns_minimum_spanning_forest 3 3 2
           [0; 1; 4; 1; 0; 2; 4; 2; 0] (calloc_edges 2)); try lia.
  - unfold INT_MAX. lia.
  - apply adjacency_by_test; [lia | reflexivity | reflexivity].
  - apply symmetric_by_test. reflexivity.
  - simpl. lia.
  - simpl. lia.
Defined.


(** *** The output of [computeMST] *)

Lemma print_edges_app (a b : list Edge) :
  print_edges (a ++ b) = (print_edges a ++ print_edges b)%string.
Proof.
  induction a as [|e a IH]; cbn [app print_edges fold_right]; [reflexivity|].
  fold (print_edges (a ++ b)). fold (print_edges a).
  now rewrite IH, string_app_assoc.
Qed.

Lemma map_nth_seq {A} (d : A) (l : list A) (n : nat) :
  (n <= length l)%nat -> map (fun k => nth k l d) (seq 0 n) = firstn n l.
Proof.
  revert n. induction l as [|a l IH]; intros [|n] Hn; cbn [length] in Hn; try reflexivity;
    [lia|].
  cbn [seq map nth firstn]. f_equal. rewrite <- seq_shift, map_map. cbn [nth].
  apply IH. lia.
Qed.

Lemma print_tree_loop_spec (tree : list Edge) (es : list Z) (sum : Z) :
  (forall k, In k es -> 0 <= k < Z.of_nat (length tree)) ->
  exists sum',
    print_tree_loop tree es sum
    = Some (print_edges (map (fun k => nth (Z.to_nat k) tree zero_edge) es), sum').
Proof.
  revert sum. induction es as [|k es IH]; intros sum Hes; cbn [print_tree_loop map].
  - exists sum. reflexivity.
  - destruct (rd_in_range tree k (Hes k (or_introl eq_refl))) as [e He]. rewrite He.
    destruct (IH (wrap (sum + edge_w e))) as (sum' & Hl); [intros; apply Hes; now right|].
    rewrite Hl. exists sum'. cbn [fst snd print_edges fold_right].
    apply rd_Some in He. destruct He as [_ He].
    now rewrite (nth_error_nth _ _ zero_edge He).
Qed.

Lemma print_tree_loop_out_of_range (tree : list Edge) (es : list Z) (sum k : Z) :
  In k es -> rd tree k = None -> print_tree_loop tree es sum = None.
Proof.
  revert sum. induction es as [|a es IH]; intros sum Hin Hk; [contradiction|].
  cbn [print_tree_loop]. destruct (rd tree a) as [e|] eqn:Ha; [|reflexivity].
  destruct Hin as [->|Hin]; [congruence|].
  now rewrite (IH _ Hin Hk).
Qed.

Lemma print_tree_in_range (tree : list Edge) (nbEdges : Z) :
  nbEdges <= Z.of_nat (length tree) ->
  print_tree tree nbEdges = Some (print_edges (firstn (Z.to_nat nbEdges) tree)).
Proof.
  intros Hn. unfold print_tree.
  destruct (print_tree_loop_spec tree (iota nbEdges) 0) as (sum' & Hl).
  { intros k Hk. apply In_iota in Hk. lia. }
  rewrite Hl. cbn [fst]. f_equal. f_equal. unfold iota. rewrite map_map.
  rewrite <- (map_nth_seq zero_edge tree (Z.to_nat nbEdges)) by lia.
  apply map_ext. intros k. now rewrite Nat2Z.id.
Qed.

Lemma print_edge_single_line (e : Edge) : single_line (print_edge e).
Proof.
  exists (print_int (edge_i e) ++ " " ++ print_int (edge_j e))%string. split.
  - unfold print_edge. now rewrite !string_app_assoc.
  - intros c. rewrite !list_ascii_app, !in_app_iff. intros [H|[H|H]].
    + now apply print_int_no_newline in H.
    + simpl in H. destruct H as [<-|[]]. discriminate.
    + now apply print_int_no_newline in H.
Qed.

Lemma skipn_repeat_sub {A} (x : A) (k n : nat) :
  skipn k (repeat x n) = repeat x (n - k).
Proof.
  revert n. induction k as [|k IH]; intros [|n]; cbn [skipn repeat Nat.sub]; auto.
Qed.

(** The text printed for a buffer of [N - 1] zeroed entries of which the
    first ones were overwritten by [out]. *)
Lemma print_tree_of_result (N : Z) (out : list Edge) :
  Z.of_nat (length out) <= N - 1 ->
  print_tree (out ++ skipn (length out) (calloc_edges (N - 1))) (N - 1)
  = Some (print_edges (out ++ repeat zero_edge (Z.to_nat (N - 1) - length out))).
Proof.
  intros Hl. unfold calloc_edges. rewrite skipn_repeat_sub.
  rewrite print_tree_in_range by (rewrite length_app, repeat_length; lia).
  f_equal. f_equal. apply firstn_all2. rewrite length_app, repeat_length. lia.
Qed.

(** [print_tree] (lines 44-54) prints one line for each of the first
    [nbEdges] entries of [tree], in the order of the array: the two
    endpoints in decimal with a space between them.  The weight is not
    printed.  When the array has fewer than [nbEdges] entries the loop reads
    past its end. *)
Theorem print_tree_prints_one_line_per_edge (tree : list Edge) (nbEdges : Z) :
  (nbEdges <= Z.of_nat (length tree) ->
     print_tree tree nbEdges = Some (print_edges (firstn (Z.to_nat nbEdges) tree)))
  /\ (Z.of_nat (length tree) < nbEdges -> print_tree tree nbEdges = None)
  /\ (forall e, single_line (print_edge e))
  /\ (forall i j w w', print_edge (mkEdge i j w) = print_edge (mkEdge i j w')).
Proof.
  split; [apply print_tree_in_range|]. split; [|split; [apply print_edge_single_line|]].
  - intros Hn. unfold print_tree.
    rewrite (print_tree_loop_out_of_range tree (iota nbEdges) 0 (Z.of_nat (length tree)));
      [reflexivity | apply In_iota; lia |].
    unfold rd. destruct (Z.ltb_spec (Z.of_nat (length tree)) 0); [reflexivity|].
    apply nth_error_None. lia.
  - reflexivity.
Qed.

Lemma print_tree_prints_one_line_per_edge_witness :
  print_tree [mkEdge 0 1 7; mkEdge 1 2 5; zero_edge] 2
  = Some (print_edges (firstn (Z.to_nat 2) [mkEdge 0 1 7; mkEdge 1 2 5; zero_edge])).
Proof.
  apply (print_tree_prints_one_line_per_edge [mkEdge 0 1 7; mkEdge 1 2 5; zero_edge] 2).
  simpl. lia.
Defined.

Lemma upper_edges_in_iota N adj :
  forall e, In e (upper_edges N adj) -> In (edge_i e) (iota N) /\ In (edge_j e) (iota N).
Proof.
  intros e He. apply In_upper_edges in He. destruct He as (i & j & Hi & Hj & _ & ->).
  cbn [edge_i edge_j]. split; apply In_iota; lia.
Qed.

(** [computeMST] with [kruskal-seq] on one process (lines 80, 97, 109-111)
    prints [N - 1] lines whatever the graph is: first the edges of the
    minimum spanning forest, lightest first, then a line [0 0] for each of
    the entries of [tree] that [sequential_kruskal] did not write, since
    the number of edges it returns is ignored and [tree] comes from
    [calloc].  On a connected graph no line is of the second kind. *)
Theorem computeMST_kruskal_seq_prints_forest_then_zero_lines
  (N M : Z) (adj : Adj) :
  1 <= N -> N <= INT_MAX + 1 -> adjacency N adj ->
  Z.of_nat (length (upper_edges N adj)) <= M ->
  exists out,
    computeMST_kruskal_seq N M adj
      = Some (print_edges (out ++ repeat zero_edge (Z.to_nat (N - 1) - length out)))
    /\ msf (upper_edges N adj) out
    /\ Z.of_nat (length out) <= N - 1
    /\ print_edge zero_edge = ("0 0" ++ newline)%string
    /\ (symmetric N adj -> connected N adj -> Z.of_nat (length out) = N - 1).
Proof.
  intros HN HNmax Hadj HM.
  exists (kruskal_forest N (upper_edges N adj)).
  assert (Hb : Z.of_nat (length (kruskal_forest N (upper_edges N adj))) <= N - 1).
  { apply (kruskal_forest_bound N HNmax (iota N)); try lia.
    - now apply upper_edges_valid.
    - apply upper_edges_NoDup.
    - apply upper_edges_in_iota.
    - rewrite length_iota. lia. }
  split; [|split; [|split; [exact Hb|split; [reflexivity|]]]].
  - unfold computeMST_kruskal_seq.
    rewrite (sequential_kruskal_forest N M adj (calloc_edges (N - 1)) HNmax Hadj HM)
      by (unfold calloc_edges; rewrite repeat_length; lia).
    cbn [fst]. now apply print_tree_of_result.
  - apply (kruskal_forest_msf N HNmax); [now apply upper_edges_valid | apply upper_edges_NoDup].
  - intros Hsym Hconn. now destruct (kruskal_forest_spans N adj HNmax Hadj Hsym Hconn).
Qed.

Lemma computeMST_kruskal_seq_prints_forest_then_zero_lines_witness :
  exists out,
    computeMST_kruskal_seq 3 1 [0; 1; 0; 1; 0; 0; 0; 0; 0]
      = Some (print_edges (out ++ repeat zero_edge (Z.to_nat (3 - 1) - length out)))
    /\ msf (upper_edges 3 [0; 1; 0; 1; 0; 0; 0; 0; 0]) out
    /\ Z.of_nat (length out) <= 3 - 1
    /\ print_edge zero_edge = ("0 0" ++ newline)%string
    /\ (symmetric 3 [0; 1; 0; 1; 0; 0; 0; 0; 0] -> connected 3 [0; 1; 0; 1; 0; 0; 0; 0; 0] ->
        Z.of_nat (length out) = 3 - 1).
Proof.
  apply (computeMST_kruskal_seq_prints_forest_then_zero_lines 3 1 [0; 1; 0; 1; 0; 0; 0; 0; 0]).
  - lia.
  - unfold INT_MAX. lia.
  - apply adjacency_by_test; [lia | reflexivity | reflexivity].
  - simpl. lia.
Defined.

(** [computeMST] with [prim-seq] on one process (lines 80, 88, 109-111)
    prints [N - 1] lines whatever the graph is: first the edges of the tree
    that Prim's rule grows from vertex 0, in the order in which they were
    chosen, then a line [0 0] for each entry of [tree] that was not
    written.  There are lines of the second kind exactly when the graph is
    not connected: the vertices that cannot be reached from vertex 0 are
    left out without any message. *)
Theorem computeMST_prim_seq_prints_tree_then_zero_lines
  (N M : Z) (adj : Adj) :
  1 <= N -> N <= INT_MAX + 1 -> adjacency N adj -> symmetric N adj ->
  Z.of_nat (length (upper_edges N adj)) <= M ->
  exists out vis,
    computeMST_prim_seq N M adj
      = Some (print_edges (out ++ repeat zero_edge (Z.to_nat (N - 1) - length out)))
    /\ prim_run N adj [0] out vis
    /\ (forall v, In v vis <-> reach N adj 0 v)
    /\ Z.of_nat (length out) <= N - 1
    /\ print_edge zero_edge = ("0 0" ++ newline)%string
    /\ (Z.of_nat (length out) = N - 1 <-> connected N adj).
Proof.
  intros HN HNmax Hadj Hsym HM.
  destruct (sequential_prim_result N M adj (calloc_edges (N - 1)) HN HNmax Hadj Hsym HM)
    as (out & vis & Hres & Hrun & Hclosed).
  { unfold calloc_edges. rewrite repeat_length. lia. }
  destruct (prim_run_spans N adj out vis HN Hrun Hclosed) as [Hle Hc].
  exists out, vis.
  split; [|split; [exact Hrun|split; [|split; [exact Hle|split; [reflexivity | exact Hc]]]]].
  - unfold computeMST_prim_seq. rewrite Hres. cbn [fst]. now apply print_tree_of_result.
  - intros v. split; [apply (prim_run_reach N adj out vis Hrun) | apply Hclosed].
Qed.

Lemma computeMST_prim_seq_prints_tree_then_zero_lines_witness :
  exists out vis,
    computeMST_prim_seq 3 1 [0; 1; 0; 1; 0; 0; 0; 0; 0]
      = Some (print_edges (out ++ repeat zero_edge (Z.to_nat (3 - 1) - length out)))
    /\ prim_run 3 [0; 1; 0; 1; 0; 0; 0; 0; 0] [0] out vis
    /\ (forall v, In v vis <-> reach 3 [0; 1; 0; 1; 0; 0; 0; 0; 0] 0 v)
    /\ Z.of_nat (length out) <= 3 - 1
    /\ print_edge zero_edge = ("0 0" ++ newline)%string
    /\ (Z.of_nat (length out) = 3 - 1 <-> connected 3 [0; 1; 0; 1; 0; 0; 0; 0; 0]).
Proof.
  apply (computeMST_prim_seq_prints_tree_then_zero_lines 3 1 [0; 1; 0; 1; 0; 0; 0; 0; 0]).
  - lia.
  - unfold INT_MAX. lia.
  - apply adjacency_by_test; [lia | reflexivity | reflexivity].
  - apply symmetric_by_test. reflexivity.
  - simpl. lia.
Defined.

